(** * NavFn: the grid navigation-function planner of [navfn/src/navfn.cpp]

    A shallow embedding of the planner's cost translation, priority
    buffers, planar-wave update rule, Dijkstra propagation loop and
    gradient routine, together with the properties its specification
    states about them.

    Numbers are modelled as the C++ code has them:
    - [int] values are [Z] (every index that occurs is bounded by an array
      length, so no 32-bit wrap-around is reachable on a defined access);
    - [COSTTYPE] is [unsigned char]: a [Z] in [0, 255], conversions to it
      reduce modulo 256;
    - [float] is IEEE-754 binary32 and [double] is binary64, both carried
      by [spec_float] of the standard library with the operations
      [SFadd], [SFmul], ... instantiated at (24, 128) and (53, 1024),
      rounding to nearest even.  An expression that mixes [float] with a
      [double] literal is evaluated in binary64 and rounded back on
      assignment, exactly as the usual arithmetic conversions prescribe;
    - arrays are lists; an access outside of an array is undefined
      behaviour in C++ and makes the modelled function return [None]. *)

From Stdlib Require Import ZArith Bool Lia.
From Stdlib Require Import Reals Lra.
From Stdlib Require Import Floats.SpecFloat.
From stdpp Require Import base option list.

Local Open Scope Z_scope.

(* ===================================================================== *)
(** ** Floating-point layer                                              *)
(* ===================================================================== *)

Definition float := spec_float.
Definition double := spec_float.

(** binary32 arithmetic ([float op float]) *)
Definition fadd : float -> float -> float := SFadd 24 128.
Definition fsub : float -> float -> float := SFsub 24 128.
Definition fmul : float -> float -> float := SFmul 24 128.
Definition fdiv : float -> float -> float := SFdiv 24 128.
Definition fneg : float -> float := SFopp.

(** binary64 arithmetic ([double op double]) *)
Definition dadd : double -> double -> double := SFadd 53 1024.
Definition dsub : double -> double -> double := SFsub 53 1024.
Definition dmul : double -> double -> double := SFmul 53 1024.
Definition ddiv : double -> double -> double := SFdiv 53 1024.
Definition dneg : double -> double := SFopp.

(** Comparisons; every one of them is false on a NaN operand, as in C. *)
Definition flt (a b : spec_float) : bool := SFltb a b.
Definition fle (a b : spec_float) : bool := SFleb a b.
Definition feq (a b : spec_float) : bool := SFeqb a b.
Definition fgt (a b : spec_float) : bool := SFltb b a.
Definition fge (a b : spec_float) : bool := SFleb b a.

(** Conversions.  [i2f], [i2d]: integer to floating point (rounded to
    nearest).  [f2d]: the exact promotion of a [float] to [double].
    [d2f]: the rounding of a [double] to [float] on assignment. *)
Definition i2f (z : Z) : float := binary_normalize 24 128 z 0 false.
Definition i2d (z : Z) : double := binary_normalize 53 1024 z 0 false.

Definition f2d (x : float) : double :=
  match x with
  | S754_finite s m e => binary_normalize 53 1024 (cond_Zopp s (Zpos m)) e s
  | _ => x
  end.

Definition d2f (x : double) : float :=
  match x with
  | S754_finite s m e => binary_normalize 24 128 (cond_Zopp s (Zpos m)) e s
  | _ => x
  end.

(** [(int) x] for a [double] [x]: truncation toward zero; undefined for a
    NaN, an infinity or a value outside of the range of [int]. *)
Definition d2i (x : double) : option Z :=
  match x with
  | S754_zero _ => Some 0
  | S754_finite s m e =>
      let a := if 0 <=? e then Zpos m * 2 ^ e else Zpos m / 2 ^ (- e) in
      let z := cond_Zopp s a in
      if (-2147483648 <=? z) && (z <=? 2147483647) then Some z else None
  | _ => None
  end.

(** A decimal literal [n/d] of type [double]: the binary64 number nearest
    to the quotient (both [n] and [d] are below 2^53 wherever it is
    used, so the correctly rounded division is the literal's value). *)
Definition dlit (n d : Z) : double := ddiv (i2d n) (i2d d).

(** The arithmetic is executed by [vm_compute] on concrete inputs only;
    proofs treat the operations as uninterpreted symbols. *)
Arguments fadd : simpl never.
Arguments fsub : simpl never.
Arguments fmul : simpl never.
Arguments fdiv : simpl never.
Arguments fneg : simpl never.
Arguments dadd : simpl never.
Arguments dsub : simpl never.
Arguments dmul : simpl never.
Arguments ddiv : simpl never.
Arguments dneg : simpl never.
Arguments flt : simpl never.
Arguments fle : simpl never.
Arguments feq : simpl never.
Arguments fgt : simpl never.
Arguments fge : simpl never.
Arguments i2f : simpl never.
Arguments i2d : simpl never.
Arguments f2d : simpl never.
Arguments d2f : simpl never.
Arguments d2i : simpl never.
Arguments dlit : simpl never.

(** Conversion of an [int] to [COSTTYPE] ([unsigned char]). *)
Definition to_COSTTYPE (v : Z) : Z := v mod 256.

(* ===================================================================== *)
(** ** Constants of [navfn.h]                                            *)
(* ===================================================================== *)

(** Modelled from the spec: the header [navfn/navfn.h] that defines the
    cost constants is not part of the sources; the specification gives
    [COST_NEUTRAL] = 50, [COST_OBS] = 254, [COST_OBS_ROS] = 253 and the
    external unknown marker 255 (named [COST_UNKNOWN_ROS] in the code). *)
Definition COST_NEUTRAL : Z := 50.
Definition COST_OBS : Z := 254.
Definition COST_OBS_ROS : Z := 253.
Definition COST_UNKNOWN_ROS : Z := 255.

(** Modelled from the spec: [COST_FACTOR], a scaling factor "around 0.8";
    taken as the [double] literal [0.8]. *)
Definition COST_FACTOR : double := dlit 8 10.

(** Modelled from the spec: [POT_HIGH] = 1.0e10, a [double] literal. *)
Definition POT_HIGH : double := i2d 10000000000.

(** Modelled from the spec: [PRIORITYBUFSIZE], the capacity of each of the
    three priority buffers, "typical 10,000". *)
Definition PRIORITYBUFSIZE : Z := 10000.

(** [#define INVSQRT2 0.707106781] *)
Definition INVSQRT2 : double := dlit 707106781 1000000000.

(* ===================================================================== *)
(** ** Arrays                                                            *)
(* ===================================================================== *)

(** [a[i]] as an rvalue, and [a[i] = v]. *)
Definition rd {A} (a : list A) (i : Z) : option A :=
  if decide (0 <= i) then a !! Z.to_nat i else None.

Definition wr {A} (a : list A) (i : Z) (v : A) : option (list A) :=
  if decide (0 <= i < Z.of_nat (length a))
  then Some (<[Z.to_nat i := v]> a) else None.

(* ===================================================================== *)
(** ** Cost translation: [NavFn::setCostmap]                             *)
(* ===================================================================== *)

(** The body of the inner loop in ROS mode, for one incoming cell value
    [v0 = *cmap]; the result is the value left in [*cm]. *)
Definition setCostmap_cell_ROS (allow_unknown : bool) (v0 : Z) : option Z :=
  let cm := COST_OBS in
  let v := v0 in
  if v <? COST_OBS_ROS then
    v ← d2i (dadd (i2d COST_NEUTRAL) (dmul COST_FACTOR (i2d v)));
    let v := if v >=? COST_OBS then COST_OBS - 1 else v in
    Some (to_COSTTYPE v)
  else if (v =? COST_UNKNOWN_ROS) && allow_unknown then
    let v := COST_OBS - 1 in
    Some (to_COSTTYPE v)
  else Some cm.

(** The body of the inner loop for a PGM map: rows and columns closer
    than seven cells to the edge stay obstacles. *)
Definition setCostmap_cell_PGM (nx ny i j : Z) (v0 : Z) : option Z :=
  let cm := COST_OBS in
  if (i <? 7) || (i >? ny - 8) || (j <? 7) || (j >? nx - 8) then Some cm
  else
    let v := v0 in
    if v <? COST_OBS_ROS then
      v ← d2i (dadd (i2d COST_NEUTRAL) (dmul COST_FACTOR (i2d v)));
      let v := if v >=? COST_OBS then COST_OBS - 1 else v in
      Some (to_COSTTYPE v)
    else if v =? COST_UNKNOWN_ROS then
      let v := COST_OBS - 1 in
      Some (to_COSTTYPE v)
    else Some cm.

(** The two nested loops walk [cmap] and [costarr] in step (row [i],
    column [j], [k = i*nx + j]); the cells are independent of each other. *)
Fixpoint setCostmap_row (isROS allow_unknown : bool) (nx ny i j : Z)
    (cmap : list Z) : option (list Z) :=
  match cmap with
  | [] => Some []
  | v :: rest =>
      c ← (if isROS then setCostmap_cell_ROS allow_unknown v
           else setCostmap_cell_PGM nx ny i j v);
      let '(i', j') := if j + 1 <? nx then (i, j + 1) else (i + 1, 0) in
      cs ← setCostmap_row isROS allow_unknown nx ny i' j' rest;
      Some (c :: cs)
  end.

(** [setCostmap]: the outer loop runs for the rows [0 <= i < ny] and the
    inner loop for the columns [0 <= j < nx], so the body is executed
    for [ny] times [nx] cells, and not at all when [ny] or [nx] is not
    positive; the result is the list of the cells written, in order.
    Reading past the end of [cmap] is undefined. *)
Definition setCostmap (nx ny : Z) (cmap : list Z) (isROS allow_unknown : bool)
    : option (list Z) :=
  let cells := (Z.to_nat ny * Z.to_nat nx)%nat in
  if decide (cells <= length cmap)%nat
  then setCostmap_row isROS allow_unknown nx ny 0 0 (take cells cmap)
  else None.

(** The rule of the specification, read over the integers: the scaled
    value [COST_NEUTRAL + COST_FACTOR*v] with [COST_FACTOR = 8/10],
    truncated to an integer cost and clamped into [0, COST_OBS-1]. *)
Definition clamp (lo hi x : Z) : Z := Z.max lo (Z.min hi x).

Definition spec_translate (allow_unknown : bool) (v : Z) : Z :=
  if v <? COST_OBS_ROS then clamp 0 (COST_OBS - 1) (COST_NEUTRAL + (8 * v) / 10)
  else if (v =? COST_UNKNOWN_ROS) && allow_unknown then COST_OBS - 1
  else COST_OBS.


(* ===================================================================== *)
(** ** The planner object                                                *)
(* ===================================================================== *)

(** The three priority arrays [pb1], [pb2], [pb3] are owned by the object;
    [curP], [nextP] and [overP] are pointers to them that the propagation
    loop rotates. *)
Inductive bufid : Type := PB1 | PB2 | PB3.

#[global] Instance bufid_eq_dec : EqDecision bufid.
Proof. solve_decision. Defined.

(** The data members of [class NavFn] that the modelled functions use. *)
Record NavFn : Type := mkNavFn {
  nx : Z;
  ny : Z;
  ns : Z;
  costarr : list Z;
  potarr : list float;
  pending : list bool;
  gradx : list float;
  grady : list float;
  pb1 : list Z;
  pb2 : list Z;
  pb3 : list Z;
  curP : bufid;
  nextP : bufid;
  overP : bufid;
  curPe : Z;
  nextPe : Z;
  overPe : Z;
  curT : float;
  priInc : float;
  goal : Z * Z;
  start : Z * Z;
  nobs : Z;
  pathStep : float;
  npathbuf : Z;
  npath : Z;
  pathx : list float;
  pathy : list float
}.

(** Assignments to single members. *)
Definition set_costarr (v : list Z) (st : NavFn) : NavFn :=
  mkNavFn (nx st) (ny st) (ns st) v (potarr st) (pending st) (gradx st)
    (grady st) (pb1 st) (pb2 st) (pb3 st) (curP st) (nextP st) (overP st)
    (curPe st) (nextPe st) (overPe st) (curT st) (priInc st) (goal st)
    (start st) (nobs st) (pathStep st) (npathbuf st) (npath st) (pathx st)
    (pathy st).

Definition set_potarr (v : list float) (st : NavFn) : NavFn :=
  mkNavFn (nx st) (ny st) (ns st) (costarr st) v (pending st) (gradx st)
    (grady st) (pb1 st) (pb2 st) (pb3 st) (curP st) (nextP st) (overP st)
    (curPe st) (nextPe st) (overPe st) (curT st) (priInc st) (goal st)
    (start st) (nobs st) (pathStep st) (npathbuf st) (npath st) (pathx st)
    (pathy st).

Definition set_pending (v : list bool) (st : NavFn) : NavFn :=
  mkNavFn (nx st) (ny st) (ns st) (costarr st) (potarr st) v (gradx st)
    (grady st) (pb1 st) (pb2 st) (pb3 st) (curP st) (nextP st) (overP st)
    (curPe st) (nextPe st) (overPe st) (curT st) (priInc st) (goal st)
    (start st) (nobs st) (pathStep st) (npathbuf st) (npath st) (pathx st)
    (pathy st).

Definition set_gradx (v : list float) (st : NavFn) : NavFn :=
  mkNavFn (nx st) (ny st) (ns st) (costarr st) (potarr st) (pending st) v
    (grady st) (pb1 st) (pb2 st) (pb3 st) (curP st) (nextP st) (overP st)
    (curPe st) (nextPe st) (overPe st) (curT st) (priInc st) (goal st)
    (start st) (nobs st) (pathStep st) (npathbuf st) (npath st) (pathx st)
    (pathy st).

Definition set_grady (v : list float) (st : NavFn) : NavFn :=
  mkNavFn (nx st) (ny st) (ns st) (costarr st) (potarr st) (pending st)
    (gradx st) v (pb1 st) (pb2 st) (pb3 st) (curP st) (nextP st) (overP st)
    (curPe st) (nextPe st) (overPe st) (curT st) (priInc st) (goal st)
    (start st) (nobs st) (pathStep st) (npathbuf st) (npath st) (pathx st)
    (pathy st).

Definition set_pb1 (v : list Z) (st : NavFn) : NavFn :=
  mkNavFn (nx st) (ny st) (ns st) (costarr st) (potarr st) (pending st)
    (gradx st) (grady st) v (pb2 st) (pb3 st) (curP st) (nextP st) (overP
    st) (curPe st) (nextPe st) (overPe st) (curT st) (priInc st) (goal st)
    (start st) (nobs st) (pathStep st) (npathbuf st) (npath st) (pathx st)
    (pathy st).

Definition set_pb2 (v : list Z) (st : NavFn) : NavFn :=
  mkNavFn (nx st) (ny st) (ns st) (costarr st) (potarr st) (pending st)
    (gradx st) (grady st) (pb1 st) v (pb3 st) (curP st) (nextP st) (overP
    st) (curPe st) (nextPe st) (overPe st) (curT st) (priInc st) (goal st)
    (start st) (nobs st) (pathStep st) (npathbuf st) (npath st) (pathx st)
    (pathy st).

Definition set_pb3 (v : list Z) (st : NavFn) : NavFn :=
  mkNavFn (nx st) (ny st) (ns st) (costarr st) (potarr st) (pending st)
    (gradx st) (grady st) (pb1 st) (pb2 st) v (curP st) (nextP st) (overP
    st) (curPe st) (nextPe st) (overPe st) (curT st) (priInc st) (goal st)
    (start st) (nobs st) (pathStep st) (npathbuf st) (npath st) (pathx st)
    (pathy st).

Definition set_curP (v : bufid) (st : NavFn) : NavFn :=
  mkNavFn (nx st) (ny st) (ns st) (costarr st) (potarr st) (pending st)
    (gradx st) (grady st) (pb1 st) (pb2 st) (pb3 st) v (nextP st) (overP st)
    (curPe st) (nextPe st) (overPe st) (curT st) (priInc st) (goal st)
    (start st) (nobs st) (pathStep st) (npathbuf st) (npath st) (pathx st)
    (pathy st).

Definition set_nextP (v : bufid) (st : NavFn) : NavFn :=
  mkNavFn (nx st) (ny st) (ns st) (costarr st) (potarr st) (pending st)
    (gradx st) (grady st) (pb1 st) (pb2 st) (pb3 st) (curP st) v (overP st)
    (curPe st) (nextPe st) (overPe st) (curT st) (priInc st) (goal st)
    (start st) (nobs st) (pathStep st) (npathbuf st) (npath st) (pathx st)
    (pathy st).

Definition set_overP (v : bufid) (st : NavFn) : NavFn :=
  mkNavFn (nx st) (ny st) (ns st) (costarr st) (potarr st) (pending st)
    (gradx st) (grady st) (pb1 st) (pb2 st) (pb3 st) (curP st) (nextP st) v
    (curPe st) (nextPe st) (overPe st) (curT st) (priInc st) (goal st)
    (start st) (nobs st) (pathStep st) (npathbuf st) (npath st) (pathx st)
    (pathy st).

Definition set_curPe (v : Z) (st : NavFn) : NavFn :=
  mkNavFn (nx st) (ny st) (ns st) (costarr st) (potarr st) (pending st)
    (gradx st) (grady st) (pb1 st) (pb2 st) (pb3 st) (curP st) (nextP st)
    (overP st) v (nextPe st) (overPe st) (curT st) (priInc st) (goal st)
    (start st) (nobs st) (pathStep st) (npathbuf st) (npath st) (pathx st)
    (pathy st).

Definition set_nextPe (v : Z) (st : NavFn) : NavFn :=
  mkNavFn (nx st) (ny st) (ns st) (costarr st) (potarr st) (pending st)
    (gradx st) (grady st) (pb1 st) (pb2 st) (pb3 st) (curP st) (nextP st)
    (overP st) (curPe st) v (overPe st) (curT st) (priInc st) (goal st)
    (start st) (nobs st) (pathStep st) (npathbuf st) (npath st) (pathx st)
    (pathy st).

Definition set_overPe (v : Z) (st : NavFn) : NavFn :=
  mkNavFn (nx st) (ny st) (ns st) (costarr st) (potarr st) (pending st)
    (gradx st) (grady st) (pb1 st) (pb2 st) (pb3 st) (curP st) (nextP st)
    (overP st) (curPe st) (nextPe st) v (curT st) (priInc st) (goal st)
    (start st) (nobs st) (pathStep st) (npathbuf st) (npath st) (pathx st)
    (pathy st).

Definition set_curT (v : float) (st : NavFn) : NavFn :=
  mkNavFn (nx st) (ny st) (ns st) (costarr st) (potarr st) (pending st)
    (gradx st) (grady st) (pb1 st) (pb2 st) (pb3 st) (curP st) (nextP st)
    (overP st) (curPe st) (nextPe st) (overPe st) v (priInc st) (goal st)
    (start st) (nobs st) (pathStep st) (npathbuf st) (npath st) (pathx st)
    (pathy st).

Definition set_nobs (v : Z) (st : NavFn) : NavFn :=
  mkNavFn (nx st) (ny st) (ns st) (costarr st) (potarr st) (pending st)
    (gradx st) (grady st) (pb1 st) (pb2 st) (pb3 st) (curP st) (nextP st)
    (overP st) (curPe st) (nextPe st) (overPe st) (curT st) (priInc st)
    (goal st) (start st) v (pathStep st) (npathbuf st) (npath st) (pathx st)
    (pathy st).

Definition set_pathStep (v : float) (st : NavFn) : NavFn :=
  mkNavFn (nx st) (ny st) (ns st) (costarr st) (potarr st) (pending st)
    (gradx st) (grady st) (pb1 st) (pb2 st) (pb3 st) (curP st) (nextP st)
    (overP st) (curPe st) (nextPe st) (overPe st) (curT st) (priInc st)
    (goal st) (start st) (nobs st) v (npathbuf st) (npath st) (pathx st)
    (pathy st).

Definition set_npathbuf (v : Z) (st : NavFn) : NavFn :=
  mkNavFn (nx st) (ny st) (ns st) (costarr st) (potarr st) (pending st)
    (gradx st) (grady st) (pb1 st) (pb2 st) (pb3 st) (curP st) (nextP st)
    (overP st) (curPe st) (nextPe st) (overPe st) (curT st) (priInc st)
    (goal st) (start st) (nobs st) (pathStep st) v (npath st) (pathx st)
    (pathy st).

Definition set_npath (v : Z) (st : NavFn) : NavFn :=
  mkNavFn (nx st) (ny st) (ns st) (costarr st) (potarr st) (pending st)
    (gradx st) (grady st) (pb1 st) (pb2 st) (pb3 st) (curP st) (nextP st)
    (overP st) (curPe st) (nextPe st) (overPe st) (curT st) (priInc st)
    (goal st) (start st) (nobs st) (pathStep st) (npathbuf st) v (pathx st)
    (pathy st).

Definition set_pathx (v : list float) (st : NavFn) : NavFn :=
  mkNavFn (nx st) (ny st) (ns st) (costarr st) (potarr st) (pending st)
    (gradx st) (grady st) (pb1 st) (pb2 st) (pb3 st) (curP st) (nextP st)
    (overP st) (curPe st) (nextPe st) (overPe st) (curT st) (priInc st)
    (goal st) (start st) (nobs st) (pathStep st) (npathbuf st) (npath st) v
    (pathy st).

Definition set_pathy (v : list float) (st : NavFn) : NavFn :=
  mkNavFn (nx st) (ny st) (ns st) (costarr st) (potarr st) (pending st)
    (gradx st) (grady st) (pb1 st) (pb2 st) (pb3 st) (curP st) (nextP st)
    (overP st) (curPe st) (nextPe st) (overPe st) (curT st) (priInc st)
    (goal st) (start st) (nobs st) (pathStep st) (npathbuf st) (npath st)
    (pathx st) v.

Definition buf (b : bufid) (st : NavFn) : list Z :=
  match b with PB1 => pb1 st | PB2 => pb2 st | PB3 => pb3 st end.

Definition set_buf (b : bufid) (v : list Z) (st : NavFn) : NavFn :=
  match b with
  | PB1 => set_pb1 v st
  | PB2 => set_pb2 v st
  | PB3 => set_pb3 v st
  end.

(** Floating-point constants that occur in the code. *)
Definition fzero : float := S754_zero false.
Definition dzero : double := S754_zero false.
Definition d_one : double := i2d 1.
Definition POT_HIGH_f : float := d2f POT_HIGH.

(** [potarr[k] < POT_HIGH] and [potarr[k] >= POT_HIGH]: the [float] is
    promoted and compared with the [double] constant. *)
Definition below_POT_HIGH (p : float) : bool := flt (f2d p) POT_HIGH.
Definition at_POT_HIGH (p : float) : bool := fge (f2d p) POT_HIGH.

(* ===================================================================== *)
(** ** Priority buffers: the macros [push_cur], [push_next], [push_over]  *)
(* ===================================================================== *)

(** [&&] evaluates left to right and stops at the first false operand, so
    [pending[n]] and [costarr[n]] are read only for [0 <= n < ns]. *)
Definition push_cur (n : Z) (st : NavFn) : option NavFn :=
  if (n >=? 0) && (n <? ns st) then
    p ← rd (pending st) n;
    if negb p then
      c ← rd (costarr st) n;
      if (c <? COST_OBS) && (curPe st <? PRIORITYBUFSIZE) then
        b ← wr (buf (curP st) st) (curPe st) n;
        let st := set_curPe (curPe st + 1) (set_buf (curP st) b st) in
        pe ← wr (pending st) n true;
        Some (set_pending pe st)
      else Some st
    else Some st
  else Some st.

Definition push_next (n : Z) (st : NavFn) : option NavFn :=
  if (n >=? 0) && (n <? ns st) then
    p ← rd (pending st) n;
    if negb p then
      c ← rd (costarr st) n;
      if (c <? COST_OBS) && (nextPe st <? PRIORITYBUFSIZE) then
        b ← wr (buf (nextP st) st) (nextPe st) n;
        let st := set_nextPe (nextPe st + 1) (set_buf (nextP st) b st) in
        pe ← wr (pending st) n true;
        Some (set_pending pe st)
      else Some st
    else Some st
  else Some st.

Definition push_over (n : Z) (st : NavFn) : option NavFn :=
  if (n >=? 0) && (n <? ns st) then
    p ← rd (pending st) n;
    if negb p then
      c ← rd (costarr st) n;
      if (c <? COST_OBS) && (overPe st <? PRIORITYBUFSIZE) then
        b ← wr (buf (overP st) st) (overPe st) n;
        let st := set_overPe (overPe st + 1) (set_buf (overP st) b st) in
        pe ← wr (pending st) n true;
        Some (set_pending pe st)
      else Some st
    else Some st
  else Some st.

(* ===================================================================== *)
(** ** [NavFn::initCost] and [NavFn::setupNavFn]                         *)
(* ===================================================================== *)

Definition initCost (k : Z) (v : float) (st : NavFn) : option NavFn :=
  pa ← wr (potarr st) k v;
  let st := set_potarr pa st in
  st ← push_cur (k + 1) st;
  st ← push_cur (k - 1) st;
  st ← push_cur (k - nx st) st;
  push_cur (k + nx st) st.

(** [for (i = 0; i < cnt; i++, pc += stride) *pc = v], with [pc] starting
    at index [k]. *)
Fixpoint store_stride {A} (a : list A) (k stride : Z) (cnt : nat) (v : A)
    : option (list A) :=
  match cnt with
  | O => Some a
  | S cnt' => a' ← wr a k v; store_stride a' (k + stride) stride cnt' v
  end.

(** The number of cells with [costarr[i] >= COST_OBS] among the first
    [cnt]. *)
Fixpoint count_obs (a : list Z) (cnt : nat) : option Z :=
  match cnt with
  | O => Some 0
  | S cnt' =>
      match a with
      | [] => None
      | c :: a' =>
          ntot ← count_obs a' cnt';
          Some (if c >=? COST_OBS then ntot + 1 else ntot)
      end
  end.

Definition setupNavFn (keepit : bool) (st : NavFn) : option NavFn :=
  (* reset values in propagation arrays *)
  let cnt := Z.to_nat (ns st) in
  pa ← store_stride (potarr st) 0 1 cnt POT_HIGH_f;
  ca ← (if negb keepit
        then store_stride (costarr st) 0 1 cnt (to_COSTTYPE COST_NEUTRAL)
        else Some (costarr st));
  gx ← store_stride (gradx st) 0 1 cnt (d2f dzero);
  gy ← store_stride (grady st) 0 1 cnt (d2f dzero);
  (* outer bounds of cost array *)
  ca ← store_stride ca 0 1 (Z.to_nat (nx st)) (to_COSTTYPE COST_OBS);
  ca ← store_stride ca ((ny st - 1) * nx st) 1 (Z.to_nat (nx st))
         (to_COSTTYPE COST_OBS);
  ca ← store_stride ca 0 (nx st) (Z.to_nat (ny st)) (to_COSTTYPE COST_OBS);
  ca ← store_stride ca (nx st - 1) (nx st) (Z.to_nat (ny st))
         (to_COSTTYPE COST_OBS);
  let st := set_grady gy (set_gradx gx (set_costarr ca (set_potarr pa st))) in
  (* priority buffers *)
  let st := set_curT (i2f COST_OBS) st in
  let st := set_curPe 0 (set_curP PB1 st) in
  let st := set_nextPe 0 (set_nextP PB2 st) in
  let st := set_overPe 0 (set_overP PB3 st) in
  pe ← store_stride (pending st) 0 1 cnt false;
  let st := set_pending pe st in
  (* set goal *)
  let k := (goal st).1 + (goal st).2 * nx st in
  st ← initCost k (i2f 0) st;
  (* find # of obstacle cells *)
  ntot ← count_obs (costarr st) cnt;
  Some (set_nobs ntot st).

(* ===================================================================== *)
(** ** The update rule: [NavFn::updateCell]                              *)
(* ===================================================================== *)

Definition updateCell (n : Z) (st : NavFn) : option NavFn :=
  (* get neighbors *)
  l ← rd (potarr st) (n - 1);
  r ← rd (potarr st) (n + 1);
  u ← rd (potarr st) (n - nx st);
  d ← rd (potarr st) (n + nx st);
  (* find lowest, and its lowest neighbor *)
  let tc := if flt l r then l else r in
  let ta := if flt u d then u else d in
  (* do planar wave update *)
  c ← rd (costarr st) n;
  if c <? COST_OBS then
    let hf := i2f c in
    let dc := fsub tc ta in
    let '(dc, ta) := if flt dc (i2f 0) then (fneg dc, tc) else (dc, ta) in
    (* calculate new potential *)
    let pot :=
      if fge dc hf then fadd ta hf
      else
        let d := fdiv dc hf in
        let v := d2f (dadd (dadd (dmul (dmul (dneg (dlit 2301 10000)) (f2d d))
                                       (f2d d))
                                 (dmul (dlit 5307 10000) (f2d d)))
                           (dlit 7040 10000)) in
        fadd ta (fmul hf v) in
    (* now add affected neighbors to priority blocks *)
    pn ← rd (potarr st) n;
    if flt pot pn then
      cl ← rd (costarr st) (n - 1);
      cr ← rd (costarr st) (n + 1);
      cu ← rd (costarr st) (n - nx st);
      cd ← rd (costarr st) (n + nx st);
      let le := d2f (dmul INVSQRT2 (f2d (i2f cl))) in
      let re := d2f (dmul INVSQRT2 (f2d (i2f cr))) in
      let ue := d2f (dmul INVSQRT2 (f2d (i2f cu))) in
      let de := d2f (dmul INVSQRT2 (f2d (i2f cd))) in
      pa ← wr (potarr st) n pot;
      let st := set_potarr pa st in
      if flt pot (curT st) then
        st ← (if fgt l (fadd pot le) then push_next (n - 1) st else Some st);
        st ← (if fgt r (fadd pot re) then push_next (n + 1) st else Some st);
        st ← (if fgt u (fadd pot ue) then push_next (n - nx st) st else Some st);
        if fgt d (fadd pot de) then push_next (n + nx st) st else Some st
      else
        st ← (if fgt l (fadd pot le) then push_over (n - 1) st else Some st);
        st ← (if fgt r (fadd pot re) then push_over (n + 1) st else Some st);
        st ← (if fgt u (fadd pot ue) then push_over (n - nx st) st else Some st);
        if fgt d (fadd pot de) then push_over (n + nx st) st else Some st
    else Some st
  else Some st.

(* ===================================================================== *)
(** ** The A* variant: [NavFn::updateCellAstar]                          *)
(* ===================================================================== *)

Section Libm.

(** [hypot] of the C library, on [double]s. *)
Variable hypot : double -> double -> double.

Definition updateCellAstar (n : Z) (st : NavFn) : option NavFn :=
  (* get neighbors *)
  l ← rd (potarr st) (n - 1);
  r ← rd (potarr st) (n + 1);
  u ← rd (potarr st) (n - nx st);
  d ← rd (potarr st) (n + nx st);
  (* find lowest, and its lowest neighbor *)
  let tc := if flt l r then l else r in
  let ta := if flt u d then u else d in
  (* do planar wave update *)
  c ← rd (costarr st) n;
  if c <? COST_OBS then
    let hf := i2f c in
    let dc := fsub tc ta in
    let '(dc, ta) := if flt dc (i2f 0) then (fneg dc, tc) else (dc, ta) in
    (* calculate new potential *)
    let pot :=
      if fge dc hf then fadd ta hf
      else
        let d := fdiv dc hf in
        let v := d2f (dadd (dadd (dmul (dmul (dneg (dlit 2301 10000)) (f2d d))
                                       (f2d d))
                                 (dmul (dlit 5307 10000) (f2d d)))
                           (dlit 7040 10000)) in
        fadd ta (fmul hf v) in
    (* now add affected neighbors to priority blocks *)
    pn ← rd (potarr st) n;
    if flt pot pn then
      cl ← rd (costarr st) (n - 1);
      cr ← rd (costarr st) (n + 1);
      cu ← rd (costarr st) (n - nx st);
      cd ← rd (costarr st) (n + nx st);
      let le := d2f (dmul INVSQRT2 (f2d (i2f cl))) in
      let re := d2f (dmul INVSQRT2 (f2d (i2f cr))) in
      let ue := d2f (dmul INVSQRT2 (f2d (i2f cu))) in
      let de := d2f (dmul INVSQRT2 (f2d (i2f cd))) in
      (* calculate distance *)
      if nx st =? 0 then None else
      let x := Z.rem n (nx st) in
      let y := Z.quot n (nx st) in
      let dist := d2f (dmul (hypot (i2d (x - (start st).1))
                                   (i2d (y - (start st).2)))
                            (f2d (i2f COST_NEUTRAL))) in
      pa ← wr (potarr st) n pot;
      let st := set_potarr pa st in
      let pot := fadd pot dist in
      if flt pot (curT st) then
        st ← (if fgt l (fadd pot le) then push_next (n - 1) st else Some st);
        st ← (if fgt r (fadd pot re) then push_next (n + 1) st else Some st);
        st ← (if fgt u (fadd pot ue) then push_next (n - nx st) st else Some st);
        if fgt d (fadd pot de) then push_next (n + nx st) st else Some st
      else
        st ← (if fgt l (fadd pot le) then push_over (n - 1) st else Some st);
        st ← (if fgt r (fadd pot re) then push_over (n + 1) st else Some st);
        st ← (if fgt u (fadd pot ue) then push_over (n - nx st) st else Some st);
        if fgt d (fadd pot de) then push_over (n + nx st) st else Some st
    else Some st
  else Some st.

(* ===================================================================== *)
(** ** The gradient routine: [NavFn::gradCell]                           *)
(* ===================================================================== *)

(** The two branches that compute the raw differences [dx], [dy] at a
    cell with potential [cv]. *)
Definition gradCell_dxdy (n : Z) (cv : float) (st : NavFn)
    : option (float * float) :=
  let dx := d2f dzero in
  let dy := d2f dzero in
  (* check for in an obstacle *)
  if at_POT_HIGH cv then
    pl ← rd (potarr st) (n - 1);
    dx ← (if below_POT_HIGH pl then Some (i2f (- COST_OBS))
          else pr ← rd (potarr st) (n + 1);
               Some (if below_POT_HIGH pr then i2f COST_OBS else dx));
    pu ← rd (potarr st) (n - nx st);
    dy ← (if below_POT_HIGH pu then Some (i2f (- COST_OBS))
          else pd ← rd (potarr st) (nx st + 1);
               Some (if below_POT_HIGH pd then i2f COST_OBS else dy));
    Some (dx, dy)
  else
    (* dx calc, average to sides *)
    pl ← rd (potarr st) (n - 1);
    let dx := if below_POT_HIGH pl then fadd dx (fsub pl cv) else dx in
    pr ← rd (potarr st) (n + 1);
    let dx := if below_POT_HIGH pr then fadd dx (fsub cv pr) else dx in
    (* dy calc, average to sides *)
    pu ← rd (potarr st) (n - nx st);
    let dy := if below_POT_HIGH pu then fadd dy (fsub pu cv) else dy in
    pd ← rd (potarr st) (n + nx st);
    let dy := if below_POT_HIGH pd then fadd dy (fsub cv pd) else dy in
    Some (dx, dy).

(** [gradCell] returns the norm and stores the unit gradient. *)
Definition gradCell (n : Z) (st : NavFn) : option (float * NavFn) :=
  gxn ← rd (gradx st) n;
  gyn ← rd (grady st) n;
  if fgt (f2d (fadd gxn gyn)) dzero then Some (d2f d_one, st)
  else if (n <? nx st) || (n >? ns st - nx st) then Some (d2f dzero, st)
  else
    cv ← rd (potarr st) n;
    '(dx, dy) ← gradCell_dxdy n cv st;
    (* normalize *)
    let norm := d2f (hypot (f2d dx) (f2d dy)) in
    if fgt norm (i2f 0) then
      let norm := d2f (ddiv d_one (f2d norm)) in
      gx ← wr (gradx st) n (fmul norm dx);
      gy ← wr (grady st) n (fmul norm dy);
      Some (norm, set_grady gy (set_gradx gx st))
    else Some (norm, st).

(* ===================================================================== *)
(** ** The path tracer: [NavFn::calcPath]                                *)
(* ===================================================================== *)

(** [round] of the C library on a [double]: the nearest integer, halfway
    cases away from zero. *)
Definition d_round (x : double) : double :=
  match x with
  | S754_finite s m e =>
      if 0 <=? e then x
      else
        let p := 2 ^ (- e) in
        let q := Zpos m / p in
        let r := Zpos m mod p in
        let q := if p <=? 2 * r then q + 1 else q in
        if q =? 0 then S754_zero s else i2d (cond_Zopp s q)
  | _ => x
  end.

(** How one turn of the [for] loop of [calcPath] ends. *)
Inductive path_turn : Type :=
  | PathReturn (len : Z) (st : NavFn)
  | PathNext (st : NavFn) (stc : Z) (dx dy : float).

(** The test for a potential at [POT_HIGH] at [stc] or one of its eight
    neighbours; [||] stops at the first operand that is true. *)
Definition near_POT_HIGH (st : NavFn) (stc : Z) : option bool :=
  let stcnx := stc + nx st in
  let stcpx := stc - nx st in
  p ← rd (potarr st) stc; if at_POT_HIGH p then Some true else
  p ← rd (potarr st) (stc + 1); if at_POT_HIGH p then Some true else
  p ← rd (potarr st) (stc - 1); if at_POT_HIGH p then Some true else
  p ← rd (potarr st) stcnx; if at_POT_HIGH p then Some true else
  p ← rd (potarr st) (stcnx + 1); if at_POT_HIGH p then Some true else
  p ← rd (potarr st) (stcnx - 1); if at_POT_HIGH p then Some true else
  p ← rd (potarr st) stcpx; if at_POT_HIGH p then Some true else
  p ← rd (potarr st) (stcpx + 1); if at_POT_HIGH p then Some true else
  p ← rd (potarr st) (stcpx - 1); Some (at_POT_HIGH p).

(** [if (potarr[st] < minp) {minp = potarr[st]; minc = st; }], with
    [int minp]: the potential is truncated to an [int] when it is stored
    and the [int] is converted back for the comparison. *)
Definition probe_min (st : NavFn) (k : Z) (acc : Z * Z) : option (Z * Z) :=
  let '(minc, minp) := acc in
  pk ← rd (potarr st) k;
  if flt pk (i2f minp) then mp ← d2i (f2d pk); Some (k, mp)
  else Some (minc, minp).

(** The grid-following fallback: the cell with the lowest potential among
    [stc] and its eight neighbours. *)
Definition path_fallback (st : NavFn) (stc : Z) : option Z :=
  let stcnx := stc + nx st in
  let stcpx := stc - nx st in
  p ← rd (potarr st) stc;
  minp ← d2i (f2d p);
  acc ← probe_min st (stcpx - 1) (stc, minp);
  acc ← probe_min st stcpx acc;
  acc ← probe_min st (stcpx + 1) acc;
  acc ← probe_min st (stc - 1) acc;
  acc ← probe_min st (stc + 1) acc;
  acc ← probe_min st (stcnx - 1) acc;
  acc ← probe_min st stcnx acc;
  acc ← probe_min st (stcnx + 1) acc;
  Some acc.1.

(** [(1.0-t)*a + t*b] with [float] operands: the first product and the
    sum are computed in [double], the second product in [float]. *)
Definition lerp (t a b : float) : float :=
  d2f (dadd (dmul (dsub d_one (f2d t)) (f2d a)) (f2d (fmul t b))).

(** The interpolated gradient at offset [(dx, dy)] from [stc]. *)
Definition path_gradient (st : NavFn) (stc : Z) (dx dy : float)
    : option (float * float) :=
  let stcnx := stc + nx st in
  gx00 ← rd (gradx st) stc;
  gx10 ← rd (gradx st) (stc + 1);
  let x1 := lerp dx gx00 gx10 in
  gx01 ← rd (gradx st) stcnx;
  gx11 ← rd (gradx st) (stcnx + 1);
  let x2 := lerp dx gx01 gx11 in
  let x := lerp dy x1 x2 in
  gy00 ← rd (grady st) stc;
  gy10 ← rd (grady st) (stc + 1);
  let y1 := lerp dx gy00 gy10 in
  gy01 ← rd (grady st) stcnx;
  gy11 ← rd (grady st) (stcnx + 1);
  let y2 := lerp dx gy01 gy11 in
  let y := lerp dy y1 y2 in
  Some (x, y).

(** [float ss = pathStep/hypot(x, y)] and the step [(x*ss, y*ss)]. *)
Definition path_step (x y : float) (st : NavFn) : float * float :=
  let ss := d2f (ddiv (f2d (pathStep st)) (hypot (f2d x) (f2d y))) in
  (fmul x ss, fmul y ss).

(** [if (d > 1.0) { stc += stride; d -= 1.0; }
     if (d < -1.0) { stc -= stride; d += 1.0; }] *)
Definition carry (stc stride : Z) (d : float) : Z * float :=
  let '(stc, d) :=
    if fgt (f2d d) d_one then (stc + stride, d2f (dsub (f2d d) d_one))
    else (stc, d) in
  if flt (f2d d) (dneg d_one) then (stc - stride, d2f (dadd (f2d d) d_one))
  else (stc, d).

(** The four calls of [gradCell] before the interpolation. *)
Definition four_gradCells (st : NavFn) (stc : Z) : option NavFn :=
  '(_, st) ← gradCell stc st;
  '(_, st) ← gradCell (stc + 1) st;
  '(_, st) ← gradCell (stc + nx st) st;
  '(_, st) ← gradCell (stc + nx st + 1) st;
  Some st.

(** How the first half of a turn ends: with a [return], or with the
    point appended to the path and the oscillation flag computed. *)
Inductive path_record : Type :=
  | RecordReturn (len : Z) (st : NavFn)
  | Recorded (st : NavFn) (oscillation_detected : bool).

(** First half of the loop body: the near-goal test, the bounds test,
    the new path point and the oscillation test. *)
Definition calcPath_record (st : NavFn) (stc : Z) (dx dy : float)
    : option path_record :=
  (* check if near goal *)
  a ← d2i (d_round (f2d dx));
  b ← d2i (dmul (i2d (nx st)) (d_round (f2d dy)));
  let nearest_point := Z.max 0 (Z.min (nx st * ny st - 1) (stc + a + b)) in
  pnp ← rd (potarr st) nearest_point;
  if flt pnp (i2f COST_NEUTRAL) then
    px ← wr (pathx st) (npath st) (i2f (goal st).1);
    py ← wr (pathy st) (npath st) (i2f (goal st).2);
    let st := set_npath (npath st + 1) (set_pathy py (set_pathx px st)) in
    Some (RecordReturn (npath st) st)
  else if (stc <? nx st) || (stc >? ns st - nx st) then
    Some (RecordReturn 0 st)
  else if nx st =? 0 then None
  else
    (* add to path *)
    px ← wr (pathx st) (npath st) (fadd (i2f (Z.rem stc (nx st))) dx);
    py ← wr (pathy st) (npath st) (fadd (i2f (Z.quot stc (nx st))) dy);
    let st := set_npath (npath st + 1) (set_pathy py (set_pathx px st)) in
    oscillation_detected ←
      (if npath st >? 2 then
         x1 ← rd (pathx st) (npath st - 1);
         x3 ← rd (pathx st) (npath st - 3);
         if feq x1 x3 then
           y1 ← rd (pathy st) (npath st - 1);
           y3 ← rd (pathy st) (npath st - 3);
           Some (feq y1 y3)
         else Some false
       else Some false);
    Some (Recorded st oscillation_detected).

(** The step [(x*ss, y*ss)] of the gradient-descent branch; [None] when
    the gradient is zero (or an access is undefined). *)
Definition descent_step (st : NavFn) (stc : Z) (dx dy : float)
    : option (NavFn * option (float * float)) :=
  (* get grad at four positions near cell *)
  st ← four_gradCells st stc;
  (* get interpolated gradient *)
  '(x, y) ← path_gradient st stc dx dy;
  (* check for zero gradient, failed *)
  if feq (f2d x) dzero && feq (f2d y) dzero then Some (st, None)
  else Some (st, Some (path_step x y st)).

(** Second half of the loop body: the grid-following fallback or the
    gradient descent. *)
Definition calcPath_advance (st : NavFn) (stc : Z) (dx dy : float)
    (oscillation_detected : bool) : option path_turn :=
  (* check for potentials at eight positions near cell *)
  high ← near_POT_HIGH st stc;
  if high || oscillation_detected then
    (* check eight neighbors to find the lowest *)
    minc ← path_fallback st stc;
    let stc := minc in
    let dx := i2f 0 in
    let dy := i2f 0 in
    p ← rd (potarr st) stc;
    if at_POT_HIGH p then Some (PathReturn 0 st)
    else Some (PathNext st stc dx dy)
  else
    '(st, step) ← descent_step st stc dx dy;
    match step with
    | None => Some (PathReturn 0 st)
    | Some (ex, ey) =>
        (* move in the right direction *)
        let dx := fadd dx ex in
        let dy := fadd dy ey in
        (* check for overflow *)
        let '(stc, dx) := carry stc 1 dx in
        let '(stc, dy) := carry stc (nx st) dy in
        Some (PathNext st stc dx dy)
    end.

(** The body of the [for] loop. *)
Definition calcPath_turn (st : NavFn) (stc : Z) (dx dy : float)
    : option path_turn :=
  r ← calcPath_record st stc dx dy;
  match r with
  | RecordReturn len st => Some (PathReturn len st)
  | Recorded st oscillation_detected =>
      calcPath_advance st stc dx dy oscillation_detected
  end.

(** The [for] loop with [rem] turns left; running out of turns returns 0. *)
Fixpoint calcPath_loop (rem : nat) (st : NavFn) (stc : Z) (dx dy : float)
    : option (Z * NavFn) :=
  match rem with
  | O => Some (0, st)
  | S rem' =>
      t ← calcPath_turn st stc dx dy;
      match t with
      | PathReturn len st' => Some (len, st')
      | PathNext st' stc' dx' dy' => calcPath_loop rem' st' stc' dx' dy'
      end
  end.

(** The state in which [calcPath] enters its loop: path buffers of at
    least [n] cells, [npath = 0]. *)
Definition calcPath_entry (n : Z) (st : NavFn) : NavFn :=
  let st :=
    if npathbuf st <? n then
      set_npathbuf n
        (set_pathy (replicate (Z.to_nat n) fzero)
           (set_pathx (replicate (Z.to_nat n) fzero) st))
    else st in
  set_npath 0 st.

(** [calcPath(n, st)]; [stp = None] stands for the default [st == NULL]. *)
Definition calcPath (n : Z) (stp : option (Z * Z)) (st : NavFn)
    : option (Z * NavFn) :=
  let st := calcPath_entry n st in
  let s := match stp with Some s => s | None => start st end in
  let stc := s.2 * nx st + s.1 in
  calcPath_loop (Z.to_nat n) st stc (i2f 0) (i2f 0).

(** The values of [stc], [dx], [dy] (and the planner) at the start of the
    turn number [i] of the loop, when the loop gets that far. *)
Fixpoint calcPath_at (i : nat) (st : NavFn) (stc : Z) (dx dy : float)
    : option (NavFn * Z * float * float) :=
  match i with
  | O => Some (st, stc, dx, dy)
  | S i' =>
      t ← calcPath_turn st stc dx dy;
      match t with
      | PathReturn _ _ => None
      | PathNext st' stc' dx' dy' => calcPath_at i' st' stc' dx' dy'
      end
  end.

(** The step that the turn starting in [(st, stc, dx, dy)] adds to the
    offsets, when that turn is a gradient-descent turn. *)
Definition turn_step (st : NavFn) (stc : Z) (dx dy : float)
    : option (float * float) :=
  r ← calcPath_record st stc dx dy;
  match r with
  | RecordReturn _ _ => None
  | Recorded st oscillation_detected =>
      high ← near_POT_HIGH st stc;
      if high || oscillation_detected then None
      else '(_, step) ← descent_step st stc dx dy; step
  end.

(** The gradient [(x, y)] that the turn starting in [(st, stc, dx, dy)]
    interpolates, when that turn is a gradient-descent turn. *)
Definition turn_gradient (st : NavFn) (stc : Z) (dx dy : float)
    : option (float * float) :=
  r ← calcPath_record st stc dx dy;
  match r with
  | RecordReturn _ _ => None
  | Recorded st oscillation_detected =>
      high ← near_POT_HIGH st stc;
      if high || oscillation_detected then None
      else st ← four_gradCells st stc; path_gradient st stc dx dy
  end.

End Libm.

(* ===================================================================== *)
(** ** The Dijkstra propagation loop: [NavFn::propNavFnDijkstra]         *)
(* ===================================================================== *)

(** The loop that clears [pending] for the [curPe] entries of [curP]. *)
Fixpoint reset_pending (i : nat) (j : Z) (st : NavFn) : option NavFn :=
  match i with
  | O => Some st
  | S i' =>
      c ← rd (buf (curP st) st) j;
      pe ← wr (pending st) c false;
      reset_pending i' (j + 1) (set_pending pe st)
  end.

(** The loop that calls [updateCell] on the [curPe] entries of [curP],
    in the order in which they were pushed. *)
Fixpoint update_cells (i : nat) (j : Z) (st : NavFn) : option NavFn :=
  match i with
  | O => Some st
  | S i' =>
      c ← rd (buf (curP st) st) j;
      st ← updateCell c st;
      update_cells i' (j + 1) st
  end.

(** How one turn of the [for] loop ends. *)
Inductive turn : Type :=
  | Drained                 (* [break]: both priority blocks are empty *)
  | HitStart (st : NavFn)   (* [break]: the start cell has a potential *)
  | Next (st : NavFn).      (* falls through to [cycle++] *)

Definition dijkstra_turn (atStart : bool) (st : NavFn) : option turn :=
  if (curPe st =? 0) && (nextPe st =? 0) then Some Drained
  else
    (* reset pending flags on current priority buffer *)
    st ← reset_pending (Z.to_nat (curPe st)) 0 st;
    (* process current priority buffer *)
    st ← update_cells (Z.to_nat (curPe st)) 0 st;
    (* swap priority blocks curP <=> nextP *)
    let st := set_nextPe 0 (set_curPe (nextPe st) st) in
    let pb := curP st in
    let st := set_nextP pb (set_curP (nextP st) st) in
    (* see if we're done with this priority level *)
    let st :=
      if curPe st =? 0 then
        let st := set_curT (fadd (curT st) (priInc st)) st in
        let st := set_overPe 0 (set_curPe (overPe st) st) in
        let pb := curP st in
        set_overP pb (set_curP (overP st) st)
      else st in
    (* check if we've hit the Start cell *)
    if atStart then
      let startCell := (start st).2 * nx st + (start st).1 in
      p ← rd (potarr st) startCell;
      if below_POT_HIGH p then Some (HitStart st) else Some (Next st)
    else Some (Next st).

(** Why the [for] loop was left. *)
Inductive loop_exit : Type :=
  | Exhausted     (* the condition [cycle < cycles] failed *)
  | ExitDrained   (* [break] on empty priority blocks *)
  | ExitStart.    (* [break] on [potarr[startCell] < POT_HIGH] *)

(** The [for] loop: [rem] turns are left before [cycle] reaches [cycles].
    The result is the value of [cycle] on exit, the way the loop was
    left, and the final state. *)
Fixpoint dijkstra_loop (rem : nat) (cycle : Z) (atStart : bool) (st : NavFn)
    : option (Z * loop_exit * NavFn) :=
  match rem with
  | O => Some (cycle, Exhausted, st)
  | S rem' =>
      t ← dijkstra_turn atStart st;
      match t with
      | Drained => Some (cycle, ExitDrained, st)
      | HitStart st' => Some (cycle, ExitStart, st')
      | Next st' => dijkstra_loop rem' (cycle + 1) atStart st'
      end
  end.

(** [if (cycle < cycles) return true; else return false;] *)
Definition propNavFnDijkstra (cycles : Z) (atStart : bool) (st : NavFn)
    : option (bool * NavFn) :=
  '(cycle, _, st') ← dijkstra_loop (Z.to_nat cycles) 0 atStart st;
  Some (if cycle <? cycles then true else false, st').

(* ===================================================================== *)
(** ** Well-formed planner objects and cell geometry                     *)
(* ===================================================================== *)

(** What the constructor and [setNavArr] establish and every modelled
    function keeps: the grid arrays have [ns = nx*ny] cells, the three
    priority arrays have [PRIORITYBUFSIZE] cells and the counts stay
    within the capacity. *)
Record wf (st : NavFn) : Prop := mk_wf {
  wf_nx : 0 < nx st;
  wf_ny : 0 < ny st;
  wf_ns : ns st = nx st * ny st;
  wf_costarr : Z.of_nat (length (costarr st)) = ns st;
  wf_potarr : Z.of_nat (length (potarr st)) = ns st;
  wf_pending : Z.of_nat (length (pending st)) = ns st;
  wf_gradx : Z.of_nat (length (gradx st)) = ns st;
  wf_grady : Z.of_nat (length (grady st)) = ns st;
  wf_pb1 : Z.of_nat (length (pb1 st)) = PRIORITYBUFSIZE;
  wf_pb2 : Z.of_nat (length (pb2 st)) = PRIORITYBUFSIZE;
  wf_pb3 : Z.of_nat (length (pb3 st)) = PRIORITYBUFSIZE;
  wf_curPe : 0 <= curPe st <= PRIORITYBUFSIZE;
  wf_nextPe : 0 <= nextPe st <= PRIORITYBUFSIZE;
  wf_overPe : 0 <= overPe st <= PRIORITYBUFSIZE
}.

(** The linear index of the cell in column [x] and row [y]. *)
Definition cell (st : NavFn) (x y : Z) : Z := y * nx st + x.

Definition in_grid (st : NavFn) (x y : Z) : Prop :=
  0 <= x < nx st /\ 0 <= y < ny st.

(** Row 0, row [ny-1], column 0 or column [nx-1]. *)
Definition on_border (st : NavFn) (x y : Z) : Prop :=
  in_grid st x y /\ (y = 0 \/ y = ny st - 1 \/ x = 0 \/ x = nx st - 1).

(** A cell whose four neighbours [n-1], [n+1], [n-nx], [n+nx] are cells
    of the grid in the same row, resp. column. *)
Definition interior (st : NavFn) (n : Z) : Prop :=
  exists x y, n = cell st x y /\ 0 < x < nx st - 1 /\ 0 < y < ny st - 1.

Definition goal_cell (st : NavFn) : Z := (goal st).1 + (goal st).2 * nx st.

(** A [float] that is a number of the binary32 format (or NaN or an
    infinity): its mantissa and exponent are in canonical form. *)
Definition valid32 (x : float) : Prop := valid_binary 24 128 x = true.

(** "[new] is not above [old]": unchanged, or strictly below under the
    comparison of the code. *)
Definition not_above (new old : float) : Prop :=
  new = old \/ flt new old = true.

(* ===================================================================== *)
(** ** The update rule as the specification words it                     *)
(* ===================================================================== *)

(** [min] of two potentials. *)
Definition fmin (a b : float) : float := if flt a b then a else b.

(** The quadratic [-0.2301*d*d + 0.5307*d + 0.7040], evaluated in
    [double] and stored in a [float]. *)
Definition quad (d : float) : float :=
  d2f (dadd (dadd (dmul (dmul (dneg (dlit 2301 10000)) (f2d d)) (f2d d))
                  (dmul (dlit 5307 10000) (f2d d)))
            (dlit 7040 10000)).

(** "[tc = min(l,r)], [ta = min(u,d)]; if [tc < ta] swap so [ta <= tc].
    Let [hf = cost[n]] and [dc = tc - ta].  If [dc >= hf]: [pot = ta + hf].
    Else: [d = dc/hf], [v] the quadratic, [pot = ta + hf*v]." *)
Definition spec_candidate (l r u d : float) (c : Z) : float :=
  let tc := fmin l r in
  let ta := fmin u d in
  let '(ta, tc) := if flt tc ta then (tc, ta) else (ta, tc) in
  let hf := i2f c in
  let dc := fsub tc ta in
  if fge dc hf then fadd ta hf
  else
    let d := fdiv dc hf in
    let v := quad d in
    fadd ta (fmul hf v).

(** The edge weight [INVSQRT2 * cost[m]] of a neighbour. *)
Definition edge_weight (c : Z) : float := d2f (dmul INVSQRT2 (f2d (i2f c))).

(** The successor dispatch with a priority key [key]: each neighbour [m]
    with [pot[m] > key + e_m] is pushed, onto [nextP] when [key < curT]
    and onto [overP] otherwise. *)
Definition dispatch (key : float) (n : Z) (l r u d : float)
    (cl cr cu cd : Z) (st : NavFn) : option NavFn :=
  let push := if flt key (curT st) then push_next else push_over in
  st ← (if fgt l (fadd key (edge_weight cl)) then push (n - 1) st else Some st);
  st ← (if fgt r (fadd key (edge_weight cr)) then push (n + 1) st else Some st);
  st ← (if fgt u (fadd key (edge_weight cu)) then push (n - nx st) st else Some st);
  if fgt d (fadd key (edge_weight cd)) then push (n + nx st) st else Some st.

(** The update rule with the priority key left open: [bias] is what is
    added to the committed potential to obtain the key ([None] for
    Dijkstra, the heuristic for the A-star variant). *)
Definition spec_update (bias : option float) (n : Z) (st : NavFn)
    : option NavFn :=
  l ← rd (potarr st) (n - 1);
  r ← rd (potarr st) (n + 1);
  u ← rd (potarr st) (n - nx st);
  d ← rd (potarr st) (n + nx st);
  c ← rd (costarr st) n;
  if c <? COST_OBS then
    let pot := spec_candidate l r u d c in
    pn ← rd (potarr st) n;
    if flt pot pn then
      cl ← rd (costarr st) (n - 1);
      cr ← rd (costarr st) (n + 1);
      cu ← rd (costarr st) (n - nx st);
      cd ← rd (costarr st) (n + nx st);
      pa ← wr (potarr st) n pot;
      let st := set_potarr pa st in
      let key := match bias with None => pot | Some h => fadd pot h end in
      dispatch key n l r u d cl cr cu cd st
    else Some st
  else Some st.

(** The heuristic of the A* variant at cell [n]:
    [hypot(x - sx, y - sy) * COST_NEUTRAL], stored in a [float]. *)
Definition heuristic (hypot : double -> double -> double) (n : Z)
    (st : NavFn) : float :=
  let x := Z.rem n (nx st) in
  let y := Z.quot n (nx st) in
  d2f (dmul (hypot (i2d (x - (start st).1)) (i2d (y - (start st).2)))
            (f2d (i2f COST_NEUTRAL))).

(** [hypot] computed as the correctly rounded square root of the sum of
    the squares; used to run the model on concrete inputs. *)
Definition hypot_sqrt (x y : double) : double :=
  SFsqrt 53 1024 (dadd (dmul x x) (dmul y y)).

(* ===================================================================== *)
(** ** Propagation steps                                                 *)
(* ===================================================================== *)

(** One application of the update rule, Dijkstra or A*, at any cell. *)
Inductive update_step (hypot : double -> double -> double)
    : NavFn -> NavFn -> Prop :=
  | step_dijkstra n st st' :
      updateCell n st = Some st' -> update_step hypot st st'
  | step_astar n st st' :
      updateCellAstar hypot n st = Some st' -> update_step hypot st st'.

(** Any number of applications, in any order and at any cells. *)
Inductive update_steps (hypot : double -> double -> double)
    : NavFn -> NavFn -> Prop :=
  | steps_refl st : update_steps hypot st st
  | steps_cons st st' st'' :
      update_step hypot st st' -> update_steps hypot st' st'' ->
      update_steps hypot st st''.

(** The symmetric obstacle branch of the gradient that the specification
    prescribes for the vertical component: [potarr[n+nx]] decides the
    second case. *)
Definition spec_obstacle_dy (n : Z) (st : NavFn) : option float :=
  pu ← rd (potarr st) (n - nx st);
  if below_POT_HIGH pu then Some (i2f (- COST_OBS))
  else
    pd ← rd (potarr st) (n + nx st);
    Some (if below_POT_HIGH pd then i2f COST_OBS else d2f dzero).

(** The admission test of a push, in the words of the specification;
    [cnt] is the count of the targeted buffer. *)
Definition admits (n : Z) (cnt : Z) (st : NavFn) : bool :=
  (0 <=? n) && (n <? ns st) &&
  negb (default true (rd (pending st) n)) &&
  (default COST_OBS (rd (costarr st) n) <? COST_OBS) &&
  (cnt <? PRIORITYBUFSIZE).


(** The state after a successful push of [n]: the cell is stored at the
    end of the buffer, the count grows by one and [pending[n]] is set. *)
Definition pushed_cur (n : Z) (st : NavFn) : NavFn :=
  set_pending (<[Z.to_nat n := true]> (pending st))
    (set_curPe (curPe st + 1)
       (set_buf (curP st) (<[Z.to_nat (curPe st) := n]> (buf (curP st) st)) st)).

Definition pushed_next (n : Z) (st : NavFn) : NavFn :=
  set_pending (<[Z.to_nat n := true]> (pending st))
    (set_nextPe (nextPe st + 1)
       (set_buf (nextP st) (<[Z.to_nat (nextPe st) := n]> (buf (nextP st) st)) st)).

Definition pushed_over (n : Z) (st : NavFn) : NavFn :=
  set_pending (<[Z.to_nat n := true]> (pending st))
    (set_overPe (overPe st + 1)
       (set_buf (overP st) (<[Z.to_nat (overPe st) := n]> (buf (overP st) st)) st)).

(** What a push leaves alone: everything but [pending], the priority
    arrays and their counts. *)
Definition frame (s s' : NavFn) : Prop :=
  nx s' = nx s /\ ny s' = ny s /\ ns s' = ns s /\
  costarr s' = costarr s /\ potarr s' = potarr s /\
  gradx s' = gradx s /\ grady s' = grady s /\
  curT s' = curT s /\ priInc s' = priInc s /\
  goal s' = goal s /\ start s' = start s /\
  curP s' = curP s /\ nextP s' = nextP s /\ overP s' = overP s.

(** An update at [n] that commits: the cell is not an obstacle, the new
    potential [pot] is strictly below the old one [pn], it is stored in
    [potarr[n]], and then neighbours are pushed. *)
Definition commits (n : Z) (st st' : NavFn) : Prop :=
  exists c pn pot pa,
    rd (costarr st) n = Some c /\ c < COST_OBS /\
    rd (potarr st) n = Some pn /\ flt pot pn = true /\
    wr (potarr st) n pot = Some pa /\ frame (set_potarr pa st) st'.

(* ===================================================================== *)
(** ** Concrete planner objects                                          *)
(* ===================================================================== *)

(** A planner as the constructor leaves it ([priInc = 2*COST_NEUTRAL],
    [pathStep = 0.5], no path buffers) once a cost array, a goal and a
    start have been installed; the arrays that C++ leaves uninitialised
    hold zeros. *)
Definition planner (xs ys : Z) (cost : list Z) (g s : Z * Z) : NavFn :=
  let n := Z.to_nat (xs * ys) in
  let pb := replicate (Z.to_nat PRIORITYBUFSIZE) 0 in
  mkNavFn xs ys (xs * ys) cost (replicate n fzero) (replicate n false)
    (replicate n fzero) (replicate n fzero) pb pb pb PB1 PB2 PB3 0 0 0
    fzero (i2f (2 * COST_NEUTRAL)) g s 0 (d2f (dlit 5 10)) 0 0 [] [].

(** The state [setupNavFn(true)] leaves, for runs on concrete inputs. *)
Definition after_setup (st : NavFn) : NavFn :=
  default st (setupNavFn true st).

(** A 5 x 5 grid of free cells ([COST_NEUTRAL] everywhere), goal in the
    centre (2,2) = cell 12, start at (1,1) = cell 6. *)
Definition open5 : NavFn := planner 5 5 (replicate 25 50) (2, 2) (1, 1).

(** The same grid after setup, where the cell 6 left of cell 7 already
    carries the potential 100. *)
Definition open5_left100 : NavFn :=
  let st := after_setup open5 in
  set_potarr (<[6%nat := i2f 100]> (potarr st)) st.

(** The same grid with a lethal obstacle on the goal cell. *)
Definition goal_on_obstacle : NavFn :=
  planner 5 5 (<[12%nat := 254]> (replicate 25 50)) (2, 2) (1, 1).

(** A 5 x 5 grid whose middle column (cells 7, 12, 17) is a wall: the
    goal (1,1) = cell 6 and the start (3,3) = cell 18 are on opposite
    sides. *)
Definition walled5 : NavFn :=
  planner 5 5
    (<[7%nat := 254]> (<[12%nat := 254]> (<[17%nat := 254]> (replicate 25 50))))
    (1, 1) (3, 3).

(** A 5 x 5 grid of free cells with the goal at (2,3) = cell 17, right
    below cell 12. *)
Definition goal_below : NavFn := planner 5 5 (replicate 25 50) (2, 3) (1, 1).

(** The state one call [updateCell(n)], resp. [updateCellAstar(n)] with
    [hypot_sqrt], leaves. *)
Definition after_update (n : Z) (st : NavFn) : NavFn :=
  default st (updateCell n st).

Definition after_update_astar (n : Z) (st : NavFn) : NavFn :=
  default st (updateCellAstar hypot_sqrt n st).

(** The value [propNavFnDijkstra] returns for each way of leaving its
    loop. *)
Definition left_by_break (how : loop_exit) : bool :=
  match how with
  | Exhausted => false
  | ExitDrained | ExitStart => true
  end.

(** The state [propNavFnDijkstra] leaves. *)
Definition after_dijkstra (cycles : Z) (atStart : bool) (st : NavFn) : NavFn :=
  match propNavFnDijkstra cycles atStart st with
  | Some (_, st') => st'
  | None => st
  end.

(** [-1 <= x <= 1] under the comparisons of the code. *)
Definition in_unit (x : float) : Prop :=
  fle (i2f (-1)) x = true /\ fle x (i2f 1) = true.

(** [m * 2^e <= 2^K], over the integers. *)
Definition le_pow2 (m e K : Z) : Prop := e <= K /\ m <= 2 ^ (K - e).

(** [x] is a zero or a finite number of magnitude at most [2^K]. *)
Definition mag_le (K : Z) (x : spec_float) : Prop :=
  match x with
  | S754_zero _ => True
  | S754_finite _ m e => e <= K /\ Zpos m <= 2 ^ (K - e)
  | _ => False
  end.

(** The magnitude of a finite number, as a real number; 0 otherwise. *)
Definition magR (x : spec_float) : R :=
  match x with
  | S754_finite _ m e => (IZR (Zpos m) * powerRZ 2 e)%R
  | _ => 0%R
  end.

(** A zero or a finite number. *)
Definition is_finite (x : spec_float) : Prop :=
  match x with
  | S754_zero _ | S754_finite _ _ _ => True
  | _ => False
  end.

(** [fabs] of a [double]. *)
Definition dabs : double -> double := SFabs.
Arguments dabs : simpl never.

(** The [double] [2^k], for [-1022 <= k <= 1023]. *)
Definition dpow2 (k : Z) : double :=
  S754_finite false 4503599627370496 (k - 52).

(** What the bound on the step of [calcPath] asks of [h = hypot(x, y)],
    the norm of the interpolated gradient [(x, y)]: [h] is a binary64
    number that is at least [|x|] and [|y|], with
    [2^-126 <= h <= 2^125].  Below [2^-126] the quotient [pathStep/h]
    can exceed the range of [float]; above [2^125] it is subnormal in
    [float], where the rounding error is no longer small against it. *)
Definition norm_ok (x y : float) (h : double) : Prop :=
  valid_binary 53 1024 h = true /\
  fle (dabs (f2d x)) h = true /\ fle (dabs (f2d y)) h = true /\
  fle (dpow2 (-126)) h = true /\ fle h (dpow2 125) = true.

(** A 7 x 7 grid of free cells with the goal at (5,5) = cell 40, after
    [setupNavFn] and a Dijkstra propagation that reaches the start (1,1).
    The potential decreases towards the goal; cell 16 is (2,2) and cell
    24 is (3,3). *)
Definition open7 : NavFn := planner 7 7 (replicate 49 50) (5, 5) (1, 1).
Definition prop7 : NavFn := after_dijkstra 20 true (after_setup open7).

(** The state in which [calcPath(24)] enters its loop on that planner,
    with the default [pathStep = 0.5] ... *)
Definition enter7 : NavFn := calcPath_entry 24 prop7.

(** ... and with [pathStep = -3]. *)
Definition enter7_back : NavFn :=
  calcPath_entry 24 (set_pathStep (i2f (-3)) prop7).

(** The smallest positive [float], [2^-149] ... *)
Definition faint : float := S754_finite false 1 (-149).

(** ... and [enter7] with the gradient [(2^-149, 0)] already stored at
    the cells 16, 17, 23 and 24, which [gradCell] then leaves as they
    are. *)
Definition enter7_faint : NavFn :=
  set_gradx (<[16%nat := faint]> (<[17%nat := faint]> (<[23%nat := faint]>
             (<[24%nat := faint]> (gradx enter7))))) enter7.

(** The [float] [1.505859375 * 2^127] ... *)
Definition steep : float := S754_finite false 12632064 104.

(** ... and [enter7] with [pathStep = 1] and the gradients [(1, 0)] at
    the cells 16 and 23 and [(steep, 0)] at the cells 17 and 24. *)
Definition enter7_steep : NavFn :=
  set_pathStep (i2f 1)
    (set_gradx (<[16%nat := i2f 1]> (<[17%nat := steep]> (<[23%nat := i2f 1]>
                (<[24%nat := steep]> (gradx enter7))))) enter7).

(* ===================================================================== *)
(** ** The invariant of the propagation                                  *)
(* ===================================================================== *)

(** The entries [0 .. cnt) of a priority array: the cells that are
    queued in it. *)
Definition live (b : bufid) (cnt : Z) (st : NavFn) : list Z :=
  take (Z.to_nat cnt) (buf b st).

(** A cell of the grid that is not an obstacle. *)
Definition free_cell (st : NavFn) (n : Z) : Prop :=
  0 <= n < ns st /\ exists c, rd (costarr st) n = Some c /\ c < COST_OBS.

(** The border of the cost array holds obstacles, as [setupNavFn] leaves
    it. *)
Definition border_obs (st : NavFn) : Prop :=
  forall x y, on_border st x y ->
    exists c, rd (costarr st) (cell st x y) = Some c /\ COST_OBS <= c.

(** [curP], [nextP] and [overP] point to three different arrays, and
    every queued cell is a free cell. *)
Definition queues_ok (st : NavFn) : Prop :=
  curP st <> nextP st /\ curP st <> overP st /\ nextP st <> overP st /\
  Forall (free_cell st) (live (curP st) (curPe st) st) /\
  Forall (free_cell st) (live (nextP st) (nextPe st) st) /\
  Forall (free_cell st) (live (overP st) (overPe st) st).

(** The state in which the propagation runs: a well-formed planner whose
    border is blocked and whose queues hold free cells. *)
Definition safe (st : NavFn) : Prop :=
  wf st /\ border_obs st /\ queues_ok st.

(** What the propagation leaves alone. *)
Definition same_grid (s s' : NavFn) : Prop :=
  nx s' = nx s /\ ny s' = ny s /\ ns s' = ns s /\
  costarr s' = costarr s /\ goal s' = goal s /\ start s' = start s /\
  priInc s' = priInc s.

(** What an update leaves alone while the current priority block is
    processed. *)
Definition same_cur (s s' : NavFn) : Prop :=
  curP s' = curP s /\ nextP s' = nextP s /\ overP s' = overP s /\
  curPe s' = curPe s /\ buf (curP s) s' = buf (curP s) s.

(** From [s] to [s'] the cost array is unchanged and every potential is
    either unchanged or strictly lower, the latter at free cells only. *)
Definition pot_evolves (s s' : NavFn) : Prop :=
  costarr s' = costarr s /\ length (potarr s') = length (potarr s) /\
  forall k old, potarr s !! k = Some old ->
    exists new, potarr s' !! k = Some new /\
      (new = old \/
       (flt new old = true /\ exists c, costarr s !! k = Some c /\ c < COST_OBS)).

(** What a step of the propagation keeps. *)
Definition keeps (s s' : NavFn) : Prop :=
  safe s' /\ same_grid s s' /\ same_cur s s'.

(* ===================================================================== *)
(** ** The A* propagation loop: [NavFn::propNavFnAstar]                  *)
(* ===================================================================== *)

Section LibmLoops.
Variable hypot : double -> double -> double.

(** The loop that calls [updateCellAstar] on the [curPe] entries of
    [curP]. *)
Fixpoint update_cells_astar (i : nat) (j : Z) (st : NavFn) : option NavFn :=
  match i with
  | O => Some st
  | S i' =>
      c ← rd (buf (curP st) st) j;
      st ← updateCellAstar hypot c st;
      update_cells_astar i' (j + 1) st
  end.

(** One turn of the [for] loop; the test of the start cell is not
    optional here.  The display callback is not called ([displayInt] is
    0 unless [display] is used) and the counters of the debug message
    are not part of the state. *)
Definition astar_turn (startCell : Z) (st : NavFn) : option turn :=
  if (curPe st =? 0) && (nextPe st =? 0) then Some Drained
  else
    (* reset pending flags on current priority buffer *)
    st ← reset_pending (Z.to_nat (curPe st)) 0 st;
    (* process current priority buffer *)
    st ← update_cells_astar (Z.to_nat (curPe st)) 0 st;
    (* swap priority blocks curP <=> nextP *)
    let st := set_nextPe 0 (set_curPe (nextPe st) st) in
    let pb := curP st in
    let st := set_nextP pb (set_curP (nextP st) st) in
    (* see if we're done with this priority level *)
    let st :=
      if curPe st =? 0 then
        let st := set_curT (fadd (curT st) (priInc st)) st in
        let st := set_overPe 0 (set_curPe (overPe st) st) in
        let pb := curP st in
        set_overP pb (set_curP (overP st) st)
      else st in
    (* check if we've hit the Start cell *)
    p ← rd (potarr st) startCell;
    if below_POT_HIGH p then Some (HitStart st) else Some (Next st).

(** The [for] loop with [rem] turns left; the result is the state in
    which the loop is left. *)
Fixpoint astar_loop (rem : nat) (startCell : Z) (st : NavFn) : option NavFn :=
  match rem with
  | O => Some st
  | S rem' =>
      t ← astar_turn startCell st;
      match t with
      | Drained => Some st
      | HitStart st' => Some st'
      | Next st' => astar_loop rem' startCell st'
      end
  end.

(** [propNavFnAstar(cycles)]: the returned value, the value stored in
    the member [last_path_cost_] (which nothing else writes and only
    [getLastPathCost] reads), and the planner. *)
Definition propNavFnAstar (cycles : Z) (st : NavFn)
    : option (bool * float * NavFn) :=
  (* set initial threshold, based on distance *)
  let dist :=
    d2f (dmul (hypot (i2d ((goal st).1 - (start st).1))
                     (i2d ((goal st).2 - (start st).2)))
              (f2d (i2f COST_NEUTRAL))) in
  let st := set_curT (fadd dist (curT st)) st in
  (* set up start cell *)
  let startCell := (start st).2 * nx st + (start st).1 in
  st ← astar_loop (Z.to_nat cycles) startCell st;
  last_path_cost_ ← rd (potarr st) startCell;
  p ← rd (potarr st) startCell;
  Some (below_POT_HIGH p, last_path_cost_, st).

End LibmLoops.

(* ===================================================================== *)
(** ** The planning calls: [calcNavFnDijkstra], [calcNavFnAstar]         *)
(* ===================================================================== *)

Section LibmCalls.
Variable hypot : double -> double -> double.

(** [std::max(nx*ny/20, nx+ny)], with the division of [int]. *)
Definition prop_cycles (st : NavFn) : Z :=
  Z.max (Z.quot (nx st * ny st) 20) (nx st + ny st).

(** [calcNavFnDijkstra(atStart)]: setup, propagation, path; true when a
    path was found. *)
Definition calcNavFnDijkstra (atStart : bool) (st : NavFn)
    : option (bool * NavFn) :=
  st ← setupNavFn true st;
  (* calculate the nav fn and path *)
  '(_, st) ← propNavFnDijkstra (prop_cycles st) atStart st;
  (* path *)
  '(len, st) ← calcPath hypot (Z.quot (nx st * ny st) 2) None st;
  Some (if len >? 0 then true else false, st).

(** [calcNavFnAstar()]; the second component is [last_path_cost_]. *)
Definition calcNavFnAstar (st : NavFn) : option (bool * float * NavFn) :=
  st ← setupNavFn true st;
  (* calculate the nav fn and path *)
  '(_, last_path_cost_, st) ← propNavFnAstar hypot (prop_cycles st) st;
  (* path *)
  '(len, st) ← calcPath hypot (nx st * 4) None st;
  Some (if len >? 0 then true else false, last_path_cost_, st).

End LibmCalls.

(* ===================================================================== *)
(** ** What the gradient and the path tracer write                       *)
(* ===================================================================== *)

(** [s'] is [s] with new contents in [gradx] and [grady], of the same
    length: what [gradCell] may change. *)
Definition grad_frame (s s' : NavFn) : Prop :=
  exists gx gy,
    s' = set_grady gy (set_gradx gx s) /\
    length gx = length (gradx s) /\ length gy = length (grady s).

(** [s'] is [s] but for [gradx], [grady], [pathx], [pathy], [npathbuf]
    and [npath]: what [calcPath] may change. *)
Definition path_frame (s s' : NavFn) : Prop :=
  exists gx gy px py nb np,
    s' = set_npath np (set_npathbuf nb (set_pathy py (set_pathx px
           (set_grady gy (set_gradx gx s))))) /\
    length gx = length (gradx s) /\ length gy = length (grady s).

(** The path points recorded in [s] are still there in [s']. *)
Definition path_prefix (s s' : NavFn) : Prop :=
  npath s <= npath s' /\
  forall k, 0 <= k < npath s ->
    rd (pathx s') k = rd (pathx s) k /\ rd (pathy s') k = rd (pathy s) k.

(* ===================================================================== *)
(** ** The pending flags and the queues                                  *)
(* ===================================================================== *)

(** The cells in the three priority blocks, current block first. *)
Definition queued (st : NavFn) : list Z :=
  live (curP st) (curPe st) st ++
  live (nextP st) (nextPe st) st ++ live (overP st) (overPe st) st.

(** The cells in the next and in the overflow block. *)
Definition waiting (st : NavFn) : list Z :=
  live (nextP st) (nextPe st) st ++ live (overP st) (overPe st) st.

(** [pending] is set at the cells of [L] and nowhere else, and no cell
    occurs twice in [L]. *)
Definition marks (L : list Z) (st : NavFn) : Prop :=
  NoDup L /\ forall n, rd (pending st) n = Some true <-> n ∈ L.

(** [curP], [nextP] and [overP] point to three different arrays. *)
Definition three_bufs (st : NavFn) : Prop :=
  curP st <> nextP st /\ curP st <> overP st /\ nextP st <> overP st.

(** Between two turns of the propagation loop. *)
Definition queues_marked (st : NavFn) : Prop :=
  three_bufs st /\ marks (queued st) st.

(** While the current block is processed, after its flags are reset. *)
Definition waits (st : NavFn) : Prop :=
  three_bufs st /\ marks (waiting st) st.

(* ===================================================================== *)
(** ** More concrete planner objects                                     *)
(* ===================================================================== *)

(** The state [propNavFnAstar] leaves, with [hypot_sqrt]. *)
Definition after_astar (cycles : Z) (st : NavFn) : NavFn :=
  match propNavFnAstar hypot_sqrt cycles st with
  | Some (_, _, st') => st'
  | None => st
  end.

(** A 5 x 5 grid of free cells with the goal in the lower left corner
    (0,4) = cell 20 = [ns - nx]. *)
Definition goal_corner : NavFn := planner 5 5 (replicate 25 50) (0, 4) (1, 1).

(* ===================================================================== *)
(** * Properties                                                         *)
(* ===================================================================== *)

(* ===================================================================== *)
(** ** Floating point: order and rounding facts                          *)
(* ===================================================================== *)

Lemma SFcompare_Lt_trans a b c :
  SFcompare a b = Some Lt -> SFcompare b c = Some Lt -> SFcompare a c = Some Lt.
Proof.
  destruct a as [sa|sa| |sa ma ea], b as [sb|sb| |sb mb eb], c as [sc|sc| |sc mc ec];
    simpl; try discriminate; try (destruct sa; discriminate); try (destruct sb; discriminate);
    try (destruct sc; discriminate);
    try (destruct sa, sb; discriminate); try (destruct sb, sc; discriminate);
    try (destruct sa, sb, sc; simpl; congruence).
  destruct sa, sb, sc; simpl; try congruence;
  rewrite ?Pos.compare_cont_spec; simpl;
  destruct (Z.compare_spec ea eb), (Z.compare_spec eb ec), (Z.compare_spec ea ec); try congruence; try lia;
  subst; rewrite <- ?Pos.compare_cont_spec; simpl;
  change (Pos.compare_cont Eq ?a ?b) with (Pos.compare a b);
  destruct (Pos.compare_spec ma mb), (Pos.compare_spec mb mc), (Pos.compare_spec ma mc); simpl; try congruence; try lia.
Qed.

Lemma SFltb_asym a b : SFltb a b = true -> SFltb b a = false.
Proof.
  unfold SFltb.
  destruct a as [sa|sa| |sa ma ea], b as [sb|sb| |sb mb eb]; simpl; try discriminate; try reflexivity;
  try (destruct sa; try discriminate; reflexivity); try (destruct sb; try discriminate; reflexivity);
  try (destruct sa, sb; try discriminate; reflexivity).
  destruct sa, sb; simpl; try congruence;
  change (Pos.compare_cont Eq ?a ?b) with (Pos.compare a b);
  destruct (Z.compare_spec ea eb), (Z.compare_spec eb ea); try congruence; try lia;
  destruct (Pos.compare_spec ma mb), (Pos.compare_spec mb ma); simpl; try congruence; try lia.
Qed.

Section Rounding.
Variables prec emax : Z.
Hypothesis prec_pos : 0 < prec.

Lemma digits2_pos_bounds m :
  2 ^ (Zpos (digits2_pos m) - 1) <= Zpos m < 2 ^ (Zpos (digits2_pos m)).
Proof.
  induction m as [m IH|m IH|]; simpl digits2_pos; [| |simpl; lia];
    rewrite Pos2Z.inj_succ;
    replace (Z.succ (Z.pos (digits2_pos m)) - 1) with (Z.succ (Z.pos (digits2_pos m) - 1)) by lia;
    rewrite !Z.pow_succ_r by lia;
    [change (Zpos m~1) with (2 * Zpos m + 1) | change (Zpos m~0) with (2 * Zpos m)]; lia.
Qed.

Lemma shr_1_m mrs : 0 <= shr_m mrs -> shr_m (shr_1 mrs) = shr_m mrs / 2.
Proof.
  destruct mrs as [m r s]; simpl. intros Hm.
  destruct m as [|[p|p|]|p]; simpl; try lia; try reflexivity.
  - change (Zpos p~1) with (2 * Zpos p + 1). apply Z.div_unique with 1; lia.
  - change (Zpos p~0) with (2 * Zpos p). apply Z.div_unique with 0; lia.
Qed.

Lemma iter_shr_1_m p : forall mrs,
  0 <= shr_m mrs -> shr_m (SpecFloat.iter_pos shr_1 p mrs) = shr_m mrs / 2 ^ Zpos p.
Proof.
  induction p as [p IH|p IH|]; intros mrs Hm; simpl SpecFloat.iter_pos.
  - assert (H1 : 0 <= shr_m (shr_1 mrs)) by (rewrite shr_1_m by done; apply Z.div_pos; lia).
    assert (H2 : 0 <= shr_m (SpecFloat.iter_pos shr_1 p (shr_1 mrs))) by (rewrite IH by done; apply Z.div_pos; lia).
    rewrite IH, IH, shr_1_m by done.
    rewrite !Z.div_div by lia. f_equal.
    change (Zpos p~1) with (2 * Zpos p + 1).
    replace (2 * Zpos p + 1) with (1 + Zpos p + Zpos p) by lia.
    rewrite !Z.pow_add_r by lia. change (2 ^ 1) with 2. lia.
  - assert (H2 : 0 <= shr_m (SpecFloat.iter_pos shr_1 p mrs)) by (rewrite IH by done; apply Z.div_pos; lia).
    rewrite IH, IH by done. rewrite !Z.div_div by lia. f_equal.
    change (Zpos p~0) with (2 * Zpos p).
    replace (2 * Zpos p) with (Zpos p + Zpos p) by lia.
    rewrite !Z.pow_add_r by lia. lia.
  - rewrite shr_1_m by done. reflexivity.
Qed.

Lemma shr_record_of_loc_m m l : shr_m (shr_record_of_loc m l) = m.
Proof. destruct l as [|[]]; reflexivity. Qed.

Lemma shr_fexp_pos m e l :
  0 < m -> emin prec emax <= e ->
  0 < shr_m (shr_fexp prec emax m e l).1 /\ emin prec emax <= (shr_fexp prec emax m e l).2.
Proof.
  intros Hm He. unfold shr_fexp, shr.
  destruct m as [|m|m]; try lia. simpl Zdigits2.
  pose proof (digits2_pos_bounds m) as Hd.
  set (d := Zpos (digits2_pos m)) in *.
  unfold fexp.
  destruct (Z.max (d + e - prec) (emin prec emax) - e) as [|n|n] eqn:Hn; simpl;
    rewrite ?shr_record_of_loc_m; try lia.
  rewrite iter_shr_1_m by (rewrite shr_record_of_loc_m; lia).
  rewrite shr_record_of_loc_m. split; [|lia].
  assert (Hle : Zpos n <= d - 1) by lia.
  apply Z.div_str_pos. split; [apply Z.pow_pos_nonneg; lia|].
  etransitivity; [|apply Hd]. apply Z.pow_le_mono_r; lia.
Qed.

Lemma round_nearest_even_ge m l : m <= round_nearest_even m l.
Proof. destruct l as [|[]]; simpl; try lia. destruct (Z.even m); lia. Qed.

Lemma binary_round_aux_sign s m e l :
  0 < m -> emin prec emax <= e ->
  (exists m' e', binary_round_aux prec emax s m e l = S754_finite s m' e') \/
  binary_round_aux prec emax s m e l = S754_infinity s.
Proof.
  intros Hm He. unfold binary_round_aux.
  pose proof (shr_fexp_pos m e l Hm He) as [H1 H2].
  destruct (shr_fexp prec emax m e l) as [mrs' e']. simpl in H1, H2.
  pose proof (round_nearest_even_ge (shr_m mrs') (loc_of_shr_record mrs')) as Hr.
  pose proof (shr_fexp_pos (round_nearest_even (shr_m mrs') (loc_of_shr_record mrs')) e' loc_Exact ltac:(lia) H2) as [H3 H4].
  destruct (shr_fexp prec emax _ e' loc_Exact) as [mrs'' e'']. simpl in H3, H4.
  destruct (shr_m mrs''); try lia.
  destruct (e'' <=? emax - prec); eauto.
Qed.

Lemma shl_align_snd m e e' : Z.min e e' <= (shl_align m e e').2.
Proof. unfold shl_align. destruct (e' - e) eqn:H; simpl; lia. Qed.

Lemma binary_round_sign s m e :
  emin prec emax <= e ->
  (exists m' e', binary_round prec emax s m e = S754_finite s m' e') \/
  binary_round prec emax s m e = S754_infinity s.
Proof.
  intros He. unfold binary_round.
  pose proof (shl_align_snd m e (fexp prec emax (Z.pos (digits2_pos m) + e))) as Hs.
  destruct (shl_align m e _) as [mz ez]. simpl in Hs.
  apply binary_round_aux_sign; [lia|].
  unfold fexp in *. lia.
Qed.

Lemma binary_round_aux_opp s m e l :
  SFopp (binary_round_aux prec emax s m e l) = binary_round_aux prec emax (negb s) m e l.
Proof.
  unfold binary_round_aux.
  destruct (shr_fexp prec emax m e l) as [mrs' e'].
  destruct (shr_fexp prec emax _ e' loc_Exact) as [mrs'' e''].
  destruct (shr_m mrs''); try reflexivity.
  destruct (e'' <=? emax - prec); reflexivity.
Qed.

Lemma binary_round_opp s m e :
  SFopp (binary_round prec emax s m e) = binary_round prec emax (negb s) m e.
Proof.
  unfold binary_round. destruct (shl_align m e _) as [mz ez]. apply binary_round_aux_opp.
Qed.

Lemma binary_round_aux_not_neg m e l :
  SFltb (binary_round_aux prec emax false m e l) (S754_zero false) = false.
Proof.
  unfold binary_round_aux.
  destruct (shr_fexp prec emax m e l) as [mrs' e'].
  destruct (shr_fexp prec emax _ e' loc_Exact) as [mrs'' e''].
  destruct (shr_m mrs''); try reflexivity.
  destruct (e'' <=? emax - prec); reflexivity.
Qed.


Lemma pos_iter_xO m d : Zpos (Pos.iter xO m d) = Zpos m * 2 ^ Zpos d.
Proof.
  revert m. induction d as [|d IH] using Pos.peano_ind; intros m.
  - simpl. lia.
  - rewrite Pos.iter_succ.
    change (Zpos (Pos.iter xO m d)~0) with (2 * Zpos (Pos.iter xO m d)).
    rewrite IH, Pos2Z.inj_succ, Z.pow_succ_r by lia. lia.
Qed.

Lemma shl_align_fst m e e' :
  e' <= e -> Zpos (shl_align m e e').1 = Zpos m * 2 ^ (e - e').
Proof.
  intros H. unfold shl_align. destruct (e' - e) as [|d|d] eqn:Hd; simpl; try lia.
  - replace (e - e') with 0 by lia. simpl. lia.
  - rewrite pos_iter_xO. f_equal. f_equal. lia.
Qed.

Lemma bounded_canonical m e :
  bounded prec emax m e = true ->
  emin prec emax <= e /\ Zpos (digits2_pos m) <= prec /\
  (emin prec emax < e -> Zpos (digits2_pos m) = prec).
Proof.
  unfold bounded, canonical_mantissa, fexp. intros H.
  apply andb_prop in H as [H _]. apply Z.eqb_eq in H. lia.
Qed.

Lemma aligned_compare mx ex my ey :
  bounded prec emax mx ex = true -> bounded prec emax my ey = true ->
  (Zpos (shl_align mx ex (Z.min ex ey)).1 ?= Zpos (shl_align my ey (Z.min ex ey)).1) =
  match ex ?= ey with
  | Lt => Lt
  | Gt => Gt
  | Eq => Pos.compare_cont Eq mx my
  end.
Proof.
  intros Hx Hy.
  apply bounded_canonical in Hx as (Hx1 & Hx2 & Hx3).
  apply bounded_canonical in Hy as (Hy1 & Hy2 & Hy3).
  rewrite !shl_align_fst by lia.
  pose proof (digits2_pos_bounds mx) as Bx. pose proof (digits2_pos_bounds my) as By.
  destruct (Z.compare_spec ex ey) as [E|E|E].
  - subst. rewrite Z.min_id, Z.sub_diag. simpl (2 ^ 0). rewrite !Z.mul_1_r. reflexivity.
  - rewrite Z.min_l by lia. rewrite Z.sub_diag. simpl (2 ^ 0). rewrite Z.mul_1_r.
    apply Z.compare_lt_iff.
    rewrite Hy3 in By by lia.
    assert (Zpos mx < 2 ^ prec).
    { eapply Z.lt_le_trans; [apply Bx|]. apply Z.pow_le_mono_r; lia. }
    assert (2 ^ 1 <= 2 ^ (ey - ex)) by (apply Z.pow_le_mono_r; lia).
    change (2 ^ 1) with 2 in *.
    assert (2 ^ prec = 2 * 2 ^ (prec - 1)).
    { replace prec with (Z.succ (prec - 1)) at 1 by lia. rewrite Z.pow_succ_r by lia. lia. }
    nia.
  - rewrite Z.min_r by lia. rewrite Z.sub_diag. simpl (2 ^ 0). rewrite Z.mul_1_r.
    apply Z.compare_gt_iff.
    rewrite Hx3 in Bx by lia.
    assert (Zpos my < 2 ^ prec).
    { eapply Z.lt_le_trans; [apply By|]. apply Z.pow_le_mono_r; lia. }
    assert (2 ^ 1 <= 2 ^ (ex - ey)) by (apply Z.pow_le_mono_r; lia).
    change (2 ^ 1) with 2 in *.
    assert (2 ^ prec = 2 * 2 ^ (prec - 1)).
    { replace prec with (Z.succ (prec - 1)) at 1 by lia. rewrite Z.pow_succ_r by lia. lia. }
    nia.
Qed.

Lemma binary_normalize_ltb_zero z e :
  emin prec emax <= e ->
  SFltb (binary_normalize prec emax z e false) (S754_zero false) = (z <? 0).
Proof.
  intros He. destruct z as [|p|p]; simpl binary_normalize.
  - reflexivity.
  - destruct (binary_round_sign false p e He) as [(m' & e' & ->)| ->]; reflexivity.
  - destruct (binary_round_sign true p e He) as [(m' & e' & ->)| ->]; reflexivity.
Qed.

Lemma SFsub_ltb_zero a b :
  valid_binary prec emax a = true -> valid_binary prec emax b = true ->
  SFltb (SFsub prec emax a b) (S754_zero false) = SFltb a b.
Proof.
  intros Va Vb.
  destruct a as [sa|sa| |sa ma ea], b as [sb|sb| |sb mb eb];
    try reflexivity; try (destruct sa; reflexivity); try (destruct sb; reflexivity);
    try (destruct sa, sb; reflexivity).
  simpl in Va, Vb. unfold SFsub.
  pose proof (bounded_canonical _ _ Va) as (Ha & _).
  pose proof (bounded_canonical _ _ Vb) as (Hb & _).
  rewrite binary_normalize_ltb_zero by lia.
  pose proof (aligned_compare ma ea mb eb Va Vb) as Hc.
  set (X := Zpos (shl_align ma ea (Z.min ea eb)).1) in *.
  set (Y := Zpos (shl_align mb eb (Z.min ea eb)).1) in *.
  assert (0 < X) by (subst X; lia). assert (0 < Y) by (subst Y; lia).
  unfold SFltb, SFcompare. 
  destruct sa, sb; simpl cond_Zopp.
  - destruct (ea ?= eb); rewrite <- ?Hc.
    + destruct (Z.compare_spec X Y); simpl; lia.
    + destruct (Z.compare_spec X Y); try discriminate. lia.
    + destruct (Z.compare_spec X Y); try discriminate. lia.
  - lia.
  - lia.
  - destruct (ea ?= eb); rewrite <- ?Hc.
    + destruct (Z.compare_spec X Y); simpl; lia.
    + destruct (Z.compare_spec X Y); try discriminate. lia.
    + destruct (Z.compare_spec X Y); try discriminate. lia.
Qed.

Lemma SFsub_opp a b :
  SFltb (SFsub prec emax a b) (S754_zero false) = true ->
  SFopp (SFsub prec emax a b) = SFsub prec emax b a.
Proof.
  destruct a as [sa|sa| |sa ma ea], b as [sb|sb| |sb mb eb];
    try discriminate; try (destruct sa; (discriminate || reflexivity));
    try (destruct sb; (discriminate || reflexivity));
    try (destruct sa, sb; (discriminate || reflexivity)).
  unfold SFsub. rewrite (Z.min_comm eb ea).
  set (X := cond_Zopp sa (Zpos (shl_align ma ea (Z.min ea eb)).1)).
  set (Y := cond_Zopp sb (Zpos (shl_align mb eb (Z.min ea eb)).1)).
  replace (Y - X) with (- (X - Y)) by lia.
  destruct (X - Y) as [|p|p]; simpl binary_normalize.
  - discriminate.
  - unfold binary_round. destruct (shl_align p _ _) as [mz ez].
    rewrite binary_round_aux_not_neg. discriminate.
  - intros _. apply binary_round_opp.
Qed.

End Rounding.
(* ===================================================================== *)
(** ** Rounding of exact values: validity and magnitude                  *)
(* ===================================================================== *)

Section Format.
Variables prec emax : Z.
Hypothesis prec_pos : 0 < prec.
Hypothesis prec_lt_emax : prec < emax.

Local Abbreviation emin := (emin prec emax).
Local Abbreviation fexp := (fexp prec emax).

Lemma emin_nonpos : emin <= 0.
Proof. unfold SpecFloat.emin. lia. Qed.

Lemma Zdigits2_pos m : 0 < m -> 0 < Zdigits2 m.
Proof. destruct m; simpl; lia. Qed.

Lemma Zdigits2_bounds m :
  0 < m -> 2 ^ (Zdigits2 m - 1) <= m < 2 ^ Zdigits2 m.
Proof. destruct m as [|p|p]; try lia. intros _. apply digits2_pos_bounds. Qed.

Lemma Zdigits2_unique m d :
  2 ^ (d - 1) <= m < 2 ^ d -> 0 < m -> Zdigits2 m = d.
Proof.
  intros Hd Hm. pose proof (Zdigits2_bounds m Hm) as Hb.
  pose proof (Zdigits2_pos m Hm) as Hp.
  destruct (Z.lt_trichotomy (Zdigits2 m) d) as [Hlt|[->|Hgt]]; [exfalso|done|exfalso].
  - assert (2 ^ Zdigits2 m <= 2 ^ (d - 1)) by (apply Z.pow_le_mono_r; lia). lia.
  - destruct (Z.le_gt_cases d 0) as [Hd0|Hd0].
    + assert (H0 : 2 ^ d <= 2 ^ 0) by (apply Z.pow_le_mono_r; lia).
      change (2 ^ 0) with 1 in H0. lia.
    + assert (2 ^ d <= 2 ^ (Zdigits2 m - 1)) by (apply Z.pow_le_mono_r; lia). lia.
Qed.

Lemma Zdigits2_div_pow m n :
  0 < m -> 0 <= n < Zdigits2 m -> Zdigits2 (m / 2 ^ n) = Zdigits2 m - n /\ 0 < m / 2 ^ n.
Proof.
  intros Hm Hn. pose proof (Zdigits2_bounds m Hm) as Hb.
  set (d := Zdigits2 m) in *.
  assert (P : 0 < 2 ^ n) by (apply Z.pow_pos_nonneg; lia).
  assert (E1 : 2 ^ (d - 1) = 2 ^ (d - n - 1) * 2 ^ n).
  { rewrite <- Z.pow_add_r by lia. f_equal. lia. }
  assert (E2 : 2 ^ d = 2 ^ (d - n) * 2 ^ n).
  { rewrite <- Z.pow_add_r by lia. f_equal. lia. }
  assert (L : 2 ^ (d - n - 1) <= m / 2 ^ n).
  { apply Z.div_le_lower_bound; lia. }
  assert (U : m / 2 ^ n < 2 ^ (d - n)).
  { apply Z.div_lt_upper_bound; lia. }
  assert (0 < 2 ^ (d - n - 1)) by (apply Z.pow_pos_nonneg; lia).
  split; [|lia]. apply Zdigits2_unique; [|lia].
  split; [exact L|exact U].
Qed.

Lemma Zdigits2_small_div m n :
  0 < m -> Zdigits2 m <= n -> m / 2 ^ n = 0.
Proof.
  intros Hm Hn. pose proof (Zdigits2_bounds m Hm) as Hb.
  apply Z.div_small. split; [lia|].
  eapply Z.lt_le_trans; [apply Hb|]. apply Z.pow_le_mono_r; lia.
Qed.

Lemma Zdigits2_succ m :
  0 < m ->
  Zdigits2 (m + 1) = Zdigits2 m \/
  (Zdigits2 (m + 1) = Zdigits2 m + 1 /\ m + 1 = 2 ^ Zdigits2 m).
Proof.
  intros Hm. pose proof (Zdigits2_bounds m Hm) as Hb.
  pose proof (Zdigits2_pos m Hm) as Hp.
  set (d := Zdigits2 m) in *.
  destruct (Z.eq_dec (m + 1) (2 ^ d)) as [E|NE].
  - right. split; [|done]. apply Zdigits2_unique; [|lia].
    replace (d + 1 - 1) with d by lia. rewrite Z.pow_add_r by lia. simpl (2 ^ 1). lia.
  - left. apply Zdigits2_unique; lia.
Qed.

(** *** Shifting right *)

Lemma shr_value mrs e n :
  0 <= shr_m mrs ->
  shr_m (shr mrs e n).1 = shr_m mrs / 2 ^ Z.max 0 n /\
  (shr mrs e n).2 = e + Z.max 0 n.
Proof.
  intros H. unfold shr. destruct n as [|p|p]; simpl.
  - rewrite Z.div_1_r. lia.
  - rewrite iter_shr_1_m by done. split; [done|lia].
  - rewrite Z.div_1_r. lia.
Qed.

Lemma shr_1_exact mrs :
  0 <= shr_m mrs -> shr_r mrs = false -> shr_s mrs = false ->
  (2 | shr_m mrs) ->
  shr_r (shr_1 mrs) = false /\ shr_s (shr_1 mrs) = false.
Proof.
  destruct mrs as [m r s]; simpl. intros Hm -> -> [k Hk].
  destruct m as [|[p|p|]|p]; simpl; try done; lia.
Qed.

Lemma iter_shr_1_exact p : forall mrs,
  0 <= shr_m mrs -> shr_r mrs = false -> shr_s mrs = false ->
  (2 ^ Zpos p | shr_m mrs) ->
  shr_r (SpecFloat.iter_pos shr_1 p mrs) = false /\
  shr_s (SpecFloat.iter_pos shr_1 p mrs) = false.
Proof.
  induction p as [p IH|p IH|]; intros mrs Hm Hr Hs [k Hk]; simpl SpecFloat.iter_pos.
  - assert (E : 2 ^ Zpos p~1 = 2 * (2 ^ Zpos p * 2 ^ Zpos p)).
    { change (Zpos p~1) with (2 * Zpos p + 1).
      replace (2 * Zpos p + 1) with (1 + Zpos p + Zpos p) by lia.
      rewrite !Z.pow_add_r by lia. change (2 ^ 1) with 2. lia. }
    destruct (shr_1_exact mrs Hm Hr Hs) as [Hr1 Hs1].
    { exists (k * (2 ^ Zpos p * 2 ^ Zpos p)). lia. }
    assert (Hm1 : shr_m (shr_1 mrs) = k * 2 ^ Zpos p * 2 ^ Zpos p).
    { rewrite shr_1_m by done. rewrite Hk, E.
      replace (k * (2 * (2 ^ Z.pos p * 2 ^ Z.pos p))) with ((k * 2 ^ Z.pos p * 2 ^ Z.pos p) * 2) by lia.
      apply Z.div_mul. lia. }
    assert (P : 0 < 2 ^ Zpos p) by (apply Z.pow_pos_nonneg; lia).
    assert (Hm1' : 0 <= shr_m (shr_1 mrs)) by (rewrite shr_1_m by done; apply Z.div_pos; lia).
    destruct (IH (shr_1 mrs) Hm1' Hr1 Hs1) as [Hr2 Hs2].
    { exists (k * 2 ^ Zpos p). lia. }
    apply IH; try done.
    + rewrite iter_shr_1_m by done. apply Z.div_pos; lia.
    + rewrite iter_shr_1_m by done. rewrite Hm1. exists k.
      apply Z.div_mul. lia.
  - assert (E : 2 ^ Zpos p~0 = 2 ^ Zpos p * 2 ^ Zpos p).
    { change (Zpos p~0) with (2 * Zpos p).
      replace (2 * Zpos p) with (Zpos p + Zpos p) by lia.
      rewrite !Z.pow_add_r by lia. lia. }
    assert (P : 0 < 2 ^ Zpos p) by (apply Z.pow_pos_nonneg; lia).
    destruct (IH mrs Hm Hr Hs) as [Hr2 Hs2].
    { exists (k * 2 ^ Zpos p). lia. }
    apply IH; try done.
    + rewrite iter_shr_1_m by done. apply Z.div_pos; lia.
    + rewrite iter_shr_1_m by done. rewrite Hk, E. exists k.
      replace (k * (2 ^ Z.pos p * 2 ^ Z.pos p)) with (k * 2 ^ Z.pos p * 2 ^ Z.pos p) by lia.
      apply Z.div_mul. lia.
  - apply shr_1_exact; try done. exists k. rewrite Hk. simpl. lia.
Qed.

Lemma shr_exact m e n :
  0 <= m -> (2 ^ Z.max 0 n | m) ->
  loc_of_shr_record (shr (shr_record_of_loc m loc_Exact) e n).1 = loc_Exact.
Proof.
  intros Hm Hd. unfold shr. destruct n as [|p|p]; simpl; try done.
  destruct (iter_shr_1_exact p (Build_shr_record m false false)) as [Hr Hs]; try done.
  destruct (SpecFloat.iter_pos shr_1 p _) as [m' r s]. simpl in *. by subst.
Qed.

(** *** Rounding an exact value *)

Lemma canonical_iff m e :
  canonical_mantissa prec emax m e = true <-> fexp (Zdigits2 (Zpos m) + e) = e.
Proof. unfold canonical_mantissa. simpl. apply Z.eqb_eq. Qed.

(** The second shift of [binary_round_aux], after the rounding. *)
Lemma shr_fexp_second m2 e1 :
  0 < m2 -> emin <= e1 ->
  (Zdigits2 m2 <= prec /\ (Zdigits2 m2 = prec \/ e1 = emin)) \/
    Zdigits2 m2 = prec + 1 ->
  exists m3 e3,
    shr_m (shr_fexp prec emax m2 e1 loc_Exact).1 = Zpos m3 /\
    (shr_fexp prec emax m2 e1 loc_Exact).2 = e3 /\
    canonical_mantissa prec emax m3 e3 = true /\
    e1 <= e3 /\ Zpos m3 * 2 ^ (e3 - e1) <= m2.
Proof.
  intros Hm He Hd. unfold shr_fexp.
  pose proof (Zdigits2_pos m2 Hm) as Hd2.
  destruct Hd as [[Hle Hc]|Heq].
  - (* no shift *)
    replace (fexp (Zdigits2 m2 + e1) - e1) with 0 by (unfold SpecFloat.fexp; lia).
    simpl. destruct m2 as [|p|p]; try lia.
    exists p, e1. split_and!; try done; try lia.
    + apply canonical_iff. unfold SpecFloat.fexp. lia.
    + rewrite Z.sub_diag. simpl. lia.
  - (* one shift *)
    replace (fexp (Zdigits2 m2 + e1) - e1) with 1 by (unfold SpecFloat.fexp; lia).
    destruct (shr_value (shr_record_of_loc m2 loc_Exact) e1 1) as [Hv He3]; [simpl; lia|].
    change (Z.max 0 1) with 1 in Hv, He3. change (2 ^ 1) with 2 in Hv.
    change (shr_m (shr_record_of_loc m2 loc_Exact)) with m2 in Hv.
    destruct (Zdigits2_div_pow m2 1 Hm) as [Hd3 Hpos]; [lia|].
    change (2 ^ 1) with 2 in Hd3, Hpos.
    destruct (m2 / 2) as [|p|p] eqn:E; try lia.
    exists p, (e1 + 1). rewrite Hv, He3. split_and!; try done; try lia.
    + apply canonical_iff. rewrite Hd3. unfold SpecFloat.fexp. lia.
    + replace (e1 + 1 - e1) with 1 by lia. change (2 ^ 1) with 2.
      rewrite <- E. pose proof (Z.mul_div_le m2 2). lia.
Qed.


Lemma pow2_le_inv a b : 0 <= a -> 2 ^ a <= 2 ^ b -> a <= b.
Proof.
  intros Ha H. destruct (Z.le_gt_cases a b) as [|Hlt]; [done|exfalso].
  destruct (Z.le_gt_cases 0 b) as [Hb|Hb].
  - assert (2 ^ b < 2 ^ a) by (apply Z.pow_lt_mono_r; lia). lia.
  - rewrite (Z.pow_neg_r 2 b) in H by lia.
    assert (0 < 2 ^ a) by (apply Z.pow_pos_nonneg; lia). lia.
Qed.

Lemma pow2_split a b : 0 <= a -> 0 <= b -> 2 ^ (a + b) = 2 ^ a * 2 ^ b.
Proof. intros. apply Z.pow_add_r; lia. Qed.

Lemma round_nearest_even_cases m l :
  round_nearest_even m l = m \/ round_nearest_even m l = m + 1.
Proof. destruct l as [|[]]; simpl; auto. destruct (Z.even m); auto. Qed.

Lemma shr_nonpos mrs e n : n <= 0 -> shr mrs e n = (mrs, e).
Proof. destruct n; simpl; try done; lia. Qed.

(** The first shift of [binary_round_aux], on an exact mantissa with
    enough digits. *)
Lemma shr_fexp_first mz ez :
  0 < mz -> ez <= fexp (Zdigits2 mz + ez) ->
  let n := fexp (Zdigits2 mz + ez) - ez in
  let r := shr_fexp prec emax mz ez loc_Exact in
  shr_m r.1 = mz / 2 ^ n /\ r.2 = fexp (Zdigits2 mz + ez) /\
  ((2 ^ n | mz) -> loc_of_shr_record r.1 = loc_Exact) /\
  (shr_m r.1 = 0 /\ r.2 = emin \/
   0 < shr_m r.1 /\ Zdigits2 (shr_m r.1) <= prec /\
     (Zdigits2 (shr_m r.1) = prec \/ r.2 = emin)).
Proof.
  intros Hm He n r. subst r. unfold shr_fexp. fold n.
  assert (Hn : 0 <= n) by (subst n; lia).
  destruct (shr_value (shr_record_of_loc mz loc_Exact) ez n) as [Hv He'].
  { simpl. lia. }
  rewrite Z.max_r in Hv, He' by done.
  change (shr_m (shr_record_of_loc mz loc_Exact)) with mz in Hv.
  rewrite Hv, He'. split_and!.
  - done.
  - subst n. lia.
  - intros Hd. apply shr_exact; [lia|]. by rewrite Z.max_r.
  - pose proof (Zdigits2_pos mz Hm) as Hd.
    destruct (Z.lt_ge_cases n (Zdigits2 mz)) as [Hlt|Hge].
    + right. destruct (Zdigits2_div_pow mz n Hm) as [E P]; [lia|].
      rewrite E. split; [done|]. subst n. unfold SpecFloat.fexp in *. lia.
    + left. split; [by apply Zdigits2_small_div|].
      subst n. unfold SpecFloat.fexp in *. lia.
Qed.

Lemma emin_le_emax : emin <= emax - prec.
Proof. unfold SpecFloat.emin. lia. Qed.

Lemma binary_round_aux_exact s mz ez :
  0 < mz -> ez <= fexp (Zdigits2 mz + ez) ->
  valid_binary prec emax (binary_round_aux prec emax s mz ez loc_Exact) = true /\
  forall K, emin <= K < emax -> le_pow2 mz ez K ->
    mag_le K (binary_round_aux prec emax s mz ez loc_Exact).
Proof.
  intros Hm He. unfold binary_round_aux.
  destruct (shr_fexp_first mz ez Hm He) as (Hv & He1 & Hex & Hdig).
  set (n := fexp (Zdigits2 mz + ez) - ez) in *.
  assert (Hn : 0 <= n) by (subst n; lia).
  destruct (shr_fexp prec emax mz ez loc_Exact) as [mrs' e1]. simpl in Hv, He1, Hex, Hdig.
  set (m1 := shr_m mrs') in *.
  set (m2 := round_nearest_even m1 (loc_of_shr_record mrs')).
  assert (Hemin : emin <= e1) by (rewrite He1; unfold SpecFloat.fexp; lia).
  assert (Hr : m2 = m1 \/ m2 = m1 + 1) by apply round_nearest_even_cases.
  assert (Hm2 : m2 = 0 \/
    0 < m2 /\ ((Zdigits2 m2 <= prec /\ (Zdigits2 m2 = prec \/ e1 = emin)) \/
               Zdigits2 m2 = prec + 1)).
  { destruct Hdig as [[Z0 E0]|(P1 & D1 & C1)].
    - destruct Hr as [->| ->]; [by left|right]. rewrite Z0. simpl. lia.
    - right. destruct Hr as [->| ->]; [split; [done|by left]|].
      split; [lia|]. destruct (Zdigits2_succ m1 P1) as [->|[-> _]]; lia. }
  assert (Hbound : forall K, emin <= K < emax -> le_pow2 mz ez K ->
            e1 <= K /\ m2 <= 2 ^ (K - e1)).
  { intros K HK [HeK HmK].
    pose proof (Zdigits2_bounds mz Hm) as Hb.
    pose proof (Zdigits2_pos mz Hm) as Hd.
    assert (Zdigits2 mz - 1 <= K - ez).
    { apply pow2_le_inv; lia. }
    assert (He1K : e1 <= K) by (rewrite He1; unfold SpecFloat.fexp; lia).
    split; [done|].
    assert (Pn : 0 < 2 ^ n) by (apply Z.pow_pos_nonneg; lia).
    assert (Esp : 2 ^ (K - ez) = 2 ^ (K - e1) * 2 ^ n).
    { rewrite <- pow2_split by lia. f_equal. lia. }
    assert (Hle : m1 <= 2 ^ (K - e1)).
    { rewrite Hv. apply Z.div_le_upper_bound; lia. }
    destruct (Z.eq_dec m1 (2 ^ (K - e1))) as [Heq|Hne].
    - assert (mz = 2 ^ (K - ez)).
      { pose proof (Z.mul_div_le mz (2 ^ n) Pn). rewrite <- Hv, Heq in H0. lia. }
      subst m2. rewrite Hex; [simpl; lia|].
      exists (2 ^ (K - e1)). lia.
    - lia. }
  destruct Hm2 as [Hz|[Hp Hd2]].
  - fold m1. fold m2. rewrite Hz. unfold shr_fexp. simpl Zdigits2.
    rewrite shr_nonpos by (unfold SpecFloat.fexp; lia). simpl. done.
  - destruct (shr_fexp_second m2 e1 Hp Hemin Hd2) as (m3 & e3 & Hv3 & He3 & Hc3 & Hle3 & Hval3).
    fold m1. fold m2.
    destruct (shr_fexp prec emax m2 e1 loc_Exact) as [mrs'' e'']. simpl in Hv3, He3.
    rewrite Hv3, He3. split.
    + destruct (Z.leb_spec e3 (emax - prec)) as [L|L]; simpl; [|done].
      unfold bounded. rewrite Hc3. simpl. by apply Z.leb_le.
    + intros K HK HP. destruct (Hbound K HK HP) as [B1 B2].
      assert (P3 : 0 < 2 ^ (e3 - e1)) by (apply Z.pow_pos_nonneg; lia).
      assert (B3 : e3 <= K).
      { destruct (Z.le_gt_cases e3 K) as [|G]; [done|exfalso].
        assert (2 ^ (K - e1) < 2 ^ (e3 - e1)) by (apply Z.pow_lt_mono_r; lia). nia. }
      assert (Esp : 2 ^ (K - e1) = 2 ^ (K - e3) * 2 ^ (e3 - e1)).
      { rewrite <- pow2_split by lia. f_equal. lia. }
      assert (B4 : Zpos m3 <= 2 ^ (K - e3)) by nia.
      assert (B5 : e3 <= emax - prec).
      { apply canonical_iff in Hc3.
        pose proof (Zdigits2_bounds (Zpos m3) ltac:(lia)) as Hb3.
        pose proof emin_le_emax.
        pose proof (Zdigits2_pos (Zpos m3) ltac:(lia)) as Hp3.
        assert (Zdigits2 (Zpos m3) - 1 <= K - e3) by (apply pow2_le_inv; lia).
        unfold SpecFloat.fexp in Hc3. lia. }
      apply Z.leb_le in B5. rewrite B5. simpl. done.
Qed.


Lemma Zdigits2_mul_pow m k :
  0 < m -> 0 <= k -> Zdigits2 (m * 2 ^ k) = Zdigits2 m + k.
Proof.
  intros Hm Hk. pose proof (Zdigits2_bounds m Hm) as Hb.
  pose proof (Zdigits2_pos m Hm) as Hd.
  assert (P : 0 < 2 ^ k) by (apply Z.pow_pos_nonneg; lia).
  apply Zdigits2_unique; [|nia].
  replace (Zdigits2 m + k - 1) with (Zdigits2 m - 1 + k) by lia.
  rewrite !pow2_split by lia. nia.
Qed.

Lemma shl_align_spec m e e' :
  (shl_align m e e').2 = Z.min e e' /\
  Zpos (shl_align m e e').1 = Zpos m * 2 ^ (e - Z.min e e').
Proof.
  unfold shl_align. destruct (e' - e) as [|d|d] eqn:Hd; simpl.
  - rewrite Z.min_l by lia. rewrite Z.sub_diag. simpl. lia.
  - rewrite Z.min_l by lia. rewrite Z.sub_diag. simpl. lia.
  - rewrite Z.min_r by lia. split; [done|]. rewrite pos_iter_xO. f_equal. f_equal. lia.
Qed.

(** What [binary_round] hands to [binary_round_aux]. *)
Lemma shl_align_fexp m e :
  let r := shl_align m e (fexp (Zdigits2 (Zpos m) + e)) in
  r.2 = Z.min e (fexp (Zdigits2 (Zpos m) + e)) /\
  Zpos r.1 = Zpos m * 2 ^ (e - r.2) /\
  Zdigits2 (Zpos r.1) + r.2 = Zdigits2 (Zpos m) + e /\
  r.2 <= fexp (Zdigits2 (Zpos r.1) + r.2).
Proof.
  intros r. subst r.
  destruct (shl_align_spec m e (fexp (Zdigits2 (Zpos m) + e))) as [E2 E1].
  rewrite E2. split; [done|]. split; [done|].
  assert (D : Zdigits2 (Zpos (shl_align m e (fexp (Zdigits2 (Zpos m) + e))).1) +
              Z.min e (fexp (Zdigits2 (Zpos m) + e)) = Zdigits2 (Zpos m) + e).
  { rewrite E1, Zdigits2_mul_pow by lia. lia. }
  split; [done|]. rewrite D. lia.
Qed.

Lemma binary_round_valid s m e :
  valid_binary prec emax (binary_round prec emax s m e) = true.
Proof.
  unfold binary_round. change (Zpos (digits2_pos m)) with (Zdigits2 (Zpos m)).
  destruct (shl_align_fexp m e) as (_ & _ & _ & H).
  destruct (shl_align m e _) as [mz ez]. simpl in H.
  apply binary_round_aux_exact; [lia|done].
Qed.

Lemma binary_round_mag s m e K :
  emin <= K < emax -> le_pow2 (Zpos m) e K ->
  mag_le K (binary_round prec emax s m e).
Proof.
  intros HK [H1 H2]. unfold binary_round.
  change (Zpos (digits2_pos m)) with (Zdigits2 (Zpos m)).
  destruct (shl_align_fexp m e) as (E2 & E1 & _ & H).
  destruct (shl_align m e _) as [mz ez]. simpl in H, E1, E2.
  apply binary_round_aux_exact; [lia|done|done|].
  split; [lia|]. rewrite E1.
  assert (0 < 2 ^ (e - ez)) by (apply Z.pow_pos_nonneg; lia).
  replace (K - ez) with (K - e + (e - ez)) by lia.
  rewrite pow2_split by lia. nia.
Qed.

Lemma binary_normalize_valid z e sz :
  valid_binary prec emax (binary_normalize prec emax z e sz) = true.
Proof. destruct z; simpl; [done|apply binary_round_valid..]. Qed.

Lemma binary_normalize_mag z e sz K :
  emin <= K < emax -> e <= K -> Z.abs z <= 2 ^ (K - e) ->
  mag_le K (binary_normalize prec emax z e sz).
Proof.
  intros HK He Hz. destruct z; simpl binary_normalize; [done|..];
    apply binary_round_mag; try done; split; lia.
Qed.

Lemma binary_round_aux_canonical s m e :
  canonical_mantissa prec emax m e = true -> e <= emax - prec ->
  binary_round_aux prec emax s (Zpos m) e loc_Exact = S754_finite s m e.
Proof.
  intros Hc He. apply canonical_iff in Hc.
  unfold binary_round_aux, shr_fexp. rewrite Hc, Z.sub_diag. simpl.
  change (Zpos (digits2_pos m)) with (Zdigits2 (Zpos m)).
  rewrite Hc, Z.sub_diag. simpl.
  apply Z.leb_le in He. by rewrite He.
Qed.

(** Rounding a number that the format holds returns that number. *)
Lemma binary_round_exact s m e :
  Zdigits2 (Zpos m) <= prec ->
  fexp (Zdigits2 (Zpos m) + e) <= e ->
  fexp (Zdigits2 (Zpos m) + e) <= emax - prec ->
  exists M,
    binary_round prec emax s m e =
      S754_finite s M (fexp (Zdigits2 (Zpos m) + e)) /\
    Zpos M = Zpos m * 2 ^ (e - fexp (Zdigits2 (Zpos m) + e)).
Proof.
  intros Hd Hf Hmax. unfold binary_round.
  change (Zpos (digits2_pos m)) with (Zdigits2 (Zpos m)).
  destruct (shl_align_fexp m e) as (E2 & E1 & D & H).
  destruct (shl_align m e _) as [mz ez]. cbn [fst snd] in H, E1, E2, D.
  rewrite Z.min_r in E2 by done. subst ez.
  exists mz. split; [|done].
  apply binary_round_aux_canonical; [|done].
  apply canonical_iff. by rewrite D.
Qed.

Lemma SFmul_valid x y :
  valid_binary prec emax x = true -> valid_binary prec emax y = true ->
  valid_binary prec emax (SFmul prec emax x y) = true.
Proof.
  intros Vx Vy.
  destruct x as [sx|sx| |sx mx ex], y as [sy|sy| |sy my ey]; try done.
  simpl in Vx, Vy. unfold SFmul.
  apply bounded_canonical in Vx as (Hx1 & Hx2 & Hx3).
  apply bounded_canonical in Vy as (Hy1 & Hy2 & Hy3).
  apply binary_round_aux_exact; [lia|].
  pose proof (digits2_pos_bounds mx) as Bx.
  pose proof (digits2_pos_bounds my) as By.
  pose proof (Zdigits2_bounds (Zpos (mx * my)) ltac:(lia)) as Bz.
  set (dx := Zpos (digits2_pos mx)) in *.
  set (dy := Zpos (digits2_pos my)) in *.
  set (D := Zdigits2 (Zpos (mx * my))) in *.
  assert (dx + dy - 2 < D).
  { assert (0 < dx) by (subst dx; lia). assert (0 < dy) by (subst dy; lia).
    assert (E : 2 ^ (dx + dy - 2) = 2 ^ (dx - 1) * 2 ^ (dy - 1)).
    { rewrite <- pow2_split by lia. f_equal. lia. }
    assert (0 < 2 ^ (dx - 1)) by (apply Z.pow_pos_nonneg; lia).
    assert (0 < 2 ^ (dy - 1)) by (apply Z.pow_pos_nonneg; lia).
    assert (2 ^ (dx + dy - 2) < 2 ^ D).
    { rewrite E. rewrite Pos2Z.inj_mul in Bz. nia. }
    destruct (Z.le_gt_cases D (dx + dy - 2)) as [L|]; [|lia].
    assert (2 ^ D <= 2 ^ (dx + dy - 2)) by (apply Z.pow_le_mono_r; lia). lia. }
  pose proof emin_nonpos.
  unfold SpecFloat.fexp. fold D.
  destruct (Z.eq_dec ex emin) as [Ex|Ex], (Z.eq_dec ey emin) as [Ey|Ey]; lia.
Qed.

End Format.

(** ** binary32 and binary64 *)

Lemma i2f_1 : i2f 1 = S754_finite false 8388608 (-23).
Proof. reflexivity. Qed.

Lemma i2f_m1 : i2f (-1) = S754_finite true 8388608 (-23).
Proof. reflexivity. Qed.

Lemma d_one_eq : d_one = S754_finite false 4503599627370496 (-52).
Proof. reflexivity. Qed.

Lemma mag_le_mono K K' x : K <= K' -> mag_le K x -> mag_le K' x.
Proof.
  destruct x; simpl; try done. intros H [H1 H2]. split; [lia|].
  etransitivity; [apply H2|]. apply Z.pow_le_mono_r; lia.
Qed.

Lemma valid32_finite s m e :
  valid32 (S754_finite s m e) ->
  -149 <= e <= 104 /\ Zpos m < 16777216 /\ Zdigits2 (Zpos m) <= 24 /\
  (-149 < e -> Zdigits2 (Zpos m) = 24 /\ 8388608 <= Zpos m).
Proof.
  unfold valid32. simpl. intros H.
  pose proof (bounded_canonical 24 128 m e H) as (H1 & H2 & H3).
  unfold bounded in H. apply andb_prop in H as [_ H4]. apply Z.leb_le in H4.
  pose proof (digits2_pos_bounds m) as B.
  change (SpecFloat.emin 24 128) with (-149) in *.
  change (128 - 24) with 104 in *.
  split; [lia|]. split.
  - eapply Z.lt_le_trans; [apply B|].
    change 16777216 with (2 ^ 24). apply Z.pow_le_mono_r; lia.
  - split; [exact H2|]. intros G. specialize (H3 G). split; [exact H3|].
    rewrite H3 in B. change (2 ^ (24 - 1)) with 8388608 in B. lia.
Qed.

Lemma f2d_finite s m e :
  valid32 (S754_finite s m e) ->
  exists M,
    f2d (S754_finite s m e) =
      S754_finite s M (Zdigits2 (Zpos m) + e - 53) /\
    Zpos M = Zpos m * 2 ^ (53 - Zdigits2 (Zpos m)).
Proof.
  intros V. apply valid32_finite in V as (He & _ & Hd & _).
  pose proof (Zdigits2_pos (Zpos m) ltac:(lia)) as Hp.
  assert (F : SpecFloat.fexp 53 1024 (Zdigits2 (Zpos m) + e) = Zdigits2 (Zpos m) + e - 53).
  { unfold SpecFloat.fexp, SpecFloat.emin. lia. }
  destruct (binary_round_exact 53 1024 s m e) as (M & E1 & E2);
    rewrite ?F; try lia.
  exists M. rewrite F in E1, E2. split.
  - unfold f2d. rewrite <- E1. by destruct s.
  - rewrite E2. f_equal. f_equal. lia.
Qed.

Lemma mag_le_0_finite s m e :
  valid32 (S754_finite s m e) ->
  mag_le 0 (S754_finite s m e) <->
  e < -23 \/ (e = -23 /\ Zpos m <= 8388608).
Proof.
  intros V. apply valid32_finite in V as (He & Hm & Hd & Hn). simpl.
  destruct (Z.lt_trichotomy e (-23)) as [L|[E|G]].
  - assert (2 ^ 24 <= 2 ^ (0 - e)) by (apply Z.pow_le_mono_r; lia).
    change (2 ^ 24) with 16777216 in *. lia.
  - subst e. change (2 ^ (0 - -23)) with 8388608. lia.
  - destruct Hn as [_ Hn]; [lia|].
    assert (e <= 0 -> 2 ^ (0 - e) <= 2 ^ 22) by (intros; apply Z.pow_le_mono_r; lia).
    change (2 ^ 22) with 4194304 in *. lia.
Qed.

Lemma SFleb_between s m e c k :
  SFleb (S754_finite true c k) (S754_finite s m e) = true /\
  SFleb (S754_finite s m e) (S754_finite false c k) = true <->
  e < k \/ (e = k /\ Zpos m <= Zpos c).
Proof.
  unfold SFleb, SFcompare.
  destruct s.
  - pose proof (Pos2Z.inj_compare c m) as Hc. unfold Pos.compare in Hc.
    rewrite Hc. clear Hc.
    destruct (Z.compare_spec k e) as [E|E|E];
      [destruct (Z.compare_spec (Zpos c) (Zpos m)) as [E'|E'|E']|..];
      cbn [CompOpp];
      (split; [intros [H1 H2]; try discriminate; lia | intros H; try lia; split; reflexivity]).
  - pose proof (Pos2Z.inj_compare m c) as Hc. unfold Pos.compare in Hc.
    rewrite Hc. clear Hc.
    destruct (Z.compare_spec e k) as [E|E|E];
      [destruct (Z.compare_spec (Zpos m) (Zpos c)) as [E'|E'|E']|..];
      (split; [intros [H1 H2]; try discriminate; lia | intros H; try lia; split; reflexivity]).
Qed.

Lemma SFltb_finite s1 m1 e1 s2 m2 e2 :
  SFltb (S754_finite s1 m1 e1) (S754_finite s2 m2 e2) = true <->
  match s1, s2 with
  | true, false => True
  | false, true => False
  | false, false => e1 < e2 \/ (e1 = e2 /\ Zpos m1 < Zpos m2)
  | true, true => e2 < e1 \/ (e1 = e2 /\ Zpos m2 < Zpos m1)
  end.
Proof.
  unfold SFltb, SFcompare.
  pose proof (Pos2Z.inj_compare m1 m2) as Hc. unfold Pos.compare in Hc.
  destruct s1, s2; try done; rewrite Hc; clear Hc.
  - destruct (Z.compare_spec e1 e2) as [E|E|E];
      [destruct (Z.compare_spec (Zpos m1) (Zpos m2)) as [E'|E'|E']|..];
      cbn [CompOpp]; (split; [intros H; try discriminate; lia | intros H; try lia; reflexivity]).
  - destruct (Z.compare_spec e1 e2) as [E|E|E];
      [destruct (Z.compare_spec (Zpos m1) (Zpos m2)) as [E'|E'|E']|..];
      (split; [intros H; try discriminate; lia | intros H; try lia; reflexivity]).
Qed.

Lemma in_unit_finite s m e :
  in_unit (S754_finite s m e) <->
  e < -23 \/ (e = -23 /\ Zpos m <= 8388608).
Proof.
  unfold in_unit. rewrite i2f_1, i2f_m1. apply SFleb_between.
Qed.

Lemma in_unit_mag_le x : valid32 x -> in_unit x <-> mag_le 0 x.
Proof.
  intros V. destruct x as [s|s| |s m e].
  - by destruct s.
  - unfold in_unit. rewrite i2f_1, i2f_m1. destruct s; simpl; intuition discriminate.
  - unfold in_unit. rewrite i2f_1, i2f_m1. simpl. intuition discriminate.
  - rewrite in_unit_finite, mag_le_0_finite by done. done.
Qed.

Lemma d2f_valid x : valid32 (d2f x).
Proof.
  destruct x as [s|s| |s m e]; try done.
  unfold d2f, valid32. apply binary_normalize_valid; lia.
Qed.

Lemma d2f_mag K x : -149 <= K < 128 -> mag_le K x -> mag_le K (d2f x).
Proof.
  intros HK. destruct x as [s|s| |s m e]; try done.
  intros [H1 H2]. unfold d2f.
  apply binary_normalize_mag; try lia; try done.
  destruct s; simpl; lia.
Qed.

Lemma f2d_mag K x : -1074 <= K < 1024 -> mag_le K x -> mag_le K (f2d x).
Proof.
  intros HK. destruct x as [s|s| |s m e]; try done.
  intros [H1 H2]. unfold f2d.
  apply binary_normalize_mag; try lia; try done.
  destruct s; simpl; lia.
Qed.

Section Sums.
Variables prec emax : Z.
Hypothesis prec_pos : 0 < prec.
Hypothesis prec_lt_emax : prec < emax.

Lemma aligned_le K mx ex ez :
  ez <= ex -> ex <= K -> Zpos mx <= 2 ^ (K - ex) ->
  0 < Zpos (shl_align mx ex ez).1 <= 2 ^ (K - ez).
Proof.
  intros H1 H2 H3. rewrite shl_align_fst by done.
  assert (0 < 2 ^ (ex - ez)) by (apply Z.pow_pos_nonneg; lia).
  replace (K - ez) with (K - ex + (ex - ez)) by lia.
  rewrite pow2_split by lia. nia.
Qed.

Lemma aligned_pow2 K my ey ez :
  ez <= ey -> ey <= K -> Zpos my = 2 ^ (K - ey) ->
  Zpos (shl_align my ey ez).1 = 2 ^ (K - ez).
Proof.
  intros H1 H2 H3. rewrite shl_align_fst by done. rewrite H3.
  rewrite <- pow2_split by lia. f_equal. lia.
Qed.

Lemma SFadd_valid x y :
  valid_binary prec emax x = true -> valid_binary prec emax y = true ->
  valid_binary prec emax (SFadd prec emax x y) = true.
Proof.
  intros Vx Vy.
  destruct x as [sx|sx| |sx mx ex], y as [sy|sy| |sy my ey]; try done;
    try (by destruct sx, sy).
  unfold SFadd. by apply binary_normalize_valid.
Qed.

(** [|x| <= 2^K] and [|y| <= 2^K] give [|x + y| <= 2^(K+1)]. *)
Lemma SFadd_mag K x y :
  emin prec emax <= K + 1 < emax ->
  mag_le K x -> mag_le K y -> mag_le (K + 1) (SFadd prec emax x y).
Proof.
  intros HK Mx My.
  destruct x as [sx|sx| |sx mx ex], y as [sy|sy| |sy my ey]; try done.
  - by destruct sx, sy.
  - apply mag_le_mono with K; [lia|done].
  - apply mag_le_mono with K; [lia|done].
  - destruct Mx as [X1 X2], My as [Y1 Y2]. unfold SFadd.
    pose proof (aligned_le K mx ex (Z.min ex ey) ltac:(lia) X1 X2) as Ax.
    pose proof (aligned_le K my ey (Z.min ex ey) ltac:(lia) Y1 Y2) as Ay.
    apply binary_normalize_mag; try done; [lia|].
    replace (K + 1 - Z.min ex ey) with (1 + (K - Z.min ex ey)) by lia.
    rewrite pow2_split by lia. change (2 ^ 1) with 2.
    set (X := Zpos (shl_align mx ex _).1) in *.
    set (Y := Zpos (shl_align my ey _).1) in *.
    set (P := 2 ^ _) in Ax, Ay |- *. clearbody X Y P.
    destruct sx, sy; unfold cond_Zopp; lia.
Qed.

(** [0 < |x| <= 2^(K+1)] and [|y| = 2^K] with the sign of [x] give
    [|x - y| <= 2^K]. *)
Lemma SFsub_pow2_mag K s mx ex my ey :
  emin prec emax <= K < emax ->
  mag_le (K + 1) (S754_finite s mx ex) ->
  ey <= K -> Zpos my = 2 ^ (K - ey) ->
  mag_le K (SFsub prec emax (S754_finite s mx ex) (S754_finite s my ey)).
Proof.
  intros HK [X1 X2] Y1 Y2. unfold SFsub.
  pose proof (aligned_le (K + 1) mx ex (Z.min ex ey) ltac:(lia) X1 X2) as Ax.
  pose proof (aligned_pow2 K my ey (Z.min ex ey) ltac:(lia) Y1 Y2) as Ay.
  replace (K + 1 - Z.min ex ey) with (1 + (K - Z.min ex ey)) in Ax by lia.
  rewrite pow2_split in Ax by lia. change (2 ^ 1) with 2 in Ax.
  apply binary_normalize_mag; try done; [lia|].
  set (X := Zpos (shl_align mx ex _).1) in *.
  set (Y := Zpos (shl_align my ey _).1) in *.
  set (P := 2 ^ _) in Ax, Ay |- *. clearbody X Y P.
  destruct s; unfold cond_Zopp, negb; lia.
Qed.

Lemma SFadd_pow2_mag K s mx ex my ey :
  emin prec emax <= K < emax ->
  mag_le (K + 1) (S754_finite s mx ex) ->
  ey <= K -> Zpos my = 2 ^ (K - ey) ->
  mag_le K (SFadd prec emax (S754_finite s mx ex) (S754_finite (negb s) my ey)).
Proof.
  intros HK [X1 X2] Y1 Y2. unfold SFadd.
  pose proof (aligned_le (K + 1) mx ex (Z.min ex ey) ltac:(lia) X1 X2) as Ax.
  pose proof (aligned_pow2 K my ey (Z.min ex ey) ltac:(lia) Y1 Y2) as Ay.
  replace (K + 1 - Z.min ex ey) with (1 + (K - Z.min ex ey)) in Ax by lia.
  rewrite pow2_split in Ax by lia. change (2 ^ 1) with 2 in Ax.
  apply binary_normalize_mag; try done; [lia|].
  set (X := Zpos (shl_align mx ex _).1) in *.
  set (Y := Zpos (shl_align my ey _).1) in *.
  set (P := 2 ^ _) in Ax, Ay |- *. clearbody X Y P.
  destruct s; unfold cond_Zopp, negb; lia.
Qed.

End Sums.

Lemma fadd_valid d e : valid32 d -> valid32 e -> valid32 (fadd d e).
Proof. apply SFadd_valid; lia. Qed.

Lemma fadd_mag d e : mag_le 0 d -> mag_le 0 e -> mag_le 1 (fadd d e).
Proof. apply (SFadd_mag 24 128 ltac:(lia) ltac:(lia) 0). unfold SpecFloat.emin. lia. Qed.

Lemma fmul_valid x y : valid32 x -> valid32 y -> valid32 (fmul x y).
Proof. apply SFmul_valid; lia. Qed.

Lemma dneg_d_one : dneg d_one = S754_finite true 4503599627370496 (-52).
Proof. reflexivity. Qed.

Lemma two_pow_52 : Zpos 4503599627370496 = 2 ^ (0 - -52).
Proof. reflexivity. Qed.

Lemma emin64_le_0 : SpecFloat.emin 53 1024 <= 0 < 1024.
Proof. unfold SpecFloat.emin. lia. Qed.

(** [d > 1.0] holds of positive numbers only, and [d -= 1.0] then leaves
    a number of magnitude at most 1 when [d <= 2]. *)
Lemma carry_up x :
  valid32 x -> mag_le 1 x -> fgt (f2d x) d_one = true ->
  mag_le 0 (d2f (dsub (f2d x) d_one)).
Proof.
  intros V M C. pose proof (f2d_mag 1 x ltac:(lia) M) as M'.
  destruct x as [s|s| |s m e]; try done.
  destruct (f2d_finite s m e V) as (M0 & E & _).
  rewrite E in C, M' |- *. rewrite d_one_eq in C |- *.
  unfold fgt in C. apply SFltb_finite in C. destruct s; [done|].
  apply d2f_mag; [lia|]. unfold dsub.
  apply (SFsub_pow2_mag 53 1024 ltac:(lia) ltac:(lia) 0);
    [apply emin64_le_0|exact M'|lia|apply two_pow_52].
Qed.

(** [d < -1.0] holds of negative numbers only, and [d += 1.0] then
    leaves a number of magnitude at most 1 when [d >= -2]. *)
Lemma carry_down x :
  valid32 x -> mag_le 1 x -> flt (f2d x) (dneg d_one) = true ->
  mag_le 0 (d2f (dadd (f2d x) d_one)).
Proof.
  intros V M C. pose proof (f2d_mag 1 x ltac:(lia) M) as M'.
  destruct x as [s|s| |s m e]; try done.
  destruct (f2d_finite s m e V) as (M0 & E & _).
  rewrite E in C, M' |- *. rewrite dneg_d_one in C. rewrite d_one_eq.
  unfold flt in C. apply SFltb_finite in C. destruct s; [|done].
  apply d2f_mag; [lia|]. unfold dadd.
  apply (SFadd_pow2_mag 53 1024 ltac:(lia) ltac:(lia) 0 true);
    [apply emin64_le_0|exact M'|lia|apply two_pow_52].
Qed.

(** A number that is neither above 1.0 nor below -1.0 as a [double] is
    within [-1, 1]. *)
Lemma carry_none x :
  valid32 x -> mag_le 1 x ->
  fgt (f2d x) d_one = false -> flt (f2d x) (dneg d_one) = false ->
  mag_le 0 x.
Proof.
  intros V M C1 C2. destruct x as [s|s| |s m e]; try done.
  apply mag_le_0_finite; [done|].
  destruct (f2d_finite s m e V) as (M0 & E & EM).
  pose proof (valid32_finite s m e V) as (He & Hm & Hd & Hn).
  rewrite E in C1, C2. rewrite d_one_eq in C1. rewrite dneg_d_one in C2.
  unfold fgt in C1. unfold flt in C2.
  destruct (Z.lt_ge_cases e (-23)) as [L|G]; [by left|right].
  destruct Hn as [D Hn]; [lia|]. rewrite D in *.
  change (2 ^ (53 - 24)) with 536870912 in EM.
  destruct s.
  - assert (N : ~ (-52 < 24 + e - 53 \/
                   (24 + e - 53 = -52 /\ Zpos 4503599627370496 < Zpos M0))).
    { intros HP. apply (SFltb_finite true M0 _ true 4503599627370496 (-52)) in HP.
      congruence. }
    lia.
  - assert (N : ~ (-52 < 24 + e - 53 \/
                   (-52 = 24 + e - 53 /\ Zpos 4503599627370496 < Zpos M0))).
    { intros HP. apply (SFltb_finite false 4503599627370496 (-52) false M0) in HP.
      congruence. }
    lia.
Qed.

Lemma carry_spec stc stride d :
  valid32 d -> mag_le 1 d ->
  valid32 (carry stc stride d).2 /\ mag_le 0 (carry stc stride d).2.
Proof.
  intros V M. unfold carry.
  destruct (fgt (f2d d) d_one) eqn:C1.
  - pose proof (carry_up d V M C1) as M1.
    pose proof (d2f_valid (dsub (f2d d) d_one)) as V1.
    destruct (flt (f2d _) (dneg d_one)) eqn:C2; simpl; [|done].
    split; [apply d2f_valid|].
    apply carry_down; [done| |done]. by apply mag_le_mono with 0.
  - destruct (flt (f2d d) (dneg d_one)) eqn:C2; simpl.
    + split; [apply d2f_valid|]. by apply carry_down.
    + split; [done|]. by apply carry_none.
Qed.


(* ===================================================================== *)
(** ** Binary32 instances                                                *)
(* ===================================================================== *)

Lemma flt_trans a b c : flt a b = true -> flt b c = true -> flt a c = true.
Proof.
  unfold flt, SFltb. intros H1 H2.
  destruct (SFcompare a b) as [[]|] eqn:E1; try discriminate.
  destruct (SFcompare b c) as [[]|] eqn:E2; try discriminate.
  by rewrite (SFcompare_Lt_trans _ _ _ E1 E2).
Qed.

Lemma fsub_flt_zero a b :
  valid32 a -> valid32 b -> flt (fsub a b) (i2f 0) = flt a b.
Proof. intros. apply SFsub_ltb_zero; [lia|done|done]. Qed.

Lemma fsub_fneg a b :
  flt (fsub a b) (i2f 0) = true -> fneg (fsub a b) = fsub b a.
Proof. apply SFsub_opp. Qed.

Lemma fmin_valid a b : valid32 a -> valid32 b -> valid32 (fmin a b).
Proof. unfold fmin. by destruct (flt a b). Qed.

Lemma dispatch_unfold key n l r u d cl cr cu cd st :
  dispatch key n l r u d cl cr cu cd st =
  if flt key (curT st) then
    st ← (if fgt l (fadd key (edge_weight cl)) then push_next (n - 1) st else Some st);
    st ← (if fgt r (fadd key (edge_weight cr)) then push_next (n + 1) st else Some st);
    st ← (if fgt u (fadd key (edge_weight cu)) then push_next (n - nx st) st else Some st);
    if fgt d (fadd key (edge_weight cd)) then push_next (n + nx st) st else Some st
  else
    st ← (if fgt l (fadd key (edge_weight cl)) then push_over (n - 1) st else Some st);
    st ← (if fgt r (fadd key (edge_weight cr)) then push_over (n + 1) st else Some st);
    st ← (if fgt u (fadd key (edge_weight cu)) then push_over (n - nx st) st else Some st);
    if fgt d (fadd key (edge_weight cd)) then push_over (n + nx st) st else Some st.
Proof. unfold dispatch. by destruct (flt key (curT st)). Qed.

Ltac align_candidate l r u d Vl Vr Vu Vd :=
  unfold spec_candidate, fmin, quad; cbv zeta;
  destruct (flt l r), (flt u d);
  match goal with
  | |- context [flt (fsub ?tc ?ta) (i2f 0)] =>
      first [ rewrite <- (fsub_flt_zero tc ta Vl Vu)
            | rewrite <- (fsub_flt_zero tc ta Vl Vd)
            | rewrite <- (fsub_flt_zero tc ta Vr Vu)
            | rewrite <- (fsub_flt_zero tc ta Vr Vd) ];
      let E := fresh "E" in
      destruct (flt (fsub tc ta) (i2f 0)) eqn:E;
      cbv beta iota; [rewrite (fsub_fneg _ _ E)|]
  end.

Ltac step_reads st n :=
  (destruct (rd (potarr st) n) as [?pn|]; [simpl|reflexivity]);
  (match goal with |- context [flt ?p ?pn] => destruct (flt p pn) end; [|reflexivity]);
  repeat (match goal with |- context [rd (costarr st) ?k] =>
            destruct (rd (costarr st) k); [simpl|reflexivity] end).

Lemma updateCell_spec_update n st l r u d :
  rd (potarr st) (n - 1) = Some l -> rd (potarr st) (n + 1) = Some r ->
  rd (potarr st) (n - nx st) = Some u -> rd (potarr st) (n + nx st) = Some d ->
  valid32 l -> valid32 r -> valid32 u -> valid32 d ->
  updateCell n st = spec_update None n st.
Proof.
  intros Hl Hr Hu Hd Vl Vr Vu Vd.
  unfold updateCell, spec_update. rewrite Hl, Hr, Hu, Hd. simpl.
  destruct (rd (costarr st) n) as [c|]; [simpl|done].
  destruct (c <? COST_OBS); [|done].
  align_candidate l r u d Vl Vr Vu Vd; step_reads st n;
  (match goal with |- context [wr (potarr st) n ?p] => destruct (wr (potarr st) n p); [simpl|reflexivity] end);
  rewrite dispatch_unfold; unfold edge_weight; reflexivity.
Qed.

Section Astar.
Variable hypot : double -> double -> double.

Lemma updateCellAstar_spec_update n st l r u d :
  nx st <> 0 ->
  rd (potarr st) (n - 1) = Some l -> rd (potarr st) (n + 1) = Some r ->
  rd (potarr st) (n - nx st) = Some u -> rd (potarr st) (n + nx st) = Some d ->
  valid32 l -> valid32 r -> valid32 u -> valid32 d ->
  updateCellAstar hypot n st = spec_update (Some (heuristic hypot n st)) n st.
Proof.
  intros Hnx Hl Hr Hu Hd Vl Vr Vu Vd.
  unfold updateCellAstar, spec_update. rewrite Hl, Hr, Hu, Hd. simpl.
  destruct (rd (costarr st) n) as [c|]; [simpl|done].
  destruct (c <? COST_OBS); [|done].
  apply Z.eqb_neq in Hnx. rewrite Hnx.
  align_candidate l r u d Vl Vr Vu Vd; step_reads st n;
  (match goal with |- context [wr (potarr st) n ?p] => destruct (wr (potarr st) n p); [simpl|reflexivity] end);
  rewrite dispatch_unfold; unfold edge_weight; reflexivity.
Qed.
End Astar.

(* ===================================================================== *)
(** ** Arrays and pushes                                                 *)
(* ===================================================================== *)

Lemma frame_refl s : frame s s.
Proof. unfold frame. tauto. Qed.

Lemma frame_trans s1 s2 s3 : frame s1 s2 -> frame s2 s3 -> frame s1 s3.
Proof. unfold frame. intuition congruence. Qed.

Lemma rd_Some {A} (a : list A) i x :
  rd a i = Some x <-> 0 <= i /\ a !! Z.to_nat i = Some x.
Proof. unfold rd. case_decide; intuition (try discriminate; eauto). Qed.

Lemma rd_in_range {A} (a : list A) i :
  0 <= i < Z.of_nat (length a) -> exists x, rd a i = Some x.
Proof.
  intros H. unfold rd. rewrite decide_True by lia.
  destruct (lookup_lt_is_Some_2 a (Z.to_nat i)) as [x Hx]; [lia|]. eauto.
Qed.

Lemma wr_Some {A} (a a' : list A) i v :
  wr a i v = Some a' <-> 0 <= i < Z.of_nat (length a) /\ a' = <[Z.to_nat i := v]> a.
Proof. unfold wr. case_decide; intuition (try discriminate; try congruence; eauto). Qed.

Lemma wr_in_range {A} (a : list A) i v :
  0 <= i < Z.of_nat (length a) -> wr a i v = Some (<[Z.to_nat i := v]> a).
Proof. intros H. unfold wr. by rewrite decide_True. Qed.

Lemma set_buf_frame b v s : frame s (set_buf b v s).
Proof. destruct b; unfold frame; simpl; repeat split; reflexivity. Qed.

Lemma pushed_cur_frame n s : frame s (pushed_cur n s).
Proof. destruct s as [? ? ? ? ? ? ? ? ? ? ? []]; repeat split. Qed.
Lemma pushed_next_frame n s : frame s (pushed_next n s).
Proof. destruct s as [? ? ? ? ? ? ? ? ? ? ? ? []]; repeat split. Qed.
Lemma pushed_over_frame n s : frame s (pushed_over n s).
Proof. destruct s as [? ? ? ? ? ? ? ? ? ? ? ? ? []]; repeat split. Qed.

Lemma buf_length b s : wf s -> Z.of_nat (length (buf b s)) = PRIORITYBUFSIZE.
Proof. intros []. by destruct b. Qed.

Lemma pending_set_buf b v s : pending (set_buf b v s) = pending s.
Proof. by destruct b. Qed.

Ltac push_outcome :=
  repeat match goal with
  | |- context [if ?b then _ else _] => destruct b eqn:?; simpl
  | |- context [rd ?a ?i] => destruct (rd a i) eqn:?; simpl
  | |- context [wr ?a ?i ?v] => destruct (wr a i v) eqn:?; simpl
  end.

Lemma push_cur_inv n s s' :
  push_cur n s = Some s' -> s' = s \/ s' = pushed_cur n s.
Proof.
  unfold push_cur, pushed_cur. push_outcome; intros [= <-]; auto.
  right.
  match goal with H : wr (buf _ _) _ _ = Some _ |- _ => apply wr_Some in H as [_ ->] end.
  match goal with H : wr _ _ _ = Some _ |- _ => apply wr_Some in H as [_ ->] end.
  f_equal. by rewrite pending_set_buf.
Qed.

Lemma push_next_inv n s s' :
  push_next n s = Some s' -> s' = s \/ s' = pushed_next n s.
Proof.
  unfold push_next, pushed_next. push_outcome; intros [= <-]; auto.
  right.
  match goal with H : wr (buf _ _) _ _ = Some _ |- _ => apply wr_Some in H as [_ ->] end.
  match goal with H : wr _ _ _ = Some _ |- _ => apply wr_Some in H as [_ ->] end.
  f_equal. by rewrite pending_set_buf.
Qed.

Lemma push_over_inv n s s' :
  push_over n s = Some s' -> s' = s \/ s' = pushed_over n s.
Proof.
  unfold push_over, pushed_over. push_outcome; intros [= <-]; auto.
  right.
  match goal with H : wr (buf _ _) _ _ = Some _ |- _ => apply wr_Some in H as [_ ->] end.
  match goal with H : wr _ _ _ = Some _ |- _ => apply wr_Some in H as [_ ->] end.
  f_equal. by rewrite pending_set_buf.
Qed.

Lemma push_cur_frame n s s' : push_cur n s = Some s' -> frame s s'.
Proof. intros [->| ->]%push_cur_inv; [apply frame_refl|apply pushed_cur_frame]. Qed.
Lemma push_next_frame n s s' : push_next n s = Some s' -> frame s s'.
Proof. intros [->| ->]%push_next_inv; [apply frame_refl|apply pushed_next_frame]. Qed.
Lemma push_over_frame n s s' : push_over n s = Some s' -> frame s s'.
Proof. intros [->| ->]%push_over_inv; [apply frame_refl|apply pushed_over_frame]. Qed.

Lemma admits_true n cnt st :
  admits n cnt st = true <->
  0 <= n < ns st /\ rd (pending st) n = Some false /\
  (exists c, rd (costarr st) n = Some c /\ c < COST_OBS) /\ cnt < PRIORITYBUFSIZE.
Proof.
  unfold admits. rewrite !andb_true_iff, negb_true_iff.
  rewrite Z.leb_le, !Z.ltb_lt.
  destruct (rd (pending st) n) as [[]|], (rd (costarr st) n) as [c|]; simpl;
    unfold COST_OBS; split; intros H; try (exfalso; intuition (discriminate || lia));
    try (destruct H as (? & ? & (? & ? & ?) & ?); discriminate).
  - intuition eauto.
  - destruct H as (? & ? & (c' & [= <-] & ?) & ?). intuition.
Qed.

Lemma length_insert_Z {A} (a : list A) i v :
  Z.of_nat (length (<[i := v]> a)) = Z.of_nat (length a).
Proof. by rewrite length_insert. Qed.

Lemma pushed_cur_wf n st :
  wf st -> curPe st < PRIORITYBUFSIZE -> wf (pushed_cur n st).
Proof.
  intros [] ?. destruct st as [? ? ? ? ? ? ? ? ? ? ? []]; simpl in *;
    constructor; simpl; rewrite ?length_insert_Z; try done; lia.
Qed.
Lemma pushed_next_wf n st :
  wf st -> nextPe st < PRIORITYBUFSIZE -> wf (pushed_next n st).
Proof.
  intros [] ?. destruct st as [? ? ? ? ? ? ? ? ? ? ? ? []]; simpl in *;
    constructor; simpl; rewrite ?length_insert_Z; try done; lia.
Qed.
Lemma pushed_over_wf n st :
  wf st -> overPe st < PRIORITYBUFSIZE -> wf (pushed_over n st).
Proof.
  intros [] ?. destruct st as [? ? ? ? ? ? ? ? ? ? ? ? ? []]; simpl in *;
    constructor; simpl; rewrite ?length_insert_Z; try done; lia.
Qed.

Lemma push_cur_spec n st :
  wf st ->
  push_cur n st = Some (if admits n (curPe st) st then pushed_cur n st else st).
Proof.
  intros Hwf. destruct (admits n (curPe st) st) eqn:Ha.
  - apply admits_true in Ha as (Hn & Hp & (c & Hc & Hlt) & Hcnt).
    unfold push_cur. 
    replace ((n >=? 0) && (n <? ns st)) with true by (symmetry; apply andb_true_iff; lia).
    rewrite Hp. simpl. rewrite Hc. simpl.
    replace ((c <? COST_OBS) && (curPe st <? PRIORITYBUFSIZE)) with true
      by (symmetry; apply andb_true_iff; lia).
    rewrite wr_in_range by (rewrite buf_length by done; destruct Hwf; lia). simpl.
    rewrite wr_in_range by (rewrite pending_set_buf; destruct Hwf; lia). simpl.
    by rewrite pending_set_buf.
  - unfold push_cur.
    destruct ((n >=? 0) && (n <? ns st)) eqn:Hn; [|done].
    apply andb_true_iff in Hn as [Hn1 Hn2].
    destruct (rd_in_range (pending st) n) as [p Hp]; [destruct Hwf; lia|].
    destruct (rd_in_range (costarr st) n) as [c Hc]; [destruct Hwf; lia|].
    rewrite Hp. simpl. destruct p; [done|]. simpl. rewrite Hc. simpl.
    destruct ((c <? COST_OBS) && (curPe st <? PRIORITYBUFSIZE)) eqn:Hcc; [|done].
    apply andb_true_iff in Hcc as [Hc1 Hc2].
    assert (admits n (curPe st) st = true); [|congruence].
    apply admits_true. split_and!; eauto; try lia. exists c. split; [done|lia].
Qed.

Lemma push_next_spec n st :
  wf st ->
  push_next n st = Some (if admits n (nextPe st) st then pushed_next n st else st).
Proof.
  intros Hwf. destruct (admits n (nextPe st) st) eqn:Ha.
  - apply admits_true in Ha as (Hn & Hp & (c & Hc & Hlt) & Hcnt).
    unfold push_next. 
    replace ((n >=? 0) && (n <? ns st)) with true by (symmetry; apply andb_true_iff; lia).
    rewrite Hp. simpl. rewrite Hc. simpl.
    replace ((c <? COST_OBS) && (nextPe st <? PRIORITYBUFSIZE)) with true
      by (symmetry; apply andb_true_iff; lia).
    rewrite wr_in_range by (rewrite buf_length by done; destruct Hwf; lia). simpl.
    rewrite wr_in_range by (rewrite pending_set_buf; destruct Hwf; lia). simpl.
    by rewrite pending_set_buf.
  - unfold push_next.
    destruct ((n >=? 0) && (n <? ns st)) eqn:Hn; [|done].
    apply andb_true_iff in Hn as [Hn1 Hn2].
    destruct (rd_in_range (pending st) n) as [p Hp]; [destruct Hwf; lia|].
    destruct (rd_in_range (costarr st) n) as [c Hc]; [destruct Hwf; lia|].
    rewrite Hp. simpl. destruct p; [done|]. simpl. rewrite Hc. simpl.
    destruct ((c <? COST_OBS) && (nextPe st <? PRIORITYBUFSIZE)) eqn:Hcc; [|done].
    apply andb_true_iff in Hcc as [Hc1 Hc2].
    assert (admits n (nextPe st) st = true); [|congruence].
    apply admits_true. split_and!; eauto; try lia. exists c. split; [done|lia].
Qed.

Lemma push_over_spec n st :
  wf st ->
  push_over n st = Some (if admits n (overPe st) st then pushed_over n st else st).
Proof.
  intros Hwf. destruct (admits n (overPe st) st) eqn:Ha.
  - apply admits_true in Ha as (Hn & Hp & (c & Hc & Hlt) & Hcnt).
    unfold push_over. 
    replace ((n >=? 0) && (n <? ns st)) with true by (symmetry; apply andb_true_iff; lia).
    rewrite Hp. simpl. rewrite Hc. simpl.
    replace ((c <? COST_OBS) && (overPe st <? PRIORITYBUFSIZE)) with true
      by (symmetry; apply andb_true_iff; lia).
    rewrite wr_in_range by (rewrite buf_length by done; destruct Hwf; lia). simpl.
    rewrite wr_in_range by (rewrite pending_set_buf; destruct Hwf; lia). simpl.
    by rewrite pending_set_buf.
  - unfold push_over.
    destruct ((n >=? 0) && (n <? ns st)) eqn:Hn; [|done].
    apply andb_true_iff in Hn as [Hn1 Hn2].
    destruct (rd_in_range (pending st) n) as [p Hp]; [destruct Hwf; lia|].
    destruct (rd_in_range (costarr st) n) as [c Hc]; [destruct Hwf; lia|].
    rewrite Hp. simpl. destruct p; [done|]. simpl. rewrite Hc. simpl.
    destruct ((c <? COST_OBS) && (overPe st <? PRIORITYBUFSIZE)) eqn:Hcc; [|done].
    apply andb_true_iff in Hcc as [Hc1 Hc2].
    assert (admits n (overPe st) st = true); [|congruence].
    apply admits_true. split_and!; eauto; try lia. exists c. split; [done|lia].
Qed.

Lemma push_cur_total n st : wf st -> exists st', push_cur n st = Some st' /\ wf st' /\ frame st st'.
Proof.
  intros Hwf. rewrite push_cur_spec by done. eexists; split; [done|].
  destruct (admits n (curPe st) st) eqn:Ha; [|auto using frame_refl].
  apply admits_true in Ha as (_ & _ & _ & ?).
  auto using pushed_cur_wf, pushed_cur_frame.
Qed.
Lemma push_next_total n st : wf st -> exists st', push_next n st = Some st' /\ wf st' /\ frame st st'.
Proof.
  intros Hwf. rewrite push_next_spec by done. eexists; split; [done|].
  destruct (admits n (nextPe st) st) eqn:Ha; [|auto using frame_refl].
  apply admits_true in Ha as (_ & _ & _ & ?).
  auto using pushed_next_wf, pushed_next_frame.
Qed.
Lemma push_over_total n st : wf st -> exists st', push_over n st = Some st' /\ wf st' /\ frame st st'.
Proof.
  intros Hwf. rewrite push_over_spec by done. eexists; split; [done|].
  destruct (admits n (overPe st) st) eqn:Ha; [|auto using frame_refl].
  apply admits_true in Ha as (_ & _ & _ & ?).
  auto using pushed_over_wf, pushed_over_frame.
Qed.

Lemma maybe_push_total (b : bool) (push : Z -> NavFn -> option NavFn) k st :
  (forall k st, wf st -> exists st', push k st = Some st' /\ wf st' /\ frame st st') ->
  wf st ->
  exists st', (if b then push k st else Some st) = Some st' /\ wf st' /\ frame st st'.
Proof. intros Hp Hwf. destruct b; [auto|]. eauto using frame_refl. Qed.

Lemma maybe_push_frame (b : bool) (push : Z -> NavFn -> option NavFn) k st st' :
  (forall k st st', push k st = Some st' -> frame st st') ->
  (if b then push k st else Some st) = Some st' -> frame st st'.
Proof. intros Hp. destruct b; [apply Hp|]. intros [= <-]. apply frame_refl. Qed.

Lemma dispatch_total key n l r u d cl cr cu cd st :
  wf st ->
  exists st', dispatch key n l r u d cl cr cu cd st = Some st' /\ wf st' /\ frame st st'.
Proof.
  intros Hwf. unfold dispatch.
  set (push := if flt key (curT st) then push_next else push_over).
  assert (Hp : forall k st, wf st -> exists st', push k st = Some st' /\ wf st' /\ frame st st').
  { subst push. destruct (flt key (curT st)); auto using push_next_total, push_over_total. }
  clearbody push.
  destruct (maybe_push_total (fgt l (fadd key (edge_weight cl))) push (n - 1) st Hp Hwf)
    as (s1 & -> & W1 & F1). simpl.
  destruct (maybe_push_total (fgt r (fadd key (edge_weight cr))) push (n + 1) s1 Hp W1)
    as (s2 & -> & W2 & F2). simpl.
  destruct (maybe_push_total (fgt u (fadd key (edge_weight cu))) push (n - nx s2) s2 Hp W2)
    as (s3 & -> & W3 & F3). simpl.
  destruct (maybe_push_total (fgt d (fadd key (edge_weight cd))) push (n + nx s3) s3 Hp W3)
    as (s4 & -> & W4 & F4).
  exists s4. eauto 10 using frame_trans.
Qed.

Lemma dispatch_frame key n l r u d cl cr cu cd st st' :
  dispatch key n l r u d cl cr cu cd st = Some st' -> frame st st'.
Proof.
  unfold dispatch.
  set (push := if flt key (curT st) then push_next else push_over).
  assert (Hp : forall k st st', push k st = Some st' -> frame st st').
  { subst push. destruct (flt key (curT st)); eauto using push_next_frame, push_over_frame. }
  clearbody push. intros H.
  apply bind_Some in H as (s1 & H1 & H). apply bind_Some in H as (s2 & H2 & H).
  apply bind_Some in H as (s3 & H3 & H).
  apply maybe_push_frame in H1, H2, H3, H; try done.
  eauto using frame_trans.
Qed.

Ltac four_pushes H :=
  let s1 := fresh "s" in let s2 := fresh "s" in let s3 := fresh "s" in
  let H1 := fresh "H" in let H2 := fresh "H" in let H3 := fresh "H" in
  apply bind_Some in H as (s1 & H1 & H); apply bind_Some in H as (s2 & H2 & H);
  apply bind_Some in H as (s3 & H3 & H);
  apply maybe_push_frame in H1, H2, H3, H;
  eauto using push_next_frame, push_over_frame, frame_trans.

Lemma updateCell_inv n st st' :
  updateCell n st = Some st' -> st' = st \/ commits n st st'.
Proof.
  unfold updateCell. intros H.
  apply bind_Some in H as (l & Hl & H). apply bind_Some in H as (r & Hr & H).
  apply bind_Some in H as (u & Hu & H). apply bind_Some in H as (d & Hd & H).
  cbv zeta in H.
  apply bind_Some in H as (c & Hc & H).
  destruct (c <? COST_OBS) eqn:Hobs; [|left; congruence].
  apply Z.ltb_lt in Hobs.
  destruct (flt (fsub _ _) (i2f 0)); cbv beta iota in H;
  match type of H with
  | mbind _ (rd (potarr st) n) = _ => idtac
  end;
  (apply bind_Some in H as (pn & Hpn & H);
   match type of H with
   | (if flt ?p pn then _ else _) = _ => set (pot := p) in *; destruct (flt pot pn) eqn:Hlt
   end; [|left; congruence];
   apply bind_Some in H as (cl & Hcl & H); apply bind_Some in H as (cr & Hcr & H);
   apply bind_Some in H as (cu & Hcu & H); apply bind_Some in H as (cd & Hcd & H);
   apply bind_Some in H as (pa & Hpa & H);
   right; exists c, pn, pot, pa; split_and!; try done;
   destruct (flt pot (curT _)); four_pushes H).
Qed.

(* ===================================================================== *)
(** ** What one update does                                              *)
(* ===================================================================== *)

Section WithHypot.
Variable hypot : double -> double -> double.

Lemma updateCellAstar_inv n st st' :
  updateCellAstar hypot n st = Some st' -> st' = st \/ commits n st st'.
Proof.
  unfold updateCellAstar. intros H.
  apply bind_Some in H as (l & Hl & H). apply bind_Some in H as (r & Hr & H).
  apply bind_Some in H as (u & Hu & H). apply bind_Some in H as (d & Hd & H).
  cbv zeta in H.
  apply bind_Some in H as (c & Hc & H).
  destruct (c <? COST_OBS) eqn:Hobs; [|left; congruence].
  apply Z.ltb_lt in Hobs.
  destruct (flt (fsub _ _) (i2f 0)); cbv beta iota in H;
  (apply bind_Some in H as (pn & Hpn & H);
   match type of H with
   | (if flt ?p pn then _ else _) = _ => set (pot := p) in *; destruct (flt pot pn) eqn:Hlt
   end; [|left; congruence];
   apply bind_Some in H as (cl & Hcl & H); apply bind_Some in H as (cr & Hcr & H);
   apply bind_Some in H as (cu & Hcu & H); apply bind_Some in H as (cd & Hcd & H);
   destruct (nx st =? 0); [discriminate|];
   apply bind_Some in H as (pa & Hpa & H);
   right; exists c, pn, pot, pa; split_and!; try done;
   destruct (flt _ (curT _)); four_pushes H).
Qed.

Lemma update_step_inv st st' :
  update_step hypot st st' -> st' = st \/ exists n, commits n st st'.
Proof.
  intros [n s s' H|n s s' H].
  - apply updateCell_inv in H as [->|H]; eauto.
  - apply updateCellAstar_inv in H as [->|H]; eauto.
Qed.

Lemma not_above_refl a : not_above a a.
Proof. by left. Qed.

Lemma not_above_trans a b c : not_above a b -> not_above b c -> not_above a c.
Proof.
  intros [->|H1] [->|H2]; try (by left); try (by right).
  right. eauto using flt_trans.
Qed.

(** What a committing update does to the two grids. *)
Lemma commits_grids n st st' :
  commits n st st' ->
  costarr st' = costarr st /\
  exists c pn pot,
    rd (costarr st) n = Some c /\ c < COST_OBS /\
    rd (potarr st) n = Some pn /\ flt pot pn = true /\
    0 <= n < Z.of_nat (length (potarr st)) /\
    potarr st' = <[Z.to_nat n := pot]> (potarr st).
Proof.
  intros (c & pn & pot & pa & Hc & Hlt & Hpn & Hflt & Hwr & F).
  apply wr_Some in Hwr as [Hn ->].
  destruct F as (_ & _ & _ & Hcost & Hpot & _). simpl in *.
  split; [done|]. exists c, pn, pot. split_and!; try done; lia.
Qed.

Lemma commits_not_above n st st' k old :
  commits n st st' -> potarr st !! k = Some old ->
  exists new, potarr st' !! k = Some new /\ not_above new old.
Proof.
  intros (_ & c & pn & pot & _ & _ & Hpn & Hflt & Hn & ->)%commits_grids Hk.
  destruct (decide (k = Z.to_nat n)) as [->|Hne].
  - rewrite list_lookup_insert_eq by lia. exists pot. split; [done|].
    apply rd_Some in Hpn as [_ Hpn]. right. congruence.
  - rewrite list_lookup_insert_ne by done. exists old. split; [done|by left].
Qed.

Lemma update_steps_not_above st st' :
  update_steps hypot st st' ->
  forall k old, potarr st !! k = Some old ->
  exists new, potarr st' !! k = Some new /\ not_above new old.
Proof.
  induction 1 as [st|st st' st'' Hs _ IH]; intros k old Hk.
  - exists old. split; [done|by left].
  - apply update_step_inv in Hs as [->|[n Hc]]; [by apply IH|].
    destruct (commits_not_above _ _ _ _ _ Hc Hk) as (mid & Hmid & Hle).
    destruct (IH _ _ Hmid) as (new & Hnew & Hle').
    exists new. split; [done|]. eauto using not_above_trans.
Qed.

End WithHypot.

(* ===================================================================== *)
(** ** Setup                                                             *)
(* ===================================================================== *)

Lemma store_stride_spec {A} cnt : forall (a : list A) k stride v,
  (forall i, 0 <= i < Z.of_nat cnt -> 0 <= k + i * stride < Z.of_nat (length a)) ->
  exists a', store_stride a k stride cnt v = Some a' /\ length a' = length a /\
    (forall i, 0 <= i < Z.of_nat cnt -> a' !! Z.to_nat (k + i * stride) = Some v) /\
    (forall j, a' !! j = a !! j \/ a' !! j = Some v).
Proof.
  induction cnt as [|cnt IH]; intros a k stride v Hr; simpl.
  - exists a. split_and!; auto. intros i Hi. lia.
  - assert (H0 : 0 <= k < Z.of_nat (length a)).
    { specialize (Hr 0). rewrite Z.mul_0_l, Z.add_0_r in Hr. apply Hr. lia. }
    rewrite wr_in_range by done. simpl.
    destruct (IH (<[Z.to_nat k := v]> a) (k + stride) stride v) as (a' & -> & Hlen & P1 & P2).
    { intros i Hi. rewrite length_insert.
      replace (k + stride + i * stride) with (k + (i + 1) * stride) by lia.
      apply Hr. lia. }
    exists a'. rewrite length_insert in Hlen. split_and!; try done.
    + intros i Hi. destruct (decide (i = 0)) as [->|Hne].
      * rewrite Z.mul_0_l, Z.add_0_r.
        destruct (P2 (Z.to_nat k)) as [E|E]; [|done].
        rewrite E. apply list_lookup_insert_eq. lia.
      * replace (k + i * stride) with (k + stride + (i - 1) * stride) by lia.
        apply P1. lia.
    + intros j. destruct (P2 j) as [E|E]; [|by right].
      rewrite E. destruct (decide (j = Z.to_nat k)) as [->|Hne].
      * right. apply list_lookup_insert_eq. lia.
      * left. by apply list_lookup_insert_ne.
Qed.

Lemma count_obs_total cnt : forall a,
  (cnt <= length a)%nat -> exists z, count_obs a cnt = Some z.
Proof.
  induction cnt as [|cnt IH]; intros a Hlen.
  - destruct a; simpl; eauto.
  - destruct a as [|c a]; simpl in *; [lia|].
    destruct (IH a) as [z ->]; [lia|]. simpl. eauto.
Qed.

Lemma initCost_spec k v st :
  wf st -> 0 <= k < ns st ->
  exists st', initCost k v st = Some st' /\ wf st' /\
    frame (set_potarr (<[Z.to_nat k := v]> (potarr st)) st) st'.
Proof.
  intros Hwf Hk. unfold initCost.
  rewrite wr_in_range by (destruct Hwf; lia). simpl.
  set (s0 := set_potarr _ st).
  assert (W0 : wf s0).
  { destruct Hwf. constructor; simpl; rewrite ?length_insert; done. }
  destruct (push_cur_total (k + 1) s0 W0) as (s1 & -> & W1 & F1). simpl.
  destruct (push_cur_total (k - 1) s1 W1) as (s2 & -> & W2 & F2). simpl.
  destruct (push_cur_total (k - nx s2) s2 W2) as (s3 & -> & W3 & F3). simpl.
  destruct (push_cur_total (k + nx s3) s3 W3) as (s4 & -> & W4 & F4).
  exists s4. eauto 10 using frame_trans.
Qed.

Lemma rd_lookup {A} (a : list A) i x :
  0 <= i -> a !! Z.to_nat i = Some x -> rd a i = Some x.
Proof. intros. apply rd_Some. done. Qed.

Lemma kept_or_set {A} (a a' : list A) (v : A) j :
  (forall j, a' !! j = a !! j \/ a' !! j = Some v) ->
  a !! j = Some v -> a' !! j = Some v.
Proof. intros H Hj. destruct (H j) as [E|E]; congruence. Qed.

Lemma setupNavFn_spec keepit st :
  wf st -> in_grid st (goal st).1 (goal st).2 ->
  exists st', setupNavFn keepit st = Some st' /\ wf st' /\
    nx st' = nx st /\ ny st' = ny st /\ ns st' = ns st /\
    goal st' = goal st /\ start st' = start st /\
    (forall x y, on_border st x y ->
       rd (costarr st') (cell st x y) = Some COST_OBS) /\
    (forall k, 0 <= k < ns st ->
       rd (potarr st') k =
       Some (if decide (k = goal_cell st) then i2f 0 else POT_HIGH_f)).
Proof.
  intros Hwf [Hgx Hgy]. pose proof Hwf as [Hnx Hny Hns Lc Lp Lpe Lgx Lgy L1 L2 L3 C1 C2 C3].
  unfold setupNavFn.
  assert (Hcnt : Z.of_nat (Z.to_nat (ns st)) = ns st) by nia.
  (* potarr *)
  destruct (store_stride_spec (Z.to_nat (ns st)) (potarr st) 0 1 POT_HIGH_f)
    as (pa & -> & Lpa & Ppa & _); [lia|]. simpl.
  (* costarr, first loop *)
  assert (exists ca0, (if negb keepit
            then store_stride (costarr st) 0 1 (Z.to_nat (ns st)) (to_COSTTYPE COST_NEUTRAL)
            else Some (costarr st)) = Some ca0 /\ length ca0 = length (costarr st))
    as (ca0 & -> & Lca0).
  { destruct keepit; simpl; [eauto|].
    destruct (store_stride_spec (Z.to_nat (ns st)) (costarr st) 0 1 (to_COSTTYPE COST_NEUTRAL))
      as (ca0 & -> & ? & _); [lia|]. eauto. }
  simpl.
  destruct (store_stride_spec (Z.to_nat (ns st)) (gradx st) 0 1 (d2f dzero))
    as (gx & -> & Lgx' & _); [lia|]. simpl.
  destruct (store_stride_spec (Z.to_nat (ns st)) (grady st) 0 1 (d2f dzero))
    as (gy & -> & Lgy' & _); [lia|]. simpl.
  (* outer bounds of cost array *)
  destruct (store_stride_spec (Z.to_nat (nx st)) ca0 0 1 (to_COSTTYPE COST_OBS))
    as (ca1 & -> & Lca1 & P1 & _); [nia|]. simpl.
  destruct (store_stride_spec (Z.to_nat (nx st)) ca1 ((ny st - 1) * nx st) 1 (to_COSTTYPE COST_OBS))
    as (ca2 & -> & Lca2 & P2 & K2); [nia|]. simpl.
  destruct (store_stride_spec (Z.to_nat (ny st)) ca2 0 (nx st) (to_COSTTYPE COST_OBS))
    as (ca3 & -> & Lca3 & P3 & K3); [nia|]. simpl.
  destruct (store_stride_spec (Z.to_nat (ny st)) ca3 (nx st - 1) (nx st) (to_COSTTYPE COST_OBS))
    as (ca4 & -> & Lca4 & P4 & K4); [nia|]. simpl.
  destruct (store_stride_spec (Z.to_nat (ns st)) (pending st) 0 1 false)
    as (pe & -> & Lpe' & _); [lia|]. simpl.
  match goal with |- context [initCost ?k ?v ?s] => set (s2 := s); set (kg := k) end.
  assert (W2 : wf s2).
  { constructor; simpl; try done; try lia. }
  assert (Hkg : 0 <= kg < ns s2).
  { subst kg s2. simpl. nia. }
  destruct (initCost_spec kg (i2f 0) s2 W2 Hkg) as (s3 & -> & W3 & F3). simpl.
  destruct F3 as (Fnx & Fny & Fns & Fc & Fp & Fgx & Fgy & FT & Fpi & Fg & Fs & _).
  simpl in *.
  destruct (count_obs_total (Z.to_nat (ns st)) (costarr s3)) as [ntot ->]; [rewrite Fc; lia|].
  simpl. eexists. split; [done|].
  split. { destruct W3. constructor; simpl; done. }
  simpl. split_and!; try done.
  - (* border *)
    intros x y [[Hx Hy] Hb]. rewrite Fc. unfold cell. apply rd_lookup; [nia|].
    change (to_COSTTYPE COST_OBS) with COST_OBS in *.
    destruct Hb as [-> | [-> | [-> | ->]]].
    + apply (kept_or_set _ _ _ _ K4), (kept_or_set _ _ _ _ K3), (kept_or_set _ _ _ _ K2).
      replace (0 * nx st + x) with (0 + x * 1) by lia. apply P1. lia.
    + apply (kept_or_set _ _ _ _ K4), (kept_or_set _ _ _ _ K3).
      replace ((ny st - 1) * nx st + x) with ((ny st - 1) * nx st + x * 1) by lia. apply P2. lia.
    + apply (kept_or_set _ _ _ _ K4).
      replace (y * nx st + 0) with (0 + y * nx st) by lia. apply P3. lia.
    + replace (y * nx st + (nx st - 1)) with (nx st - 1 + y * nx st) by lia. apply P4. lia.
  - (* potentials *)
    intros k Hk. rewrite Fp. apply rd_lookup; [lia|].
    fold (goal_cell st) in kg. subst kg.
    case_decide as Hg.
    + subst k. apply list_lookup_insert_eq. lia.
    + rewrite list_lookup_insert_ne by lia.
      replace k with (0 + k * 1) by lia. apply Ppa. lia.
Qed.

(* ===================================================================== *)
(** ** The claims of the specification                                   *)
(* ===================================================================== *)

Lemma planner_wf xs ys cost g s :
  0 < xs -> 0 < ys -> Z.of_nat (length cost) = xs * ys -> wf (planner xs ys cost g s).
Proof.
  intros Hx Hy Hc.
  constructor; cbn -[replicate Z.to_nat PRIORITYBUFSIZE];
    rewrite ?length_replicate; unfold PRIORITYBUFSIZE; try done; try nia.
Qed.

Lemma open5_wf : wf open5.
Proof. by apply planner_wf. Qed.

Lemma pushed_cur_neq n st : pushed_cur n st <> st.
Proof.
  intros E. apply (f_equal curPe) in E. unfold pushed_cur in E.
  destruct st as [? ? ? ? ? ? ? ? ? ? ? []]; simpl in E; lia.
Qed.
Lemma pushed_next_neq n st : pushed_next n st <> st.
Proof.
  intros E. apply (f_equal nextPe) in E. unfold pushed_next in E.
  destruct st as [? ? ? ? ? ? ? ? ? ? ? ? []]; simpl in E; lia.
Qed.
Lemma pushed_over_neq n st : pushed_over n st <> st.
Proof.
  intros E. apply (f_equal overPe) in E. unfold pushed_over in E.
  destruct st as [? ? ? ? ? ? ? ? ? ? ? ? ? []]; simpl in E; lia.
Qed.

(** C6. On a well-formed planner each of the three pushes inserts [n]
    (stores it at the end of its buffer, increments the count, sets
    [pending[n]]) exactly when [0 <= n < ns], [pending[n]] is false,
    [cost[n] < COST_OBS] and the count of that buffer is below
    [PRIORITYBUFSIZE]; otherwise, a full buffer included, it returns the
    state unchanged. *)
Theorem push_admission n st :
  wf st ->
  (push_cur n st = Some (if admits n (curPe st) st then pushed_cur n st else st) /\
   pushed_cur n st <> st) /\
  (push_next n st = Some (if admits n (nextPe st) st then pushed_next n st else st) /\
   pushed_next n st <> st) /\
  (push_over n st = Some (if admits n (overPe st) st then pushed_over n st else st) /\
   pushed_over n st <> st).
Proof.
  intros Hwf.
  auto 10 using push_cur_spec, push_next_spec, push_over_spec,
    pushed_cur_neq, pushed_next_neq, pushed_over_neq.
Qed.

Lemma push_admission_witness :
  (push_cur 7 open5 = Some (pushed_cur 7 open5) /\ pushed_cur 7 open5 <> open5) /\
  (push_next 7 open5 = Some (pushed_next 7 open5) /\ pushed_next 7 open5 <> open5) /\
  (push_over 7 open5 = Some (pushed_over 7 open5) /\ pushed_over 7 open5 <> open5).
Proof. exact (push_admission 7 open5 open5_wf). Defined.

(** C5. [setupNavFn] succeeds on a well-formed planner whose goal is a
    cell of the grid; afterwards every border cell has cost [COST_OBS]
    and every cell has potential [POT_HIGH], except the goal cell whose
    potential is 0. *)
Theorem setupNavFn_border_and_potential keepit st :
  wf st -> in_grid st (goal st).1 (goal st).2 ->
  exists st', setupNavFn keepit st = Some st' /\
    (forall x y, on_border st x y ->
       rd (costarr st') (cell st x y) = Some COST_OBS) /\
    (forall k, 0 <= k < ns st ->
       rd (potarr st') k =
       Some (if decide (k = goal_cell st) then i2f 0 else POT_HIGH_f)).
Proof.
  intros Hwf Hg.
  destruct (setupNavFn_spec keepit st Hwf Hg) as (st' & H & _ & _ & _ & _ & _ & _ & Hb & Hp).
  eauto.
Qed.

Lemma open5_goal_in_grid : in_grid open5 (goal open5).1 (goal open5).2.
Proof. unfold in_grid. simpl. lia. Qed.

Lemma setupNavFn_border_and_potential_witness :
  exists st', setupNavFn true open5 = Some st' /\
    (forall x y, on_border open5 x y ->
       rd (costarr st') (cell open5 x y) = Some COST_OBS) /\
    (forall k, 0 <= k < ns open5 ->
       rd (potarr st') k =
       Some (if decide (k = goal_cell open5) then i2f 0 else POT_HIGH_f)).
Proof.
  exact (setupNavFn_border_and_potential true open5 open5_wf open5_goal_in_grid).
Defined.

Section Invariants.
Variable hypot : double -> double -> double.

Lemma update_step_obstacles st st' g :
  update_step hypot st st' ->
  (forall k c, rd (costarr st) k = Some c -> COST_OBS <= c -> k <> g ->
     rd (potarr st) k = Some POT_HIGH_f) ->
  forall k c, rd (costarr st') k = Some c -> COST_OBS <= c -> k <> g ->
     rd (potarr st') k = Some POT_HIGH_f.
Proof.
  intros Hs Inv k c Hc Hobs Hk.
  apply update_step_inv in Hs as [->|[n Hcm]]; [eauto|].
  apply commits_grids in Hcm as (Ec & c' & pn & pot & Hc' & Hlt & _ & _ & Hn & ->).
  rewrite Ec in Hc.
  assert (k <> n) by (intros ->; rewrite Hc in Hc'; injection Hc'; lia).
  specialize (Inv k c Hc Hobs Hk).
  apply rd_Some in Inv as [Hk0 Inv]. apply rd_Some. split; [done|].
  rewrite list_lookup_insert_ne by lia. done.
Qed.

Lemma update_steps_obstacles st st' g :
  update_steps hypot st st' ->
  (forall k c, rd (costarr st) k = Some c -> COST_OBS <= c -> k <> g ->
     rd (potarr st) k = Some POT_HIGH_f) ->
  forall k c, rd (costarr st') k = Some c -> COST_OBS <= c -> k <> g ->
     rd (potarr st') k = Some POT_HIGH_f.
Proof.
  induction 1 as [st|st st' st'' Hs _ IH]; [done|].
  intros Inv. apply IH. eauto using update_step_obstacles.
Qed.

Lemma rd_bound {A} (a : list A) k x :
  rd a k = Some x -> 0 <= k < Z.of_nat (length a).
Proof. intros [? H]%rd_Some. apply lookup_lt_Some in H. lia. Qed.

Lemma POT_HIGH_f_not_below : below_POT_HIGH POT_HIGH_f = false.
Proof. vm_compute. reflexivity. Qed.

(** C3, amended. After [setupNavFn] and any number of updates
    ([updateCell] or [updateCellAstar], at any cells), every cell other
    than the goal cell whose cost is at least [COST_OBS] has potential
    [POT_HIGH]; equivalently a cell other than the goal with a potential
    below [POT_HIGH] has a cost below [COST_OBS]. *)
Theorem obstacles_stay_at_POT_HIGH keepit st0 st1 st :
  wf st0 -> in_grid st0 (goal st0).1 (goal st0).2 ->
  setupNavFn keepit st0 = Some st1 ->
  update_steps hypot st1 st ->
  (forall k c, rd (costarr st) k = Some c -> COST_OBS <= c ->
     k <> goal_cell st0 -> rd (potarr st) k = Some POT_HIGH_f) /\
  (forall k c p, rd (costarr st) k = Some c -> rd (potarr st) k = Some p ->
     k <> goal_cell st0 -> below_POT_HIGH p = true -> c < COST_OBS).
Proof.
  intros Hwf Hg Hsetup Hsteps.
  destruct (setupNavFn_spec keepit st0 Hwf Hg) as (st1' & E & W1 & _ & _ & Ens & _ & _ & _ & Hp).
  rewrite Hsetup in E. injection E as <-.
  assert (Inv : forall k c, rd (costarr st) k = Some c -> COST_OBS <= c ->
     k <> goal_cell st0 -> rd (potarr st) k = Some POT_HIGH_f).
  { apply (update_steps_obstacles st1 st _ Hsteps).
    intros k c Hc _ Hk. apply rd_bound in Hc.
    rewrite Hp by (destruct W1; lia). by rewrite decide_False. }
  split; [done|].
  intros k c p Hc Hpk Hk Hb.
  destruct (Z.lt_ge_cases c COST_OBS) as [|Hge]; [done|].
  rewrite (Inv k c Hc Hge Hk) in Hpk. injection Hpk as <-.
  rewrite POT_HIGH_f_not_below in Hb. discriminate.
Qed.

End Invariants.

Lemma setup_open5 : setupNavFn true open5 = Some (after_setup open5).
Proof. vm_compute. reflexivity. Qed.

Lemma update7_open5 :
  updateCell 7 (after_setup open5) = Some (after_update 7 (after_setup open5)).
Proof. vm_compute. reflexivity. Qed.

Lemma obstacles_stay_at_POT_HIGH_witness :
  (forall k c, rd (costarr (after_update 7 (after_setup open5))) k = Some c ->
     COST_OBS <= c -> k <> goal_cell open5 ->
     rd (potarr (after_update 7 (after_setup open5))) k = Some POT_HIGH_f) /\
  (forall k c p, rd (costarr (after_update 7 (after_setup open5))) k = Some c ->
     rd (potarr (after_update 7 (after_setup open5))) k = Some p ->
     k <> goal_cell open5 -> below_POT_HIGH p = true -> c < COST_OBS).
Proof.
  apply (obstacles_stay_at_POT_HIGH hypot_sqrt true open5 (after_setup open5)).
  - exact open5_wf.
  - exact open5_goal_in_grid.
  - exact setup_open5.
  - eapply steps_cons; [|apply steps_refl].
    apply (step_dijkstra _ 7). exact update7_open5.
Defined.

Lemma goal_on_obstacle_wf : wf goal_on_obstacle.
Proof. by apply planner_wf. Qed.

(** C3 as stated fails: with a lethal obstacle on the goal cell,
    [setupNavFn] leaves potential 0 on a cell of cost [COST_OBS]. *)
Lemma obstacle_goal_counterexample :
  ~ (forall keepit st st',
       wf st -> in_grid st (goal st).1 (goal st).2 ->
       setupNavFn keepit st = Some st' ->
       forall k c, rd (costarr st') k = Some c -> COST_OBS <= c ->
                   rd (potarr st') k = Some POT_HIGH_f).
Proof.
  intros H.
  specialize (H true goal_on_obstacle (after_setup goal_on_obstacle) goal_on_obstacle_wf).
  assert (E : rd (potarr (after_setup goal_on_obstacle)) 12 = Some POT_HIGH_f).
  { apply (H ltac:(unfold in_grid; simpl; lia) ltac:(vm_compute; reflexivity) 12 254).
    - vm_compute. reflexivity.
    - unfold COST_OBS. lia. }
  vm_compute in E. discriminate.
Qed.

(** C2. Along any sequence of updates ([updateCell] or
    [updateCellAstar], at any cells) the potential of every cell is
    either unchanged or strictly below its earlier value: a candidate is
    committed only when it compares strictly below the stored potential. *)
Theorem updates_never_increase hypot st st' :
  update_steps hypot st st' ->
  forall k old, rd (potarr st) k = Some old ->
  exists new, rd (potarr st') k = Some new /\ not_above new old.
Proof.
  intros Hs k old [Hk Hold]%rd_Some.
  destruct (update_steps_not_above hypot st st' Hs _ _ Hold) as (new & Hnew & Hle).
  exists new. split; [by apply rd_Some|done].
Qed.

Lemma updates_never_increase_witness :
  exists new, rd (potarr (after_update 7 (after_setup open5))) 7 = Some new /\
              not_above new POT_HIGH_f.
Proof.
  apply (updates_never_increase hypot_sqrt (after_setup open5)).
  - eapply steps_cons; [|apply steps_refl].
    apply (step_dijkstra _ 7). exact update7_open5.
  - vm_compute. reflexivity.
Defined.

Lemma interior_bounds st n :
  wf st -> interior st n ->
  0 <= n - nx st /\ 0 <= n - 1 /\ n + 1 < ns st /\ n + nx st < ns st.
Proof.
  intros [] (x & y & -> & Hx & Hy). unfold cell. nia.
Qed.

Lemma set_potarr_wf pa st :
  wf st -> length pa = length (potarr st) -> wf (set_potarr pa st).
Proof. intros [] Hlen. constructor; simpl; try done. by rewrite Hlen. Qed.

Lemma spec_update_commit bias n st l r u d c pn :
  wf st -> interior st n ->
  rd (potarr st) (n - 1) = Some l -> rd (potarr st) (n + 1) = Some r ->
  rd (potarr st) (n - nx st) = Some u -> rd (potarr st) (n + nx st) = Some d ->
  rd (costarr st) n = Some c -> rd (potarr st) n = Some pn ->
  c < COST_OBS ->
  exists st', spec_update bias n st = Some st' /\
    rd (potarr st') n =
    Some (if flt (spec_candidate l r u d c) pn
          then spec_candidate l r u d c else pn).
Proof.
  intros Hwf Hint Hl Hr Hu Hd Hc Hpn Hlt.
  pose proof (interior_bounds st n Hwf Hint) as (B1 & B2 & B3 & B4).
  unfold spec_update. rewrite Hl, Hr, Hu, Hd, Hc. simpl.
  apply Z.ltb_lt in Hlt. rewrite Hlt, Hpn. simpl.
  destruct (flt (spec_candidate l r u d c) pn); [|eauto].
  pose proof Hwf as [].
  destruct (rd_in_range (costarr st) (n - 1)) as [cl ->]; [lia|].
  destruct (rd_in_range (costarr st) (n + 1)) as [cr ->]; [lia|].
  destruct (rd_in_range (costarr st) (n - nx st)) as [cu ->]; [lia|].
  destruct (rd_in_range (costarr st) (n + nx st)) as [cd ->]; [lia|].
  simpl. rewrite wr_in_range by lia. simpl.
  match goal with |- context [dispatch ?key _ _ _ _ _ _ _ _ _ ?s] =>
    destruct (dispatch_total key n l r u d cl cr cu cd s) as (st' & -> & _ & F)
  end.
  { apply set_potarr_wf; [done|]. by rewrite length_insert. }
  exists st'. split; [done|].
  destruct F as (_ & _ & _ & _ & -> & _). simpl.
  apply rd_Some. split; [lia|]. apply list_lookup_insert_eq. lia.
Qed.

(** C1. At an interior cell [n] with [cost[n] < COST_OBS], [updateCell]
    succeeds and leaves in [potarr[n]] the candidate of the specification
    (computed from the smaller [ta] and the larger [tc] of [min(u,d)] and
    [min(l,r)], [hf = cost[n]] and [dc = tc - ta]: [ta + hf] when
    [dc >= hf], else [ta + hf*v] with the quadratic [v] of [d = dc/hf])
    when that candidate is below the old potential, and the old potential
    otherwise. *)
Theorem updateCell_candidate n st l r u d c pn :
  wf st -> interior st n ->
  rd (potarr st) (n - 1) = Some l -> rd (potarr st) (n + 1) = Some r ->
  rd (potarr st) (n - nx st) = Some u -> rd (potarr st) (n + nx st) = Some d ->
  rd (costarr st) n = Some c -> rd (potarr st) n = Some pn ->
  valid32 l -> valid32 r -> valid32 u -> valid32 d ->
  c < COST_OBS ->
  exists st', updateCell n st = Some st' /\
    rd (potarr st') n =
    Some (if flt (spec_candidate l r u d c) pn
          then spec_candidate l r u d c else pn).
Proof.
  intros Hwf Hint Hl Hr Hu Hd Hc Hpn Vl Vr Vu Vd Hlt.
  rewrite (updateCell_spec_update n st l r u d) by done.
  eapply spec_update_commit; eauto.
Qed.

Lemma after_setup_open5_wf : wf (after_setup open5).
Proof.
  destruct (setupNavFn_spec true open5 open5_wf open5_goal_in_grid) as (st' & E & W & _).
  unfold after_setup. rewrite E. exact W.
Qed.

Lemma after_setup_open5_interior7 : interior (after_setup open5) 7.
Proof.
  assert (E1 : nx (after_setup open5) = 5) by (vm_compute; reflexivity).
  assert (E2 : ny (after_setup open5) = 5) by (vm_compute; reflexivity).
  exists 2, 1. unfold cell. rewrite E1, E2. lia.
Qed.

Lemma updateCell_candidate_witness :
  exists st', updateCell 7 (after_setup open5) = Some st' /\
    rd (potarr st') 7 =
    Some (if flt (spec_candidate POT_HIGH_f POT_HIGH_f POT_HIGH_f (i2f 0) 50) POT_HIGH_f
          then spec_candidate POT_HIGH_f POT_HIGH_f POT_HIGH_f (i2f 0) 50
          else POT_HIGH_f).
Proof.
  apply (updateCell_candidate 7 (after_setup open5)).
  - exact after_setup_open5_wf.
  - exact after_setup_open5_interior7.
  - vm_compute; reflexivity.
  - vm_compute; reflexivity.
  - vm_compute; reflexivity.
  - vm_compute; reflexivity.
  - vm_compute; reflexivity.
  - vm_compute; reflexivity.
  - reflexivity.
  - reflexivity.
  - reflexivity.
  - reflexivity.
  - unfold COST_OBS. lia.
Defined.

Lemma spec_update_potarr bias bias' n st s1 s2 :
  spec_update bias n st = Some s1 -> spec_update bias' n st = Some s2 ->
  potarr s1 = potarr s2.
Proof.
  unfold spec_update. intros H1 H2.
  apply bind_Some in H1 as (l & Hl & H1). rewrite Hl in H2. simpl in H2.
  apply bind_Some in H1 as (r & Hr & H1). rewrite Hr in H2. simpl in H2.
  apply bind_Some in H1 as (u & Hu & H1). rewrite Hu in H2. simpl in H2.
  apply bind_Some in H1 as (d & Hd & H1). rewrite Hd in H2. simpl in H2.
  apply bind_Some in H1 as (c & Hc & H1). rewrite Hc in H2. simpl in H2.
  destruct (c <? COST_OBS); [|congruence].
  cbv zeta in H1, H2.
  apply bind_Some in H1 as (pn & Hpn & H1). rewrite Hpn in H2. simpl in H2.
  destruct (flt (spec_candidate l r u d c) pn); [|congruence].
  apply bind_Some in H1 as (cl & Hcl & H1). rewrite Hcl in H2. simpl in H2.
  apply bind_Some in H1 as (cr & Hcr & H1). rewrite Hcr in H2. simpl in H2.
  apply bind_Some in H1 as (cu & Hcu & H1). rewrite Hcu in H2. simpl in H2.
  apply bind_Some in H1 as (cd & Hcd & H1). rewrite Hcd in H2. simpl in H2.
  apply bind_Some in H1 as (pa & Hpa & H1). rewrite Hpa in H2. simpl in H2.
  apply dispatch_frame in H1 as (_ & _ & _ & _ & -> & _).
  apply dispatch_frame in H2 as (_ & _ & _ & _ & -> & _). done.
Qed.

(** C7, amended. [updateCell] and [updateCellAstar] are the same update
    rule up to the priority key: both commit the same candidate to
    [potarr[n]] (no heuristic is added to the stored potential), and
    [updateCellAstar] uses [pot + h(n)] where [updateCell] uses [pot],
    both in the comparison against [curT] that selects [nextP] or [overP]
    and in the tests [pot[m] > key + e_m] that decide whether a neighbour
    is pushed at all. *)
Theorem updateCellAstar_keyed_dispatch hypot n st l r u d :
  nx st <> 0 ->
  rd (potarr st) (n - 1) = Some l -> rd (potarr st) (n + 1) = Some r ->
  rd (potarr st) (n - nx st) = Some u -> rd (potarr st) (n + nx st) = Some d ->
  valid32 l -> valid32 r -> valid32 u -> valid32 d ->
  updateCell n st = spec_update None n st /\
  updateCellAstar hypot n st = spec_update (Some (heuristic hypot n st)) n st /\
  (forall s1 s2, updateCell n st = Some s1 -> updateCellAstar hypot n st = Some s2 ->
     potarr s1 = potarr s2).
Proof.
  intros Hnx Hl Hr Hu Hd Vl Vr Vu Vd.
  rewrite (updateCell_spec_update n st l r u d) by done.
  rewrite (updateCellAstar_spec_update hypot n st l r u d) by done.
  split_and!; try done. apply spec_update_potarr.
Qed.

Lemma updateCellAstar_keyed_dispatch_witness :
  updateCell 7 open5_left100 = spec_update None 7 open5_left100 /\
  updateCellAstar hypot_sqrt 7 open5_left100 =
    spec_update (Some (heuristic hypot_sqrt 7 open5_left100)) 7 open5_left100 /\
  (forall s1 s2, updateCell 7 open5_left100 = Some s1 ->
     updateCellAstar hypot_sqrt 7 open5_left100 = Some s2 ->
     potarr s1 = potarr s2).
Proof.
  apply (updateCellAstar_keyed_dispatch hypot_sqrt 7 open5_left100
           (i2f 100) POT_HIGH_f POT_HIGH_f (i2f 0)).
  - vm_compute. discriminate.
  - vm_compute; reflexivity.
  - vm_compute; reflexivity.
  - vm_compute; reflexivity.
  - vm_compute; reflexivity.
  - reflexivity.
  - reflexivity.
  - reflexivity.
  - reflexivity.
Defined.

(** C7 as stated fails: the two variants do not differ in the choice
    between [nextP] and [overP] only.  At cell 7 of [open5_left100] both
    commit the potential 50; [updateCell] pushes the left neighbour 6
    (100 > 50 + 35.36), [updateCellAstar] pushes it onto neither buffer
    (100 > 50 + 50 + 35.36 fails). *)
Lemma astar_skips_neighbour_counterexample :
  updateCell 7 open5_left100 = Some (after_update 7 open5_left100) /\
  updateCellAstar hypot_sqrt 7 open5_left100 = Some (after_update_astar 7 open5_left100) /\
  (* Dijkstra pushes the left neighbour 6 onto nextP *)
  rd (pending (after_update 7 open5_left100)) 6 = Some true /\
  nextPe (after_update 7 open5_left100) = 2 /\
  (* A* pushes it onto neither buffer *)
  rd (pending (after_update_astar 7 open5_left100)) 6 = Some false /\
  nextPe (after_update_astar 7 open5_left100) = 1 /\
  overPe (after_update_astar 7 open5_left100) = 0.
Proof. vm_compute. repeat split; reflexivity. Qed.

Lemma dijkstra_loop_cycle atStart : forall rem cycle st c how st',
  dijkstra_loop rem cycle atStart st = Some (c, how, st') ->
  if left_by_break how then cycle <= c < cycle + Z.of_nat rem
  else c = cycle + Z.of_nat rem.
Proof.
  induction rem as [|rem IH]; intros cycle st c how st' H; simpl in H.
  - injection H as <- <- <-. simpl. lia.
  - apply bind_Some in H as (t & Ht & H).
    destruct t as [|s|s].
    + injection H as <- <- <-. simpl. lia.
    + injection H as <- <- <-. simpl. lia.
    + apply IH in H. destruct (left_by_break how); lia.
Qed.

(** C10. [propNavFnDijkstra] returns [true] exactly when its loop is left
    by a [break], which is exactly when [cycle < cycles] on exit; in
    particular it returns [true] on drained priority buffers whatever the
    potential of the start cell is. *)
Theorem propNavFnDijkstra_true_iff_break cycles atStart st :
  (forall cycle how st',
     dijkstra_loop (Z.to_nat cycles) 0 atStart st = Some (cycle, how, st') ->
     propNavFnDijkstra cycles atStart st = Some (left_by_break how, st') /\
     (left_by_break how = true <-> cycle < cycles)) /\
  (0 < cycles -> curPe st = 0 -> nextPe st = 0 ->
     propNavFnDijkstra cycles atStart st = Some (true, st)).
Proof.
  split.
  - intros cycle how st' H. unfold propNavFnDijkstra. rewrite H. simpl.
    pose proof (dijkstra_loop_cycle _ _ _ _ _ _ _ H) as Hc.
    assert (E : (cycle <? cycles) = left_by_break how).
    { destruct (left_by_break how); [apply Z.ltb_lt|apply Z.ltb_ge]; lia. }
    rewrite E. split; [by destruct (left_by_break how)|].
    rewrite <- E. apply Z.ltb_lt.
  - intros Hc H1 H2. unfold propNavFnDijkstra.
    destruct (Z.to_nat cycles) as [|rem] eqn:Hrem; [lia|].
    simpl. unfold dijkstra_turn. rewrite H1, H2. simpl.
    by replace (0 <? cycles) with true by (symmetry; apply Z.ltb_lt; lia).
Qed.

Lemma walled5_run :
  dijkstra_loop (Z.to_nat 10) 0 true (after_setup walled5) =
  Some (2, ExitDrained, after_dijkstra 10 true (after_setup walled5)).
Proof. vm_compute. reflexivity. Qed.

Lemma walled5_drained :
  curPe (after_dijkstra 10 true (after_setup walled5)) = 0 /\
  nextPe (after_dijkstra 10 true (after_setup walled5)) = 0 /\
  rd (potarr (after_dijkstra 10 true (after_setup walled5))) 18 = Some POT_HIGH_f.
Proof. vm_compute. repeat split; reflexivity. Qed.

Lemma propNavFnDijkstra_true_iff_break_witness :
  (propNavFnDijkstra 10 true (after_setup walled5) =
     Some (true, after_dijkstra 10 true (after_setup walled5)) /\
   (true = true <-> 2 < 10)) /\
  propNavFnDijkstra 10 true (after_dijkstra 10 true (after_setup walled5)) =
    Some (true, after_dijkstra 10 true (after_setup walled5)).
Proof.
  split.
  - exact (proj1 (propNavFnDijkstra_true_iff_break 10 true (after_setup walled5))
             2 ExitDrained _ walled5_run).
  - apply (proj2 (propNavFnDijkstra_true_iff_break 10 true
                    (after_dijkstra 10 true (after_setup walled5)))).
    + lia.
    + exact (proj1 walled5_drained).
    + exact (proj1 (proj2 walled5_drained)).
Defined.

(** C8, the defect.  Right after setup with the goal at cell 17, the
    obstacle branch of [gradCell] at cell 12 reads [potarr[nx+1]] (cell 6,
    at [POT_HIGH]) where the symmetric form reads [potarr[n+nx]] (cell 17,
    the goal): the code leaves [dy = 0] and stores no gradient, the
    symmetric form gives [dy = +COST_OBS]. *)
Theorem gradCell_obstacle_dy_reads_wrong_cell :
  (* the cell above the goal, right after setup *)
  rd (potarr (after_setup goal_below)) 12 = Some POT_HIGH_f /\
  rd (potarr (after_setup goal_below)) (12 - 5) = Some POT_HIGH_f /\
  rd (potarr (after_setup goal_below)) (12 + 5) = Some (i2f 0) /\
  rd (potarr (after_setup goal_below)) (5 + 1) = Some POT_HIGH_f /\
  (* the code leaves dy = 0 *)
  gradCell_dxdy 12 POT_HIGH_f (after_setup goal_below) = Some (d2f dzero, d2f dzero) /\
  (* the symmetric form gives dy = +COST_OBS *)
  spec_obstacle_dy 12 (after_setup goal_below) = Some (i2f COST_OBS) /\
  (* and the stored gradient stays (0, 0) *)
  gradCell hypot_sqrt 12 (after_setup goal_below) =
    Some (d2f dzero, after_setup goal_below).
Proof. vm_compute. repeat split; reflexivity. Qed.

Lemma gradCell_dxdy_obstacle_dy n cv st pl dx dy pu :
  at_POT_HIGH cv = true ->
  rd (potarr st) (n - nx st) = Some pu -> below_POT_HIGH pu = false ->
  gradCell_dxdy n cv st = Some (dx, dy) ->
  rd (potarr st) (n - 1) = Some pl ->
  exists pd, rd (potarr st) (nx st + 1) = Some pd /\
    dy = if below_POT_HIGH pd then i2f COST_OBS else d2f dzero.
Proof.
  intros Hcv Hpu Hb H Hpl. unfold gradCell_dxdy in H. rewrite Hcv, Hpl in H.
  simpl in H. apply bind_Some in H as (dx' & _ & H).
  rewrite Hpu in H. simpl in H. rewrite Hb in H.
  apply bind_Some in H as (dy' & Hdy & H). injection H as <- <-.
  apply bind_Some in Hdy as (pd & Hpd & Hdy). injection Hdy as <-. eauto.
Qed.

Lemma setCostmap_cell_ROS_spec allow_unknown v :
  0 <= v <= 255 ->
  setCostmap_cell_ROS allow_unknown v = Some (spec_translate allow_unknown v).
Proof.
  intros Hv.
  assert (Hall : forallb (fun v =>
            bool_decide (setCostmap_cell_ROS true v = Some (spec_translate true v)) &&
            bool_decide (setCostmap_cell_ROS false v = Some (spec_translate false v)))
            (map Z.of_nat (seq 0 256)) = true) by (vm_compute; reflexivity).
  rewrite forallb_forall in Hall.
  specialize (Hall v). 
  assert (Hin : In v (map Z.of_nat (seq 0 256))).
  { apply in_map_iff. exists (Z.to_nat v). split; [lia|]. apply in_seq. lia. }
  apply Hall in Hin. apply andb_prop in Hin as [H1 H2].
  apply bool_decide_eq_true in H1, H2. by destruct allow_unknown.
Qed.

Lemma setCostmap_row_ROS allow_unknown nx ny cmap : forall i j,
  Forall (fun v => 0 <= v <= 255) cmap ->
  setCostmap_row true allow_unknown nx ny i j cmap =
  Some (map (spec_translate allow_unknown) cmap).
Proof.
  induction cmap as [|v rest IH]; intros i j Hall; [done|].
  apply Forall_cons in Hall as [Hv Hrest]. simpl.
  rewrite setCostmap_cell_ROS_spec by done. simpl.
  destruct (j + 1 <? nx); rewrite IH by done; done.
Qed.

(** The number of cells that the two loops visit, for dimensions that
    are not both negative. *)
Lemma setCostmap_cells nx ny :
  0 <= nx \/ 0 <= ny -> (Z.to_nat ny * Z.to_nat nx)%nat = Z.to_nat (nx * ny).
Proof.
  intros H. destruct (Z.le_gt_cases 0 nx) as [Hx|Hx], (Z.le_gt_cases 0 ny) as [Hy|Hy].
  - rewrite Z2Nat.inj_mul by done. lia.
  - rewrite (Z2Nat.nonpos ny) by lia. rewrite (Z2Nat.nonpos (nx * ny)) by nia. done.
  - rewrite (Z2Nat.nonpos nx) by lia. rewrite (Z2Nat.nonpos (nx * ny)) by nia. lia.
  - lia.
Qed.

Lemma setCostmap_flat nx ny cmap isROS allow_unknown :
  0 <= nx \/ 0 <= ny ->
  setCostmap nx ny cmap isROS allow_unknown =
  if decide (Z.to_nat (nx * ny) <= length cmap)%nat
  then setCostmap_row isROS allow_unknown nx ny 0 0 (take (Z.to_nat (nx * ny)) cmap)
  else None.
Proof. intros H. unfold setCostmap. cbv zeta. by rewrite setCostmap_cells. Qed.

(** With a dimension that is not positive neither loop body runs: no
    cell is read and none is written. *)
Lemma setCostmap_no_cells nx ny cmap isROS allow_unknown :
  nx <= 0 \/ ny <= 0 -> setCostmap nx ny cmap isROS allow_unknown = Some [].
Proof.
  intros H. unfold setCostmap. cbv zeta.
  assert ((Z.to_nat ny * Z.to_nat nx)%nat = 0%nat) as ->.
  { destruct H as [H|H]; rewrite (Z2Nat.nonpos _ H); lia. }
  rewrite decide_True by lia. done.
Qed.

(** C4. In ROS mode [setCostmap], on a map of [nx] columns and [ny] rows
    ([nx], [ny] not negative), writes, for every external value [v] of
    the map, the scaled value [COST_NEUTRAL + COST_FACTOR*v] clamped into
    [0, COST_OBS-1] when [v < COST_OBS_ROS], [COST_OBS-1] when [v] is the
    unknown marker 255 and [allow_unknown] holds, and [COST_OBS]
    otherwise. *)
Theorem setCostmap_ROS_translation nx ny cmap allow_unknown :
  0 <= nx -> 0 <= ny ->
  Forall (fun v => 0 <= v <= 255) cmap ->
  length cmap = Z.to_nat (nx * ny) ->
  setCostmap nx ny cmap true allow_unknown =
  Some (map (spec_translate allow_unknown) cmap).
Proof.
  intros Hnx Hny Hall Hlen. rewrite setCostmap_flat by (by left).
  rewrite decide_True by lia. rewrite <- Hlen, firstn_all.
  by apply setCostmap_row_ROS.
Qed.

Lemma setCostmap_ROS_translation_witness :
  setCostmap 3 2 [0; 1; 252; 253; 254; 255] true true =
  Some [50; 50; 251; 254; 254; 253].
Proof.
  apply (setCostmap_ROS_translation 3 2 [0; 1; 252; 253; 254; 255] true).
  - lia.
  - lia.
  - repeat constructor; lia.
  - reflexivity.
Defined.
(* ===================================================================== *)
(** ** The sub-cell offsets of [calcPath]                                *)
(* ===================================================================== *)

Lemma i2f_0_unit : valid32 (i2f 0) /\ in_unit (i2f 0).
Proof. split; [reflexivity|split; reflexivity]. Qed.

(** An offset within [-1, 1] plus a step within [-1, 1], after the two
    carry tests, is within [-1, 1] again. *)
Lemma carry_fadd_unit stc stride d e :
  valid32 d -> in_unit d -> valid32 e -> in_unit e ->
  valid32 (carry stc stride (fadd d e)).2 /\
  in_unit (carry stc stride (fadd d e)).2.
Proof.
  intros Vd Ud Ve Ue.
  apply in_unit_mag_le in Ud; [|done]. apply in_unit_mag_le in Ue; [|done].
  destruct (carry_spec stc stride (fadd d e)) as [V M].
  - by apply fadd_valid.
  - by apply fadd_mag.
  - split; [done|]. by apply in_unit_mag_le.
Qed.

Section Path.
Variable hypot : double -> double -> double.

(** The interpolated gradient and the step are binary32 numbers: each
    is the result of a rounding. *)
Lemma path_gradient_valid st stc dx dy x y :
  path_gradient st stc dx dy = Some (x, y) -> valid32 x /\ valid32 y.
Proof.
  unfold path_gradient. intros H.
  repeat (apply bind_Some in H as (? & _ & H)).
  injection H as <- <-. split; apply d2f_valid.
Qed.

Lemma descent_step_valid st stc dx dy st' ex ey :
  descent_step hypot st stc dx dy = Some (st', Some (ex, ey)) ->
  valid32 ex /\ valid32 ey.
Proof.
  unfold descent_step. intros H.
  apply bind_Some in H as (st1 & _ & H).
  apply bind_Some in H as ([x y] & G & H).
  apply path_gradient_valid in G as [Vx Vy].
  destruct (feq (f2d x) dzero && feq (f2d y) dzero); [discriminate|].
  injection H as _ <- <-.
  split; apply fmul_valid; try done; apply d2f_valid.
Qed.

(** One turn of the loop keeps the offsets within [-1, 1] when the step
    it adds is within [-1, 1]. *)
Lemma calcPath_turn_unit st stc dx dy st' stc' dx' dy' :
  calcPath_turn hypot st stc dx dy = Some (PathNext st' stc' dx' dy') ->
  valid32 dx -> in_unit dx -> valid32 dy -> in_unit dy ->
  (forall ex ey, turn_step hypot st stc dx dy = Some (ex, ey) ->
     in_unit ex /\ in_unit ey) ->
  (valid32 dx' /\ in_unit dx') /\ (valid32 dy' /\ in_unit dy').
Proof.
  unfold calcPath_turn, turn_step. intros T Vx Ux Vy Uy H.
  destruct (calcPath_record st stc dx dy) as [[len s1|s1 osc]|];
    [discriminate| |discriminate].
  cbn [mbind option_bind] in T, H. unfold calcPath_advance in T.
  destruct (near_POT_HIGH s1 stc) as [high|]; [|discriminate].
  cbn [mbind option_bind] in T, H.
  destruct (high || osc).
  - apply bind_Some in T as (minc & _ & T).
    apply bind_Some in T as (p & _ & T).
    destruct (at_POT_HIGH p); [discriminate|].
    injection T as _ _ <- <-. split; apply i2f_0_unit.
  - destruct (descent_step hypot s1 stc dx dy) as [[s2 [[ex ey]|]]|] eqn:D;
      cbn [mbind option_bind] in T, H; try discriminate.
    destruct (descent_step_valid _ _ _ _ _ _ _ D) as [Vex Vey].
    destruct (H ex ey eq_refl) as [Uex Uey].
    pose proof (carry_fadd_unit stc 1 dx ex Vx Ux Vex Uex) as C1.
    destruct (carry stc 1 (fadd dx ex)) as [c1 d1].
    pose proof (carry_fadd_unit c1 (nx s2) dy ey Vy Uy Vey Uey) as C2.
    destruct (carry c1 (nx s2) (fadd dy ey)) as [c2 d2].
    injection T as _ _ <- <-. done.
Qed.

Lemma calcPath_at_unit i : forall st stc dx dy sti stci dxi dyi,
  valid32 dx -> in_unit dx -> valid32 dy -> in_unit dy ->
  calcPath_at hypot i st stc dx dy = Some (sti, stci, dxi, dyi) ->
  (forall j sj stcj dxj dyj ex ey, (j < i)%nat ->
     calcPath_at hypot j st stc dx dy = Some (sj, stcj, dxj, dyj) ->
     turn_step hypot sj stcj dxj dyj = Some (ex, ey) ->
     in_unit ex /\ in_unit ey) ->
  (valid32 dxi /\ in_unit dxi) /\ (valid32 dyi /\ in_unit dyi).
Proof.
  induction i as [|i IH]; intros st stc dx dy sti stci dxi dyi Vx Ux Vy Uy E H.
  - injection E as _ _ <- <-. done.
  - cbn [calcPath_at] in E.
    destruct (calcPath_turn hypot st stc dx dy) as [[len s'|s' stc' dx' dy']|] eqn:T;
      cbn [mbind option_bind] in E; try discriminate.
    destruct (calcPath_turn_unit _ _ _ _ _ _ _ _ T Vx Ux Vy Uy) as [[Vx' Ux'] [Vy' Uy']].
    { intros ex ey Hs. apply (H 0%nat st stc dx dy ex ey); [lia|done|done]. }
    apply (IH s' stc' dx' dy' sti stci dxi dyi); try done.
    intros j sj stcj dxj dyj ex ey Hj Hat Hs.
    apply (H (S j) sj stcj dxj dyj ex ey); [lia| |done].
    cbn [calcPath_at]. rewrite T. done.
Qed.

(** The loop of [calcPath] passes through the states of [calcPath_at]. *)
Lemma calcPath_loop_at i : forall rem st stc dx dy st' stc' dx' dy',
  calcPath_at hypot i st stc dx dy = Some (st', stc', dx', dy') ->
  calcPath_loop hypot (i + rem) st stc dx dy =
  calcPath_loop hypot rem st' stc' dx' dy'.
Proof.
  induction i as [|i IH]; intros rem st stc dx dy st' stc' dx' dy' E.
  - by injection E as <- <- <- <-.
  - cbn [calcPath_at] in E. cbn [Nat.add calcPath_loop].
    destruct (calcPath_turn hypot st stc dx dy) as [[len s1|s1 stc1 dx1 dy1]|];
      cbn [mbind option_bind] in E |- *; try discriminate.
    by apply IH.
Qed.

End Path.

(** The turn number 0 starts in the entry state. *)
Lemma calcPath_at_0 hypot st stc dx dy st' stc' dx' dy' :
  calcPath_at hypot 0 st stc dx dy = Some (st', stc', dx', dy') ->
  st' = st /\ stc' = stc /\ dx' = dx /\ dy' = dy.
Proof. intros [= <- <- <- <-]. done. Qed.

(* ===================================================================== *)
(** ** The cost translation, both modes                                  *)
(* ===================================================================== *)

Lemma spec_translate_range au v :
  0 <= v <= 255 -> COST_NEUTRAL <= spec_translate au v <= COST_OBS.
Proof.
  intros Hv. unfold spec_translate, clamp, COST_NEUTRAL, COST_OBS, COST_OBS_ROS,
    COST_UNKNOWN_ROS.
  destruct (Z.ltb_spec v 253) as [L|L].
  - assert (0 <= 8 * v / 10 < 202).
    { split; [apply Z.div_pos; lia|]. apply Z.div_lt_upper_bound; lia. }
    lia.
  - destruct ((v =? 255) && au); lia.
Qed.

Lemma setCostmap_cell_PGM_spec nx ny i j v :
  0 <= v <= 255 ->
  setCostmap_cell_PGM nx ny i j v =
  Some (if (i <? 7) || (i >? ny - 8) || (j <? 7) || (j >? nx - 8)
        then COST_OBS else spec_translate true v).
Proof.
  intros Hv. unfold setCostmap_cell_PGM. cbv zeta.
  destruct ((i <? 7) || (i >? ny - 8) || (j <? 7) || (j >? nx - 8)); [done|].
  rewrite <- (setCostmap_cell_ROS_spec true v Hv).
  unfold setCostmap_cell_ROS. cbv zeta. by rewrite andb_true_r.
Qed.

Lemma setCostmap_row_PGM au nx ny cmap : forall i j,
  0 <= j < nx -> Forall (fun v => 0 <= v <= 255) cmap ->
  exists out, setCostmap_row false au nx ny i j cmap = Some out /\
    length out = length cmap /\
    forall k v, cmap !! k = Some v ->
      out !! k =
      Some (if (i + (j + Z.of_nat k) / nx <? 7) ||
               (i + (j + Z.of_nat k) / nx >? ny - 8) ||
               ((j + Z.of_nat k) mod nx <? 7) ||
               ((j + Z.of_nat k) mod nx >? nx - 8)
            then COST_OBS else spec_translate true v).
Proof.
  induction cmap as [|v rest IH]; intros i j Hj Hall.
  - exists []. by split.
  - apply Forall_cons in Hall as [Hv Hrest]. simpl.
    rewrite setCostmap_cell_PGM_spec by done. cbn [mbind option_bind].
    destruct (Z.ltb_spec (j + 1) nx) as [L|L].
    + destruct (IH i (j + 1) ltac:(lia) Hrest) as (out & -> & Hlen & Hout).
      cbn [mbind option_bind]. eexists. split; [done|]. split; [simpl; lia|].
      intros [|k] w Hk.
      * simpl in Hk. injection Hk as <-. simpl.
        rewrite Z.add_0_r, Z.div_small, Z.mod_small, Z.add_0_r by lia. done.
      * simpl in Hk. simpl lookup. rewrite (Hout k w Hk).
        by replace (j + Z.of_nat (S k)) with (j + 1 + Z.of_nat k) by lia.
    + destruct (IH (i + 1) 0 ltac:(lia) Hrest) as (out & -> & Hlen & Hout).
      cbn [mbind option_bind]. eexists. split; [done|]. split; [simpl; lia|].
      intros [|k] w Hk.
      * simpl in Hk. injection Hk as <-. simpl.
        rewrite Z.add_0_r, Z.div_small, Z.mod_small, Z.add_0_r by lia. done.
      * simpl in Hk. simpl lookup. rewrite (Hout k w Hk).
        assert (j + 1 = nx) by lia.
        replace (j + Z.of_nat (S k)) with (0 + Z.of_nat k + 1 * nx) by lia.
        rewrite Z.div_add, Z_mod_plus_full by lia.
        by replace (i + 1 + (0 + Z.of_nat k) / nx) with (i + ((0 + Z.of_nat k) / nx + 1)) by lia.
Qed.

Lemma setCostmap_PGM_lookup nx ny cmap allow_unknown :
  0 < nx -> Forall (fun v => 0 <= v <= 255) cmap ->
  length cmap = Z.to_nat (nx * ny) ->
  exists out, setCostmap nx ny cmap false allow_unknown = Some out /\
    length out = length cmap /\
    forall i j v, 0 <= i -> 0 <= j < nx ->
      cmap !! Z.to_nat (i * nx + j) = Some v ->
      out !! Z.to_nat (i * nx + j) =
      Some (if (i <? 7) || (i >? ny - 8) || (j <? 7) || (j >? nx - 8)
            then COST_OBS else spec_translate true v).
Proof.
  intros Hnx Hall Hlen. rewrite setCostmap_flat by (left; lia).
  rewrite decide_True by lia. rewrite <- Hlen, firstn_all.
  destruct (setCostmap_row_PGM allow_unknown nx ny cmap 0 0 ltac:(lia) Hall)
    as (out & -> & Lout & Hout).
  exists out. split; [done|]. split; [done|].
  intros i j v Hi Hj Hv. rewrite (Hout _ v Hv).
  rewrite Z2Nat.id by nia. rewrite !Z.add_0_l.
  rewrite (Z.add_comm (i * nx) j), Z.div_add, Z_mod_plus_full by lia.
  rewrite Z.div_small, Z.mod_small by lia. done.
Qed.

Lemma setCostmap_row_range isROS au nx ny cmap : forall i j out,
  Forall (fun v => 0 <= v <= 255) cmap ->
  setCostmap_row isROS au nx ny i j cmap = Some out ->
  length out = length cmap /\
  Forall (fun c => COST_NEUTRAL <= c <= COST_OBS) out.
Proof.
  induction cmap as [|v rest IH]; intros i j out Hall H; simpl in H.
  - injection H as <-. by split.
  - apply Forall_cons in Hall as [Hv Hrest].
    apply bind_Some in H as (c & Hc & H).
    destruct (j + 1 <? nx);
      apply bind_Some in H as (cs & Hcs & H); injection H as <-;
      (apply IH in Hcs as [L F]; [|done]; split; [simpl; lia|];
       constructor; [|done];
       destruct isROS;
       [ rewrite setCostmap_cell_ROS_spec in Hc by done; injection Hc as <-;
         by apply spec_translate_range
       | rewrite setCostmap_cell_PGM_spec in Hc by done; injection Hc as <-;
         destruct (_ || _);
         [unfold COST_NEUTRAL, COST_OBS; lia|by apply spec_translate_range] ]).
Qed.

(** X1. In either mode [setCostmap], on a map of [nx] columns and [ny]
    rows ([nx], [ny] not negative), fills all [nx*ny] cells, and every
    cost it writes lies between [COST_NEUTRAL] and [COST_OBS]. *)
Theorem setCostmap_cost_range nx ny cmap isROS allow_unknown out :
  0 <= nx -> 0 <= ny ->
  Forall (fun v => 0 <= v <= 255) cmap ->
  setCostmap nx ny cmap isROS allow_unknown = Some out ->
  length out = Z.to_nat (nx * ny) /\
  Forall (fun c => COST_NEUTRAL <= c <= COST_OBS) out.
Proof.
  intros Hnx Hny Hall. rewrite setCostmap_flat by (by left).
  case_decide as Hlen; [|done]. intros H.
  apply setCostmap_row_range in H as [L F]; [|by apply Forall_take].
  split; [|done]. rewrite L, length_take. lia.
Qed.

Lemma setCostmap_cost_range_witness :
  length [50; 50; 251; 254; 254; 253] = Z.to_nat (3 * 2) /\
  Forall (fun c => COST_NEUTRAL <= c <= COST_OBS) [50; 50; 251; 254; 254; 253].
Proof.
  apply (setCostmap_cost_range 3 2 [0; 1; 252; 253; 254; 255] true true).
  - lia.
  - lia.
  - repeat constructor; lia.
  - reflexivity.
Defined.

(** X2. In PGM mode [setCostmap] writes [COST_OBS] to every cell that is
    less than seven cells away from an edge of the map, whatever the
    incoming value, and translates the other cells as the ROS mode does
    with [allow_unknown] set: the flag [allow_unknown] itself is not
    consulted. *)
Theorem setCostmap_PGM_cells nx ny cmap allow_unknown :
  0 < nx -> Forall (fun v => 0 <= v <= 255) cmap ->
  length cmap = Z.to_nat (nx * ny) ->
  exists out, setCostmap nx ny cmap false allow_unknown = Some out /\
    length out = length cmap /\
    forall i j v, 0 <= i -> 0 <= j < nx ->
      cmap !! Z.to_nat (i * nx + j) = Some v ->
      out !! Z.to_nat (i * nx + j) =
      Some (if (i <? 7) || (i >? ny - 8) || (j <? 7) || (j >? nx - 8)
            then COST_OBS else spec_translate true v).
Proof. apply setCostmap_PGM_lookup. Qed.

Lemma setCostmap_PGM_cells_witness :
  exists out, setCostmap 16 16 (replicate 256 255) false false = Some out /\
    length out = length (replicate 256 255) /\
    forall i j v, 0 <= i -> 0 <= j < 16 ->
      replicate 256 255 !! Z.to_nat (i * 16 + j) = Some v ->
      out !! Z.to_nat (i * 16 + j) =
      Some (if (i <? 7) || (i >? 16 - 8) || (j <? 7) || (j >? 16 - 8)
            then COST_OBS else spec_translate true v).
Proof.
  apply (setCostmap_PGM_cells 16 16 (replicate 256 255) false).
  - lia.
  - apply Forall_replicate. lia.
  - reflexivity.
Defined.

(** X3. A PGM map with fewer than 15 columns or fewer than 15 rows comes
    out of [setCostmap] as obstacles only. *)
Theorem setCostmap_PGM_small_map nx ny cmap allow_unknown :
  0 < nx -> nx < 15 \/ ny < 15 ->
  Forall (fun v => 0 <= v <= 255) cmap ->
  length cmap = Z.to_nat (nx * ny) ->
  setCostmap nx ny cmap false allow_unknown =
  Some (replicate (Z.to_nat (nx * ny)) COST_OBS).
Proof.
  intros Hnx Hsmall Hall Hlen.
  destruct (setCostmap_PGM_lookup nx ny cmap allow_unknown Hnx Hall Hlen)
    as (out & -> & Lout & Hout).
  f_equal. apply list_eq. intros k.
  destruct (decide (k < length cmap)%nat) as [Hk|Hk].
  - rewrite lookup_replicate_2 by lia.
    destruct (lookup_lt_is_Some_2 cmap k Hk) as [v Hv].
    pose proof (Z.div_mod (Z.of_nat k) nx ltac:(lia)) as Hdm.
    pose proof (Z.mod_pos_bound (Z.of_nat k) nx Hnx) as Hm.
    assert (Hd : 0 <= Z.of_nat k / nx) by (apply Z.div_pos; lia).
    assert (Hdy : Z.of_nat k / nx < ny).
    { apply Z.div_lt_upper_bound; [lia|]. nia. }
    assert (Ek : k = Z.to_nat (Z.of_nat k / nx * nx + Z.of_nat k mod nx)) by lia.
    rewrite Ek in Hv. rewrite Ek at 1.
    rewrite (Hout _ _ v Hd Hm Hv).
    replace ((Z.of_nat k / nx <? 7) || (Z.of_nat k / nx >? ny - 8) ||
             (Z.of_nat k mod nx <? 7) || (Z.of_nat k mod nx >? nx - 8)) with true; [done|].
    symmetry. rewrite !orb_true_iff, !Z.ltb_lt, !Z.gtb_ltb, !Z.ltb_lt. lia.
  - rewrite lookup_ge_None_2 by lia. symmetry. apply lookup_ge_None_2.
    rewrite length_replicate. lia.
Qed.

Lemma setCostmap_PGM_small_map_witness :
  setCostmap 14 20 (replicate 280 0) false true =
  Some (replicate (Z.to_nat (14 * 20)) COST_OBS).
Proof.
  apply (setCostmap_PGM_small_map 14 20 (replicate 280 0) true).
  - lia.
  - left. lia.
  - apply Forall_replicate. lia.
  - reflexivity.
Defined.

(* ===================================================================== *)
(** ** The cost array after [setupNavFn]                                 *)
(* ===================================================================== *)

(** A strided store leaves the cells off the stride as they were. *)
Lemma store_stride_other {A} cnt : forall (a a' : list A) k stride v j,
  store_stride a k stride cnt v = Some a' ->
  (forall i, 0 <= i < Z.of_nat cnt -> j <> k + i * stride) -> 0 <= j ->
  a' !! Z.to_nat j = a !! Z.to_nat j.
Proof.
  induction cnt as [|cnt IH]; intros a a' k stride v j H Hj Hj0; simpl in H.
  - by injection H as <-.
  - apply bind_Some in H as (a1 & W & H). apply wr_Some in W as [Hk ->].
    rewrite (IH _ _ _ _ _ j H); [|intros i Hi|done].
    + apply list_lookup_insert_ne. specialize (Hj 0). lia.
    + replace (k + stride + i * stride) with (k + (i + 1) * stride) by lia.
      apply Hj. lia.
Qed.

Lemma store_stride_range {A} cnt : forall (a a' : list A) k stride v i,
  store_stride a k stride cnt v = Some a' ->
  0 <= i < Z.of_nat cnt -> 0 <= k + i * stride < Z.of_nat (length a).
Proof.
  induction cnt as [|cnt IH]; intros a a' k stride v i H Hi; [lia|].
  simpl in H. apply bind_Some in H as (a1 & W & H). apply wr_Some in W as [Hk ->].
  destruct (decide (i = 0)) as [->|Hne]; [lia|].
  specialize (IH _ _ _ _ _ (i - 1) H ltac:(lia)).
  rewrite length_insert in IH.
  by replace (k + stride + (i - 1) * stride) with (k + i * stride) in IH by lia.
Qed.

Lemma store_stride_all {A} cnt (a a' : list A) v j :
  store_stride a 0 1 cnt v = Some a' ->
  0 <= j < Z.of_nat cnt -> a' !! Z.to_nat j = Some v.
Proof.
  intros H Hj.
  destruct (store_stride_spec cnt a 0 1 v) as (a'' & E & _ & P & _).
  { intros i Hi. by apply (store_stride_range cnt a a' 0 1 v i). }
  rewrite H in E. injection E as <-.
  specialize (P j Hj). by replace (0 + j * 1) with j in P by lia.
Qed.

(** [setupNavFn] and the cost of a cell off the border. *)
Lemma setupNavFn_costs keepit st st' n :
  wf st -> setupNavFn keepit st = Some st' -> interior st n ->
  rd (costarr st') n = if keepit then rd (costarr st) n else Some COST_NEUTRAL.
Proof.
  intros W E (x & y & -> & Hx & Hy).
  pose proof W as [Hnx Hny Hns Lc _ _ _ _ _ _ _ _ _ _].
  unfold setupNavFn in E.
  apply bind_Some in E as (pa & _ & E). apply bind_Some in E as (ca0 & C0 & E).
  apply bind_Some in E as (gx & _ & E). apply bind_Some in E as (gy & _ & E).
  apply bind_Some in E as (ca1 & C1 & E). apply bind_Some in E as (ca2 & C2 & E).
  apply bind_Some in E as (ca3 & C3 & E). apply bind_Some in E as (ca4 & C4 & E).
  cbv zeta in E.
  apply bind_Some in E as (pe & _ & E). apply bind_Some in E as (s3 & I & E).
  apply bind_Some in E as (ntot & _ & E). injection E as <-.
  unfold initCost in I. apply bind_Some in I as (pa' & _ & I). cbv zeta in I.
  apply bind_Some in I as (s4 & P1 & I). apply bind_Some in I as (s5 & P2 & I).
  apply bind_Some in I as (s6 & P3 & I).
  apply push_cur_frame in P1, P2, P3, I.
  assert (Ec : costarr s3 = ca4).
  { destruct P1 as (_ & _ & _ & E1 & _), P2 as (_ & _ & _ & E2 & _),
      P3 as (_ & _ & _ & E3 & _), I as (_ & _ & _ & E4 & _).
    rewrite E4, E3, E2, E1. done. }
  simpl. rewrite Ec. unfold cell.
  assert (Hn : 0 <= y * nx st + x) by nia.
  unfold rd. rewrite !decide_True by done.
  rewrite (store_stride_other _ _ _ _ _ _ (y * nx st + x) C4); [|intros i Hi Heq|done].
  2:{ assert (x + 1 = (i - y + 1) * nx st) by lia.
      destruct (Z.le_gt_cases (i - y + 1) 0); nia. }
  rewrite (store_stride_other _ _ _ _ _ _ (y * nx st + x) C3); [|intros i Hi Heq|done].
  2:{ assert (x = (i - y) * nx st) by lia.
      destruct (Z.le_gt_cases (i - y) 0); nia. }
  rewrite (store_stride_other _ _ _ _ _ _ (y * nx st + x) C2); [|intros i Hi; nia|done].
  rewrite (store_stride_other _ _ _ _ _ _ (y * nx st + x) C1); [|intros i Hi; nia|done].
  destruct keepit; simpl in C0.
  - by injection C0 as <-.
  - apply (store_stride_all _ _ _ _ _ C0). nia.
Qed.

(** X4. [setupNavFn] changes the cost of no cell off the border when
    [keepit] is set, and makes it [COST_NEUTRAL] when [keepit] is not
    set. *)
Theorem setupNavFn_interior_costs keepit st st' n :
  wf st -> setupNavFn keepit st = Some st' -> interior st n ->
  rd (costarr st') n = if keepit then rd (costarr st) n else Some COST_NEUTRAL.
Proof. apply setupNavFn_costs. Qed.

Lemma open5_interior7 : interior open5 7.
Proof. exists 2, 1. unfold cell. simpl. lia. Qed.

Lemma setupNavFn_interior_costs_witness :
  rd (costarr (after_setup open5)) 7 = rd (costarr open5) 7.
Proof.
  apply (setupNavFn_interior_costs true open5 (after_setup open5) 7).
  - exact open5_wf.
  - exact setup_open5.
  - exact open5_interior7.
Defined.
(* ===================================================================== *)
(** ** The propagation: bounds, potentials and obstacles                 *)
(* ===================================================================== *)

Lemma pot_evolves_same s s' :
  costarr s' = costarr s -> potarr s' = potarr s -> pot_evolves s s'.
Proof.
  intros Ec Ep. split; [done|]. split; [by rewrite Ep|].
  intros k old H. exists old. rewrite Ep. auto.
Qed.

Lemma pot_evolves_refl s : pot_evolves s s.
Proof. by apply pot_evolves_same. Qed.

Lemma pot_evolves_trans s1 s2 s3 :
  pot_evolves s1 s2 -> pot_evolves s2 s3 -> pot_evolves s1 s3.
Proof.
  intros (C1 & L1 & P1) (C2 & L2 & P2). split; [congruence|]. split; [congruence|].
  intros k old H. destruct (P1 k old H) as (mid & Hm & Hmid).
  destruct (P2 k mid Hm) as (new & Hn & Hnew). exists new. split; [done|].
  rewrite C1 in Hnew.
  destruct Hmid as [->|[M1 F1]]; [done|].
  destruct Hnew as [->|[M2 F2]]; [by right|].
  right. split; [|done]. by apply flt_trans with mid.
Qed.

Lemma commits_evolves n st st' : commits n st st' -> pot_evolves st st'.
Proof.
  intros H. apply commits_grids in H as (Ec & c & pn & pot & Hc & Hlt & Hpn & Hf & Hn & Ep).
  split; [done|]. split; [by rewrite Ep, length_insert|].
  intros k old Hk. rewrite Ep.
  destruct (decide (k = Z.to_nat n)) as [->|Hne].
  - exists pot. split; [apply list_lookup_insert_eq; by eapply lookup_lt_Some|]. right.
    apply rd_Some in Hpn as [_ Hpn].
    assert (Some pn = Some old) as [= <-] by (rewrite <- Hpn; exact Hk).
    split; [done|]. exists c. apply rd_Some in Hc as [_ Hc]. done.
  - exists old. split; [|by left]. by rewrite list_lookup_insert_ne.
Qed.

Lemma updateCell_evolves n st st' :
  updateCell n st = Some st' -> pot_evolves st st'.
Proof.
  intros H. apply updateCell_inv in H as [->|H];
    [apply pot_evolves_refl|by apply commits_evolves with n].
Qed.

Lemma updateCellAstar_evolves hypot n st st' :
  updateCellAstar hypot n st = Some st' -> pot_evolves st st'.
Proof.
  intros H. apply updateCellAstar_inv in H as [->|H];
    [apply pot_evolves_refl|by apply commits_evolves with n].
Qed.

Lemma reset_pending_grids i : forall j st st',
  reset_pending i j st = Some st' ->
  costarr st' = costarr st /\ potarr st' = potarr st.
Proof.
  induction i as [|i IH]; intros j st st' H; simpl in H.
  - by injection H as <-.
  - apply bind_Some in H as (c & _ & H). apply bind_Some in H as (pe & _ & H).
    apply IH in H as [-> ->]. done.
Qed.

Lemma update_cells_evolves i : forall j st st',
  update_cells i j st = Some st' -> pot_evolves st st'.
Proof.
  induction i as [|i IH]; intros j st st' H; simpl in H.
  - injection H as <-. apply pot_evolves_refl.
  - apply bind_Some in H as (c & _ & H). apply bind_Some in H as (s1 & U & H).
    eapply pot_evolves_trans; [by eapply updateCell_evolves|by eapply IH].
Qed.

Lemma dijkstra_turn_evolves atStart st t :
  dijkstra_turn atStart st = Some t ->
  match t with
  | Drained => True
  | HitStart st' | Next st' => pot_evolves st st'
  end.
Proof.
  unfold dijkstra_turn. intros H.
  destruct ((curPe st =? 0) && (nextPe st =? 0)); [by injection H as <-|].
  apply bind_Some in H as (s1 & R & H). apply bind_Some in H as (s2 & U & H).
  apply reset_pending_grids in R as [Rc Rp].
  apply update_cells_evolves in U.
  assert (E : pot_evolves st s2).
  { eapply pot_evolves_trans; [|exact U]. by apply pot_evolves_same. }
  clear U Rc Rp. cbv zeta in H.
  assert (Hs : forall s3, s3 = s3 -> costarr s3 = costarr s2 -> potarr s3 = potarr s2 ->
                 pot_evolves st s3).
  { intros s3 _ Hc Hp. eapply pot_evolves_trans; [exact E|]. by apply pot_evolves_same. }
  destruct atStart.
  - apply bind_Some in H as (p & _ & H).
    destruct (below_POT_HIGH p); injection H as <-;
      (apply Hs; [done| |]; match goal with |- context [if ?c then _ else _] => destruct c end;
       reflexivity).
  - injection H as <-.
    apply Hs; [done| |]; match goal with |- context [if ?c then _ else _] => destruct c end;
      reflexivity.
Qed.

Lemma dijkstra_loop_evolves rem : forall cycle atStart st c how st',
  dijkstra_loop rem cycle atStart st = Some (c, how, st') -> pot_evolves st st'.
Proof.
  induction rem as [|rem IH]; intros cycle atStart st c how st' H; simpl in H.
  - injection H as _ _ <-. apply pot_evolves_refl.
  - apply bind_Some in H as (t & T & H). apply dijkstra_turn_evolves in T.
    destruct t as [|s1|s1].
    + injection H as _ _ <-. apply pot_evolves_refl.
    + by injection H as _ _ <-.
    + eapply pot_evolves_trans; [exact T|by eapply IH].
Qed.

Lemma propNavFnDijkstra_evolves cycles atStart st r st' :
  propNavFnDijkstra cycles atStart st = Some (r, st') -> pot_evolves st st'.
Proof.
  unfold propNavFnDijkstra. intros H.
  apply bind_Some in H as ([[c how] s1] & L & H). injection H as _ <-.
  by eapply dijkstra_loop_evolves.
Qed.

Lemma buf_set_buf_eq b v s : buf b (set_buf b v s) = v.
Proof. by destruct b. Qed.

Lemma buf_set_buf_ne b b' v s : b <> b' -> buf b (set_buf b' v s) = buf b s.
Proof. by destruct b, b'. Qed.

Lemma same_grid_refl s : same_grid s s.
Proof. repeat split. Qed.

Lemma same_grid_trans s1 s2 s3 :
  same_grid s1 s2 -> same_grid s2 s3 -> same_grid s1 s3.
Proof. unfold same_grid. intuition congruence. Qed.

Lemma frame_same_grid s s' : frame s s' -> same_grid s s'.
Proof. unfold frame, same_grid. intuition. Qed.

Lemma same_cur_refl s : same_cur s s.
Proof. repeat split. Qed.

Lemma same_cur_trans s1 s2 s3 :
  same_cur s1 s2 -> same_cur s2 s3 -> same_cur s1 s3.
Proof.
  intros (A1 & A2 & A3 & A4 & A5) (B1 & B2 & B3 & B4 & B5).
  rewrite A1 in B5. unfold same_cur. intuition congruence.
Qed.

Lemma free_cell_same_grid s s' n :
  same_grid s s' -> free_cell s n -> free_cell s' n.
Proof. intros (_ & _ & Ens & Ec & _). unfold free_cell. by rewrite Ens, Ec. Qed.

Lemma border_obs_same_grid s s' :
  same_grid s s' -> border_obs s -> border_obs s'.
Proof.
  intros (Enx & Eny & _ & Ec & _) H x y Hb.
  unfold on_border, in_grid, cell in *. rewrite Enx, Eny in Hb. rewrite Ec, Enx.
  by apply H.
Qed.

Lemma Forall_live P b cnt st :
  Forall P (live b cnt st) <->
  forall j x, (j < Z.to_nat cnt)%nat -> buf b st !! j = Some x -> P x.
Proof.
  unfold live. rewrite Forall_lookup. split.
  - intros H j x Hj Hx. apply (H j). by rewrite lookup_take_lt.
  - intros H j x Hx. apply lookup_take_Some in Hx as [Hx Hj]. by apply (H j).
Qed.

(** A free cell has its four neighbours inside the grid. *)
Lemma free_cell_interior st n :
  wf st -> border_obs st -> free_cell st n -> interior st n.
Proof.
  intros W B [Hn (c & Hc & Hlt)]. destruct W as [Hnx Hny Hns _ _ _ _ _ _ _ _ _ _ _].
  exists (n mod nx st), (n / nx st).
  pose proof (Z.mod_pos_bound n (nx st) Hnx) as Hx.
  pose proof (Z.div_mod n (nx st) ltac:(lia)) as Hdm.
  assert (Hy : 0 <= n / nx st < ny st).
  { split; [apply Z.div_pos; lia|]. apply Z.div_lt_upper_bound; lia. }
  assert (E : n = cell st (n mod nx st) (n / nx st)) by (unfold cell; lia).
  split; [done|].
  assert (NB : ~ on_border st (n mod nx st) (n / nx st)).
  { intros Hb. destruct (B _ _ Hb) as (c' & Hc' & Hge). rewrite <- E in Hc'.
    rewrite Hc in Hc'. injection Hc' as <-. lia. }
  unfold on_border, in_grid in NB. lia.
Qed.

Lemma interior_range st n :
  wf st -> interior st n ->
  0 <= n - nx st /\ n + nx st < ns st /\ 0 <= n - 1 /\ n + 1 < ns st.
Proof.
  intros W (x & y & -> & Hx & Hy). destruct W as [Hnx Hny Hns _ _ _ _ _ _ _ _ _ _ _].
  unfold cell. rewrite Hns. nia.
Qed.

Lemma pushed_next_proj n st :
  curPe (pushed_next n st) = curPe st /\
  nextPe (pushed_next n st) = nextPe st + 1 /\
  overPe (pushed_next n st) = overPe st /\
  forall b, buf b (pushed_next n st) =
    if decide (b = nextP st) then <[Z.to_nat (nextPe st) := n]> (buf b st)
    else buf b st.
Proof.
  unfold pushed_next.
  destruct (nextP st) eqn:E; simpl; split_and!; try done;
    intros b; destruct b; simpl; try case_decide; congruence.
Qed.

Lemma pushed_over_proj n st :
  curPe (pushed_over n st) = curPe st /\
  nextPe (pushed_over n st) = nextPe st /\
  overPe (pushed_over n st) = overPe st + 1 /\
  forall b, buf b (pushed_over n st) =
    if decide (b = overP st) then <[Z.to_nat (overPe st) := n]> (buf b st)
    else buf b st.
Proof.
  unfold pushed_over.
  destruct (overP st) eqn:E; simpl; split_and!; try done;
    intros b; destruct b; simpl; try case_decide; congruence.
Qed.

Lemma pushed_cur_proj n st :
  curPe (pushed_cur n st) = curPe st + 1 /\
  nextPe (pushed_cur n st) = nextPe st /\
  overPe (pushed_cur n st) = overPe st /\
  forall b, buf b (pushed_cur n st) =
    if decide (b = curP st) then <[Z.to_nat (curPe st) := n]> (buf b st)
    else buf b st.
Proof.
  unfold pushed_cur.
  destruct (curP st) eqn:E; simpl; split_and!; try done;
    intros b; destruct b; simpl; try case_decide; congruence.
Qed.

(** Appending a free cell to a queue of free cells. *)
Lemma Forall_live_snoc (P : Z -> Prop) (l : list Z) cnt n :
  0 <= cnt ->
  (forall j x, (j < Z.to_nat cnt)%nat -> l !! j = Some x -> P x) -> P n ->
  forall j x, (j < Z.to_nat (cnt + 1))%nat ->
    <[Z.to_nat cnt := n]> l !! j = Some x -> P x.
Proof.
  intros Hc H Hn j x Hj Hx.
  destruct (decide (j = Z.to_nat cnt)) as [->|Hne].
  - apply list_lookup_insert_Some in Hx as [(_ & -> & _)|[? _]]; [done|lia].
  - rewrite list_lookup_insert_ne in Hx by done. apply (H j); [lia|done].
Qed.

Lemma pushed_next_safe n st :
  safe st -> admits n (nextPe st) st = true ->
  safe (pushed_next n st) /\ same_grid st (pushed_next n st) /\
  same_cur st (pushed_next n st) /\ potarr (pushed_next n st) = potarr st /\
  curT (pushed_next n st) = curT st.
Proof.
  intros (W & B & Q) A. apply admits_true in A as (Hn & Hp & Hc & Hcnt).
  pose proof (pushed_next_frame n st) as F.
  pose proof (frame_same_grid _ _ F) as G.
  destruct (pushed_next_proj n st) as (Pc & Pn & Po & Pb).
  destruct Q as (D1 & D2 & D3 & Q1 & Q2 & Q3).
  destruct F as (_ & _ & _ & _ & Fp & _ & _ & FT & _ & _ & _ & Ecur & Enext & Eover).
  assert (FC : forall k, free_cell st k -> free_cell (pushed_next n st) k).
  { intros k. by apply free_cell_same_grid. }
  split_and!; try done.
  - split_and!.
    + apply pushed_next_wf; [done|lia].
    + by apply border_obs_same_grid with st.
    + unfold queues_ok. rewrite Ecur, Enext, Eover, Pc, Pn, Po.
      split_and!; try done; apply Forall_live; rewrite Pb.
      * rewrite decide_False by done. intros j x Hj Hx. apply FC.
        by apply (proj1 (Forall_live _ _ _ _) Q1 j).
      * rewrite decide_True by done.
        apply Forall_live_snoc; [destruct W; lia| |by apply FC].
        intros j x Hj Hx. apply FC. by apply (proj1 (Forall_live _ _ _ _) Q2 j).
      * rewrite decide_False by done. intros j x Hj Hx. apply FC.
        by apply (proj1 (Forall_live _ _ _ _) Q3 j).
  - unfold same_cur. rewrite Pb, decide_False by done. done.
Qed.

Lemma pushed_over_safe n st :
  safe st -> admits n (overPe st) st = true ->
  safe (pushed_over n st) /\ same_grid st (pushed_over n st) /\
  same_cur st (pushed_over n st) /\ potarr (pushed_over n st) = potarr st /\
  curT (pushed_over n st) = curT st.
Proof.
  intros (W & B & Q) A. apply admits_true in A as (Hn & Hp & Hc & Hcnt).
  pose proof (pushed_over_frame n st) as F.
  pose proof (frame_same_grid _ _ F) as G.
  destruct (pushed_over_proj n st) as (Pc & Pn & Po & Pb).
  destruct Q as (D1 & D2 & D3 & Q1 & Q2 & Q3).
  destruct F as (_ & _ & _ & _ & Fp & _ & _ & FT & _ & _ & _ & Ecur & Enext & Eover).
  assert (FC : forall k, free_cell st k -> free_cell (pushed_over n st) k).
  { intros k. by apply free_cell_same_grid. }
  split_and!; try done.
  - split_and!.
    + apply pushed_over_wf; [done|lia].
    + by apply border_obs_same_grid with st.
    + unfold queues_ok. rewrite Ecur, Enext, Eover, Pc, Pn, Po.
      split_and!; try done; apply Forall_live; rewrite Pb.
      * rewrite decide_False by done. intros j x Hj Hx. apply FC.
        by apply (proj1 (Forall_live _ _ _ _) Q1 j).
      * rewrite decide_False by done. intros j x Hj Hx. apply FC.
        by apply (proj1 (Forall_live _ _ _ _) Q2 j).
      * rewrite decide_True by done.
        apply Forall_live_snoc; [destruct W; lia| |by apply FC].
        intros j x Hj Hx. apply FC. by apply (proj1 (Forall_live _ _ _ _) Q3 j).
  - unfold same_cur. rewrite Pb, decide_False by done. done.
Qed.

Lemma pushed_cur_queues n st :
  queues_ok st -> 0 <= curPe st -> free_cell st n ->
  queues_ok (pushed_cur n st).
Proof.
  intros Q Hcnt Hn.
  pose proof (pushed_cur_frame n st) as F.
  pose proof (frame_same_grid _ _ F) as G.
  destruct (pushed_cur_proj n st) as (Pc & Pn & Po & Pb).
  destruct Q as (D1 & D2 & D3 & Q1 & Q2 & Q3).
  destruct F as (_ & _ & _ & _ & Fp & _ & _ & FT & _ & _ & _ & Ecur & Enext & Eover).
  assert (FC : forall k, free_cell st k -> free_cell (pushed_cur n st) k).
  { intros k. by apply free_cell_same_grid. }
  unfold queues_ok. rewrite Ecur, Enext, Eover, Pc, Pn, Po.
  split_and!; try done; apply Forall_live; rewrite Pb.
  - rewrite decide_True by done.
    apply Forall_live_snoc; [done| |by apply FC].
    intros j x Hj Hx. apply FC. by apply (proj1 (Forall_live _ _ _ _) Q1 j).
  - rewrite decide_False by done. intros j x Hj Hx. apply FC.
    by apply (proj1 (Forall_live _ _ _ _) Q2 j).
  - rewrite decide_False by done. intros j x Hj Hx. apply FC.
    by apply (proj1 (Forall_live _ _ _ _) Q3 j).
Qed.

(** A push changes the state only for a free cell. *)
Lemma push_cur_free n s s' :
  push_cur n s = Some s' -> s' = s \/ free_cell s n.
Proof.
  unfold push_cur. intros H.
  destruct ((n >=? 0) && (n <? ns s)) eqn:E1; [|left; congruence].
  apply andb_prop in E1 as [E1 E1'].
  apply bind_Some in H as (p & _ & H). destruct (negb p); [|left; congruence].
  apply bind_Some in H as (c & Hc & H).
  destruct ((c <? COST_OBS) && (curPe s <? PRIORITYBUFSIZE)) eqn:E2; [|left; congruence].
  apply andb_prop in E2 as [E2 _]. right. split; [lia|]. exists c. split; [done|lia].
Qed.

Lemma push_cur_queues n s s' :
  push_cur n s = Some s' -> 0 <= curPe s -> queues_ok s ->
  queues_ok s' /\ 0 <= curPe s' /\ same_grid s s'.
Proof.
  intros H Hc Q. pose proof (push_cur_free n s s' H) as F.
  pose proof (frame_same_grid _ _ (push_cur_frame n s s' H)) as G.
  apply push_cur_inv in H as [->| ->]; [done|].
  destruct F as [F|F].
  - rewrite F. done.
  - split; [by apply pushed_cur_queues|]. split; [|done].
    destruct (pushed_cur_proj n s) as (-> & _). lia.
Qed.

Lemma keeps_trans s1 s2 s3 :
  same_grid s1 s2 -> same_cur s1 s2 -> keeps s2 s3 -> keeps s1 s3.
Proof.
  intros G C (S & G' & C'). split; [done|].
  split; [by eapply same_grid_trans|by eapply same_cur_trans].
Qed.

Lemma keeps_refl s : safe s -> keeps s s.
Proof. intros S. split; [done|]. split; [apply same_grid_refl|apply same_cur_refl]. Qed.

Lemma keeps_step s1 s2 s3 : keeps s1 s2 -> keeps s2 s3 -> keeps s1 s3.
Proof. intros (_ & G & C). by apply keeps_trans. Qed.

Lemma push_next_keeps k st :
  safe st -> exists st', push_next k st = Some st' /\ keeps st st' /\
    potarr st' = potarr st /\ curT st' = curT st.
Proof.
  intros S. rewrite push_next_spec by apply S.
  destruct (admits k (nextPe st) st) eqn:A.
  - destruct (pushed_next_safe k st S A) as (S' & G & C & P & T).
    eexists. split; [done|]. split; [split; [done|split; done]|split; done].
  - exists st. split; [done|]. split; [by apply keeps_refl|done].
Qed.

Lemma push_over_keeps k st :
  safe st -> exists st', push_over k st = Some st' /\ keeps st st' /\
    potarr st' = potarr st /\ curT st' = curT st.
Proof.
  intros S. rewrite push_over_spec by apply S.
  destruct (admits k (overPe st) st) eqn:A.
  - destruct (pushed_over_safe k st S A) as (S' & G & C & P & T).
    eexists. split; [done|]. split; [split; [done|split; done]|split; done].
  - exists st. split; [done|]. split; [by apply keeps_refl|done].
Qed.

Lemma maybe_push_keeps (b : bool) (push : Z -> NavFn -> option NavFn) k st :
  (forall k st, safe st -> exists st', push k st = Some st' /\ keeps st st' /\
     potarr st' = potarr st /\ curT st' = curT st) ->
  safe st ->
  exists st', (if b then push k st else Some st) = Some st' /\ keeps st st' /\
    potarr st' = potarr st /\ curT st' = curT st.
Proof.
  intros Hp S. destruct b; [auto|]. exists st. split; [done|].
  split; [by apply keeps_refl|done].
Qed.

(** A change of the potential array leaves the queues as they are. *)
Lemma set_potarr_keeps pa st :
  safe st -> length pa = length (potarr st) -> keeps st (set_potarr pa st).
Proof.
  intros (W & B & Q) Hlen.
  assert (G : same_grid st (set_potarr pa st)) by repeat split.
  split; [|split; [done|]].
  - split_and!.
    + by apply set_potarr_wf.
    + by apply border_obs_same_grid with st.
    + destruct Q as (D1 & D2 & D3 & Q1 & Q2 & Q3).
      split_and!; try done;
        (eapply Forall_impl; [eassumption|]; intros k; by apply free_cell_same_grid).
  - unfold same_cur. split_and!; try done.
Qed.

Lemma set_pending_keeps pe st :
  safe st -> length pe = length (pending st) -> keeps st (set_pending pe st).
Proof.
  intros (W & B & Q) Hlen.
  assert (G : same_grid st (set_pending pe st)) by repeat split.
  split; [|split; [done|]].
  - split_and!.
    + destruct W. constructor; simpl; try done. by rewrite Hlen.
    + by apply border_obs_same_grid with st.
    + destruct Q as (D1 & D2 & D3 & Q1 & Q2 & Q3).
      split_and!; try done;
        (eapply Forall_impl; [eassumption|]; intros k; by apply free_cell_same_grid).
  - unfold same_cur. split_and!; try done.
Qed.

(** The four conditional pushes of an update. *)
Lemma four_pushes_keeps (push : Z -> NavFn -> option NavFn) (b1 b2 b3 b4 : bool) n st :
  (forall k st, safe st -> exists st', push k st = Some st' /\ keeps st st' /\
     potarr st' = potarr st /\ curT st' = curT st) ->
  safe st ->
  exists st',
    (st ← (if b1 then push (n - 1) st else Some st);
     st ← (if b2 then push (n + 1) st else Some st);
     st ← (if b3 then push (n - nx st) st else Some st);
     if b4 then push (n + nx st) st else Some st) = Some st' /\
    keeps st st' /\ potarr st' = potarr st.
Proof.
  intros Hp S.
  destruct (maybe_push_keeps b1 push (n - 1) st Hp S) as (s1 & -> & K1 & P1 & _).
  cbn [mbind option_bind].
  destruct (maybe_push_keeps b2 push (n + 1) s1 Hp (proj1 K1)) as (s2 & -> & K2 & P2 & _).
  cbn [mbind option_bind].
  destruct (maybe_push_keeps b3 push (n - nx s2) s2 Hp (proj1 K2)) as (s3 & -> & K3 & P3 & _).
  cbn [mbind option_bind].
  destruct (maybe_push_keeps b4 push (n + nx s3) s3 Hp (proj1 K3)) as (s4 & -> & K4 & P4 & _).
  exists s4. split; [done|]. split; [|congruence].
  eauto using keeps_step.
Qed.

(** [updateCell] at a queued cell stays inside the arrays and keeps the
    queues in order. *)
Lemma updateCell_keeps n st :
  safe st -> free_cell st n ->
  exists st', updateCell n st = Some st' /\ keeps st st'.
Proof.
  intros S F. pose proof S as (W & B & Q).
  pose proof (free_cell_interior st n W B F) as I.
  pose proof (interior_bounds st n W I) as (R1 & R2 & R3 & R4).
  destruct F as [Hn (c & Hc & Hlt)].
  pose proof W as [Hnx Hny Hns Lc Lp _ _ _ _ _ _ _ _ _].
  destruct (rd_in_range (potarr st) (n - 1)) as [l Hl]; [lia|].
  destruct (rd_in_range (potarr st) (n + 1)) as [r Hr]; [lia|].
  destruct (rd_in_range (potarr st) (n - nx st)) as [u Hu]; [lia|].
  destruct (rd_in_range (potarr st) (n + nx st)) as [d Hd]; [lia|].
  destruct (rd_in_range (potarr st) n) as [pn Hpn]; [lia|].
  destruct (rd_in_range (costarr st) (n - 1)) as [cl Hcl]; [lia|].
  destruct (rd_in_range (costarr st) (n + 1)) as [cr Hcr]; [lia|].
  destruct (rd_in_range (costarr st) (n - nx st)) as [cu Hcu]; [lia|].
  destruct (rd_in_range (costarr st) (n + nx st)) as [cd Hcd]; [lia|].
  unfold updateCell. rewrite Hl, Hr, Hu, Hd. cbn [mbind option_bind]. cbv zeta.
  rewrite Hc. cbn [mbind option_bind].
  rewrite (proj2 (Z.ltb_lt _ _) Hlt).
  destruct (flt (fsub _ _) (i2f 0)); cbv beta iota;
    rewrite Hpn; cbn [mbind option_bind];
    (match goal with
     | |- context [if flt ?p pn then _ else _] =>
         set (pot := p); destruct (flt pot pn)
     end; [|exists st; split; [done|by apply keeps_refl]]);
    rewrite Hcl, Hcr, Hcu, Hcd; cbn [mbind option_bind];
    rewrite (wr_in_range (potarr st) n pot) by lia; cbn [mbind option_bind];
    (assert (K0 : keeps st (set_potarr (<[Z.to_nat n := pot]> (potarr st)) st))
       by (apply set_potarr_keeps; [done|by rewrite length_insert]));
    set (s0 := set_potarr _ st) in *;
    (destruct (flt pot (curT s0));
     [ destruct (four_pushes_keeps push_next
         (fgt l (fadd pot (d2f (dmul INVSQRT2 (f2d (i2f cl))))))
         (fgt r (fadd pot (d2f (dmul INVSQRT2 (f2d (i2f cr))))))
         (fgt u (fadd pot (d2f (dmul INVSQRT2 (f2d (i2f cu))))))
         (fgt d (fadd pot (d2f (dmul INVSQRT2 (f2d (i2f cd))))))
         n s0 push_next_keeps (proj1 K0)) as (s4 & E & K4 & _)
     | destruct (four_pushes_keeps push_over
         (fgt l (fadd pot (d2f (dmul INVSQRT2 (f2d (i2f cl))))))
         (fgt r (fadd pot (d2f (dmul INVSQRT2 (f2d (i2f cr))))))
         (fgt u (fadd pot (d2f (dmul INVSQRT2 (f2d (i2f cu))))))
         (fgt d (fadd pot (d2f (dmul INVSQRT2 (f2d (i2f cd))))))
         n s0 push_over_keeps (proj1 K0)) as (s4 & E & K4 & _) ];
     exists s4; (split; [exact E|exact (keeps_step _ _ _ K0 K4)])).
Qed.

Lemma live_cur_free st j :
  safe st -> 0 <= j < curPe st ->
  exists c, rd (buf (curP st) st) j = Some c /\ free_cell st c.
Proof.
  intros (W & _ & Q) Hj. destruct Q as (_ & _ & _ & Q1 & _).
  destruct (rd_in_range (buf (curP st) st) j) as [c Hc].
  { rewrite buf_length by done. destruct W. lia. }
  exists c. split; [done|]. apply rd_Some in Hc as [_ Hc].
  apply (proj1 (Forall_live _ _ _ _) Q1 (Z.to_nat j)); [lia|done].
Qed.

Lemma reset_pending_keeps i : forall j st,
  safe st -> 0 <= j -> j + Z.of_nat i <= curPe st ->
  exists st', reset_pending i j st = Some st' /\ keeps st st'.
Proof.
  induction i as [|i IH]; intros j st S Hj Hi; simpl.
  - exists st. split; [done|by apply keeps_refl].
  - destruct (live_cur_free st j S) as (c & -> & [Hc _]); [lia|].
    cbn [mbind option_bind].
    assert (Lp : Z.of_nat (length (pending st)) = ns st) by (destruct S as [[] _]; done).
    rewrite wr_in_range by lia. cbn [mbind option_bind].
    assert (K1 : keeps st (set_pending (<[Z.to_nat c := false]> (pending st)) st)).
    { apply set_pending_keeps; [done|by rewrite length_insert]. }
    destruct (IH (j + 1) _ (proj1 K1)) as (st' & E & K'); [lia|simpl; lia|].
    exists st'. split; [done|exact (keeps_step _ _ _ K1 K')].
Qed.

Lemma update_cells_keeps i : forall j st,
  safe st -> 0 <= j -> j + Z.of_nat i <= curPe st ->
  exists st', update_cells i j st = Some st' /\ keeps st st'.
Proof.
  induction i as [|i IH]; intros j st S Hj Hi; simpl.
  - exists st. split; [done|by apply keeps_refl].
  - destruct (live_cur_free st j S) as (c & -> & F); [lia|].
    cbn [mbind option_bind].
    destruct (updateCell_keeps c st S F) as (s1 & -> & K1).
    cbn [mbind option_bind].
    pose proof K1 as (S1 & _ & (E1 & _ & _ & E2 & E3)).
    destruct (IH (j + 1) s1 S1) as (st' & E & K'); [lia|lia|].
    exists st'. split; [done|exact (keeps_step _ _ _ K1 K')].
Qed.

(** The rotation of the three priority blocks at the end of a turn. *)
Lemma rotate_safe st :
  safe st ->
  let st1 := set_nextPe 0 (set_curPe (nextPe st) st) in
  let st2 := set_nextP (curP st1) (set_curP (nextP st1) st1) in
  let st3 :=
    if curPe st2 =? 0 then
      let st := set_curT (fadd (curT st2) (priInc st2)) st2 in
      let st := set_overPe 0 (set_curPe (overPe st) st) in
      set_overP (curP st) (set_curP (overP st) st)
    else st2 in
  safe st3 /\ same_grid st st3 /\ potarr st3 = potarr st.
Proof.
  intros (W & B & Q). cbv zeta.
  destruct st as [nx0 ny0 ns0 ca pa pe gx gy b1 b2 b3 cP nP oP cPe nPe oPe cT pI g s no pS nb np px py].
  destruct Q as (D1 & D2 & D3 & Q1 & Q2 & Q3). destruct W.
  unfold safe, queues_ok, live, border_obs, on_border, in_grid, cell, same_grid in *.
  simpl in *.
  destruct (nPe =? 0) eqn:E; simpl.
  - split_and!; try done; try (constructor; simpl; done || lia); try congruence.
  - split_and!; try done; try (constructor; simpl; done || lia); try congruence.
Qed.

Lemma start_cell_range st :
  wf st -> in_grid st (start st).1 (start st).2 ->
  0 <= (start st).2 * nx st + (start st).1 < Z.of_nat (length (potarr st)).
Proof. intros [] [Hx Hy]. nia. Qed.

Lemma in_grid_same_grid s s' x y :
  same_grid s s' -> in_grid s x y -> in_grid s' x y.
Proof. intros (E1 & E2 & _). unfold in_grid. by rewrite E1, E2. Qed.

Lemma dijkstra_turn_safe atStart st :
  safe st -> (atStart = true -> in_grid st (start st).1 (start st).2) ->
  exists t, dijkstra_turn atStart st = Some t /\
    match t with
    | Drained => True
    | HitStart st' | Next st' => safe st' /\ same_grid st st'
    end.
Proof.
  intros S Hs. unfold dijkstra_turn.
  destruct ((curPe st =? 0) && (nextPe st =? 0)); [by exists Drained|].
  assert (Hc : 0 <= curPe st) by (destruct S as [[] _]; lia).
  destruct (reset_pending_keeps (Z.to_nat (curPe st)) 0 st S) as (s1 & -> & K1); [lia|lia|].
  cbn [mbind option_bind].
  pose proof K1 as (S1 & G1 & (_ & _ & _ & E1 & _)).
  destruct (update_cells_keeps (Z.to_nat (curPe s1)) 0 s1 S1) as (s2 & -> & K2); [lia|lia|].
  cbn [mbind option_bind].
  pose proof K2 as (S2 & G2 & _).
  pose proof (rotate_safe s2 S2) as R. cbv zeta in R |- *.
  destruct R as (S3 & G3 & _).
  match type of S3 with safe ?s => set (s3 := s) in * end.
  assert (G : same_grid st s3) by eauto using same_grid_trans.
  destruct atStart.
  - destruct (rd_in_range (potarr s3) ((start s3).2 * nx s3 + (start s3).1)) as [p ->].
    { apply start_cell_range; [apply S3|]. pose proof G as (Ex & Ey & _ & _ & _ & Es & _).
      rewrite Es. apply in_grid_same_grid with st; [done|]. by apply Hs. }
    cbn [mbind option_bind].
    destruct (below_POT_HIGH p); eexists; (split; [reflexivity|exact (conj S3 G)]).
  - eexists. split; [reflexivity|exact (conj S3 G)].
Qed.

Lemma dijkstra_loop_safe rem : forall cycle atStart st,
  safe st -> (atStart = true -> in_grid st (start st).1 (start st).2) ->
  exists c how st', dijkstra_loop rem cycle atStart st = Some (c, how, st') /\
    safe st' /\ same_grid st st'.
Proof.
  induction rem as [|rem IH]; intros cycle atStart st S Hs; simpl.
  - exists cycle, Exhausted, st. split; [done|]. split; [done|apply same_grid_refl].
  - destruct (dijkstra_turn_safe atStart st S Hs) as (t & -> & Ht).
    cbn [mbind option_bind]. destruct t as [|s1|s1].
    + exists cycle, ExitDrained, st. split; [done|]. split; [done|apply same_grid_refl].
    + exists cycle, ExitStart, s1. by split.
    + destruct Ht as [S1 G1].
      destruct (IH (cycle + 1) atStart s1 S1) as (c & how & st' & E & S' & G').
      { intros Ha. pose proof G1 as (_ & _ & _ & _ & _ & Es & _). rewrite Es.
        apply in_grid_same_grid with st; [done|]. by apply Hs. }
      exists c, how, st'. split; [done|]. split; [done|by eapply same_grid_trans].
Qed.

Lemma propNavFnDijkstra_safe cycles atStart st :
  safe st -> (atStart = true -> in_grid st (start st).1 (start st).2) ->
  exists r st', propNavFnDijkstra cycles atStart st = Some (r, st') /\
    safe st' /\ same_grid st st'.
Proof.
  intros S Hs. unfold propNavFnDijkstra.
  destruct (dijkstra_loop_safe (Z.to_nat cycles) 0 atStart st S Hs)
    as (c & how & st' & -> & S' & G').
  cbn [mbind option_bind]. eexists _, st'. split; [reflexivity|done].
Qed.

Lemma store_stride_length {A} cnt : forall (a a' : list A) k stride v,
  store_stride a k stride cnt v = Some a' -> length a' = length a.
Proof.
  induction cnt as [|cnt IH]; intros a a' k stride v H; simpl in H.
  - by injection H as <-.
  - apply bind_Some in H as (a1 & W & H). apply wr_Some in W as [_ ->].
    apply IH in H. by rewrite length_insert in H.
Qed.

Lemma initCost_queues k v s s' :
  initCost k v s = Some s' -> 0 <= curPe s -> queues_ok s -> queues_ok s'.
Proof.
  unfold initCost. intros H Hc Q.
  apply bind_Some in H as (pa & _ & H). cbv zeta in H.
  apply bind_Some in H as (s1 & P1 & H). apply bind_Some in H as (s2 & P2 & H).
  apply bind_Some in H as (s3 & P3 & H).
  assert (Q0 : queues_ok (set_potarr pa s)).
  { destruct Q as (D1 & D2 & D3 & Q1 & Q2 & Q3). split_and!; try done. }
  apply push_cur_queues in P1 as (Q1 & C1 & _); [|done..].
  apply push_cur_queues in P2 as (Q2 & C2 & _); [|done..].
  apply push_cur_queues in P3 as (Q3 & C3 & _); [|done..].
  apply push_cur_queues in H as (Q4 & _); done.
Qed.

(** [setupNavFn] establishes the invariant of the propagation. *)
Lemma setupNavFn_safe keepit st :
  wf st -> in_grid st (goal st).1 (goal st).2 ->
  exists st', setupNavFn keepit st = Some st' /\ safe st' /\
    nx st' = nx st /\ ny st' = ny st /\ ns st' = ns st /\
    goal st' = goal st /\ start st' = start st.
Proof.
  intros W Hg.
  destruct (setupNavFn_spec keepit st W Hg)
    as (st' & E & W' & Ex & Ey & Es & Eg & Est & Hb & _).
  exists st'. split; [done|]. split; [|done].
  split; [done|]. split.
  - intros x y Hxy. unfold on_border, in_grid, cell in *. rewrite Ex, Ey in Hxy.
    rewrite Ex. exists COST_OBS. split; [|lia]. by apply Hb.
  - clear Hb. unfold setupNavFn in E.
    apply bind_Some in E as (pa & _ & E). apply bind_Some in E as (ca0 & _ & E).
    apply bind_Some in E as (gx & _ & E). apply bind_Some in E as (gy & _ & E).
    apply bind_Some in E as (ca1 & _ & E). apply bind_Some in E as (ca2 & _ & E).
    apply bind_Some in E as (ca3 & _ & E). apply bind_Some in E as (ca4 & _ & E).
    cbv zeta in E.
    apply bind_Some in E as (pe & _ & E). apply bind_Some in E as (s3 & I & E).
    apply bind_Some in E as (ntot & _ & E). injection E as <-.
    apply initCost_queues in I; [|simpl; lia|].
    + destruct I as (D1 & D2 & D3 & Q1 & Q2 & Q3). split_and!; try done.
    + unfold queues_ok, live. simpl. split_and!; try done; constructor.
Qed.

Section Astar.
Variable hypot : double -> double -> double.

Lemma update_cells_astar_evolves i : forall j st st',
  update_cells_astar hypot i j st = Some st' -> pot_evolves st st'.
Proof.
  induction i as [|i IH]; intros j st st' H; simpl in H.
  - injection H as <-. apply pot_evolves_refl.
  - apply bind_Some in H as (c & _ & H). apply bind_Some in H as (s1 & U & H).
    eapply pot_evolves_trans; [by eapply updateCellAstar_evolves|by eapply IH].
Qed.

Lemma astar_turn_evolves startCell st t :
  astar_turn hypot startCell st = Some t ->
  match t with
  | Drained => True
  | HitStart st' | Next st' => pot_evolves st st'
  end.
Proof.
  unfold astar_turn. intros H.
  destruct ((curPe st =? 0) && (nextPe st =? 0)); [by injection H as <-|].
  apply bind_Some in H as (s1 & R & H). apply bind_Some in H as (s2 & U & H).
  apply reset_pending_grids in R as [Rc Rp].
  apply update_cells_astar_evolves in U.
  assert (E : pot_evolves st s2).
  { eapply pot_evolves_trans; [|exact U]. by apply pot_evolves_same. }
  clear U Rc Rp. cbv zeta in H.
  assert (Hs : forall s3, costarr s3 = costarr s2 -> potarr s3 = potarr s2 ->
                 pot_evolves st s3).
  { intros s3 Hc Hp. eapply pot_evolves_trans; [exact E|]. by apply pot_evolves_same. }
  apply bind_Some in H as (p & _ & H).
  destruct (below_POT_HIGH p); injection H as <-;
    (apply Hs; match goal with |- context [if ?c then _ else _] => destruct c end;
     reflexivity).
Qed.

Lemma astar_loop_evolves rem : forall startCell st st',
  astar_loop hypot rem startCell st = Some st' -> pot_evolves st st'.
Proof.
  induction rem as [|rem IH]; intros startCell st st' H; simpl in H.
  - injection H as <-. apply pot_evolves_refl.
  - apply bind_Some in H as (t & T & H). apply astar_turn_evolves in T.
    destruct t as [|s1|s1].
    + injection H as <-. apply pot_evolves_refl.
    + by injection H as <-.
    + eapply pot_evolves_trans; [exact T|by eapply IH].
Qed.

Lemma propNavFnAstar_evolves cycles st r lpc st' :
  propNavFnAstar hypot cycles st = Some (r, lpc, st') -> pot_evolves st st'.
Proof.
  unfold propNavFnAstar. intros H. cbv zeta in H.
  apply bind_Some in H as (s1 & L & H). apply bind_Some in H as (p1 & _ & H).
  apply bind_Some in H as (p2 & _ & H). injection H as _ _ <-.
  apply astar_loop_evolves in L.
  eapply pot_evolves_trans; [|exact L]. by apply pot_evolves_same.
Qed.

(** [updateCellAstar] at a queued cell stays inside the arrays and keeps
    the queues in order. *)
Lemma updateCellAstar_keeps n st :
  safe st -> free_cell st n ->
  exists st', updateCellAstar hypot n st = Some st' /\ keeps st st'.
Proof.
  intros S F. pose proof S as (W & B & Q).
  pose proof (free_cell_interior st n W B F) as I.
  pose proof (interior_bounds st n W I) as (R1 & R2 & R3 & R4).
  destruct F as [Hn (c & Hc & Hlt)].
  pose proof W as [Hnx Hny Hns Lc Lp _ _ _ _ _ _ _ _ _].
  destruct (rd_in_range (potarr st) (n - 1)) as [l Hl]; [lia|].
  destruct (rd_in_range (potarr st) (n + 1)) as [r Hr]; [lia|].
  destruct (rd_in_range (potarr st) (n - nx st)) as [u Hu]; [lia|].
  destruct (rd_in_range (potarr st) (n + nx st)) as [d Hd]; [lia|].
  destruct (rd_in_range (potarr st) n) as [pn Hpn]; [lia|].
  destruct (rd_in_range (costarr st) (n - 1)) as [cl Hcl]; [lia|].
  destruct (rd_in_range (costarr st) (n + 1)) as [cr Hcr]; [lia|].
  destruct (rd_in_range (costarr st) (n - nx st)) as [cu Hcu]; [lia|].
  destruct (rd_in_range (costarr st) (n + nx st)) as [cd Hcd]; [lia|].
  unfold updateCellAstar. rewrite Hl, Hr, Hu, Hd. cbn [mbind option_bind]. cbv zeta.
  rewrite Hc. cbn [mbind option_bind].
  rewrite (proj2 (Z.ltb_lt _ _) Hlt).
  assert (Hnz : (nx st =? 0) = false) by (apply Z.eqb_neq; lia).
  destruct (flt (fsub _ _) (i2f 0)); cbv beta iota;
    rewrite Hpn; cbn [mbind option_bind];
    (match goal with
     | |- context [if flt ?p pn then _ else _] =>
         set (pot := p); destruct (flt pot pn)
     end; [|exists st; split; [done|by apply keeps_refl]]);
    rewrite Hcl, Hcr, Hcu, Hcd; cbn [mbind option_bind]; rewrite Hnz;
    rewrite (wr_in_range (potarr st) n pot) by lia; cbn [mbind option_bind];
    (assert (K0 : keeps st (set_potarr (<[Z.to_nat n := pot]> (potarr st)) st))
       by (apply set_potarr_keeps; [done|by rewrite length_insert]));
    set (s0 := set_potarr _ st) in *;
    (match goal with
     | |- context [flt ?key (curT s0)] => set (k := key); destruct (flt k (curT s0))
     end;
     [ destruct (four_pushes_keeps push_next
         (fgt l (fadd k (d2f (dmul INVSQRT2 (f2d (i2f cl))))))
         (fgt r (fadd k (d2f (dmul INVSQRT2 (f2d (i2f cr))))))
         (fgt u (fadd k (d2f (dmul INVSQRT2 (f2d (i2f cu))))))
         (fgt d (fadd k (d2f (dmul INVSQRT2 (f2d (i2f cd))))))
         n s0 push_next_keeps (proj1 K0)) as (s4 & E & K4 & _)
     | destruct (four_pushes_keeps push_over
         (fgt l (fadd k (d2f (dmul INVSQRT2 (f2d (i2f cl))))))
         (fgt r (fadd k (d2f (dmul INVSQRT2 (f2d (i2f cr))))))
         (fgt u (fadd k (d2f (dmul INVSQRT2 (f2d (i2f cu))))))
         (fgt d (fadd k (d2f (dmul INVSQRT2 (f2d (i2f cd))))))
         n s0 push_over_keeps (proj1 K0)) as (s4 & E & K4 & _) ];
     exists s4; (split; [exact E|exact (keeps_step _ _ _ K0 K4)])).
Qed.

Lemma update_cells_astar_keeps i : forall j st,
  safe st -> 0 <= j -> j + Z.of_nat i <= curPe st ->
  exists st', update_cells_astar hypot i j st = Some st' /\ keeps st st'.
Proof.
  induction i as [|i IH]; intros j st S Hj Hi; simpl.
  - exists st. split; [done|by apply keeps_refl].
  - destruct (live_cur_free st j S) as (c & -> & F); [lia|].
    cbn [mbind option_bind].
    destruct (updateCellAstar_keeps c st S F) as (s1 & -> & K1).
    cbn [mbind option_bind].
    pose proof K1 as (S1 & _ & (E1 & _ & _ & E2 & E3)).
    destruct (IH (j + 1) s1 S1) as (st' & E & K'); [lia|lia|].
    exists st'. split; [done|exact (keeps_step _ _ _ K1 K')].
Qed.

Lemma astar_turn_safe startCell st :
  safe st -> 0 <= startCell < ns st ->
  exists t, astar_turn hypot startCell st = Some t /\
    match t with
    | Drained => True
    | HitStart st' | Next st' => safe st' /\ same_grid st st'
    end.
Proof.
  intros S Hs. unfold astar_turn.
  destruct ((curPe st =? 0) && (nextPe st =? 0)); [by exists Drained|].
  assert (Hc : 0 <= curPe st) by (destruct S as [[] _]; lia).
  destruct (reset_pending_keeps (Z.to_nat (curPe st)) 0 st S) as (s1 & -> & K1); [lia|lia|].
  cbn [mbind option_bind].
  pose proof K1 as (S1 & G1 & (_ & _ & _ & E1 & _)).
  destruct (update_cells_astar_keeps (Z.to_nat (curPe s1)) 0 s1 S1) as (s2 & -> & K2); [lia|lia|].
  cbn [mbind option_bind].
  pose proof K2 as (S2 & G2 & _).
  pose proof (rotate_safe s2 S2) as R. cbv zeta in R |- *.
  destruct R as (S3 & G3 & _).
  match type of S3 with safe ?s => set (s3 := s) in * end.
  assert (G : same_grid st s3) by eauto using same_grid_trans.
  destruct (rd_in_range (potarr s3) startCell) as [p ->].
  { pose proof G as (_ & _ & Ens & _). destruct S3 as [[] _]. lia. }
  cbn [mbind option_bind].
  destruct (below_POT_HIGH p); eexists; (split; [reflexivity|exact (conj S3 G)]).
Qed.

Lemma astar_loop_safe rem : forall startCell st,
  safe st -> 0 <= startCell < ns st ->
  exists st', astar_loop hypot rem startCell st = Some st' /\
    safe st' /\ same_grid st st'.
Proof.
  induction rem as [|rem IH]; intros startCell st S Hs; simpl.
  - exists st. split; [done|]. split; [done|apply same_grid_refl].
  - destruct (astar_turn_safe startCell st S Hs) as (t & -> & Ht).
    cbn [mbind option_bind]. destruct t as [|s1|s1].
    + exists st. split; [done|]. split; [done|apply same_grid_refl].
    + exists s1. by split.
    + destruct Ht as [S1 G1].
      destruct (IH startCell s1 S1) as (st' & E & S' & G').
      { pose proof G1 as (_ & _ & Ens & _). lia. }
      exists st'. split; [done|]. split; [done|by eapply same_grid_trans].
Qed.

Lemma set_curT_keeps v st : safe st -> keeps st (set_curT v st).
Proof.
  intros (W & B & Q).
  assert (G : same_grid st (set_curT v st)) by repeat split.
  split; [|split; [done|]].
  - split_and!.
    + destruct W. constructor; simpl; done.
    + by apply border_obs_same_grid with st.
    + destruct Q as (D1 & D2 & D3 & Q1 & Q2 & Q3).
      split_and!; try done;
        (eapply Forall_impl; [eassumption|]; intros k; by apply free_cell_same_grid).
  - unfold same_cur. split_and!; try done.
Qed.

Lemma propNavFnAstar_safe cycles st :
  safe st -> in_grid st (start st).1 (start st).2 ->
  exists r lpc st', propNavFnAstar hypot cycles st = Some (r, lpc, st') /\
    safe st' /\ same_grid st st'.
Proof.
  intros S Hs. unfold propNavFnAstar. cbv zeta.
  match goal with |- context [set_curT ?v st] => set (s0 := set_curT v st) end.
  pose proof (set_curT_keeps (curT s0) st S) as (S0 & G0 & _). fold s0 in S0, G0.
  assert (Hr : 0 <= (start s0).2 * nx s0 + (start s0).1 < ns s0).
  { destruct Hs as [Hx Hy]. destruct S as [[] _]. simpl. nia. }
  destruct (astar_loop_safe (Z.to_nat cycles) _ s0 S0 Hr) as (st' & -> & S' & G').
  cbn [mbind option_bind].
  destruct (rd_in_range (potarr st') ((start s0).2 * nx s0 + (start s0).1)) as [p ->].
  { pose proof G' as (_ & _ & Ens & _). destruct S' as [[] _]. lia. }
  cbn [mbind option_bind]. eexists _, _, st'. split; [reflexivity|].
  split; [done|by eapply same_grid_trans].
Qed.

End Astar.

Lemma pot_evolves_rd s s' :
  pot_evolves s s' ->
  costarr s' = costarr s /\
  forall k old, rd (potarr s) k = Some old ->
    exists new, rd (potarr s') k = Some new /\
      (new = old \/
       (flt new old = true /\ exists c, rd (costarr s) k = Some c /\ c < COST_OBS)).
Proof.
  intros (Ec & _ & H). split; [done|]. intros k old [Hk Ho]%rd_Some.
  destruct (H _ _ Ho) as (new & Hn & Hnew). exists new.
  split; [by apply rd_Some|].
  destruct Hnew as [->|[L (c & Hc & Hlt)]]; [by left|right].
  split; [done|]. exists c. split; [by apply rd_Some|done].
Qed.


Lemma open5_start_in_grid : in_grid open5 (start open5).1 (start open5).2.
Proof. unfold in_grid. simpl. lia. Qed.


(** X6. [propNavFnDijkstra] leaves the costs as they are and never
    raises a potential: every cell keeps its potential or gets a
    strictly lower one, and only cells whose cost is below [COST_OBS]
    get a new one. *)
Theorem propNavFnDijkstra_lowers_potentials cycles atStart st r st' :
  propNavFnDijkstra cycles atStart st = Some (r, st') ->
  costarr st' = costarr st /\
  forall k old, rd (potarr st) k = Some old ->
    exists new, rd (potarr st') k = Some new /\
      (new = old \/
       (flt new old = true /\ exists c, rd (costarr st) k = Some c /\ c < COST_OBS)).
Proof. intros H. apply propNavFnDijkstra_evolves in H. by apply pot_evolves_rd. Qed.

Lemma dijkstra3_open5 :
  propNavFnDijkstra 3 false (after_setup open5) =
  Some (true, after_dijkstra 3 false (after_setup open5)).
Proof. vm_compute. reflexivity. Qed.

Lemma propNavFnDijkstra_lowers_potentials_witness :
  costarr (after_dijkstra 3 false (after_setup open5)) =
    costarr (after_setup open5) /\
  forall k old, rd (potarr (after_setup open5)) k = Some old ->
    exists new,
      rd (potarr (after_dijkstra 3 false (after_setup open5))) k = Some new /\
      (new = old \/
       (flt new old = true /\
        exists c, rd (costarr (after_setup open5)) k = Some c /\ c < COST_OBS)).
Proof.
  apply (propNavFnDijkstra_lowers_potentials 3 false (after_setup open5) true).
  exact dijkstra3_open5.
Defined.

Lemma evolves_obstacles st1 st2 g :
  wf st1 -> pot_evolves st1 st2 ->
  (forall k, 0 <= k < ns st1 ->
     rd (potarr st1) k = Some (if decide (k = g) then i2f 0 else POT_HIGH_f)) ->
  forall k c, rd (costarr st2) k = Some c -> COST_OBS <= c -> k <> g ->
    rd (potarr st2) k = Some POT_HIGH_f.
Proof.
  intros W E Hp k c Hc Hobs Hk. apply pot_evolves_rd in E as [Ec E].
  rewrite Ec in Hc. pose proof (rd_bound _ _ _ Hc) as Hr.
  assert (Hr' : 0 <= k < ns st1) by (destruct W; lia).
  specialize (Hp k Hr'). rewrite decide_False in Hp by done.
  destruct (E _ _ Hp) as (new & Hn & [->|(_ & c' & Hc' & Hlt)]); [done|].
  rewrite Hc in Hc'. injection Hc' as <-. lia.
Qed.

(** X7. After [setupNavFn] and [propNavFnDijkstra], every cell whose cost
    is [COST_OBS] or more, the goal cell apart, still has the potential
    [POT_HIGH]: the wavefront never enters an obstacle. *)
Theorem propNavFnDijkstra_obstacles keepit cycles atStart st st1 r st2 :
  wf st -> in_grid st (goal st).1 (goal st).2 ->
  setupNavFn keepit st = Some st1 ->
  propNavFnDijkstra cycles atStart st1 = Some (r, st2) ->
  forall k c, rd (costarr st2) k = Some c -> COST_OBS <= c ->
    k <> goal_cell st -> rd (potarr st2) k = Some POT_HIGH_f.
Proof.
  intros W Hg E1 E2.
  destruct (setupNavFn_spec keepit st W Hg) as (st1' & E & W1 & _ & _ & Ens & _ & _ & _ & Hp).
  rewrite E1 in E. injection E as <-.
  apply propNavFnDijkstra_evolves in E2.
  apply (evolves_obstacles st1 st2 (goal_cell st) W1 E2).
  intros k Hk. apply Hp. lia.
Qed.

Lemma propNavFnDijkstra_obstacles_witness :
  rd (potarr (after_dijkstra 3 false (after_setup open5))) 0 = Some POT_HIGH_f.
Proof.
  apply (propNavFnDijkstra_obstacles true 3 false open5 (after_setup open5) true
           (after_dijkstra 3 false (after_setup open5))
           open5_wf open5_goal_in_grid setup_open5 dijkstra3_open5 0 COST_OBS).
  - vm_compute. reflexivity.
  - lia.
  - vm_compute. discriminate.
Defined.

Section AstarRuns.
Variable hypot : double -> double -> double.

Lemma propNavFnAstar_after_setup keepit cycles st :
  wf st -> in_grid st (goal st).1 (goal st).2 ->
  in_grid st (start st).1 (start st).2 ->
  exists st1 r cost st2,
    setupNavFn keepit st = Some st1 /\
    propNavFnAstar hypot cycles st1 = Some (r, cost, st2) /\ wf st2 /\
    rd (potarr st2) (cell st (start st).1 (start st).2) = Some cost /\
    r = below_POT_HIGH cost.
Proof.
  intros W Hg Hs.
  destruct (setupNavFn_safe keepit st W Hg) as (st1 & E1 & S1 & Ex & Ey & _ & _ & Es).
  destruct (propNavFnAstar_safe hypot cycles st1 S1) as (r & lpc & st2 & E2 & S2 & _).
  { unfold in_grid. by rewrite Es, Ex, Ey. }
  exists st1, r, lpc, st2. split; [done|]. split; [done|]. split; [apply S2|].
  unfold propNavFnAstar in E2. cbv zeta in E2.
  apply bind_Some in E2 as (s & _ & E2). apply bind_Some in E2 as (p1 & P1 & E2).
  apply bind_Some in E2 as (p2 & P2 & E2). injection E2 as <- <- <-.
  simpl in P1, P2. rewrite Es, Ex in P1, P2. unfold cell.
  rewrite P1 in P2. injection P2 as <-. done.
Qed.

(** X8. On a well-formed planner whose goal and start are cells of the
    grid, [setupNavFn] followed by [propNavFnAstar], for any number of
    cycles, never reads or writes outside an array and leaves a
    well-formed planner; the cost it stores in [last_path_cost_] is the
    potential of the start cell, and it returns true exactly when that
    potential is below [POT_HIGH]. *)
Theorem propNavFnAstar_in_bounds keepit cycles st :
  wf st -> in_grid st (goal st).1 (goal st).2 ->
  in_grid st (start st).1 (start st).2 ->
  exists st1 r cost st2,
    setupNavFn keepit st = Some st1 /\
    propNavFnAstar hypot cycles st1 = Some (r, cost, st2) /\ wf st2 /\
    rd (potarr st2) (cell st (start st).1 (start st).2) = Some cost /\
    r = below_POT_HIGH cost.
Proof. apply propNavFnAstar_after_setup. Qed.

(** X9. [propNavFnAstar] leaves the costs as they are and never raises a
    potential: every cell keeps its potential or gets a strictly lower
    one, and only cells whose cost is below [COST_OBS] get a new one. *)
Theorem propNavFnAstar_lowers_potentials cycles st r cost st' :
  propNavFnAstar hypot cycles st = Some (r, cost, st') ->
  costarr st' = costarr st /\
  forall k old, rd (potarr st) k = Some old ->
    exists new, rd (potarr st') k = Some new /\
      (new = old \/
       (flt new old = true /\ exists c, rd (costarr st) k = Some c /\ c < COST_OBS)).
Proof. intros H. apply propNavFnAstar_evolves in H. by apply pot_evolves_rd. Qed.

End AstarRuns.

Lemma propNavFnAstar_in_bounds_witness :
  exists st1 r cost st2,
    setupNavFn true open5 = Some st1 /\
    propNavFnAstar hypot_sqrt 3 st1 = Some (r, cost, st2) /\ wf st2 /\
    rd (potarr st2) (cell open5 (start open5).1 (start open5).2) = Some cost /\
    r = below_POT_HIGH cost.
Proof.
  apply (propNavFnAstar_in_bounds hypot_sqrt true 3 open5).
  - exact open5_wf.
  - exact open5_goal_in_grid.
  - exact open5_start_in_grid.
Defined.

Lemma astar3_open5 :
  propNavFnAstar hypot_sqrt 3 (after_setup open5) =
  Some (true, S754_finite false 11167334 (-17), after_astar 3 (after_setup open5)).
Proof. vm_compute. reflexivity. Qed.

Lemma propNavFnAstar_lowers_potentials_witness :
  costarr (after_astar 3 (after_setup open5)) = costarr (after_setup open5) /\
  forall k old, rd (potarr (after_setup open5)) k = Some old ->
    exists new,
      rd (potarr (after_astar 3 (after_setup open5))) k = Some new /\
      (new = old \/
       (flt new old = true /\
        exists c, rd (costarr (after_setup open5)) k = Some c /\ c < COST_OBS)).
Proof.
  apply (propNavFnAstar_lowers_potentials hypot_sqrt 3 (after_setup open5) true
           (S754_finite false 11167334 (-17))).
  exact astar3_open5.
Defined.

Lemma open7_wf : wf open7.
Proof. by apply planner_wf. Qed.

Lemma open7_goal_in_grid : in_grid open7 (goal open7).1 (goal open7).2.
Proof. unfold in_grid. simpl. lia. Qed.

Lemma open7_start_in_grid : in_grid open7 (start open7).1 (start open7).2.
Proof. unfold in_grid. simpl. lia. Qed.

(* ===================================================================== *)
(** ** The pending flags mark the queued cells                           *)
(* ===================================================================== *)

Lemma take_snoc_insert {A} (l : list A) k n :
  (k < length l)%nat -> take (S k) (<[k := n]> l) = take k l ++ [n].
Proof.
  intros Hk. rewrite (take_S_r _ _ n) by (by apply list_lookup_insert_eq).
  by rewrite take_insert_ge by lia.
Qed.

Lemma live_snoc (cnt n : Z) (l : list Z) :
  0 <= cnt < Z.of_nat (length l) ->
  take (Z.to_nat (cnt + 1)) (<[Z.to_nat cnt := n]> l) = take (Z.to_nat cnt) l ++ [n].
Proof.
  intros Hc. replace (Z.to_nat (cnt + 1)) with (S (Z.to_nat cnt)) by lia.
  apply take_snoc_insert. lia.
Qed.

Lemma marks_perm L L' st st' :
  L ≡ₚ L' -> pending st' = pending st -> marks L st -> marks L' st'.
Proof.
  intros P E [N M]. split; [by rewrite <- P|].
  intros n. rewrite E, M. by rewrite P.
Qed.

Lemma rd_insert_ne {A} (a : list A) i j v :
  i <> j -> 0 <= i -> rd (<[Z.to_nat i := v]> a) j = rd a j.
Proof.
  intros Hne Hi. unfold rd. case_decide; [|done].
  apply list_lookup_insert_ne. lia.
Qed.

(** Setting the flag of a cell that has none adds the cell. *)
Lemma marks_push L st st' n :
  rd (pending st) n = Some false ->
  pending st' = <[Z.to_nat n := true]> (pending st) ->
  marks L st -> marks (n :: L) st'.
Proof.
  intros Hp E [N M]. apply rd_Some in Hp as [Hn Hp].
  assert (Hnot : n ∉ L).
  { intros Hin. apply M in Hin. apply rd_Some in Hin as [_ Hin]. congruence. }
  split; [by constructor|].
  intros m. rewrite E, elem_of_cons. destruct (decide (m = n)) as [->|Hne].
  - split; [by left|]. intros _. apply rd_Some. split; [done|].
    apply list_lookup_insert_eq. by eapply lookup_lt_Some.
  - rewrite rd_insert_ne by done. rewrite M. intuition.
Qed.

(** Clearing the flag of the first cell removes it. *)
Lemma marks_pop L st st' c :
  0 <= c ->
  pending st' = <[Z.to_nat c := false]> (pending st) ->
  marks (c :: L) st -> marks L st'.
Proof.
  intros Hc E [N M]. apply NoDup_cons in N as [Hnot N].
  split; [done|].
  intros m. rewrite E. destruct (decide (m = c)) as [->|Hne].
  - split; [|done]. intros H. exfalso.
    assert (Hin : rd (pending st) c = Some true) by (apply M; by left).
    apply rd_Some in Hin as [_ Hin]. apply rd_Some in H as [_ H].
    rewrite list_lookup_insert_eq in H by (by eapply lookup_lt_Some). discriminate.
  - rewrite rd_insert_ne by done. rewrite M, elem_of_cons. intuition.
Qed.

(** The three pushes. *)

Lemma push_cur_cases n s s' :
  push_cur n s = Some s' ->
  s' = s \/ (s' = pushed_cur n s /\ rd (pending s) n = Some false /\
             0 <= curPe s < Z.of_nat (length (buf (curP s) s))).
Proof.
  unfold push_cur. intros H.
  destruct ((n >=? 0) && (n <? ns s)) eqn:E1; [|left; congruence].
  apply bind_Some in H as (p & Hp & H). destruct p; simpl in H; [left; congruence|].
  apply bind_Some in H as (c & Hc & H).
  destruct ((c <? COST_OBS) && (curPe s <? PRIORITYBUFSIZE)) eqn:E2; [|left; congruence].
  apply bind_Some in H as (b & Hb & H). cbv zeta in H.
  apply bind_Some in H as (pe & Hpe & H). injection H as <-.
  right. apply wr_Some in Hb as [Hr ->]. apply wr_Some in Hpe as [_ ->].
  split; [|done]. unfold pushed_cur. f_equal. by rewrite pending_set_buf.
Qed.

Lemma push_next_cases n s s' :
  push_next n s = Some s' ->
  s' = s \/ (s' = pushed_next n s /\ rd (pending s) n = Some false /\
             0 <= nextPe s < Z.of_nat (length (buf (nextP s) s))).
Proof.
  unfold push_next. intros H.
  destruct ((n >=? 0) && (n <? ns s)) eqn:E1; [|left; congruence].
  apply bind_Some in H as (p & Hp & H). destruct p; simpl in H; [left; congruence|].
  apply bind_Some in H as (c & Hc & H).
  destruct ((c <? COST_OBS) && (nextPe s <? PRIORITYBUFSIZE)) eqn:E2; [|left; congruence].
  apply bind_Some in H as (b & Hb & H). cbv zeta in H.
  apply bind_Some in H as (pe & Hpe & H). injection H as <-.
  right. apply wr_Some in Hb as [Hr ->]. apply wr_Some in Hpe as [_ ->].
  split; [|done]. unfold pushed_next. f_equal. by rewrite pending_set_buf.
Qed.

Lemma push_over_cases n s s' :
  push_over n s = Some s' ->
  s' = s \/ (s' = pushed_over n s /\ rd (pending s) n = Some false /\
             0 <= overPe s < Z.of_nat (length (buf (overP s) s))).
Proof.
  unfold push_over. intros H.
  destruct ((n >=? 0) && (n <? ns s)) eqn:E1; [|left; congruence].
  apply bind_Some in H as (p & Hp & H). destruct p; simpl in H; [left; congruence|].
  apply bind_Some in H as (c & Hc & H).
  destruct ((c <? COST_OBS) && (overPe s <? PRIORITYBUFSIZE)) eqn:E2; [|left; congruence].
  apply bind_Some in H as (b & Hb & H). cbv zeta in H.
  apply bind_Some in H as (pe & Hpe & H). injection H as <-.
  right. apply wr_Some in Hb as [Hr ->]. apply wr_Some in Hpe as [_ ->].
  split; [|done]. unfold pushed_over. f_equal. by rewrite pending_set_buf.
Qed.

Lemma pending_pushed_cur n s :
  pending (pushed_cur n s) = <[Z.to_nat n := true]> (pending s).
Proof. reflexivity. Qed.
Lemma pending_pushed_next n s :
  pending (pushed_next n s) = <[Z.to_nat n := true]> (pending s).
Proof. reflexivity. Qed.
Lemma pending_pushed_over n s :
  pending (pushed_over n s) = <[Z.to_nat n := true]> (pending s).
Proof. reflexivity. Qed.

Lemma three_bufs_frame s s' : frame s s' -> three_bufs s -> three_bufs s'.
Proof.
  intros (_ & _ & _ & _ & _ & _ & _ & _ & _ & _ & _ & E1 & E2 & E3).
  unfold three_bufs. by rewrite E1, E2, E3.
Qed.

Lemma pushed_next_waits n s :
  rd (pending s) n = Some false ->
  0 <= nextPe s < Z.of_nat (length (buf (nextP s) s)) ->
  waits s -> waits (pushed_next n s).
Proof.
  intros Hp Hc [T M]. pose proof (pushed_next_frame n s) as F.
  split; [by apply three_bufs_frame with s|].
  destruct (pushed_next_proj n s) as (Pc & Pn & Po & Pb).
  destruct F as (_ & _ & _ & _ & _ & _ & _ & _ & _ & _ & _ & E1 & E2 & E3).
  destruct T as (D1 & D2 & D3).
  apply (marks_perm (n :: waiting s) _ (pushed_next n s) (pushed_next n s)); [|done|].
  - unfold waiting, live. rewrite E2, E3, Pn, Po, !Pb.
    rewrite decide_True by done. rewrite decide_False by done.
    rewrite live_snoc by done. rewrite <- app_assoc.
    cbn [app]. apply Permutation_middle.
  - by apply (marks_push _ s).
Qed.

Lemma pushed_over_waits n s :
  rd (pending s) n = Some false ->
  0 <= overPe s < Z.of_nat (length (buf (overP s) s)) ->
  waits s -> waits (pushed_over n s).
Proof.
  intros Hp Hc [T M]. pose proof (pushed_over_frame n s) as F.
  split; [by apply three_bufs_frame with s|].
  destruct (pushed_over_proj n s) as (Pc & Pn & Po & Pb).
  destruct F as (_ & _ & _ & _ & _ & _ & _ & _ & _ & _ & _ & E1 & E2 & E3).
  destruct T as (D1 & D2 & D3).
  apply (marks_perm (n :: waiting s) _ (pushed_over n s) (pushed_over n s)); [|done|].
  - unfold waiting, live. rewrite E2, E3, Pn, Po, !Pb.
    rewrite decide_False by done. rewrite decide_True by done.
    rewrite live_snoc by done. rewrite app_assoc.
    apply Permutation_cons_append.
  - by apply (marks_push _ s).
Qed.

Lemma pushed_cur_marked n s :
  rd (pending s) n = Some false ->
  0 <= curPe s < Z.of_nat (length (buf (curP s) s)) ->
  queues_marked s -> queues_marked (pushed_cur n s).
Proof.
  intros Hp Hc [T M]. pose proof (pushed_cur_frame n s) as F.
  split; [by apply three_bufs_frame with s|].
  destruct (pushed_cur_proj n s) as (Pc & Pn & Po & Pb).
  destruct F as (_ & _ & _ & _ & _ & _ & _ & _ & _ & _ & _ & E1 & E2 & E3).
  destruct T as (D1 & D2 & D3).
  apply (marks_perm (n :: queued s) _ (pushed_cur n s) (pushed_cur n s)); [|done|].
  - unfold queued, live. rewrite E1, E2, E3, Pc, Pn, Po, !Pb.
    rewrite decide_True by done. rewrite !decide_False by done.
    rewrite live_snoc by done. rewrite <- app_assoc.
    cbn [app]. apply Permutation_middle.
  - by apply (marks_push _ s).
Qed.

Lemma push_next_waits n s s' : push_next n s = Some s' -> waits s -> waits s'.
Proof.
  intros [->|(-> & Hp & Hc)]%push_next_cases; [done|]. by apply pushed_next_waits.
Qed.

Lemma push_over_waits n s s' : push_over n s = Some s' -> waits s -> waits s'.
Proof.
  intros [->|(-> & Hp & Hc)]%push_over_cases; [done|]. by apply pushed_over_waits.
Qed.

Lemma push_cur_marked n s s' :
  push_cur n s = Some s' -> queues_marked s -> queues_marked s'.
Proof.
  intros [->|(-> & Hp & Hc)]%push_cur_cases; [done|]. by apply pushed_cur_marked.
Qed.

Lemma maybe_push_waits (b : bool) (push : Z -> NavFn -> option NavFn) k st st' :
  (forall k st st', push k st = Some st' -> waits st -> waits st') ->
  (if b then push k st else Some st) = Some st' -> waits st -> waits st'.
Proof. intros Hp. destruct b; [apply Hp|]. by intros [= <-]. Qed.

Lemma set_potarr_waits pa st : waits st -> waits (set_potarr pa st).
Proof. by destruct st. Qed.

Lemma set_potarr_marked pa st : queues_marked st -> queues_marked (set_potarr pa st).
Proof. by destruct st. Qed.

Ltac four_waits H :=
  let s1 := fresh "s" in let s2 := fresh "s" in let s3 := fresh "s" in
  let H1 := fresh "H" in let H2 := fresh "H" in let H3 := fresh "H" in
  apply bind_Some in H as (s1 & H1 & H); apply bind_Some in H as (s2 & H2 & H);
  apply bind_Some in H as (s3 & H3 & H);
  eauto 10 using maybe_push_waits, push_next_waits, push_over_waits, set_potarr_waits.

(** The updates. *)

Lemma updateCell_waits n st st' :
  updateCell n st = Some st' -> waits st -> waits st'.
Proof.
  unfold updateCell. intros H Wt.
  apply bind_Some in H as (l & Hl & H). apply bind_Some in H as (r & Hr & H).
  apply bind_Some in H as (u & Hu & H). apply bind_Some in H as (d & Hd & H).
  cbv zeta in H.
  apply bind_Some in H as (c & Hc & H).
  destruct (c <? COST_OBS) eqn:Hobs; [|congruence].
  destruct (flt (fsub _ _) (i2f 0)); cbv beta iota in H;
  (apply bind_Some in H as (pn & Hpn & H);
   match type of H with
   | (if flt ?p pn then _ else _) = _ => set (pot := p) in *; destruct (flt pot pn) eqn:Hlt
   end; [|congruence];
   apply bind_Some in H as (cl & Hcl & H); apply bind_Some in H as (cr & Hcr & H);
   apply bind_Some in H as (cu & Hcu & H); apply bind_Some in H as (cd & Hcd & H);
   apply bind_Some in H as (pa & Hpa & H);
   apply (set_potarr_waits pa) in Wt;
   destruct (flt pot (curT _)); four_waits H).
Qed.

Section Astar.
Variable hypot : double -> double -> double.

Lemma updateCellAstar_waits n st st' :
  updateCellAstar hypot n st = Some st' -> waits st -> waits st'.
Proof.
  unfold updateCellAstar. intros H Wt.
  apply bind_Some in H as (l & Hl & H). apply bind_Some in H as (r & Hr & H).
  apply bind_Some in H as (u & Hu & H). apply bind_Some in H as (d & Hd & H).
  cbv zeta in H.
  apply bind_Some in H as (c & Hc & H).
  destruct (c <? COST_OBS) eqn:Hobs; [|congruence].
  destruct (flt (fsub _ _) (i2f 0)); cbv beta iota in H;
  (apply bind_Some in H as (pn & Hpn & H);
   match type of H with
   | (if flt ?p pn then _ else _) = _ => set (pot := p) in *; destruct (flt pot pn) eqn:Hlt
   end; [|congruence];
   apply bind_Some in H as (cl & Hcl & H); apply bind_Some in H as (cr & Hcr & H);
   apply bind_Some in H as (cu & Hcu & H); apply bind_Some in H as (cd & Hcd & H);
   destruct (nx st =? 0); [discriminate|];
   apply bind_Some in H as (pa & Hpa & H);
   apply (set_potarr_waits pa) in Wt;
   destruct (flt _ (curT _)); four_waits H).
Qed.

Lemma update_cells_astar_waits i : forall j st st',
  update_cells_astar hypot i j st = Some st' -> waits st -> waits st'.
Proof.
  induction i as [|i IH]; intros j st st' H Wt; simpl in H.
  - by injection H as <-.
  - apply bind_Some in H as (c & _ & H). apply bind_Some in H as (s1 & U & H).
    apply (IH _ _ _ H). by apply (updateCellAstar_waits c st).
Qed.

End Astar.

Lemma update_cells_waits i : forall j st st',
  update_cells i j st = Some st' -> waits st -> waits st'.
Proof.
  induction i as [|i IH]; intros j st st' H Wt; simpl in H.
  - by injection H as <-.
  - apply bind_Some in H as (c & _ & H). apply bind_Some in H as (s1 & U & H).
    apply (IH _ _ _ H). by apply (updateCell_waits c st).
Qed.

(** Resetting the flags of the current block. *)

Lemma reset_pending_waits i : forall j st st',
  reset_pending i j st = Some st' -> 0 <= j ->
  (Z.to_nat j + i)%nat = Z.to_nat (curPe st) ->
  three_bufs st ->
  marks (drop (Z.to_nat j) (live (curP st) (curPe st) st) ++ waiting st) st ->
  waits st'.
Proof.
  induction i as [|i IH]; intros j st st' H Hj Hi T M; simpl in H.
  - injection H as <-. split; [done|].
    rewrite drop_ge in M; [done|]. unfold live. rewrite length_take. lia.
  - apply bind_Some in H as (c & Hc & H). apply bind_Some in H as (pe & Hpe & H).
    apply wr_Some in Hpe as [Hr ->]. apply rd_Some in Hc as [_ Hc].
    assert (E : drop (Z.to_nat j) (live (curP st) (curPe st) st) =
                c :: drop (Z.to_nat (j + 1)) (live (curP st) (curPe st) st)).
    { replace (Z.to_nat (j + 1)) with (S (Z.to_nat j)) by lia.
      apply drop_S. unfold live. rewrite lookup_take_lt by lia. done. }
    rewrite E in M. simpl in M.
    apply (marks_pop _ st (set_pending (<[Z.to_nat c := false]> (pending st)) st) c)
      in M; [|lia|reflexivity].
    apply (IH _ _ _ H); [lia|simpl; lia|by destruct st|by destruct st].
Qed.

(** The rotation of the blocks. *)

Lemma rotate_marked st :
  waits st ->
  let st1 := set_nextPe 0 (set_curPe (nextPe st) st) in
  let st2 := set_nextP (curP st1) (set_curP (nextP st1) st1) in
  let st3 :=
    if curPe st2 =? 0 then
      let st := set_curT (fadd (curT st2) (priInc st2)) st2 in
      let st := set_overPe 0 (set_curPe (overPe st) st) in
      set_overP (curP st) (set_curP (overP st) st)
    else st2 in
  queues_marked st3.
Proof.
  intros [(D1 & D2 & D3) [N M]]. cbv zeta.
  destruct st as [nx0 ny0 ns0 ca pa pe gx gy b1 b2 b3 cP nP oP cPe nPe oPe cT pI g s no pS nb np px py].
  unfold queues_marked, three_bufs, marks, queued, waiting, live in *. simpl in *.
  destruct (nPe =? 0) eqn:E; simpl.
  - apply Z.eqb_eq in E. subst nPe. simpl in *. rewrite !app_nil_r.
    split_and!; try done; congruence.
  - split_and!; try done; congruence.
Qed.

(** The loops. *)

Lemma dijkstra_turn_marked atStart st t :
  dijkstra_turn atStart st = Some t -> queues_marked st ->
  match t with
  | Drained => True
  | HitStart st' | Next st' => queues_marked st'
  end.
Proof.
  unfold dijkstra_turn. intros H [T M].
  destruct ((curPe st =? 0) && (nextPe st =? 0)); [by injection H as <-|].
  apply bind_Some in H as (s1 & R & H). apply bind_Some in H as (s2 & U & H).
  apply reset_pending_waits in R; [|lia|lia|done|by rewrite drop_0].
  apply update_cells_waits in U; [|done].
  pose proof (rotate_marked s2 U) as Q. cbv zeta in Q, H.
  match type of Q with queues_marked ?s => set (s3 := s) in * end.
  destruct atStart.
  - apply bind_Some in H as (p & _ & H).
    destruct (below_POT_HIGH p); by injection H as <-.
  - by injection H as <-.
Qed.

Lemma dijkstra_loop_marked rem : forall cycle atStart st c how st',
  dijkstra_loop rem cycle atStart st = Some (c, how, st') ->
  queues_marked st -> queues_marked st'.
Proof.
  induction rem as [|rem IH]; intros cycle atStart st c how st' H Q; simpl in H.
  - by injection H as <- <- <-.
  - apply bind_Some in H as (t & Ht & H).
    apply dijkstra_turn_marked in Ht; [|done].
    destruct t as [|s1|s1].
    + by injection H as <- <- <-.
    + by injection H as <- <- <-.
    + by apply IH in H.
Qed.

Lemma propNavFnDijkstra_marked cycles atStart st r st' :
  propNavFnDijkstra cycles atStart st = Some (r, st') ->
  queues_marked st -> queues_marked st'.
Proof.
  unfold propNavFnDijkstra. intros H Q.
  apply bind_Some in H as ([[c how] s] & L & H). injection H as <- <-.
  by apply dijkstra_loop_marked in L.
Qed.

Section AstarLoops.
Variable hypot : double -> double -> double.

Lemma astar_turn_marked startCell st t :
  astar_turn hypot startCell st = Some t -> queues_marked st ->
  match t with
  | Drained => True
  | HitStart st' | Next st' => queues_marked st'
  end.
Proof.
  unfold astar_turn. intros H [T M].
  destruct ((curPe st =? 0) && (nextPe st =? 0)); [by injection H as <-|].
  apply bind_Some in H as (s1 & R & H). apply bind_Some in H as (s2 & U & H).
  apply reset_pending_waits in R; [|lia|lia|done|by rewrite drop_0].
  apply update_cells_astar_waits in U; [|done].
  pose proof (rotate_marked s2 U) as Q. cbv zeta in Q, H.
  match type of Q with queues_marked ?s => set (s3 := s) in * end.
  apply bind_Some in H as (p & _ & H).
  destruct (below_POT_HIGH p); by injection H as <-.
Qed.

Lemma astar_loop_marked rem : forall startCell st st',
  astar_loop hypot rem startCell st = Some st' ->
  queues_marked st -> queues_marked st'.
Proof.
  induction rem as [|rem IH]; intros startCell st st' H Q; simpl in H.
  - by injection H as <-.
  - apply bind_Some in H as (t & Ht & H).
    apply astar_turn_marked in Ht; [|done].
    destruct t as [|s1|s1].
    + by injection H as <-.
    + by injection H as <-.
    + by apply IH in H.
Qed.

Lemma propNavFnAstar_marked cycles st r cost st' :
  propNavFnAstar hypot cycles st = Some (r, cost, st') ->
  queues_marked st -> queues_marked st'.
Proof.
  unfold propNavFnAstar. cbv zeta. intros H Q.
  apply bind_Some in H as (s & L & H). apply bind_Some in H as (p1 & _ & H).
  apply bind_Some in H as (p2 & _ & H). injection H as <- <- <-.
  apply astar_loop_marked in L; [done|]. by destruct st.
Qed.

End AstarLoops.

(** The setup. *)

Lemma initCost_marked k v s s' :
  initCost k v s = Some s' -> queues_marked s -> queues_marked s'.
Proof.
  unfold initCost. intros H Q.
  apply bind_Some in H as (pa & _ & H). cbv zeta in H.
  apply bind_Some in H as (s1 & P1 & H). apply bind_Some in H as (s2 & P2 & H).
  apply bind_Some in H as (s3 & P3 & H).
  apply (set_potarr_marked pa) in Q.
  eauto using push_cur_marked.
Qed.

Lemma setupNavFn_marked keepit st st' :
  wf st -> setupNavFn keepit st = Some st' -> queues_marked st'.
Proof.
  intros W E. unfold setupNavFn in E.
  apply bind_Some in E as (pa & _ & E). apply bind_Some in E as (ca0 & _ & E).
  apply bind_Some in E as (gx & _ & E). apply bind_Some in E as (gy & _ & E).
  apply bind_Some in E as (ca1 & _ & E). apply bind_Some in E as (ca2 & _ & E).
  apply bind_Some in E as (ca3 & _ & E). apply bind_Some in E as (ca4 & _ & E).
  cbv zeta in E.
  apply bind_Some in E as (pe & Hpe & E). apply bind_Some in E as (s3 & I & E).
  apply bind_Some in E as (ntot & _ & E). injection E as <-.
  apply initCost_marked in I.
  - by destruct s3.
  - simpl in Hpe. split; [by unfold three_bufs|].
    unfold marks, queued, live. simpl. split; [constructor|].
    intros n. rewrite elem_of_nil. split; [|done].
    intros [Hn Hl]%rd_Some.
    pose proof (store_stride_length _ _ _ _ _ _ Hpe) as Len.
    pose proof (lookup_lt_Some _ _ _ Hl) as Hlt.
    rewrite (store_stride_all _ _ _ _ n Hpe) in Hl; [discriminate|].
    destruct W. lia.
Qed.

(** X10. At the end of [propNavFnDijkstra], run after [setupNavFn], the
    pending flags are set exactly at the cells that are in one of the
    three priority blocks, and no cell is in the blocks twice. *)
Theorem propNavFnDijkstra_pending_marks_queued keepit cycles atStart st st1 r st2 :
  wf st -> setupNavFn keepit st = Some st1 ->
  propNavFnDijkstra cycles atStart st1 = Some (r, st2) ->
  NoDup (queued st2) /\
  forall n, rd (pending st2) n = Some true <-> n ∈ queued st2.
Proof.
  intros W E1 E2. apply setupNavFn_marked in E1; [|done].
  by apply (propNavFnDijkstra_marked _ _ _ _ _ E2) in E1 as [_ M].
Qed.

Lemma setup_open7 : setupNavFn true open7 = Some (after_setup open7).
Proof. vm_compute. reflexivity. Qed.

Lemma dijkstra1_open7 :
  propNavFnDijkstra 1 false (after_setup open7) =
  Some (false, after_dijkstra 1 false (after_setup open7)).
Proof. vm_compute. reflexivity. Qed.

Lemma propNavFnDijkstra_pending_marks_queued_witness :
  NoDup (queued (after_dijkstra 1 false (after_setup open7))) /\
  forall n, rd (pending (after_dijkstra 1 false (after_setup open7))) n = Some true <->
            n ∈ queued (after_dijkstra 1 false (after_setup open7)).
Proof.
  apply (propNavFnDijkstra_pending_marks_queued true 1 false open7
           (after_setup open7) false).
  - exact open7_wf.
  - exact setup_open7.
  - exact dijkstra1_open7.
Defined.

Section AstarQueues.
Variable hypot : double -> double -> double.

(** X11. At the end of [propNavFnAstar], run after [setupNavFn], the
    pending flags are set exactly at the cells that are in one of the
    three priority blocks, and no cell is in the blocks twice. *)
Theorem propNavFnAstar_pending_marks_queued keepit cycles st st1 r cost st2 :
  wf st -> setupNavFn keepit st = Some st1 ->
  propNavFnAstar hypot cycles st1 = Some (r, cost, st2) ->
  NoDup (queued st2) /\
  forall n, rd (pending st2) n = Some true <-> n ∈ queued st2.
Proof.
  intros W E1 E2. apply setupNavFn_marked in E1; [|done].
  by apply (propNavFnAstar_marked _ _ _ _ _ _ E2) in E1 as [_ M].
Qed.

End AstarQueues.

Lemma astar1_open7 :
  propNavFnAstar hypot_sqrt 1 (after_setup open7) =
  Some (false, S754_finite false 9765625 10, after_astar 1 (after_setup open7)).
Proof. vm_compute. reflexivity. Qed.

Lemma propNavFnAstar_pending_marks_queued_witness :
  NoDup (queued (after_astar 1 (after_setup open7))) /\
  forall n, rd (pending (after_astar 1 (after_setup open7))) n = Some true <->
            n ∈ queued (after_astar 1 (after_setup open7)).
Proof.
  apply (propNavFnAstar_pending_marks_queued hypot_sqrt true 1 open7
           (after_setup open7) false (S754_finite false 9765625 10)).
  - exact open7_wf.
  - exact setup_open7.
  - exact astar1_open7.
Defined.
(* ===================================================================== *)
(** ** The gradient and the path                                         *)
(* ===================================================================== *)

Lemma SFleb_finite s1 m1 e1 s2 m2 e2 :
  SFleb (S754_finite s1 m1 e1) (S754_finite s2 m2 e2) = true <->
  match s1, s2 with
  | true, false => True
  | false, true => False
  | false, false => e1 < e2 \/ (e1 = e2 /\ Zpos m1 <= Zpos m2)
  | true, true => e2 < e1 \/ (e1 = e2 /\ Zpos m2 <= Zpos m1)
  end.
Proof.
  unfold SFleb, SFcompare.
  pose proof (Pos2Z.inj_compare m1 m2) as Hc. unfold Pos.compare in Hc.
  destruct s1, s2; try done; rewrite Hc; clear Hc.
  - destruct (Z.compare_spec e1 e2) as [E|E|E];
      [destruct (Z.compare_spec (Zpos m1) (Zpos m2)) as [E'|E'|E']|..];
      cbn [CompOpp]; (split; [intros H; try discriminate; lia | intros H; try lia; reflexivity]).
  - destruct (Z.compare_spec e1 e2) as [E|E|E];
      [destruct (Z.compare_spec (Zpos m1) (Zpos m2)) as [E'|E'|E']|..];
      (split; [intros H; try discriminate; lia | intros H; try lia; reflexivity]).
Qed.

Lemma POT_HIGH_eq : POT_HIGH = S754_finite false 5242880000000000 (-19).
Proof. reflexivity. Qed.

Lemma f2d_valid x : valid_binary 53 1024 (f2d x) = true.
Proof.
  destruct x as [s|s| |s m e]; try done.
  unfold f2d. apply binary_normalize_valid; lia.
Qed.

(** A [double] at or above [POT_HIGH] = 1e10 does not fit an [int]. *)
Lemma d2i_high x :
  valid_binary 53 1024 x = true -> fge x POT_HIGH = true -> d2i x = None.
Proof.
  intros V H. unfold fge in H. rewrite POT_HIGH_eq in H.
  destruct x as [s|s| |s m e]; try done.
  apply SFleb_finite in H. destruct s; [done|].
  simpl in V. pose proof (bounded_canonical 53 1024 m e V) as (H1 & H2 & H3).
  change (SpecFloat.emin 53 1024) with (-1074) in *.
  pose proof (digits2_pos_bounds m) as B. rewrite H3 in B by lia.
  change (2 ^ (53 - 1)) with 4503599627370496 in B.
  unfold d2i. cbv zeta. unfold cond_Zopp.
  match goal with |- (if ?a && ?b then _ else _) = _ =>
    assert (Hb : b = false); [|by rewrite Hb, andb_false_r] end.
  apply Z.leb_gt.
  destruct (Z.leb_spec 0 e) as [L|L].
  - assert (1 <= 2 ^ e) by (apply (Z.pow_le_mono_r 2 0 e); lia). nia.
  - assert (P : 0 < 2 ^ (- e)) by (apply Z.pow_pos_nonneg; lia).
    assert (2 ^ (- e) <= 2 ^ 19) by (apply Z.pow_le_mono_r; lia).
    change (2 ^ 19) with 524288 in *.
    assert (10000000000 <= Zpos m / 2 ^ (- e)); [|lia].
    apply Z.div_le_lower_bound; [lia|].
    destruct H as [H|[He Hm]].
    + assert (2 ^ (- e) <= 2 ^ 18) by (apply Z.pow_le_mono_r; lia).
      change (2 ^ 18) with 262144 in *. nia.
    + subst e. change (2 ^ (- -19)) with 524288. lia.
Qed.

Lemma at_POT_HIGH_d2i p : at_POT_HIGH p = true -> d2i (f2d p) = None.
Proof. apply d2i_high, f2d_valid. Qed.

Lemma grad_frame_refl s : grad_frame s s.
Proof. exists (gradx s), (grady s). by destruct s. Qed.

Lemma grad_frame_trans s1 s2 s3 :
  grad_frame s1 s2 -> grad_frame s2 s3 -> grad_frame s1 s3.
Proof.
  intros (gx & gy & -> & L1 & L2) (gx' & gy' & -> & L1' & L2').
  exists gx', gy'. simpl in *. split; [done|]. split; congruence.
Qed.

Lemma grad_frame_path_frame s s' : grad_frame s s' -> path_frame s s'.
Proof.
  intros (gx & gy & -> & L1 & L2).
  exists gx, gy, (pathx s), (pathy s), (npathbuf s), (npath s). by destruct s.
Qed.

Lemma path_frame_refl s : path_frame s s.
Proof.
  exists (gradx s), (grady s), (pathx s), (pathy s), (npathbuf s), (npath s).
  by destruct s.
Qed.

Lemma path_frame_trans s1 s2 s3 :
  path_frame s1 s2 -> path_frame s2 s3 -> path_frame s1 s3.
Proof.
  intros (gx & gy & px & py & nb & np & -> & L1 & L2)
         (gx' & gy' & px' & py' & nb' & np' & -> & L1' & L2').
  exists gx', gy', px', py', nb', np'. simpl in *. split; [done|]. split; congruence.
Qed.

Lemma path_frame_set_gradx gx s :
  length gx = length (gradx s) -> path_frame s (set_gradx gx s).
Proof.
  intros L. exists gx, (grady s), (pathx s), (pathy s), (npathbuf s), (npath s).
  by destruct s.
Qed.

Lemma path_frame_set_grady gy s :
  length gy = length (grady s) -> path_frame s (set_grady gy s).
Proof.
  intros L. exists (gradx s), gy, (pathx s), (pathy s), (npathbuf s), (npath s).
  by destruct s.
Qed.

Lemma path_frame_set_pathx px s : path_frame s (set_pathx px s).
Proof.
  exists (gradx s), (grady s), px, (pathy s), (npathbuf s), (npath s).
  by destruct s.
Qed.

Lemma path_frame_set_pathy py s : path_frame s (set_pathy py s).
Proof.
  exists (gradx s), (grady s), (pathx s), py, (npathbuf s), (npath s).
  by destruct s.
Qed.

Lemma path_frame_set_npath np s : path_frame s (set_npath np s).
Proof.
  exists (gradx s), (grady s), (pathx s), (pathy s), (npathbuf s), np.
  by destruct s.
Qed.

Lemma path_frame_set_npathbuf nb s : path_frame s (set_npathbuf nb s).
Proof.
  exists (gradx s), (grady s), (pathx s), (pathy s), nb, (npath s).
  by destruct s.
Qed.

Section Path.
Variable hypot : double -> double -> double.

(** [gradCell] writes [gradx[n]] and [grady[n]] and nothing else. *)
Lemma gradCell_writes n st r st' :
  gradCell hypot n st = Some (r, st') ->
  st' = st \/
  exists vx vy, 0 <= n < Z.of_nat (length (gradx st)) /\
    0 <= n < Z.of_nat (length (grady st)) /\
    st' = set_grady (<[Z.to_nat n := vy]> (grady st))
            (set_gradx (<[Z.to_nat n := vx]> (gradx st)) st).
Proof.
  unfold gradCell. intros H.
  apply bind_Some in H as (gxn & _ & H). apply bind_Some in H as (gyn & _ & H).
  destruct (fgt _ dzero); [left; congruence|].
  destruct ((n <? nx st) || (n >? ns st - nx st)); [left; congruence|].
  apply bind_Some in H as (cv & _ & H). apply bind_Some in H as ([dx dy] & _ & H).
  cbv zeta in H. destruct (fgt _ (i2f 0)); [|left; congruence].
  apply bind_Some in H as (gx & Wx & H). apply bind_Some in H as (gy & Wy & H).
  injection H as _ <-. right.
  apply wr_Some in Wx as [Rx ->]. apply wr_Some in Wy as [Ry ->].
  eauto.
Qed.

Lemma gradCell_frame n st r st' :
  gradCell hypot n st = Some (r, st') -> grad_frame st st'.
Proof.
  intros H. apply gradCell_writes in H as [->|(vx & vy & _ & _ & ->)].
  - apply grad_frame_refl.
  - eexists _, _. split; [done|]. by rewrite !length_insert.
Qed.

Lemma four_gradCells_frame st stc st' :
  four_gradCells hypot st stc = Some st' -> grad_frame st st'.
Proof.
  unfold four_gradCells. intros H.
  apply bind_Some in H as ([r1 s1] & G1 & H). apply bind_Some in H as ([r2 s2] & G2 & H).
  apply bind_Some in H as ([r3 s3] & G3 & H). apply bind_Some in H as ([r4 s4] & G4 & H).
  injection H as <-.
  apply gradCell_frame in G1, G2, G3, G4. eauto using grad_frame_trans.
Qed.

Lemma descent_step_frame st stc dx dy st' step :
  descent_step hypot st stc dx dy = Some (st', step) -> grad_frame st st'.
Proof.
  unfold descent_step. intros H.
  apply bind_Some in H as (s1 & G & H). apply bind_Some in H as ([x y] & _ & H).
  apply four_gradCells_frame in G.
  destruct (_ && _); by injection H as <- _.
Qed.


(** The first half of a turn: what it returns and what it records. *)
Lemma calcPath_record_spec st stc dx dy r :
  calcPath_record st stc dx dy = Some r ->
  match r with
  | RecordReturn len st' =>
      path_frame st st' /\
      (len = 0 \/
       (len = npath st + 1 /\ npath st' = len /\
        rd (pathx st') (len - 1) = Some (i2f (goal st).1) /\
        rd (pathy st') (len - 1) = Some (i2f (goal st).2)))
  | Recorded st' _ =>
      path_frame st st' /\ npath st' = npath st + 1 /\
      gradx st' = gradx st /\ grady st' = grady st
  end.
Proof.
  unfold calcPath_record. intros H.
  apply bind_Some in H as (a & _ & H). apply bind_Some in H as (b & _ & H).
  cbv zeta in H. apply bind_Some in H as (pnp & _ & H).
  destruct (flt pnp (i2f COST_NEUTRAL)).
  - apply bind_Some in H as (px & Wx & H). apply bind_Some in H as (py & Wy & H).
    injection H as <-. split.
    + eauto using path_frame_trans, path_frame_set_pathx, path_frame_set_pathy,
        path_frame_set_npath.
    + right. simpl. split; [done|]. split; [done|].
      apply wr_Some in Wx as [Rx ->]. apply wr_Some in Wy as [Ry ->].
      replace (npath st + 1 - 1) with (npath st) by lia.
      split; (apply rd_Some; split; [lia|]; apply list_lookup_insert_eq; lia).
  - destruct ((stc <? nx st) || (stc >? ns st - nx st)).
    { injection H as <-. split; [apply path_frame_refl|by left]. }
    destruct (nx st =? 0); [discriminate|].
    apply bind_Some in H as (px & Wx & H). apply bind_Some in H as (py & Wy & H).
    cbv zeta in H. apply bind_Some in H as (osc & _ & H). injection H as <-.
    split; [|done].
    eauto using path_frame_trans, path_frame_set_pathx, path_frame_set_pathy,
      path_frame_set_npath.
Qed.

Lemma grad_frame_fields s s' :
  grad_frame s s' ->
  npath s' = npath s /\ goal s' = goal s /\ pathx s' = pathx s /\
  pathy s' = pathy s /\ potarr s' = potarr s.
Proof. by intros (gx & gy & -> & _). Qed.

Lemma path_frame_goal s s' : path_frame s s' -> goal s' = goal s.
Proof. by intros (gx & gy & px & py & nb & np & -> & _). Qed.

Lemma calcPath_turn_spec st stc dx dy t :
  calcPath_turn hypot st stc dx dy = Some t ->
  match t with
  | PathReturn len st' =>
      path_frame st st' /\
      (len = 0 \/
       (len = npath st + 1 /\ npath st' = len /\
        rd (pathx st') (len - 1) = Some (i2f (goal st).1) /\
        rd (pathy st') (len - 1) = Some (i2f (goal st).2)))
  | PathNext st' _ _ _ => path_frame st st' /\ npath st' = npath st + 1
  end.
Proof.
  unfold calcPath_turn. intros H.
  apply bind_Some in H as (r & R & H). apply calcPath_record_spec in R.
  destruct r as [len s1|s1 osc]; [by injection H as <-|].
  destruct R as (F1 & N1 & _). unfold calcPath_advance in H.
  apply bind_Some in H as (high & _ & H).
  destruct (high || osc).
  - apply bind_Some in H as (minc & _ & H). cbv zeta in H.
    apply bind_Some in H as (p & _ & H).
    destruct (at_POT_HIGH p); injection H as <-; [split; [done|by left]|done].
  - apply bind_Some in H as ([s2 step] & D & H). apply descent_step_frame in D.
    pose proof (grad_frame_fields _ _ D) as (N2 & _).
    apply grad_frame_path_frame in D.
    destruct step as [[ex ey]|].
    + destruct (carry stc 1 (fadd dx ex)) as [c1 d1].
      destruct (carry c1 (nx s2) (fadd dy ey)) as [c2 d2].
      injection H as <-. split; [by eapply path_frame_trans|lia].
    + injection H as <-. split; [by eapply path_frame_trans|by left].
Qed.

Lemma calcPath_loop_spec rem : forall st stc dx dy len st',
  calcPath_loop hypot rem st stc dx dy = Some (len, st') ->
  path_frame st st' /\
  (len = 0 \/
   (npath st + 1 <= len <= npath st + Z.of_nat rem /\ npath st' = len /\
    rd (pathx st') (len - 1) = Some (i2f (goal st).1) /\
    rd (pathy st') (len - 1) = Some (i2f (goal st).2))).
Proof.
  induction rem as [|rem IH]; intros st stc dx dy len st' H; simpl in H.
  - injection H as <- <-. split; [apply path_frame_refl|by left].
  - apply bind_Some in H as (t & T & H). apply calcPath_turn_spec in T.
    destruct t as [l s1|s1 stc1 dx1 dy1].
    + injection H as <- <-. destruct T as [F [->|(-> & N & Px & Py)]].
      * split; [done|by left].
      * split; [done|]. right. split; [lia|done].
    + destruct T as [F N]. apply IH in H as [F' [->|(L & N' & Px & Py)]].
      * split; [by eapply path_frame_trans|by left].
      * split; [by eapply path_frame_trans|]. right.
        rewrite (path_frame_goal _ _ F) in Px, Py. split; [lia|done].
Qed.

Lemma calcPath_entry_frame n st : path_frame st (calcPath_entry n st).
Proof.
  unfold calcPath_entry. destruct (npathbuf st <? n).
  - exists (gradx st), (grady st), (replicate (Z.to_nat n) fzero),
      (replicate (Z.to_nat n) fzero), n, 0. by destruct st.
  - exists (gradx st), (grady st), (pathx st), (pathy st), (npathbuf st), 0.
    by destruct st.
Qed.

End Path.

Lemma near_POT_HIGH_here st stc p :
  rd (potarr st) stc = Some p -> at_POT_HIGH p = true ->
  near_POT_HIGH st stc = Some true.
Proof. intros Hp Ha. unfold near_POT_HIGH. cbv zeta. rewrite Hp. simpl. by rewrite Ha. Qed.

Lemma path_fallback_high st stc p :
  rd (potarr st) stc = Some p -> at_POT_HIGH p = true ->
  path_fallback st stc = None.
Proof.
  intros Hp Ha. unfold path_fallback. cbv zeta. rewrite Hp. simpl.
  by rewrite at_POT_HIGH_d2i.
Qed.

Section Path.
Variable hypot : double -> double -> double.

Lemma calcPath_advance_high st stc dx dy osc p :
  rd (potarr st) stc = Some p -> at_POT_HIGH p = true ->
  calcPath_advance hypot st stc dx dy osc = None.
Proof.
  intros Hp Ha. unfold calcPath_advance.
  rewrite (near_POT_HIGH_here st stc p Hp Ha). simpl.
  by rewrite (path_fallback_high st stc p Hp Ha).
Qed.

Lemma path_frame_potarr s s' : path_frame s s' -> potarr s' = potarr s.
Proof. by intros (gx & gy & px & py & nb & np & -> & _). Qed.

(** On a cell whose potential is at or above [POT_HIGH] a turn either
    returns from its first half or is undefined: [int minp = potarr[stc]]
    converts a value that no [int] holds. *)
Lemma calcPath_turn_high st stc dx dy p t :
  rd (potarr st) stc = Some p -> at_POT_HIGH p = true ->
  calcPath_turn hypot st stc dx dy = Some t ->
  exists len st', calcPath_record st stc dx dy = Some (RecordReturn len st') /\
    t = PathReturn len st'.
Proof.
  intros Hp Ha. unfold calcPath_turn. intros H.
  apply bind_Some in H as (r & R & H). pose proof (calcPath_record_spec _ _ _ _ _ R) as Hr.
  destruct r as [len s1|s1 osc]; [injection H as <-; eauto|].
  destruct Hr as (F & _). apply path_frame_potarr in F.
  rewrite (calcPath_advance_high s1 stc dx dy osc p) in H; [done| |done].
  by rewrite F.
Qed.

End Path.

Lemma d_round_zero : d_round (f2d (i2f 0)) = S754_zero false.
Proof. reflexivity. Qed.

Lemma d2i_dmul_zero x :
  d2i (dmul x (S754_zero false)) = None \/ d2i (dmul x (S754_zero false)) = Some 0.
Proof. destruct x as [s|s| |s m e]; [right|left|left|right]; try done; by destruct s. Qed.

Lemma POT_HIGH_f_high : at_POT_HIGH POT_HIGH_f = true.
Proof. vm_compute. reflexivity. Qed.

Lemma POT_HIGH_f_not_near_goal : flt POT_HIGH_f (i2f COST_NEUTRAL) = false.
Proof. vm_compute. reflexivity. Qed.

Lemma d2i_zero : d2i (S754_zero false) = Some 0.
Proof. reflexivity. Qed.

Lemma calcPath_entry_fields n st :
  nx (calcPath_entry n st) = nx st /\ ny (calcPath_entry n st) = ny st /\
  ns (calcPath_entry n st) = ns st /\ potarr (calcPath_entry n st) = potarr st /\
  npath (calcPath_entry n st) = 0 /\ goal (calcPath_entry n st) = goal st /\
  start (calcPath_entry n st) = start st.
Proof. unfold calcPath_entry. by destruct (npathbuf st <? n). Qed.

Section Results.
Variable hypot : double -> double -> double.

Lemma calcPath_frame n stp st len st' :
  calcPath hypot n stp st = Some (len, st') -> path_frame st st'.
Proof.
  unfold calcPath. cbv zeta. intros H.
  apply calcPath_loop_spec in H as [F _].
  exact (path_frame_trans _ _ _ (calcPath_entry_frame n st) F).
Qed.

Lemma calcPath_result n stp st len st' :
  calcPath hypot n stp st = Some (len, st') ->
  len = 0 \/
  (1 <= len <= n /\ npath st' = len /\
   rd (pathx st') (len - 1) = Some (i2f (goal st).1) /\
   rd (pathy st') (len - 1) = Some (i2f (goal st).2)).
Proof.
  unfold calcPath. cbv zeta. intros H.
  apply calcPath_loop_spec in H as [_ [->|(L & N & Px & Py)]]; [by left|right].
  destruct (calcPath_entry_fields n st) as (_ & _ & _ & _ & N0 & G0 & _).
  rewrite N0 in L. rewrite G0 in Px, Py. split; [lia|done].
Qed.

(** X12. [calcPath] changes nothing of the planner but the gradient
    arrays, which keep their lengths, and the path arrays with their
    capacity and count: costs, potentials, queues, goal and start are as
    before. *)
Theorem calcPath_writes_gradient_and_path n stp st len st' :
  calcPath hypot n stp st = Some (len, st') ->
  exists gx gy px py nb np,
    st' = set_npath np (set_npathbuf nb (set_pathy py (set_pathx px
            (set_grady gy (set_gradx gx st))))) /\
    length gx = length (gradx st) /\ length gy = length (grady st).
Proof. apply calcPath_frame. Qed.

(** X13. [calcPath] returns 0, or a length between 1 and the bound [n]
    that is also the new [npath], and then the last point of the path is
    the goal. *)
Theorem calcPath_length_and_endpoint n stp st len st' :
  calcPath hypot n stp st = Some (len, st') ->
  len = 0 \/
  (1 <= len <= n /\ npath st' = len /\
   rd (pathx st') (len - 1) = Some (i2f (goal st).1) /\
   rd (pathy st') (len - 1) = Some (i2f (goal st).2)).
Proof. apply calcPath_result. Qed.

(** A start on an unreached cell off the first and the last row. *)
Lemma calcPath_unreached n stp st x y :
  match stp with Some s => s | None => start st end = (x, y) ->
  wf st -> 1 <= n ->
  nx st <= y * nx st + x <= ns st - nx st ->
  rd (potarr st) (y * nx st + x) = Some POT_HIGH_f ->
  calcPath hypot n stp st = None.
Proof.
  intros Est W Hn Hb Hp. unfold calcPath. cbv zeta.
  destruct (calcPath_entry_fields n st) as (Ex & Ey & Es & Ep & En & _ & Est0).
  assert (E0 : match stp with Some s => s | None => start (calcPath_entry n st) end
               = (x, y)).
  { destruct stp; [done|by rewrite Est0]. }
  rewrite E0.
  set (st0 := calcPath_entry n st) in *. simpl fst. simpl snd. rewrite Ex.
  set (stc := y * nx st + x) in *.
  destruct (Z.to_nat n) as [|k] eqn:Hk; [lia|]. simpl.
  destruct (calcPath_turn hypot st0 stc (i2f 0) (i2f 0)) as [t|] eqn:T; [exfalso|done].
  apply calcPath_turn_high with (p := POT_HIGH_f) in T as (len & st' & R & _);
    [|by rewrite Ep|exact POT_HIGH_f_high].
  unfold calcPath_record in R. rewrite d_round_zero, d2i_zero in R.
  cbn [mbind option_bind] in R.
  destruct (d2i_dmul_zero (i2d (nx st0))) as [E|E]; rewrite E in R; [discriminate|].
  cbn [mbind option_bind] in R. cbv zeta in R.
  destruct W as [Hnx Hny Hns _ _ _ _ _ _ _ _ _ _ _].
  replace (Z.max 0 (Z.min (nx st0 * ny st0 - 1) (stc + 0 + 0))) with stc in R by nia.
  rewrite Ep, Hp in R. cbn [mbind option_bind] in R.
  rewrite POT_HIGH_f_not_near_goal in R.
  replace ((stc <? nx st0) || (stc >? ns st0 - nx st0)) with false in R.
  2:{ symmetry. apply orb_false_intro; [apply Z.ltb_ge|rewrite Z.gtb_ltb; apply Z.ltb_ge]; lia. }
  replace (nx st0 =? 0) with false in R by (symmetry; apply Z.eqb_neq; lia).
  apply bind_Some in R as (px & _ & R). apply bind_Some in R as (py & _ & R).
  cbv zeta in R. apply bind_Some in R as (osc & _ & R). discriminate.
Qed.

(** X14. Started on a cell, off the first and the last row, that the
    propagation has not reached (its potential is [POT_HIGH]),
    [calcPath] has no defined result: [int minp = potarr[stc]] converts
    1e10 to [int], which that type cannot represent. *)
Theorem calcPath_from_unreached_start n x y st :
  wf st -> 1 <= n ->
  nx st <= y * nx st + x <= ns st - nx st ->
  rd (potarr st) (y * nx st + x) = Some POT_HIGH_f ->
  calcPath hypot n (Some (x, y)) st = None.
Proof. by apply calcPath_unreached. Qed.

End Results.

Lemma calcPath_writes_gradient_and_path_witness :
  match calcPath hypot_sqrt 24 None prop7 with
  | Some (len, st') =>
      exists gx gy px py nb np,
        st' = set_npath np (set_npathbuf nb (set_pathy py (set_pathx px
                (set_grady gy (set_gradx gx prop7))))) /\
        length gx = length (gradx prop7) /\ length gy = length (grady prop7)
  | None => False
  end.
Proof.
  assert (A : match calcPath hypot_sqrt 24 None prop7 with
              | Some _ => True | None => False end) by (vm_compute; exact I).
  destruct (calcPath hypot_sqrt 24 None prop7) as [[len st']|] eqn:E; [|exact A].
  apply (calcPath_writes_gradient_and_path hypot_sqrt 24 None prop7 len st').
  exact E.
Defined.

Lemma calcPath_length_and_endpoint_witness :
  match calcPath hypot_sqrt 24 None prop7 with
  | Some (len, st') =>
      len = 0 \/
      (1 <= len <= 24 /\ npath st' = len /\
       rd (pathx st') (len - 1) = Some (i2f (goal prop7).1) /\
       rd (pathy st') (len - 1) = Some (i2f (goal prop7).2))
  | None => False
  end.
Proof.
  assert (A : match calcPath hypot_sqrt 24 None prop7 with
              | Some _ => True | None => False end) by (vm_compute; exact I).
  destruct (calcPath hypot_sqrt 24 None prop7) as [[len st']|] eqn:E; [|exact A].
  apply (calcPath_length_and_endpoint hypot_sqrt 24 None prop7 len st').
  exact E.
Defined.

Lemma calcPath_from_unreached_start_witness :
  calcPath hypot_sqrt 10 (Some (1, 1)) (after_setup open5) = None.
Proof.
  apply (calcPath_from_unreached_start hypot_sqrt 10 1 1 (after_setup open5)).
  - exact after_setup_open5_wf.
  - lia.
  - vm_compute. split; discriminate.
  - vm_compute. reflexivity.
Defined.

Section Grad.
Variable hypot : double -> double -> double.

(** X15. [gradCell] on the first cell of the last row, [n = ns - nx]:
    the test [n > ns-nx] lets it through, and when the gradient there is
    not yet set and the potential is below [POT_HIGH] the cell below,
    [potarr[ns]], is read, one past the end of the array. *)
Theorem gradCell_reads_past_last_row st gxn gyn cv :
  wf st -> 2 <= ny st ->
  rd (gradx st) (ns st - nx st) = Some gxn ->
  rd (grady st) (ns st - nx st) = Some gyn ->
  fgt (f2d (fadd gxn gyn)) dzero = false ->
  rd (potarr st) (ns st - nx st) = Some cv -> at_POT_HIGH cv = false ->
  gradCell hypot (ns st - nx st) st = None.
Proof.
  intros W Hny Hgx Hgy Hc Hcv Hh. destruct W as [Hnx _ Hns _ Lp _ _ _ _ _ _ _ _ _].
  unfold gradCell. rewrite Hgx, Hgy. cbn [mbind option_bind]. rewrite Hc.
  replace ((ns st - nx st <? nx st) || (ns st - nx st >? ns st - nx st)) with false.
  2:{ symmetry. apply orb_false_intro; [apply Z.ltb_ge; nia|rewrite Z.gtb_ltb; apply Z.ltb_ge; lia]. }
  rewrite Hcv. cbn [mbind option_bind]. unfold gradCell_dxdy. cbv zeta. rewrite Hh.
  replace (ns st - nx st + nx st) with (ns st) by lia.
  assert (Hend : rd (potarr st) (ns st) = None).
  { unfold rd. case_decide; [|done]. apply lookup_ge_None. lia. }
  rewrite Hend.
  destruct (rd (potarr st) (ns st - nx st - 1)); [|done].
  destruct (rd (potarr st) (ns st - nx st + 1)); [|done].
  destruct (rd (potarr st) (ns st - nx st - nx st)); done.
Qed.

Lemma gradCell_dxdy_grad n cv gx gy st :
  gradCell_dxdy n cv (set_grady gy (set_gradx gx st)) = gradCell_dxdy n cv st.
Proof. reflexivity. Qed.

(** X16. A second [gradCell] on the same cell changes nothing: whatever
    the first call stored in [gradx] and [grady] is there after the
    second. *)
Theorem gradCell_second_call_keeps_state n st r st' :
  gradCell hypot n st = Some (r, st') ->
  exists r', gradCell hypot n st' = Some (r', st').
Proof.
  intros H. pose proof H as H0. unfold gradCell in H.
  apply bind_Some in H as (gxn & Hgx & H). apply bind_Some in H as (gyn & Hgy & H).
  destruct (fgt _ dzero) eqn:Hc; [injection H as _ <-; eauto|].
  destruct ((n <? nx st) || (n >? ns st - nx st)) eqn:Hb; [injection H as _ <-; eauto|].
  apply bind_Some in H as (cv & Hcv & H). apply bind_Some in H as ([dx dy] & Hd & H).
  cbv zeta in H. destruct (fgt _ (i2f 0)) eqn:Hn; [|injection H as _ <-; eauto].
  apply bind_Some in H as (gx & Wx & H). apply bind_Some in H as (gy & Wy & H).
  injection H as _ <-. clear H0.
  apply wr_Some in Wx as [Rx ->]. apply wr_Some in Wy as [Ry ->].
  set (vx := fmul _ dx) in *. set (vy := fmul _ dy) in *.
  unfold gradCell. simpl gradx. simpl grady. simpl nx. simpl ns. simpl potarr.
  rewrite (rd_lookup (<[Z.to_nat n := vx]> (gradx st)) n vx)
    by (try lia; apply list_lookup_insert_eq; lia).
  rewrite (rd_lookup (<[Z.to_nat n := vy]> (grady st)) n vy)
    by (try lia; apply list_lookup_insert_eq; lia).
  cbn [mbind option_bind].
  destruct (fgt (f2d (fadd vx vy)) dzero); [eauto|].
  rewrite Hb, Hcv. cbn [mbind option_bind].
  rewrite gradCell_dxdy_grad, Hd. cbn [mbind option_bind]. cbv zeta. rewrite Hn.
  rewrite !wr_in_range by (rewrite length_insert; lia).
  cbn [mbind option_bind]. fold vx vy.
  rewrite !list_insert_insert_eq. by eexists.
Qed.

End Grad.

Lemma after_setup_goal_corner_wf : wf (after_setup goal_corner).
Proof.
  assert (W : wf goal_corner) by (by apply planner_wf).
  assert (G : in_grid goal_corner (goal goal_corner).1 (goal goal_corner).2).
  { unfold in_grid. simpl. lia. }
  destruct (setupNavFn_spec true goal_corner W G) as (st' & E & W' & _).
  unfold after_setup. rewrite E. exact W'.
Qed.

Lemma gradCell_reads_past_last_row_witness :
  gradCell hypot_sqrt (ns (after_setup goal_corner) - nx (after_setup goal_corner))
    (after_setup goal_corner) = None.
Proof.
  apply (gradCell_reads_past_last_row hypot_sqrt (after_setup goal_corner)
           fzero fzero (i2f 0)).
  - exact after_setup_goal_corner_wf.
  - vm_compute. discriminate.
  - vm_compute. reflexivity.
  - vm_compute. reflexivity.
  - vm_compute. reflexivity.
  - vm_compute. reflexivity.
  - vm_compute. reflexivity.
Defined.

Lemma gradCell_second_call_keeps_state_witness :
  match gradCell hypot_sqrt 24 prop7 with
  | Some (r, st') => exists r', gradCell hypot_sqrt 24 st' = Some (r', st')
  | None => False
  end.
Proof.
  assert (A : match gradCell hypot_sqrt 24 prop7 with
              | Some _ => True | None => False end) by (vm_compute; exact I).
  destruct (gradCell hypot_sqrt 24 prop7) as [[r st']|] eqn:E; [|exact A].
  apply (gradCell_second_call_keeps_state hypot_sqrt 24 prop7 r st').
  exact E.
Defined.

(** An [int] converted to [double] is a number. *)
Lemma i2d_int z :
  - 2 ^ 31 <= z < 2 ^ 31 -> mag_le 31 (i2d z).
Proof.
  intros Hz. unfold i2d.
  apply binary_normalize_mag; try lia; unfold SpecFloat.emin; lia.
Qed.

Lemma d2i_dmul_int_zero z :
  - 2 ^ 31 <= z < 2 ^ 31 -> d2i (dmul (i2d z) (S754_zero false)) = Some 0.
Proof.
  intros Hz. pose proof (i2d_int z Hz) as M.
  destruct (i2d z) as [s|s| |s m e]; try done; by destruct s.
Qed.

Section Goal.
Variable hypot : double -> double -> double.

(** X17. Started on a cell whose potential is below [COST_NEUTRAL],
    [calcPath] returns a path of one point, the goal; the start point
    itself is not part of it. *)
Theorem calcPath_at_low_potential n x y st p :
  1 <= n -> 0 < nx st < 2 ^ 31 ->
  0 <= y * nx st + x <= nx st * ny st - 1 ->
  Z.of_nat (length (pathx st)) = npathbuf st ->
  Z.of_nat (length (pathy st)) = npathbuf st ->
  rd (potarr st) (y * nx st + x) = Some p ->
  flt p (i2f COST_NEUTRAL) = true ->
  exists st', calcPath hypot n (Some (x, y)) st = Some (1, st') /\
    npath st' = 1 /\
    rd (pathx st') 0 = Some (i2f (goal st).1) /\
    rd (pathy st') 0 = Some (i2f (goal st).2).
Proof.
  intros Hn Hnx Hr Lx Ly Hp Hlow. unfold calcPath. cbv zeta.
  destruct (calcPath_entry_fields n st) as (Ex & Ey & Es & Ep & En & Eg & _).
  assert (Hbuf : 1 <= Z.of_nat (length (pathx (calcPath_entry n st))) /\
                 1 <= Z.of_nat (length (pathy (calcPath_entry n st)))).
  { unfold calcPath_entry. destruct (Z.ltb_spec (npathbuf st) n) as [L|L]; simpl.
    - rewrite length_replicate. lia.
    - lia. }
  set (st0 := calcPath_entry n st) in *. clearbody st0. simpl fst. simpl snd. rewrite Ex.
  set (stc := y * nx st + x) in *.
  destruct (Z.to_nat n) as [|k] eqn:Hk; [lia|]. simpl.
  unfold calcPath_turn, calcPath_record. rewrite d_round_zero, d2i_zero.
  cbn [mbind option_bind].
  rewrite d2i_dmul_int_zero by lia. cbn [mbind option_bind]. cbv zeta.
  replace (Z.max 0 (Z.min (nx st0 * ny st0 - 1) (stc + 0 + 0))) with stc by lia.
  rewrite Ep, Hp. cbn [mbind option_bind]. rewrite Hlow.
  rewrite En, !wr_in_range by lia. cbn [mbind option_bind].
  eexists. split; [reflexivity|]. simpl. rewrite Eg.
  split; [done|].
  split; (apply rd_Some; split; [lia|]; apply list_lookup_insert_eq; lia).
Qed.

End Goal.

Lemma calcPath_at_low_potential_witness :
  exists st', calcPath hypot_sqrt 24 (Some (5, 5)) prop7 = Some (1, st') /\
    npath st' = 1 /\
    rd (pathx st') 0 = Some (i2f (goal prop7).1) /\
    rd (pathy st') 0 = Some (i2f (goal prop7).2).
Proof.
  apply (calcPath_at_low_potential hypot_sqrt 24 5 5 prop7 (i2f 0)).
  - lia.
  - vm_compute. split; reflexivity.
  - vm_compute. split; discriminate.
  - vm_compute. reflexivity.
  - vm_compute. reflexivity.
  - vm_compute. reflexivity.
  - vm_compute. reflexivity.
Defined.

(** The recorded points stay; the first one is the start. *)
Lemma path_prefix_refl s : path_prefix s s.
Proof. split; [lia|done]. Qed.

Lemma path_prefix_trans s1 s2 s3 :
  path_prefix s1 s2 -> path_prefix s2 s3 -> path_prefix s1 s3.
Proof.
  intros [N1 P1] [N2 P2]. split; [lia|]. intros k Hk.
  destruct (P1 k Hk) as [<- <-]. apply P2. lia.
Qed.

(** A new point is stored behind the recorded ones. *)
Lemma path_prefix_record st px py vx vy :
  wr (pathx st) (npath st) vx = Some px ->
  wr (pathy st) (npath st) vy = Some py ->
  path_prefix st (set_npath (npath st + 1) (set_pathy py (set_pathx px st))).
Proof.
  intros [Rx ->]%wr_Some [Ry ->]%wr_Some. split; [simpl; lia|].
  intros k Hk. simpl. split; apply rd_insert_ne; lia.
Qed.

Lemma calcPath_record_prefix st stc dx dy r :
  calcPath_record st stc dx dy = Some r ->
  match r with
  | RecordReturn _ st' | Recorded st' _ => path_prefix st st'
  end.
Proof.
  unfold calcPath_record. intros H.
  apply bind_Some in H as (a & _ & H). apply bind_Some in H as (b & _ & H).
  cbv zeta in H. apply bind_Some in H as (pnp & _ & H).
  destruct (flt pnp (i2f COST_NEUTRAL)).
  - apply bind_Some in H as (px & Wx & H). apply bind_Some in H as (py & Wy & H).
    injection H as <-. by apply path_prefix_record with (vx := i2f (goal st).1)
                                                     (vy := i2f (goal st).2).
  - destruct ((stc <? nx st) || (stc >? ns st - nx st)).
    { injection H as <-. apply path_prefix_refl. }
    destruct (nx st =? 0); [discriminate|].
    apply bind_Some in H as (px & Wx & H). apply bind_Some in H as (py & Wy & H).
    cbv zeta in H. apply bind_Some in H as (osc & _ & H). injection H as <-.
    by eapply path_prefix_record.
Qed.

(** What the first half of a turn stores when it goes on. *)
Lemma calcPath_record_point st stc dx dy st' osc :
  calcPath_record st stc dx dy = Some (Recorded st' osc) ->
  npath st' = npath st + 1 /\
  rd (pathx st') (npath st) = Some (fadd (i2f (Z.rem stc (nx st))) dx) /\
  rd (pathy st') (npath st) = Some (fadd (i2f (Z.quot stc (nx st))) dy).
Proof.
  unfold calcPath_record. intros H.
  apply bind_Some in H as (a & _ & H). apply bind_Some in H as (b & _ & H).
  cbv zeta in H. apply bind_Some in H as (pnp & _ & H).
  destruct (flt pnp (i2f COST_NEUTRAL)).
  { apply bind_Some in H as (px & Wx & H). apply bind_Some in H as (py & Wy & H).
    discriminate. }
  destruct ((stc <? nx st) || (stc >? ns st - nx st)); [discriminate|].
  destruct (nx st =? 0); [discriminate|].
  apply bind_Some in H as (px & Wx & H). apply bind_Some in H as (py & Wy & H).
  cbv zeta in H. apply bind_Some in H as (o & _ & H). injection H as <- <-.
  apply wr_Some in Wx as [Rx ->]. apply wr_Some in Wy as [Ry ->]. simpl.
  split; [done|].
  split; (apply rd_Some; split; [lia|]; apply list_lookup_insert_eq; lia).
Qed.

Section Prefix.
Variable hypot : double -> double -> double.

Lemma calcPath_advance_prefix st stc dx dy osc t :
  calcPath_advance hypot st stc dx dy osc = Some t ->
  match t with
  | PathReturn _ st' | PathNext st' _ _ _ =>
      npath st' = npath st /\ pathx st' = pathx st /\ pathy st' = pathy st
  end.
Proof.
  unfold calcPath_advance. intros H.
  apply bind_Some in H as (high & _ & H).
  destruct (high || osc).
  - apply bind_Some in H as (minc & _ & H). cbv zeta in H.
    apply bind_Some in H as (p & _ & H).
    destruct (at_POT_HIGH p); by injection H as <-.
  - apply bind_Some in H as ([s2 step] & D & H). apply descent_step_frame in D.
    pose proof (grad_frame_fields _ _ D) as (N2 & _ & X2 & Y2 & _).
    destruct step as [[ex ey]|].
    + destruct (carry stc 1 (fadd dx ex)) as [c1 d1].
      destruct (carry c1 (nx s2) (fadd dy ey)) as [c2 d2].
      by injection H as <-.
    + by injection H as <-.
Qed.

Lemma calcPath_turn_prefix st stc dx dy t :
  calcPath_turn hypot st stc dx dy = Some t ->
  match t with
  | PathReturn _ st' | PathNext st' _ _ _ => path_prefix st st'
  end.
Proof.
  unfold calcPath_turn. intros H.
  apply bind_Some in H as (r & R & H). apply calcPath_record_prefix in R.
  destruct r as [len s1|s1 osc]; [by injection H as <-|].
  apply calcPath_advance_prefix in H.
  destruct R as [N P].
  destruct t as [l s2|s2 c2 x2 y2]; destruct H as (E1 & E2 & E3);
    (split; [lia|]); intros k Hk; rewrite E2, E3; by apply P.
Qed.

Lemma calcPath_loop_prefix rem : forall st stc dx dy len st',
  calcPath_loop hypot rem st stc dx dy = Some (len, st') -> path_prefix st st'.
Proof.
  induction rem as [|rem IH]; intros st stc dx dy len st' H; simpl in H.
  - injection H as <- <-. apply path_prefix_refl.
  - apply bind_Some in H as (t & T & H). apply calcPath_turn_prefix in T.
    destruct t as [l s1|s1 stc1 dx1 dy1].
    + by injection H as <- <-.
    + apply IH in H. by eapply path_prefix_trans.
Qed.

(** A turn that goes on has stored the point [(stc mod nx + dx,
    stc / nx + dy)]. *)
Lemma calcPath_turn_point st stc dx dy st' stc' dx' dy' :
  calcPath_turn hypot st stc dx dy = Some (PathNext st' stc' dx' dy') ->
  npath st' = npath st + 1 /\
  rd (pathx st') (npath st) = Some (fadd (i2f (Z.rem stc (nx st))) dx) /\
  rd (pathy st') (npath st) = Some (fadd (i2f (Z.quot stc (nx st))) dy).
Proof.
  unfold calcPath_turn. intros H.
  apply bind_Some in H as (r & R & H).
  destruct r as [len s1|s1 osc]; [discriminate|].
  apply calcPath_record_point in R as (N & Px & Py).
  apply calcPath_advance_prefix in H as (E1 & E2 & E3).
  rewrite E1, E2, E3. done.
Qed.

End Prefix.

(** An [int] that is not negative converts to a [float] that is not the
    negative zero, so adding the offset 0.0 gives it back. *)
Lemma binary_round_aux_zero_sign prec emax s m e l s' :
  binary_round_aux prec emax s m e l = S754_zero s' -> s' = s.
Proof.
  unfold binary_round_aux.
  destruct (shr_fexp prec emax m e l) as [mrs e1].
  destruct (shr_fexp prec emax _ e1 loc_Exact) as [mrs2 e2].
  destruct (shr_m mrs2); [by intros [= <-]| |done].
  by destruct (e2 <=? emax - prec).
Qed.

Lemma i2f_nonneg_plus_zero z : 0 <= z -> fadd (i2f z) (i2f 0) = i2f z.
Proof.
  intros Hz. change (i2f 0) with (S754_zero false).
  assert (Hs : forall s, i2f z = S754_zero s -> s = false).
  { intros s. unfold i2f. destruct z as [|p|p]; [by intros [= <-]| |lia].
    simpl. unfold binary_round.
    destruct (shl_align p 0 _) as [mz ez].
    apply binary_round_aux_zero_sign. }
  unfold fadd. destruct (i2f z) as [s|s| |s m e]; try reflexivity.
  by rewrite (Hs s eq_refl).
Qed.

Lemma cell_rem_quot x y w :
  0 <= x < w -> 0 <= y -> Z.rem (y * w + x) w = x /\ Z.quot (y * w + x) w = y.
Proof.
  intros Hx Hy.
  rewrite Z.rem_mod_nonneg, Z.quot_div_nonneg by nia.
  split.
  - rewrite Z.add_comm, Z.mod_add by lia. apply Z.mod_small. lia.
  - rewrite Z.add_comm, Z.div_add by lia. rewrite Z.div_small by lia. lia.
Qed.

Section First.
Variable hypot : double -> double -> double.

Lemma calcPath_first n stp st len st' x y :
  match stp with Some s => s | None => start st end = (x, y) ->
  calcPath hypot n stp st = Some (len, st') ->
  0 <= x < nx st -> 0 <= y -> 2 <= len ->
  rd (pathx st') 0 = Some (i2f x) /\ rd (pathy st') 0 = Some (i2f y).
Proof.
  intros Es H Hx Hy Hlen. unfold calcPath in H. cbv zeta in H.
  destruct (calcPath_entry_fields n st) as (Ex & _ & _ & _ & N0 & _ & Est).
  assert (E : match stp with Some s => s | None => start (calcPath_entry n st) end = (x, y)).
  { destruct stp; [done|by rewrite Est]. }
  rewrite E in H. simpl fst in H. simpl snd in H. rewrite Ex in H.
  set (st0 := calcPath_entry n st) in *. clearbody st0.
  destruct (Z.to_nat n) as [|rem]; simpl in H; [injection H as <- <-; lia|].
  apply bind_Some in H as (t & T & H).
  destruct t as [l s1|s1 stc1 dx1 dy1].
  - injection H as <- <-. apply calcPath_turn_spec in T as [_ [->|(-> & _)]]; lia.
  - apply calcPath_turn_point in T as (N1 & Px & Py).
    apply calcPath_loop_prefix in H as [_ P].
    destruct (P 0) as [-> ->]; [lia|].
    rewrite N0 in Px, Py. rewrite Ex in Px, Py.
    destruct (cell_rem_quot x y (nx st) Hx Hy) as [R Q].
    rewrite R in Px. rewrite Q in Py.
    by rewrite !i2f_nonneg_plus_zero in * by lia.
Qed.

(** X18. A path of two or more points that [calcPath] returns begins at
    the point it was started from: [pathx[0]] and [pathy[0]] hold the
    coordinates of the start, with offset zero. *)
Theorem calcPath_first_point n x y st len st' :
  calcPath hypot n (Some (x, y)) st = Some (len, st') ->
  0 <= x < nx st -> 0 <= y -> 2 <= len ->
  rd (pathx st') 0 = Some (i2f x) /\ rd (pathy st') 0 = Some (i2f y).
Proof. by apply calcPath_first. Qed.

End First.

Lemma calcPath_first_point_witness :
  match calcPath hypot_sqrt 24 (Some (1, 1)) prop7 with
  | Some (len, st') =>
      rd (pathx st') 0 = Some (i2f 1) /\ rd (pathy st') 0 = Some (i2f 1)
  | None => False
  end.
Proof.
  assert (A : match calcPath hypot_sqrt 24 (Some (1, 1)) prop7 with
              | Some (len, _) => 2 <= len | None => False end)
    by (vm_compute; discriminate).
  destruct (calcPath hypot_sqrt 24 (Some (1, 1)) prop7) as [[len st']|] eqn:E;
    [|exact A].
  apply (calcPath_first_point hypot_sqrt 24 1 1 prop7 len st' E).
  - vm_compute. split; [discriminate|reflexivity].
  - lia.
  - exact A.
Defined.
(* ===================================================================== *)
(** ** The step of [calcPath] and the sub-cell offsets                   *)
(* ===================================================================== *)

(** *** Rounding to nearest: the round bit *)

Lemma iter_pos_nat {A} (f : A -> A) p : forall x,
  SpecFloat.iter_pos f p x = Nat.iter (Pos.to_nat p) f x.
Proof.
  induction p as [p IH|p IH|]; intros x; simpl SpecFloat.iter_pos.
  - rewrite !IH, Pos2Nat.inj_xI.
    replace (S (2 * Pos.to_nat p)) with (Pos.to_nat p + (Pos.to_nat p + 1))%nat by lia.
    rewrite !Nat.iter_add. done.
  - rewrite !IH, Pos2Nat.inj_xO.
    replace (2 * Pos.to_nat p)%nat with (Pos.to_nat p + Pos.to_nat p)%nat by lia.
    by rewrite Nat.iter_add.
  - done.
Qed.

Lemma shr_1_r mrs : 0 <= shr_m mrs -> shr_r (shr_1 mrs) = Z.odd (shr_m mrs).
Proof. destruct mrs as [[|[p|p|]|p] r s]; simpl; intros; try done; lia. Qed.

(** After [k+1] shifts the round bit is the bit [k] of the mantissa. *)
Lemma iter_shr_1_r k : forall mrs,
  0 <= shr_m mrs ->
  shr_m (Nat.iter (S k) shr_1 mrs) = shr_m mrs / 2 ^ Z.of_nat (S k) /\
  shr_r (Nat.iter (S k) shr_1 mrs) = Z.testbit (shr_m mrs) (Z.of_nat k).
Proof.
  induction k as [|k IH]; intros mrs Hm.
  - simpl Nat.iter. rewrite shr_1_m, shr_1_r by done. split; [done|].
    by rewrite Z.bit0_odd.
  - destruct (IH mrs Hm) as [E1 E2].
    assert (P : 0 <= shr_m (Nat.iter (S k) shr_1 mrs)).
    { rewrite E1. apply Z.div_pos; [done|]. apply Z.pow_pos_nonneg; lia. }
    change (Nat.iter (S (S k)) shr_1 mrs) with (shr_1 (Nat.iter (S k) shr_1 mrs)).
    rewrite shr_1_m, shr_1_r by done. rewrite E1. split.
    + assert (Q : 0 < 2 ^ Z.of_nat (S k)) by (apply Z.pow_pos_nonneg; lia).
      rewrite Z.div_div by lia.
      f_equal. rewrite (Nat2Z.inj_succ (S k)), Z.pow_succ_r by lia. lia.
    + rewrite <- Z.bit0_odd, <- Z.shiftr_div_pow2 by lia.
      rewrite Z.shiftr_spec by lia. f_equal; lia.
Qed.

Lemma testbit_mod_pow2 m n :
  0 <= m -> 0 < n ->
  Z.testbit m (n - 1) = true -> 2 ^ n <= 2 * (m mod 2 ^ n).
Proof.
  intros Hm Hn Hb. apply Z.testbit_true in Hb; [|lia].
  assert (P : 0 < 2 ^ (n - 1)) by (apply Z.pow_pos_nonneg; lia).
  assert (E : 2 ^ n = 2 ^ (n - 1) * 2).
  { replace n with (n - 1 + 1) at 1 by lia. rewrite Z.pow_add_r by lia. done. }
  rewrite E. rewrite Z.rem_mul_r by lia. rewrite Hb.
  pose proof (Z.mod_pos_bound m (2 ^ (n - 1)) P). lia.
Qed.

Lemma round_up_round_bit mrs :
  round_nearest_even (shr_m mrs) (loc_of_shr_record mrs) <> shr_m mrs ->
  shr_r mrs = true.
Proof. destruct mrs as [m [] []]; simpl; try done. Qed.

(** Shifting an exact mantissa right by [n]: rounding to nearest goes up
    only when the bits shifted out are at least one half. *)
Lemma shr_round_up m e n :
  0 <= m ->
  let mrs := (shr (shr_record_of_loc m loc_Exact) e n).1 in
  round_nearest_even (shr_m mrs) (loc_of_shr_record mrs) <> shr_m mrs ->
  0 < n /\ 2 ^ n <= 2 * (m mod 2 ^ n).
Proof.
  intros Hm mrs Hr. subst mrs. apply round_up_round_bit in Hr.
  destruct n as [|p|p]; simpl in Hr; try done.
  split; [lia|]. rewrite iter_pos_nat in Hr.
  destruct (Pos2Nat.is_succ p) as [k Hk]. rewrite Hk in Hr.
  destruct (iter_shr_1_r k (Build_shr_record m false false) Hm) as [_ E].
  rewrite E in Hr. simpl shr_m in Hr.
  apply testbit_mod_pow2; [done|lia|].
  replace (Z.pos p - 1) with (Z.of_nat k) by lia. done.
Qed.

(** *** Rounding with a location *)

Section Nearest.
Variables prec emax : Z.
Hypothesis prec_pos : 0 < prec.
Hypothesis prec_lt_emax : prec < emax.

Local Abbreviation emin := (emin prec emax).
Local Abbreviation fexp := (fexp prec emax).

(** The first shift of [binary_round_aux], whatever the location. *)
Lemma shr_fexp_first_loc mz ez l :
  0 < mz -> ez <= fexp (Zdigits2 mz + ez) ->
  let n := fexp (Zdigits2 mz + ez) - ez in
  let r := shr_fexp prec emax mz ez l in
  shr_m r.1 = mz / 2 ^ n /\ r.2 = fexp (Zdigits2 mz + ez) /\
  (shr_m r.1 = 0 /\ r.2 = emin \/
   0 < shr_m r.1 /\ Zdigits2 (shr_m r.1) <= prec /\
     (Zdigits2 (shr_m r.1) = prec \/ r.2 = emin)).
Proof.
  intros Hm He n r. subst r. unfold shr_fexp. fold n.
  assert (Hn : 0 <= n) by (subst n; lia).
  destruct (shr_value (shr_record_of_loc mz l) ez n) as [Hv He'].
  { rewrite shr_record_of_loc_m. lia. }
  rewrite Z.max_r in Hv, He' by done.
  rewrite shr_record_of_loc_m in Hv.
  rewrite Hv, He'. split_and!.
  - done.
  - subst n. lia.
  - pose proof (Zdigits2_pos mz Hm) as Hd.
    destruct (Z.lt_ge_cases n (Zdigits2 mz)) as [Hlt|Hge].
    + right. destruct (Zdigits2_div_pow mz n Hm) as [E P]; [lia|].
      rewrite E. split; [done|]. subst n. unfold SpecFloat.fexp in *. lia.
    + left. split; [by apply Zdigits2_small_div|].
      subst n. unfold SpecFloat.fexp in *. lia.
Qed.

(** [binary_round_aux] on a mantissa with enough digits: the result is
    the mantissa [m2] at the exponent [e1] of the format, where [m2] is
    the truncated mantissa [m1] or [m1 + 1]; from an exact location
    [m1 + 1] is taken only when the bits shifted out are at least one
    half. *)
Lemma binary_round_aux_loc s mz ez l :
  0 < mz -> ez <= fexp (Zdigits2 mz + ez) ->
  let e1 := fexp (Zdigits2 mz + ez) in
  let n := e1 - ez in
  let m1 := mz / 2 ^ n in
  exists m2,
    (m2 = m1 \/ m2 = m1 + 1) /\
    (l = loc_Exact -> m2 = m1 + 1 -> 0 < n /\ 2 ^ n <= 2 * (mz mod 2 ^ n)) /\
    (forall K, emin <= K < emax -> e1 <= K -> m2 <= 2 ^ (K - e1) ->
       valid_binary prec emax (binary_round_aux prec emax s mz ez l) = true /\
       mag_le K (binary_round_aux prec emax s mz ez l) /\
       match binary_round_aux prec emax s mz ez l with
       | S754_finite s' m3 e3 => s' = s /\ e1 <= e3 /\ Zpos m3 * 2 ^ (e3 - e1) <= m2
       | _ => True
       end).
Proof.
  intros Hm He e1 n m1.
  unfold binary_round_aux.
  destruct (shr_fexp_first_loc mz ez l Hm He) as (Hv & He1 & Hdig).
  change (shr_m (shr_fexp prec emax mz ez l).1 = m1) in Hv.
  change ((shr_fexp prec emax mz ez l).2 = e1) in He1.
  assert (Hn : 0 <= n) by (subst n e1; lia).
  assert (Hup : l = loc_Exact ->
    round_nearest_even (shr_m (shr_fexp prec emax mz ez l).1)
      (loc_of_shr_record (shr_fexp prec emax mz ez l).1) <>
    shr_m (shr_fexp prec emax mz ez l).1 ->
    0 < n /\ 2 ^ n <= 2 * (mz mod 2 ^ n)).
  { intros -> Hr. unfold shr_fexp in Hr.
    change (fexp (Zdigits2 mz + ez) - ez) with n in Hr.
    apply (shr_round_up mz ez n) in Hr; [done|lia]. }
  destruct (shr_fexp prec emax mz ez l) as [mrs' e1']. simpl in Hv, He1, Hdig, Hup.
  subst e1'.
  set (m2 := round_nearest_even (shr_m mrs') (loc_of_shr_record mrs')) in *.
  rewrite Hv in Hdig.
  assert (Hr : m2 = m1 \/ m2 = m1 + 1).
  { subst m2. rewrite <- Hv. apply round_nearest_even_cases. }
  exists m2. split; [done|]. split.
  { intros Hl E. apply (Hup Hl). rewrite Hv. lia. }
  assert (Hemin : emin <= e1) by (subst e1; unfold SpecFloat.fexp; lia).
  assert (Hm2 : m2 = 0 \/
    0 < m2 /\ ((Zdigits2 m2 <= prec /\ (Zdigits2 m2 = prec \/ e1 = emin)) \/
               Zdigits2 m2 = prec + 1)).
  { destruct Hdig as [[Z0 E0]|(P1 & D1 & C1)].
    - destruct Hr as [->| ->]; [by left|right]. rewrite Z0. simpl. lia.
    - right. destruct Hr as [->| ->]; [split; [done|by left]|].
      split; [lia|]. destruct (Zdigits2_succ m1 P1) as [->|[-> _]]; lia. }
  intros K HK B1 B2.
  destruct Hm2 as [Hz|[Hp Hd2]].
  - rewrite Hz. unfold shr_fexp. simpl Zdigits2.
    rewrite shr_nonpos by (unfold SpecFloat.fexp; lia). simpl. done.
  - destruct (shr_fexp_second prec emax prec_pos m2 e1 Hp Hemin Hd2)
      as (m3 & e3 & Hv3 & He3 & Hc3 & Hle3 & Hval3).
    destruct (shr_fexp prec emax m2 e1 loc_Exact) as [mrs'' e'']. simpl in Hv3, He3.
    rewrite Hv3, He3.
    assert (P3 : 0 < 2 ^ (e3 - e1)) by (apply Z.pow_pos_nonneg; lia).
    assert (B3 : e3 <= K).
    { destruct (Z.le_gt_cases e3 K) as [|G]; [done|exfalso].
      assert (2 ^ (K - e1) < 2 ^ (e3 - e1)) by (apply Z.pow_lt_mono_r; lia). nia. }
    assert (Esp : 2 ^ (K - e1) = 2 ^ (K - e3) * 2 ^ (e3 - e1)).
    { rewrite <- pow2_split by lia. f_equal. lia. }
    assert (B4 : Zpos m3 <= 2 ^ (K - e3)) by nia.
    assert (B5 : e3 <= emax - prec).
    { apply canonical_iff in Hc3.
      pose proof (Zdigits2_bounds (Zpos m3) ltac:(lia)) as Hb3.
      pose proof (emin_le_emax prec emax prec_pos prec_lt_emax).
      pose proof (Zdigits2_pos (Zpos m3) ltac:(lia)) as Hp3.
      assert (Zdigits2 (Zpos m3) - 1 <= K - e3) by (apply pow2_le_inv; lia).
      unfold SpecFloat.fexp in Hc3. lia. }
    apply Z.leb_le in B5. rewrite B5. simpl. split_and!; try done.
    unfold bounded. rewrite Hc3, B5. done.
Qed.

End Nearest.

(** *** Powers of two over the reals *)

Lemma pow2R_pos e : (0 < powerRZ 2 e)%R.
Proof. apply powerRZ_lt. lra. Qed.

Lemma pow2R_add a b : powerRZ 2 (a + b) = (powerRZ 2 a * powerRZ 2 b)%R.
Proof. apply powerRZ_add. lra. Qed.

Lemma pow2R_Z n : 0 <= n -> IZR (2 ^ n) = powerRZ 2 n.
Proof.
  intros Hn. rewrite <- (Z2Nat.id n) at 1 2 by done.
  rewrite <- pow_IZR. apply pow_powerRZ.
Qed.

Lemma pow2R_succ a : powerRZ 2 (a + 1) = (2 * powerRZ 2 a)%R.
Proof. rewrite pow2R_add. change (powerRZ 2 1) with (2 * 1)%R. lra. Qed.

Lemma pow2R_le a b : a <= b -> (powerRZ 2 a <= powerRZ 2 b)%R.
Proof.
  intros H. replace b with (a + (b - a)) by lia. rewrite pow2R_add.
  rewrite <- (pow2R_Z (b - a)) by lia.
  assert (1 <= 2 ^ (b - a)) by (apply Z.lt_pred_le, Z.pow_pos_nonneg; lia).
  assert (1 <= IZR (2 ^ (b - a)))%R by (by apply IZR_le).
  pose proof (pow2R_pos a). nra.
Qed.

Lemma pow2R_lt a b : a < b -> (powerRZ 2 a < powerRZ 2 b)%R.
Proof.
  intros H. pose proof (pow2R_le (a + 1) b ltac:(lia)) as L.
  rewrite pow2R_succ in L. pose proof (pow2R_pos a). lra.
Qed.

Lemma pow2R_lt_inv a b : (powerRZ 2 a < powerRZ 2 b)%R -> a < b.
Proof.
  intros H. destruct (Z.lt_ge_cases a b) as [|G]; [done|exfalso].
  pose proof (pow2R_le b a ltac:(lia)). lra.
Qed.

Lemma pow2R_le_inv a b : (powerRZ 2 a <= powerRZ 2 b)%R -> a <= b.
Proof.
  intros H. destruct (Z.le_gt_cases a b) as [|G]; [done|exfalso].
  pose proof (pow2R_lt b a ltac:(lia)). lra.
Qed.

(** The number of digits of [m] places [m * 2^e] between two powers. *)
Lemma digits_real m e :
  0 < m ->
  (powerRZ 2 (Zdigits2 m + e - 1) <= IZR m * powerRZ 2 e <
   powerRZ 2 (Zdigits2 m + e))%R.
Proof.
  intros Hm. destruct (Zdigits2_bounds m Hm) as [L U].
  pose proof (Zdigits2_pos m Hm) as P.
  apply IZR_le in L. apply IZR_lt in U.
  rewrite pow2R_Z in L, U by lia.
  replace (Zdigits2 m + e - 1) with (Zdigits2 m - 1 + e) by lia.
  rewrite !pow2R_add. pose proof (pow2R_pos e). split; nra.
Qed.

Lemma digits_real_lt m e J :
  0 < m -> (IZR m * powerRZ 2 e < powerRZ 2 J)%R -> Zdigits2 m + e <= J.
Proof.
  intros Hm H. destruct (digits_real m e Hm) as [L _].
  assert (Zdigits2 m + e - 1 < J) by (apply pow2R_lt_inv; lra). lia.
Qed.

(** *** The error of a rounding *)

Section Error.
Variables prec emax : Z.
Hypothesis prec_pos : 0 < prec.
Hypothesis prec_lt_emax : prec < emax.

Local Abbreviation emin := (emin prec emax).
Local Abbreviation fexp := (fexp prec emax).

(** [binary_round_aux] on the mantissa [mz] at exponent [ez], of value
    [t = mz * 2^ez < 2^K]: the result is a number of the format, of
    magnitude at most [2^K]; with [f <= t] the value truncated at the
    exponent [e1] of the format, the result is at most [f], or it is at
    most [f + 2^e1], which happens from an exact location only when [t]
    is at least half a unit above [f]. *)
Lemma binary_round_aux_real s mz ez l K :
  0 < mz -> ez <= fexp (Zdigits2 mz + ez) ->
  emin <= K < emax -> Zdigits2 mz + ez <= K ->
  let r := binary_round_aux prec emax s mz ez l in
  let e1 := fexp (Zdigits2 mz + ez) in
  let t := (IZR mz * powerRZ 2 ez)%R in
  valid_binary prec emax r = true /\ is_finite r /\ mag_le K r /\
  exists f : R,
    (f <= t)%R /\
    (e1 < Zdigits2 mz + ez -> (powerRZ 2 (Zdigits2 mz + ez - 1) <= f)%R) /\
    ((magR r <= f)%R \/
     (magR r <= f + powerRZ 2 e1)%R /\
     (l = loc_Exact -> (2 * f + powerRZ 2 e1 <= 2 * t)%R)).
Proof.
  intros Hm He HK Hd r e1 t.
  destruct (binary_round_aux_loc prec emax prec_pos prec_lt_emax s mz ez l Hm He)
    as (m2 & Hm2 & Hup & Hres).
  fold e1 in Hm2, Hup, Hres.
  set (n := e1 - ez) in *. set (m1 := mz / 2 ^ n) in *.
  assert (Hn : 0 <= n) by (subst n e1; lia).
  assert (P : 0 < 2 ^ n) by (apply Z.pow_pos_nonneg; lia).
  assert (He1 : e1 <= K) by (subst e1; unfold SpecFloat.fexp; lia).
  pose proof (Zdigits2_pos mz Hm) as Hdp.
  assert (M1 : 0 <= m1 /\ m1 * 2 ^ n <= mz).
  { subst m1. split; [apply Z.div_pos; lia|].
    pose proof (Z.mul_div_le mz (2 ^ n) P). lia. }
  assert (B : m1 + 1 <= 2 ^ (K - e1)).
  { destruct (Z.lt_ge_cases n (Zdigits2 mz)) as [Hlt|Hge].
    - destruct (Zdigits2_div_pow mz n Hm) as [E Q]; [lia|].
      fold m1 in E, Q. pose proof (Zdigits2_bounds m1 Q) as [_ U].
      rewrite E in U.
      assert (2 ^ (Zdigits2 mz - n) <= 2 ^ (K - e1))
        by (apply Z.pow_le_mono_r; subst n; lia). lia.
    - assert (m1 = 0) as -> by (by apply Zdigits2_small_div).
      assert (0 < 2 ^ (K - e1)) by (apply Z.pow_pos_nonneg; lia). lia. }
  destruct (Hres K HK He1) as (V & M & F); [lia|].
  fold r in V, M, F.
  split; [done|]. split; [by destruct r|]. split; [done|].
  set (p1 := powerRZ 2 e1).
  assert (Pp1 : (0 < p1)%R) by apply pow2R_pos.
  assert (Et : t = (IZR mz * / IZR (2 ^ n) * p1)%R).
  { subst t p1. replace e1 with (n + ez) at 1 by (subst n; lia).
    rewrite pow2R_add, pow2R_Z by done.
    pose proof (pow2R_pos n). field. lra. }
  assert (Pn : (0 < IZR (2 ^ n))%R) by (by apply IZR_lt).
  exists (IZR m1 * p1)%R. split_and!.
  - rewrite Et. apply Rmult_le_compat_r; [lra|].
    apply Rmult_le_reg_r with (IZR (2 ^ n)); [done|].
    rewrite Rmult_assoc, Rinv_l, Rmult_1_r by lra.
    rewrite <- mult_IZR. apply IZR_le. lia.
  - intros Hlt.
    destruct (Zdigits2_div_pow mz n Hm) as [E Q]; [subst n; lia|].
    fold m1 in E, Q. pose proof (Zdigits2_bounds m1 Q) as [L _].
    rewrite E in L. apply IZR_le in L. rewrite pow2R_Z in L by (subst n; lia).
    replace (Zdigits2 mz + ez - 1) with (Zdigits2 mz - n - 1 + e1) by (subst n; lia).
    rewrite pow2R_add. fold p1. nra.
  - assert (Rr : (magR r <= IZR m2 * p1)%R).
    { destruct r as [s'|s'| |s' m3 e3]; simpl magR.
      - apply Rmult_le_pos; [apply IZR_le; lia|lra].
      - done.
      - done.
      - destruct F as (_ & F1 & F2).
        replace e3 with (e3 - e1 + e1) by lia. rewrite pow2R_add.
        rewrite <- pow2R_Z by lia. fold p1. rewrite <- Rmult_assoc, <- mult_IZR.
        apply Rmult_le_compat_r; [lra|]. by apply IZR_le. }
    destruct Hm2 as [->| ->].
    + by left.
    + right. rewrite plus_IZR in Rr. split; [lra|].
      intros Hl. destruct (Hup Hl eq_refl) as [Hn0 Hhalf].
      rewrite Et.
      assert (Hmod : mz mod 2 ^ n = mz - m1 * 2 ^ n).
      { subst m1. pose proof (Z.div_mod mz (2 ^ n)). lia. }
      rewrite Hmod in Hhalf.
      assert (Hi : (2 * IZR m1 * IZR (2 ^ n) + IZR (2 ^ n) <= 2 * IZR mz)%R).
      { rewrite <- !mult_IZR, <- plus_IZR. apply IZR_le. lia. }
      apply Rmult_le_reg_r with (IZR (2 ^ n)); [done|].
      replace (2 * (IZR mz * / IZR (2 ^ n) * p1) * IZR (2 ^ n))%R
        with (2 * IZR mz * p1)%R by (field; lra).
      nra.
Qed.

(** The same for [binary_round], which first aligns the mantissa. *)
Lemma binary_round_real s m e K :
  emin <= K < emax -> Zdigits2 (Zpos m) + e <= K ->
  let r := binary_round prec emax s m e in
  let e1 := fexp (Zdigits2 (Zpos m) + e) in
  let t := (IZR (Zpos m) * powerRZ 2 e)%R in
  valid_binary prec emax r = true /\ is_finite r /\ mag_le K r /\
  exists f : R,
    (f <= t)%R /\
    (e1 < Zdigits2 (Zpos m) + e -> (powerRZ 2 (Zdigits2 (Zpos m) + e - 1) <= f)%R) /\
    ((magR r <= f)%R \/
     (magR r <= f + powerRZ 2 e1)%R /\ (2 * f + powerRZ 2 e1 <= 2 * t)%R).
Proof.
  intros HK Hd r e1 t. subst r. unfold binary_round.
  change (Zpos (digits2_pos m)) with (Zdigits2 (Zpos m)).
  destruct (shl_align_fexp prec emax m e) as (E2 & E1 & D & H).
  destruct (shl_align m e _) as [mz ez]. cbn [fst snd] in H, E1, E2, D.
  destruct (binary_round_aux_real s (Zpos mz) ez loc_Exact K)
    as (V & F & M & f & F1 & F2 & F3); [lia|done|done|lia|].
  rewrite D in F2, F3. fold e1 in F2, F3.
  assert (Et : (IZR (Zpos mz) * powerRZ 2 ez)%R = t).
  { subst t. rewrite E1, mult_IZR, pow2R_Z by lia.
    rewrite Rmult_assoc, <- pow2R_add. do 2 f_equal. lia. }
  rewrite Et in F1, F3.
  split; [done|]. split; [done|]. split; [done|].
  exists f. split; [done|]. split; [done|].
  destruct F3 as [F3|[F3 F4]]; [by left|right]. split; [done|by apply F4].
Qed.

End Error.

Lemma pow2R_inv a : (powerRZ 2 a * powerRZ 2 (- a) = 1)%R.
Proof. rewrite <- pow2R_add, Z.add_opp_diag_r. done. Qed.

Section Values.
Variables prec emax : Z.
Hypothesis prec_pos : 0 < prec.
Hypothesis prec_lt_emax : prec < emax.

Local Abbreviation emin := (emin prec emax).
Local Abbreviation fexp := (fexp prec emax).

(** The comparison of two positive numbers of the format is the
    comparison of their values. *)
Lemma SFleb_real m1 e1 m2 e2 :
  bounded prec emax m1 e1 = true -> bounded prec emax m2 e2 = true ->
  SFleb (S754_finite false m1 e1) (S754_finite false m2 e2) = true ->
  (IZR (Zpos m1) * powerRZ 2 e1 <= IZR (Zpos m2) * powerRZ 2 e2)%R.
Proof.
  intros H1 H2.
  apply bounded_canonical in H1 as (Hx1 & Hx2 & Hx3).
  apply bounded_canonical in H2 as (Hy1 & Hy2 & Hy3).
  unfold SFleb, SFcompare.
  pose proof (Pos2Z.inj_compare m1 m2) as Hc. unfold Pos.compare in Hc.
  rewrite Hc. clear Hc.
  destruct (Z.compare_spec e1 e2) as [E|E|E]; [| |discriminate].
  - subst e2. destruct (Z.compare_spec (Zpos m1) (Zpos m2)) as [E'|E'|E'];
      [| |discriminate]; intros _;
      (apply Rmult_le_compat_r; [apply Rlt_le, pow2R_pos|apply IZR_le; lia]).
  - intros _.
    pose proof (digits2_pos_bounds m1) as Bx. pose proof (digits2_pos_bounds m2) as By.
    rewrite Hy3 in By by lia.
    assert (Zpos m1 < 2 ^ prec).
    { eapply Z.lt_le_trans; [apply Bx|]. apply Z.pow_le_mono_r; lia. }
    assert (2 ^ 1 <= 2 ^ (e2 - e1)) by (apply Z.pow_le_mono_r; lia).
    change (2 ^ 1) with 2 in *.
    assert (2 ^ prec = 2 * 2 ^ (prec - 1)).
    { replace prec with (Z.succ (prec - 1)) at 1 by lia. rewrite Z.pow_succ_r by lia. lia. }
    assert (L : Zpos m1 <= Zpos m2 * 2 ^ (e2 - e1)) by nia.
    apply IZR_le in L. rewrite mult_IZR, pow2R_Z in L by lia.
    replace e2 with (e2 - e1 + e1) by lia. rewrite pow2R_add.
    pose proof (pow2R_pos e1). nra.
Qed.

(** The exponent of a product of two numbers of the format is not above
    the exponent the format gives to the product. *)
Lemma mul_exponent mx ex my ey :
  bounded prec emax mx ex = true -> bounded prec emax my ey = true ->
  ex + ey <= fexp (Zdigits2 (Zpos (mx * my)) + (ex + ey)).
Proof.
  intros Vx Vy.
  apply bounded_canonical in Vx as (Hx1 & Hx2 & Hx3).
  apply bounded_canonical in Vy as (Hy1 & Hy2 & Hy3).
  pose proof (digits2_pos_bounds mx) as Bx.
  pose proof (digits2_pos_bounds my) as By.
  pose proof (Zdigits2_bounds (Zpos (mx * my)) ltac:(lia)) as Bz.
  set (dx := Zpos (digits2_pos mx)) in *.
  set (dy := Zpos (digits2_pos my)) in *.
  set (D := Zdigits2 (Zpos (mx * my))) in *.
  assert (dx + dy - 2 < D).
  { assert (0 < dx) by (subst dx; lia). assert (0 < dy) by (subst dy; lia).
    assert (E : 2 ^ (dx + dy - 2) = 2 ^ (dx - 1) * 2 ^ (dy - 1)).
    { rewrite <- pow2_split by lia. f_equal. lia. }
    assert (0 < 2 ^ (dx - 1)) by (apply Z.pow_pos_nonneg; lia).
    assert (0 < 2 ^ (dy - 1)) by (apply Z.pow_pos_nonneg; lia).
    assert (2 ^ (dx + dy - 2) < 2 ^ D).
    { rewrite E. rewrite Pos2Z.inj_mul in Bz. nia. }
    destruct (Z.le_gt_cases D (dx + dy - 2)) as [L|]; [|lia].
    assert (2 ^ D <= 2 ^ (dx + dy - 2)) by (apply Z.pow_le_mono_r; lia). lia. }
  pose proof (emin_nonpos prec emax prec_pos prec_lt_emax).
  unfold SpecFloat.fexp. fold D.
  destruct (Z.eq_dec ex emin) as [Ex|Ex], (Z.eq_dec ey emin) as [Ey|Ey]; lia.
Qed.

(** The quotient of two numbers of the format, when it neither
    underflows nor exceeds [2^K]: the result is at most one unit in the
    last place of [2^K] above a lower bound [t] of the exact quotient. *)
Lemma SFdiv_real sx mx ex sy my ey K :
  bounded prec emax mx ex = true -> bounded prec emax my ey = true ->
  emin + prec <= Zdigits2 (Zpos mx) + ex - (Zdigits2 (Zpos my) + ey) ->
  emin + prec <= K + 1 < emax ->
  (IZR (Zpos mx) * powerRZ 2 ex <=
   powerRZ 2 K * (IZR (Zpos my) * powerRZ 2 ey))%R ->
  let r := SFdiv prec emax (S754_finite sx mx ex) (S754_finite sy my ey) in
  valid_binary prec emax r = true /\ is_finite r /\
  exists t : R,
    (0 <= t)%R /\
    (t * (IZR (Zpos my) * powerRZ 2 ey) <= IZR (Zpos mx) * powerRZ 2 ex)%R /\
    (magR r <= t + powerRZ 2 (K + 1 - prec))%R.
Proof.
  intros Vx Vy HE HK Hv r. subst r.
  apply bounded_canonical in Vx as (Hx1 & Hx2 & Hx3).
  apply bounded_canonical in Vy as (Hy1 & Hy2 & Hy3).
  change (Zpos (digits2_pos mx)) with (Zdigits2 (Zpos mx)) in *.
  change (Zpos (digits2_pos my)) with (Zdigits2 (Zpos my)) in *.
  pose proof (Zdigits2_bounds (Zpos mx) ltac:(lia)) as Bx.
  pose proof (Zdigits2_bounds (Zpos my) ltac:(lia)) as By.
  pose proof (Zdigits2_pos (Zpos my) ltac:(lia)) as Py.
  pose proof (Zdigits2_pos (Zpos mx) ltac:(lia)) as Px.
  unfold SFdiv, SFdiv_core_binary.
  set (d1 := Zdigits2 (Zpos mx)) in *. set (d2 := Zdigits2 (Zpos my)) in *.
  assert (Ee : Z.min (fexp (d1 + ex - (d2 + ey))) (ex - ey) = d1 + ex - (d2 + ey) - prec).
  { unfold SpecFloat.fexp. lia. }
  rewrite Ee. set (e' := d1 + ex - (d2 + ey) - prec).
  set (s := ex - ey - e').
  assert (Hs : s = prec - d1 + d2) by (subst s e'; lia).
  assert (Em : match s with
               | 0 => Zpos mx
               | Zpos _ => Z.shiftl (Zpos mx) s
               | Zneg _ => 0
               end = Zpos mx * 2 ^ s).
  { destruct s eqn:Es; try lia. rewrite Z.shiftl_mul_pow2 by lia. done. }
  rewrite Em. clear Em.
  set (m' := Zpos mx * 2 ^ s).
  assert (Ps : 0 < 2 ^ s) by (apply Z.pow_pos_nonneg; lia).
  assert (Lm : 2 ^ (prec - 1) * Zpos my <= m').
  { subst m'.
    assert (E : 2 ^ (prec - 1) * 2 ^ d2 = 2 ^ (d1 - 1) * 2 ^ s).
    { rewrite <- !Z.pow_add_r by lia. f_equal. lia. }
    assert (0 < 2 ^ (prec - 1)) by (apply Z.pow_pos_nonneg; lia). nia. }
  pose proof (Z.div_eucl_eq m' (Zpos my) ltac:(lia)) as Hq.
  pose proof (Z.mod_pos_bound m' (Zpos my) ltac:(lia)) as Hr.
  unfold Z.modulo in Hr.
  assert (Hq' : (Z.div_eucl m' (Zpos my)).1 = m' / Zpos my) by done.
  destruct (Z.div_eucl m' (Zpos my)) as [q r]. cbn [fst snd] in Hq', Hr.
  assert (Lq : 2 ^ (prec - 1) <= q).
  { rewrite Hq'. apply Z.div_le_lower_bound; lia. }
  assert (Pq : 0 < q).
  { assert (0 < 2 ^ (prec - 1)) by (apply Z.pow_pos_nonneg; lia). lia. }
  pose proof (Zdigits2_bounds q Pq) as Bq.
  assert (Dq : prec <= Zdigits2 q).
  { destruct (Z.lt_ge_cases (Zdigits2 q) prec) as [L|]; [exfalso|lia].
    assert (2 ^ Zdigits2 q <= 2 ^ (prec - 1)).
    { apply Z.pow_le_mono_r; lia. }
    lia. }
  assert (He' : e' <= fexp (Zdigits2 q + e')) by (unfold SpecFloat.fexp; lia).
  set (Y := (IZR (Zpos my) * powerRZ 2 ey)%R) in *.
  set (X := (IZR (Zpos mx) * powerRZ 2 ex)%R) in *.
  assert (PY : (0 < Y)%R).
  { subst Y. apply Rmult_lt_0_compat; [apply IZR_lt; lia|apply pow2R_pos]. }
  assert (Ht : (IZR q * powerRZ 2 e' * Y <= X)%R).
  { subst X Y.
    assert (L : q * Zpos my <= Zpos mx * 2 ^ s) by (fold m'; lia).
    apply IZR_le in L. rewrite !mult_IZR, pow2R_Z in L by lia.
    replace ex with (s + (e' + ey)) by (subst s; lia).
    rewrite !pow2R_add.
    pose proof (pow2R_pos e'). pose proof (pow2R_pos ey).
    assert (0 < powerRZ 2 e' * powerRZ 2 ey)%R by (by apply Rmult_lt_0_compat).
    apply Rmult_le_compat_r with (r := (powerRZ 2 e' * powerRZ 2 ey)%R) in L; [|lra].
    lra. }
  assert (Ht2 : (IZR q * powerRZ 2 e' <= powerRZ 2 K)%R).
  { apply Rmult_le_reg_r with Y; [done|]. lra. }
  assert (Hd : Zdigits2 q + e' <= K + 1).
  { apply digits_real_lt; [done|].
    pose proof (pow2R_lt K (K + 1) ltac:(lia)). lra. }
  destruct (binary_round_aux_real prec emax prec_pos prec_lt_emax
              (xorb sx sy) q e' (new_location (Zpos my) r) (K + 1))
    as (V & F & _ & f & F1 & _ & F3); [done|done|lia|done|].
  split; [done|]. split; [done|].
  exists (IZR q * powerRZ 2 e')%R.
  split; [apply Rmult_le_pos; [apply IZR_le; lia|apply Rlt_le, pow2R_pos]|].
  split; [done|].
  assert (powerRZ 2 (fexp (Zdigits2 q + e')) <= powerRZ 2 (K + 1 - prec))%R.
  { apply pow2R_le. unfold SpecFloat.fexp. lia. }
  pose proof (pow2R_pos (fexp (Zdigits2 q + e'))).
  destruct F3 as [F3|[F3 _]]; lra.
Qed.

End Values.

(** *** binary32 and binary64 *)

(** The promotion to [double] keeps the value. *)
Lemma f2d_real s m e :
  valid32 (S754_finite s m e) ->
  exists M E,
    f2d (S754_finite s m e) = S754_finite s M E /\
    Zdigits2 (Zpos M) + E = Zdigits2 (Zpos m) + e /\
    (IZR (Zpos M) * powerRZ 2 E = IZR (Zpos m) * powerRZ 2 e)%R.
Proof.
  intros V. destruct (f2d_finite s m e V) as (M & E1 & E2).
  apply valid32_finite in V as (He & _ & Hd & _).
  pose proof (Zdigits2_pos (Zpos m) ltac:(lia)) as Hp.
  exists M, (Zdigits2 (Zpos m) + e - 53). split; [done|]. split.
  - rewrite E2, Zdigits2_mul_pow by lia. lia.
  - rewrite E2, mult_IZR, pow2R_Z by lia.
    rewrite Rmult_assoc, <- pow2R_add. do 2 f_equal. lia.
Qed.

(** The rounding of a [double] below [2^K + 2^(K-24)] to [float] adds at
    most half a unit in the last place of the numbers below [2^K]. *)
Lemma d2f_real s m e K :
  -125 <= K <= 126 ->
  (IZR (Zpos m) * powerRZ 2 e < powerRZ 2 K + powerRZ 2 (K - 24))%R ->
  is_finite (d2f (S754_finite s m e)) /\
  (magR (d2f (S754_finite s m e)) <=
   IZR (Zpos m) * powerRZ 2 e + powerRZ 2 (K - 25))%R.
Proof.
  intros HK Ht.
  pose proof (pow2R_lt (K - 24) K ltac:(lia)) as P1.
  pose proof (pow2R_succ K) as P2.
  pose proof (pow2R_pos (K - 25)) as P3.
  assert (P4 : powerRZ 2 (K - 24) = (2 * powerRZ 2 (K - 25))%R).
  { rewrite <- pow2R_succ. f_equal. lia. }
  assert (Hd : Zdigits2 (Zpos m) + e <= K + 1).
  { apply digits_real_lt; [lia|]. lra. }
  assert (E : d2f (S754_finite s m e) = binary_round 24 128 s m e).
  { unfold d2f. by destruct s. }
  rewrite E.
  destruct (binary_round_real 24 128 ltac:(lia) ltac:(lia) s m e (K + 1))
    as (_ & F & _ & f & F1 & F2 & F3).
  { change (SpecFloat.emin 24 128) with (-149). lia. }
  { done. }
  split; [done|].
  destruct F3 as [F3|[F3 F4]]; [lra|].
  destruct (Z.eq_dec (Zdigits2 (Zpos m) + e) (K + 1)) as [D|D].
  - exfalso. rewrite D in F2, F4.
    assert (Ef : SpecFloat.fexp 24 128 (K + 1) = K - 23).
    { unfold SpecFloat.fexp. change (SpecFloat.emin 24 128) with (-149). lia. }
    rewrite Ef in F2, F4. specialize (F2 ltac:(lia)).
    replace (K + 1 - 1) with K in F2 by lia.
    assert (powerRZ 2 (K - 23) = 2 * powerRZ 2 (K - 24))%R.
    { rewrite <- pow2R_succ. f_equal. lia. }
    lra.
  - assert (powerRZ 2 (SpecFloat.fexp 24 128 (Zdigits2 (Zpos m) + e)) <=
            powerRZ 2 (K - 24))%R.
    { apply pow2R_le. unfold SpecFloat.fexp.
      change (SpecFloat.emin 24 128) with (-149). lia. }
    lra.
Qed.

(** A [float] whose value is below [1 + 2^-24] is at most 1. *)
Lemma mag_le_0_real x :
  valid32 x -> is_finite x -> (magR x < 1 + powerRZ 2 (-24))%R -> mag_le 0 x.
Proof.
  intros V F H. destruct x as [s|s| |s m e]; try done.
  apply mag_le_0_finite; [done|].
  apply valid32_finite in V as (He & Hm & Hd & Hn). cbn [magR] in H.
  assert (I23 : (powerRZ 2 23 * powerRZ 2 (-23) = 1)%R) by apply (pow2R_inv 23).
  assert (E23 : powerRZ 2 23 = 8388608%R).
  { rewrite <- pow2R_Z by lia. done. }
  rewrite E23 in I23.
  assert (E24 : (powerRZ 2 (-23) = 2 * powerRZ 2 (-24))%R).
  { rewrite <- pow2R_succ. done. }
  pose proof (pow2R_pos (-24)) as P24.
  destruct (Z.lt_trichotomy e (-23)) as [L|[E|G]]; [by left|right|exfalso].
  - split; [done|]. subst e.
    assert (IZR (Zpos m) < IZR 8388609)%R; [|apply lt_IZR in H0; lia].
    replace (IZR 8388609) with (8388608 + 1)%R by (rewrite <- plus_IZR; done).
    pose proof (pow2R_pos (-23)) as P23.
    destruct (Rlt_or_le (IZR (Zpos m)) (8388608 + 1)) as [|G]; [done|exfalso].
    apply Rmult_le_compat_r with (r := powerRZ 2 (-23)) in G; [|lra].
    lra.
  - destruct Hn as [_ Hn]; [lia|]. apply IZR_le in Hn.
    pose proof (pow2R_le (-22) e ltac:(lia)) as L.
    assert (E22 : (powerRZ 2 (-22) = 2 * powerRZ 2 (-23))%R).
    { rewrite <- pow2R_succ. done. }
    pose proof (pow2R_pos (-23)) as P23. pose proof (pow2R_pos e) as Pe.
    assert (8388608 * powerRZ 2 (-22) <= IZR (Zpos m) * powerRZ 2 e)%R.
    { apply Rmult_le_compat; lra. }
    lra.
Qed.

(** A product of two [float]s whose exact value is below [1 + 2^-24]
    rounds to at most 1. *)
Lemma fmul_near_one x y :
  valid32 x -> valid32 y -> is_finite x -> is_finite y ->
  (magR x * magR y < 1 + powerRZ 2 (-24))%R -> mag_le 0 (fmul x y).
Proof.
  intros Vx Vy Fx Fy H.
  destruct x as [sx|sx| |sx mx ex], y as [sy|sy| |sy my ey]; try done.
  unfold fmul, SFmul. cbn [magR] in H.
  pose proof (mul_exponent 24 128 ltac:(lia) ltac:(lia) mx ex my ey Vx Vy) as He.
  set (mz := Zpos (mx * my)) in *. set (ez := ex + ey) in *.
  assert (Et : (IZR mz * powerRZ 2 ez)%R =
               (IZR (Zpos mx) * powerRZ 2 ex * (IZR (Zpos my) * powerRZ 2 ey))%R).
  { subst mz ez. rewrite Pos2Z.inj_mul, mult_IZR, pow2R_add. ring. }
  rewrite <- Et in H.
  assert (E24 : (powerRZ 2 (-23) = 2 * powerRZ 2 (-24))%R).
  { rewrite <- pow2R_succ. done. }
  pose proof (pow2R_pos (-24)) as P24.
  assert (I24 : (powerRZ 2 (-24) < 1)%R).
  { change 1%R with (powerRZ 2 0). apply pow2R_lt. lia. }
  assert (Hd : Zdigits2 mz + ez <= 1).
  { apply digits_real_lt; [done|]. change (powerRZ 2 1) with (2 * 1)%R. lra. }
  destruct (Z.eq_dec (Zdigits2 mz + ez) 1) as [D|D].
  - destruct (binary_round_aux_real 24 128 ltac:(lia) ltac:(lia)
                (xorb sx sy) mz ez loc_Exact 1)
      as (V & F & _ & f & F1 & F2 & F3); [done|done|done|lia|].
    apply mag_le_0_real; [done|done|].
    rewrite D in F2, F3.
    change (SpecFloat.fexp 24 128 1) with (-23) in F2, F3.
    specialize (F2 ltac:(lia)). change (powerRZ 2 (1 - 1)) with 1%R in F2.
    destruct F3 as [F3|[F3 F4]]; [lra|].
    specialize (F4 eq_refl). lra.
  - destruct (binary_round_aux_real 24 128 ltac:(lia) ltac:(lia)
                (xorb sx sy) mz ez loc_Exact 0)
      as (_ & _ & M & _); [done|done|done|lia|]. done.
Qed.

(** *** The step of the gradient descent *)

Lemma dpow2_real k :
  (IZR (Zpos 4503599627370496) * powerRZ 2 (k - 52) = powerRZ 2 k)%R.
Proof.
  change (Zpos 4503599627370496) with (2 ^ 52). rewrite pow2R_Z by lia.
  rewrite <- pow2R_add. f_equal. lia.
Qed.

Lemma pow2R_neg k : 0 <= k -> powerRZ 2 (- k) = (/ IZR (2 ^ k))%R.
Proof.
  intros Hk. rewrite pow2R_Z by done.
  pose proof (pow2R_inv k). pose proof (pow2R_pos k).
  apply Rmult_eq_reg_l with (powerRZ 2 k); [|lra].
  rewrite Rinv_r by lra. done.
Qed.

(** A norm between [2^-126] and [2^125] is a positive finite number. *)
Lemma norm_finite h :
  valid_binary 53 1024 h = true ->
  fle (dpow2 (-126)) h = true -> fle h (dpow2 125) = true ->
  exists mh eh,
    h = S754_finite false mh eh /\ bounded 53 1024 mh eh = true /\
    (powerRZ 2 (-126) <= IZR (Zpos mh) * powerRZ 2 eh <= powerRZ 2 125)%R.
Proof.
  intros V L U. unfold fle, dpow2 in L, U.
  destruct h as [sh|sh| |sh mh eh]; try discriminate.
  { by destruct sh. }
  destruct sh; [discriminate|].
  exists mh, eh. split; [done|]. split; [done|].
  rewrite <- (dpow2_real (-126)), <- (dpow2_real 125).
  split; apply (SFleb_real 53 1024); try done; lia.
Qed.

(** [0 <= p <= 1] for a [float] [p]. *)
Lemma unit_step_real p :
  valid32 p -> fle (i2f 0) p = true -> fle p (i2f 1) = true ->
  (exists s, p = S754_zero s) \/
  exists mp ep, p = S754_finite false mp ep /\
    (IZR (Zpos mp) * powerRZ 2 ep <= 1)%R.
Proof.
  intros V L U. change (i2f 0) with (S754_zero false) in L.
  rewrite i2f_1 in U. unfold fle in L, U.
  destruct p as [s|s| |s mp ep]; try discriminate.
  - left. by exists s.
  - by destruct s.
  - destruct s; [discriminate|]. right. exists mp, ep. split; [done|].
    apply (SFleb_real 24 128) in U; [|lia|done|done].
    assert (E : (IZR (Zpos 8388608) * powerRZ 2 (-23))%R = 1%R).
    { change (Zpos 8388608) with (2 ^ 23). rewrite pow2R_Z by lia.
      apply (pow2R_inv 23). }
    by rewrite E in U.
Qed.

(** The scale [ss = pathStep/h] as the code computes it, for
    [0 <= pathStep <= 1] and a norm [h] with [pathStep/h <= 2^K]: a
    finite [float], at most [2^(K-52) + 2^(K-25)] above a lower bound
    [t] of the exact quotient. *)
Lemma scale_real p mh eh K :
  valid32 p -> fle (i2f 0) p = true -> fle p (i2f 1) = true ->
  bounded 53 1024 mh eh = true ->
  (IZR (Zpos mh) * powerRZ 2 eh <= powerRZ 2 125)%R ->
  -125 <= K <= 126 ->
  (1 <= powerRZ 2 K * (IZR (Zpos mh) * powerRZ 2 eh))%R ->
  let ss := d2f (ddiv (f2d p) (S754_finite false mh eh)) in
  is_finite ss /\
  exists t : R,
    (0 <= t)%R /\ (t * (IZR (Zpos mh) * powerRZ 2 eh) <= 1)%R /\
    (magR ss <= t + powerRZ 2 (K - 52) + powerRZ 2 (K - 25))%R.
Proof.
  intros Vp Lp Up Vh Uh HK Hv ss. subst ss.
  set (Y := (IZR (Zpos mh) * powerRZ 2 eh)%R) in *.
  assert (PY : (0 < Y)%R).
  { subst Y. apply Rmult_lt_0_compat; [apply IZR_lt; lia|apply pow2R_pos]. }
  pose proof (pow2R_pos (K - 52)) as P52. pose proof (pow2R_pos (K - 25)) as P25.
  destruct (unit_step_real p Vp Lp Up) as [[s ->]|(mp & ep & -> & Hp)].
  { split; [done|]. exists 0%R. simpl. lra. }
  destruct (f2d_real false mp ep Vp) as (M & E & Ef & Ed & Er).
  pose proof (f2d_valid (S754_finite false mp ep)) as Vd.
  rewrite Ef in Vd |- *. simpl in Vd.
  apply valid32_finite in Vp as (Hep & _ & _ & _).
  pose proof (Zdigits2_pos (Zpos mp) ltac:(lia)) as Dp.
  assert (Dh : Zdigits2 (Zpos mh) + eh <= 126).
  { apply digits_real_lt; [lia|]. fold Y.
    pose proof (pow2R_lt 125 126 ltac:(lia)). lra. }
  destruct (SFdiv_real 53 1024 ltac:(lia) ltac:(lia) false M E false mh eh K)
    as (VQ & FQ & t & T0 & T1 & T2); try done.
  { change (SpecFloat.emin 53 1024) with (-1074). lia. }
  { change (SpecFloat.emin 53 1024) with (-1074). lia. }
  { rewrite Er. fold Y. lra. }
  fold Y in T1. rewrite Er in T1.
  unfold ddiv. set (Q := SFdiv 53 1024 _ _) in *.
  replace (K + 1 - 53) with (K - 52) in T2 by lia.
  assert (Tk : (t <= powerRZ 2 K)%R).
  { apply Rmult_le_reg_r with Y; [done|]. lra. }
  assert (L52 : (powerRZ 2 (K - 52) < powerRZ 2 (K - 24))%R) by (apply pow2R_lt; lia).
  destruct Q as [sQ|sQ| |sQ mQ eQ]; try done.
  { split; [done|]. exists t. simpl. split; [done|]. split; lra. }
  cbn [magR] in T2.
  destruct (d2f_real sQ mQ eQ K HK) as [Fs Ms]; [lra|].
  split; [done|]. exists t. split; [done|]. split; lra.
Qed.

(** One component of the step: for [0 <= pathStep <= 1] and a norm [h]
    that is at least [|x|], with [2^-126 <= h <= 2^125], the product
    [x * ss] with [ss = pathStep/h] is at most 1 in magnitude.  The
    exact product is below [1 + 2^-24], the three roundings included,
    and so rounds to at most 1. *)
Lemma step_component x p h :
  valid32 x -> valid32 p ->
  fle (i2f 0) p = true -> fle p (i2f 1) = true ->
  valid_binary 53 1024 h = true ->
  fle (dabs (f2d x)) h = true ->
  fle (dpow2 (-126)) h = true -> fle h (dpow2 125) = true ->
  mag_le 0 (fmul x (d2f (ddiv (f2d p) h))).
Proof.
  intros Vx Vp Lp Up Vh Hx Lh Uh.
  destruct (norm_finite h Vh Lh Uh) as (mh & eh & -> & Bh & Lr & Ur).
  set (Y := (IZR (Zpos mh) * powerRZ 2 eh)%R) in *.
  pose proof (d2f_valid (ddiv (f2d p) (S754_finite false mh eh))) as Vs.
  destruct x as [sx|sx| |sx mx ex]; try discriminate.
  - destruct (scale_real p mh eh 126) as [F _]; try done.
    { pose proof (pow2R_inv 126) as I.
      pose proof (pow2R_pos 126). change (- (126)) with (-126) in I.
      fold Y. nra. }
    unfold fmul, SFmul.
    by destruct (d2f (ddiv (f2d p) (S754_finite false mh eh))).
  - destruct (f2d_real sx mx ex Vx) as (M & E & Ef & _ & Er).
    pose proof (f2d_valid (S754_finite sx mx ex)) as Vd.
    rewrite Ef in Vd, Hx. simpl in Vd. unfold dabs, fle in Hx. simpl SFabs in Hx.
    apply (SFleb_real 53 1024) in Hx; [|lia|done|done].
    rewrite Er in Hx. fold Y in Hx.
    set (X := (IZR (Zpos mx) * powerRZ 2 ex)%R) in *.
    pose proof (valid32_finite sx mx ex Vx) as (Hex & Hmx & _ & Hn).
    assert (Mx : (IZR (Zpos mx) <= 16777215)%R) by (apply IZR_le; lia).
    assert (Px : (0 < IZR (Zpos mx))%R) by (apply IZR_lt; lia).
    pose proof (pow2R_pos ex) as Pex.
    remember (- ex - 23) as K eqn:EK.
    assert (E23 : (powerRZ 2 K * powerRZ 2 ex = powerRZ 2 (-23))%R).
    { rewrite <- pow2R_add. f_equal. lia. }
    assert (I23 : (8388608 * powerRZ 2 (-23) = 1)%R).
    { change 8388608%R with (IZR (2 ^ 23)). rewrite pow2R_Z by lia.
      apply (pow2R_inv 23). }
    assert (Hv : (1 <= powerRZ 2 K * Y)%R /\ ex <= 102).
    { destruct (Z.eq_dec ex (-149)) as [->|Ne].
      - split; [|lia]. assert (K = 126) as -> by lia.
        pose proof (pow2R_inv 126) as I. change (- (126)) with (-126) in I.
        pose proof (pow2R_pos 126). nra.
      - destruct Hn as [_ Hn]; [lia|]. apply IZR_le in Hn.
        pose proof (pow2R_pos K) as PK. split.
        + assert (powerRZ 2 K * X <= powerRZ 2 K * Y)%R
            by (apply Rmult_le_compat_l; lra).
          assert (powerRZ 2 K * X = IZR (Zpos mx) * powerRZ 2 (-23))%R.
          { subst X. rewrite <- E23. ring. }
          pose proof (pow2R_pos (-23)). nra.
        + assert (powerRZ 2 (23 + ex) <= powerRZ 2 125)%R.
          { rewrite pow2R_add, <- pow2R_Z by lia.
            change (IZR (2 ^ 23)) with 8388608%R.
            assert (8388608 * powerRZ 2 ex <= X)%R
              by (subst X; apply Rmult_le_compat_r; lra).
            lra. }
          apply pow2R_le_inv in H. lia. }
    destruct Hv as [Hv Hex2].
    destruct (scale_real p mh eh K) as (F & t & T0 & T1 & T2); try done.
    { lia. }
    fold Y in T1.
    apply fmul_near_one; try done.
    cbn [magR]. fold X.
    set (Sv := magR (d2f (ddiv (f2d p) (S754_finite false mh eh)))) in *.
    assert (PX : (0 < X)%R) by (subst X; by apply Rmult_lt_0_compat).
    assert (W1 : (X * Sv <= X * (t + powerRZ 2 (K - 52) + powerRZ 2 (K - 25)))%R)
      by (apply Rmult_le_compat_l; lra).
    assert (W2 : (X * t <= 1)%R).
    { assert (X * t <= Y * t)%R by (apply Rmult_le_compat_r; lra). lra. }
    assert (C75 : (X * powerRZ 2 (K - 52) = IZR (Zpos mx) * powerRZ 2 (-75))%R).
    { subst X. rewrite Rmult_assoc, <- pow2R_add. do 2 f_equal. lia. }
    assert (C48 : (X * powerRZ 2 (K - 25) = IZR (Zpos mx) * powerRZ 2 (-48))%R).
    { subst X. rewrite Rmult_assoc, <- pow2R_add. do 2 f_equal. lia. }
    assert (N75 : powerRZ 2 (-75) = (/ 37778931862957161709568)%R)
      by (apply (pow2R_neg 75); lia).
    assert (N48 : powerRZ 2 (-48) = (/ 281474976710656)%R)
      by (apply (pow2R_neg 48); lia).
    assert (N24 : powerRZ 2 (-24) = (/ 16777216)%R)
      by (apply (pow2R_neg 24); lia).
    rewrite N75 in C75. rewrite N48 in C48. rewrite N24.
    lra.
Qed.

Section Step.
Variable hypot : double -> double -> double.

(** The step [(x*ss, y*ss)] has both components within [-1, 1]. *)
Lemma path_step_unit x y st :
  valid32 x -> valid32 y -> valid32 (pathStep st) ->
  fle (i2f 0) (pathStep st) = true -> fle (pathStep st) (i2f 1) = true ->
  norm_ok x y (hypot (f2d x) (f2d y)) ->
  in_unit (path_step hypot x y st).1 /\ in_unit (path_step hypot x y st).2.
Proof.
  intros Vx Vy Vp Lp Up (Vh & Hx & Hy & Lh & Uh). unfold path_step. cbn [fst snd].
  split; (apply in_unit_mag_le; [apply fmul_valid; [done|apply d2f_valid]|]);
    by apply step_component.
Qed.

End Step.

Lemma path_frame_pathStep s s' : path_frame s s' -> pathStep s' = pathStep s.
Proof. by intros (gx & gy & px & py & nb & np & -> & _). Qed.

Section Offsets.
Variable hypot : double -> double -> double.

(** The step of a gradient-descent turn is [path_step] at the gradient
    the turn interpolates, with the [pathStep] the turn started with. *)
Lemma turn_step_gradient st stc dx dy ex ey :
  turn_step hypot st stc dx dy = Some (ex, ey) ->
  exists x y s2,
    turn_gradient hypot st stc dx dy = Some (x, y) /\
    valid32 x /\ valid32 y /\ pathStep s2 = pathStep st /\
    (ex, ey) = path_step hypot x y s2.
Proof.
  unfold turn_step, turn_gradient. intros H.
  destruct (calcPath_record st stc dx dy) as [[len s1|s1 osc]|] eqn:R;
    try discriminate.
  cbn [mbind option_bind] in H |- *.
  apply calcPath_record_spec in R as (F1 & _).
  destruct (near_POT_HIGH s1 stc) as [high|]; [|discriminate].
  cbn [mbind option_bind] in H |- *.
  destruct (high || osc); [discriminate|].
  apply bind_Some in H as ([s2' step] & D & H). subst step.
  unfold descent_step in D.
  apply bind_Some in D as (s2 & G & D).
  apply bind_Some in D as ([x y] & P & D).
  rewrite G. cbn [mbind option_bind].
  destruct (path_gradient_valid _ _ _ _ _ _ P) as [Vx Vy].
  destruct (feq (f2d x) dzero && feq (f2d y) dzero); [discriminate|].
  exists x, y, s2. split; [done|]. split; [done|]. split; [done|].
  split; [|congruence].
  apply four_gradCells_frame, grad_frame_path_frame in G.
  rewrite (path_frame_pathStep _ _ G). by apply path_frame_pathStep.
Qed.

Lemma calcPath_at_frame i : forall st stc dx dy sti stci dxi dyi,
  calcPath_at hypot i st stc dx dy = Some (sti, stci, dxi, dyi) ->
  path_frame st sti.
Proof.
  induction i as [|i IH]; intros st stc dx dy sti stci dxi dyi E.
  - injection E as <- _ _ _. apply path_frame_refl.
  - cbn [calcPath_at] in E.
    destruct (calcPath_turn hypot st stc dx dy) as [[len s'|s' stc' dx' dy']|] eqn:T;
      cbn [mbind option_bind] in E; try discriminate.
    apply calcPath_turn_spec in T as [T _]. apply IH in E.
    by eapply path_frame_trans.
Qed.


End Offsets.


(** Without the lower bound on the norm the offsets are not bounded,
    whatever [pathStep] in [0, 1]: with [pathStep = 0.5] and the gradient
    [(2^-149, 0)] stored at the four cells around the start, the norm is
    [2^-149], the scale [0.5/2^-149 = 2^148] overflows [float], the step
    is (inf, NaN), and the second turn starts with [dx = inf]. *)
Lemma calcPath_offsets_faint_gradient :
  fle (i2f 0) (pathStep enter7_faint) = true /\
  fle (pathStep enter7_faint) (i2f 1) = true /\
  turn_gradient hypot_sqrt enter7_faint 16 (i2f 0) (i2f 0) =
    Some (faint, S754_zero false) /\
  hypot_sqrt (f2d faint) (f2d (S754_zero false)) = dpow2 (-149) /\
  match calcPath_at hypot_sqrt 1 enter7_faint 16 (i2f 0) (i2f 0) with
  | Some (_, _, dx, dy) => dx = S754_infinity false /\ ~ in_unit dx /\ ~ in_unit dy
  | None => False
  end.
Proof.
  vm_compute. split; [reflexivity|]. split; [reflexivity|].
  split; [reflexivity|]. split; [reflexivity|]. split; [reflexivity|].
  split; intros [? ?]; discriminate.
Qed.

(** Nor without the upper bound: with [pathStep = 1] the first turn from
    cell 16 adds the step (1, 0) and leaves [dx = 1]; the second turn
    interpolates the gradient [(steep, 0)], whose norm is [steep], above
    [2^127]; the scale [1/steep] is subnormal in [float], the step is
    [1 + 2^-22], and after the carry the third turn starts at cell 17
    with [dx = 1 + 2^-22]. *)
Lemma calcPath_offsets_steep_gradient :
  pathStep enter7_steep = i2f 1 /\
  match calcPath_at hypot_sqrt 1 enter7_steep 16 (i2f 0) (i2f 0) with
  | Some (s, stc, dx, dy) =>
      stc = 16 /\ dx = i2f 1 /\
      turn_gradient hypot_sqrt s stc dx dy = Some (steep, S754_zero false)
  | None => False
  end /\
  hypot_sqrt (f2d steep) (f2d (S754_zero false)) = f2d steep /\
  fle (dpow2 127) (f2d steep) = true /\
  path_step hypot_sqrt steep (S754_zero false) enter7_steep =
    (S754_finite false 8388610 (-23), S754_zero false) /\
  match calcPath_at hypot_sqrt 2 enter7_steep 16 (i2f 0) (i2f 0) with
  | Some (_, stc, dx, _) => stc = 17 /\ flt (i2f 1) dx = true /\ ~ in_unit dx
  | None => False
  end.
Proof.
  vm_compute. split; [reflexivity|]. split; [repeat split; reflexivity|].
  split; [reflexivity|]. split; [reflexivity|]. split; [reflexivity|].
  split; [reflexivity|]. split; [reflexivity|]. intros [_ ?]. discriminate.
Qed.
(* ===================================================================== *)
(** ** The two entry points                                              *)
(* ===================================================================== *)

Section Calls.
Variable hypot : double -> double -> double.

(** X19. [calcNavFnDijkstra] on a well-formed planner with goal (and
    start, when that stops the propagation) in the grid: the costs of
    the cells off the border are as before, and when it returns true the
    path has between 1 and [nx*ny/2] points, its last point is the goal
    and, when it has two points or more and the start is in the grid,
    its first point is the start. *)
Theorem calcNavFnDijkstra_contract atStart st b st' :
  wf st -> in_grid st (goal st).1 (goal st).2 ->
  (atStart = true -> in_grid st (start st).1 (start st).2) ->
  calcNavFnDijkstra hypot atStart st = Some (b, st') ->
  (forall n, interior st n -> rd (costarr st') n = rd (costarr st) n) /\
  (b = true ->
   1 <= npath st' <= Z.quot (nx st * ny st) 2 /\
   rd (pathx st') (npath st' - 1) = Some (i2f (goal st).1) /\
   rd (pathy st') (npath st' - 1) = Some (i2f (goal st).2) /\
   (2 <= npath st' -> in_grid st (start st).1 (start st).2 ->
    rd (pathx st') 0 = Some (i2f (start st).1) /\
    rd (pathy st') 0 = Some (i2f (start st).2))).
Proof.
  intros W Hg Hs H. unfold calcNavFnDijkstra in H.
  apply bind_Some in H as (s1 & E1 & H).
  apply bind_Some in H as ([r s2] & E2 & H).
  apply bind_Some in H as ([len s3] & E3 & H). injection H as <- <-.
  destruct (setupNavFn_safe true st W Hg) as (s1' & E & S1 & Ex & Ey & _ & Eg & Es).
  rewrite E1 in E. injection E as <-.
  destruct (propNavFnDijkstra_safe (prop_cycles s1) atStart s1 S1) as (r' & s2' & E & S2 & G2).
  { intros Ha. unfold in_grid. rewrite Es, Ex, Ey. by apply Hs. }
  rewrite E2 in E. injection E as <- <-.
  destruct G2 as (Ex2 & Ey2 & _ & Ec2 & Eg2 & Es2 & _).
  pose proof (calcPath_frame hypot _ _ _ _ _ E3)
    as (gx & gy & px & py & nb & np & E & _).
  assert (Ec3 : costarr s3 = costarr s2) by (by rewrite E).
  split.
  - intros n Hn. rewrite Ec3, Ec2.
    by rewrite (setupNavFn_costs true st s1 n W E1 Hn).
  - intros Hb. pose proof E3 as E3'.
    apply calcPath_result in E3 as [->|(L & N & Px & Py)]; [discriminate|].
    rewrite Ex2, Ey2, Ex, Ey in L. rewrite Eg2, Eg in Px, Py. rewrite N.
    split; [done|]. split; [done|]. split; [done|].
    intros H2 [Hx Hy].
    assert (Est : start s2 = ((start st).1, (start st).2)).
    { rewrite Es2, Es. apply surjective_pairing. }
    apply (calcPath_first hypot _ None s2 len s3 _ _ Est E3');
      [rewrite Ex2, Ex; lia|lia|lia].
Qed.

(** X20. [calcNavFnAstar] on a well-formed planner with goal and start in
    the grid: the costs of the cells off the border are as before, the
    cost it reports is the potential of the start cell, and when it
    returns true the path has between 1 and [4*nx] points, its last
    point is the goal and, when it has two points or more, its first
    point is the start. *)
Theorem calcNavFnAstar_contract st b cost st' :
  wf st -> in_grid st (goal st).1 (goal st).2 ->
  in_grid st (start st).1 (start st).2 ->
  calcNavFnAstar hypot st = Some (b, cost, st') ->
  (forall n, interior st n -> rd (costarr st') n = rd (costarr st) n) /\
  rd (potarr st') (cell st (start st).1 (start st).2) = Some cost /\
  (b = true ->
   1 <= npath st' <= nx st * 4 /\
   rd (pathx st') (npath st' - 1) = Some (i2f (goal st).1) /\
   rd (pathy st') (npath st' - 1) = Some (i2f (goal st).2) /\
   (2 <= npath st' ->
    rd (pathx st') 0 = Some (i2f (start st).1) /\
    rd (pathy st') 0 = Some (i2f (start st).2))).
Proof.
  intros W Hg Hs H. unfold calcNavFnAstar in H.
  apply bind_Some in H as (s1 & E1 & H).
  apply bind_Some in H as ([[r lpc] s2] & E2 & H).
  apply bind_Some in H as ([len s3] & E3 & H). injection H as <- <- <-.
  destruct (propNavFnAstar_after_setup hypot true (prop_cycles s1) st W Hg Hs)
    as (s1' & r' & c' & s2' & E & E' & _ & Hc & _).
  rewrite E1 in E. injection E as <-. rewrite E2 in E'. injection E' as <- <- <-.
  destruct (setupNavFn_safe true st W Hg) as (s1' & E & S1 & Ex & Ey & _ & Eg & Es).
  rewrite E1 in E. injection E as <-.
  destruct (propNavFnAstar_safe hypot (prop_cycles s1) s1 S1) as (r' & c' & s2' & E & S2 & G2).
  { unfold in_grid. by rewrite Es, Ex, Ey. }
  rewrite E2 in E. injection E as <- <- <-.
  destruct G2 as (Ex2 & Ey2 & _ & Ec2 & Eg2 & Es2 & _).
  pose proof (calcPath_frame hypot _ _ _ _ _ E3)
    as (gx & gy & px & py & nb & np & E & _).
  assert (Ec3 : costarr s3 = costarr s2) by (by rewrite E).
  assert (Ep3 : potarr s3 = potarr s2) by (by rewrite E).
  split; [|split].
  - intros n Hn. rewrite Ec3, Ec2.
    by rewrite (setupNavFn_costs true st s1 n W E1 Hn).
  - by rewrite Ep3.
  - intros Hb. pose proof E3 as E3'.
    apply calcPath_result in E3 as [->|(L & N & Px & Py)]; [discriminate|].
    rewrite Ex2, Ex in L. rewrite Eg2, Eg in Px, Py. rewrite N.
    split; [done|]. split; [done|]. split; [done|].
    intros H2. destruct Hs as [Hx Hy].
    assert (Est : start s2 = ((start st).1, (start st).2)).
    { rewrite Es2, Es. apply surjective_pairing. }
    apply (calcPath_first hypot _ None s2 len s3 _ _ Est E3');
      [rewrite Ex2, Ex; lia|lia|lia].
Qed.

(** A start cell off the first and the last row. *)
Lemma start_cell_rows st :
  wf st -> in_grid st (start st).1 (start st).2 ->
  0 < (start st).2 < ny st - 1 ->
  nx st <= (start st).2 * nx st + (start st).1 <= ns st - nx st /\
  2 <= nx st * ny st.
Proof. intros [Hnx Hny Hns _ _ _ _ _ _ _ _ _ _ _] [Hx Hy] Hrow. nia. Qed.

(** X21. When the propagation of [calcNavFnDijkstra] leaves the start
    cell, a cell off the first and the last row, at [POT_HIGH] (there is
    no way to the goal), the call has no defined result: [calcPath]
    converts that potential to [int]. *)
Theorem calcNavFnDijkstra_unreached_start atStart st s1 r s2 :
  wf st -> in_grid st (goal st).1 (goal st).2 ->
  in_grid st (start st).1 (start st).2 -> 0 < (start st).2 < ny st - 1 ->
  setupNavFn true st = Some s1 ->
  propNavFnDijkstra (prop_cycles s1) atStart s1 = Some (r, s2) ->
  rd (potarr s2) (cell st (start st).1 (start st).2) = Some POT_HIGH_f ->
  calcNavFnDijkstra hypot atStart st = None.
Proof.
  intros W Hg Hs Hrow E1 E2 Hp.
  destruct (start_cell_rows st W Hs Hrow) as [Hc Hn].
  destruct (setupNavFn_safe true st W Hg) as (s1' & E & S1 & Ex & Ey & Ens & _ & Es).
  rewrite E1 in E. injection E as <-.
  destruct (propNavFnDijkstra_safe (prop_cycles s1) atStart s1 S1) as (r' & s2' & E & S2 & G2).
  { intros _. unfold in_grid. by rewrite Es, Ex, Ey. }
  rewrite E2 in E. injection E as <- <-.
  destruct G2 as (Ex2 & Ey2 & Ens2 & _ & _ & Es2 & _).
  unfold calcNavFnDijkstra. rewrite E1. cbn [mbind option_bind]. rewrite E2.
  cbn [mbind option_bind].
  rewrite (calcPath_unreached hypot _ None s2 (start st).1 (start st).2); [done|..].
  - rewrite Es2, Es. apply surjective_pairing.
  - apply S2.
  - rewrite Ex2, Ey2, Ex, Ey. apply Z.quot_le_lower_bound; lia.
  - rewrite Ex2, Ens2, Ex, Ens. exact Hc.
  - rewrite Ex2, Ex. exact Hp.
Qed.

(** X22. When the propagation of [calcNavFnAstar] leaves the start cell,
    a cell off the first and the last row, at [POT_HIGH], the call has
    no defined result: [calcPath] converts that potential to [int]. *)
Theorem calcNavFnAstar_unreached_start st s1 r cost s2 :
  wf st -> in_grid st (goal st).1 (goal st).2 ->
  in_grid st (start st).1 (start st).2 -> 0 < (start st).2 < ny st - 1 ->
  setupNavFn true st = Some s1 ->
  propNavFnAstar hypot (prop_cycles s1) s1 = Some (r, cost, s2) ->
  rd (potarr s2) (cell st (start st).1 (start st).2) = Some POT_HIGH_f ->
  calcNavFnAstar hypot st = None.
Proof.
  intros W Hg Hs Hrow E1 E2 Hp.
  destruct (start_cell_rows st W Hs Hrow) as [Hc Hn].
  destruct (setupNavFn_safe true st W Hg) as (s1' & E & S1 & Ex & Ey & Ens & _ & Es).
  rewrite E1 in E. injection E as <-.
  destruct (propNavFnAstar_safe hypot (prop_cycles s1) s1 S1) as (r' & c' & s2' & E & S2 & G2).
  { unfold in_grid. by rewrite Es, Ex, Ey. }
  rewrite E2 in E. injection E as <- <- <-.
  destruct G2 as (Ex2 & Ey2 & Ens2 & _ & _ & Es2 & _).
  unfold calcNavFnAstar. rewrite E1. cbn [mbind option_bind]. rewrite E2.
  cbn [mbind option_bind].
  rewrite (calcPath_unreached hypot _ None s2 (start st).1 (start st).2); [done|..].
  - rewrite Es2, Es. apply surjective_pairing.
  - apply S2.
  - rewrite Ex2, Ex. destruct Hs. lia.
  - rewrite Ex2, Ens2, Ex, Ens. exact Hc.
  - rewrite Ex2, Ex. exact Hp.
Qed.

End Calls.

Lemma calcNavFnDijkstra_contract_witness :
  match calcNavFnDijkstra hypot_sqrt true open7 with
  | Some (b, st') =>
      (forall n, interior open7 n -> rd (costarr st') n = rd (costarr open7) n) /\
      (b = true ->
       1 <= npath st' <= Z.quot (nx open7 * ny open7) 2 /\
       rd (pathx st') (npath st' - 1) = Some (i2f (goal open7).1) /\
       rd (pathy st') (npath st' - 1) = Some (i2f (goal open7).2) /\
       (2 <= npath st' -> in_grid open7 (start open7).1 (start open7).2 ->
        rd (pathx st') 0 = Some (i2f (start open7).1) /\
        rd (pathy st') 0 = Some (i2f (start open7).2)))
  | None => False
  end.
Proof.
  assert (A : match calcNavFnDijkstra hypot_sqrt true open7 with
              | Some _ => True | None => False end) by (vm_compute; exact I).
  destruct (calcNavFnDijkstra hypot_sqrt true open7) as [[b st']|] eqn:E; [|exact A].
  apply (calcNavFnDijkstra_contract hypot_sqrt true open7 b st').
  - exact open7_wf.
  - exact open7_goal_in_grid.
  - intros _. exact open7_start_in_grid.
  - exact E.
Defined.

Lemma calcNavFnAstar_contract_witness :
  match calcNavFnAstar hypot_sqrt open7 with
  | Some (b, cost, st') =>
      (forall n, interior open7 n -> rd (costarr st') n = rd (costarr open7) n) /\
      rd (potarr st') (cell open7 (start open7).1 (start open7).2) = Some cost /\
      (b = true ->
       1 <= npath st' <= nx open7 * 4 /\
       rd (pathx st') (npath st' - 1) = Some (i2f (goal open7).1) /\
       rd (pathy st') (npath st' - 1) = Some (i2f (goal open7).2) /\
       (2 <= npath st' ->
        rd (pathx st') 0 = Some (i2f (start open7).1) /\
        rd (pathy st') 0 = Some (i2f (start open7).2)))
  | None => False
  end.
Proof.
  assert (A : match calcNavFnAstar hypot_sqrt open7 with
              | Some _ => True | None => False end) by (vm_compute; exact I).
  destruct (calcNavFnAstar hypot_sqrt open7) as [[[b cost] st']|] eqn:E; [|exact A].
  apply (calcNavFnAstar_contract hypot_sqrt open7 b cost st').
  - exact open7_wf.
  - exact open7_goal_in_grid.
  - exact open7_start_in_grid.
  - exact E.
Defined.

Lemma walled5_wf : wf walled5.
Proof. apply planner_wf; [lia|lia|]. vm_compute. reflexivity. Qed.

Lemma walled5_goal_in_grid : in_grid walled5 (goal walled5).1 (goal walled5).2.
Proof. unfold in_grid. simpl. lia. Qed.

Lemma walled5_start_in_grid : in_grid walled5 (start walled5).1 (start walled5).2.
Proof. unfold in_grid. simpl. lia. Qed.

Lemma setup_walled5 : setupNavFn true walled5 = Some (after_setup walled5).
Proof. vm_compute. reflexivity. Qed.

Lemma dijkstra_walled5 :
  propNavFnDijkstra (prop_cycles (after_setup walled5)) true (after_setup walled5) =
  Some (true, after_dijkstra 10 true (after_setup walled5)).
Proof. vm_compute. reflexivity. Qed.

Lemma calcNavFnDijkstra_unreached_start_witness :
  calcNavFnDijkstra hypot_sqrt true walled5 = None.
Proof.
  apply (calcNavFnDijkstra_unreached_start hypot_sqrt true walled5
           (after_setup walled5) true (after_dijkstra 10 true (after_setup walled5))).
  - exact walled5_wf.
  - exact walled5_goal_in_grid.
  - exact walled5_start_in_grid.
  - simpl. lia.
  - exact setup_walled5.
  - exact dijkstra_walled5.
  - vm_compute. reflexivity.
Defined.

Lemma astar_walled5 :
  propNavFnAstar hypot_sqrt (prop_cycles (after_setup walled5)) (after_setup walled5) =
  Some (false, POT_HIGH_f, after_astar 10 (after_setup walled5)).
Proof. vm_compute. reflexivity. Qed.

Lemma calcNavFnAstar_unreached_start_witness :
  calcNavFnAstar hypot_sqrt walled5 = None.
Proof.
  apply (calcNavFnAstar_unreached_start hypot_sqrt walled5
           (after_setup walled5) false POT_HIGH_f
           (after_astar 10 (after_setup walled5))).
  - exact walled5_wf.
  - exact walled5_goal_in_grid.
  - exact walled5_start_in_grid.
  - simpl. lia.
  - exact setup_walled5.
  - exact astar_walled5.
  - vm_compute. reflexivity.
Defined.
